(** * Mirror cache and UV vertex maps of [editmesh_utils.c]

    A shallow embedding of the mirror-cache API
    ([EDBM_verts_mirror_cache_begin_ex], [EDBM_verts_mirror_cache_begin],
    [EDBM_verts_mirror_get], [EDBM_verts_mirror_get_edge],
    [EDBM_verts_mirror_get_face], [EDBM_verts_mirror_cache_clear],
    [EDBM_verts_mirror_cache_end], [EDBM_verts_mirror_apply]), of the UV
    vertex maps ([BM_uv_vert_map_create], [BM_uv_vert_map_at_index],
    [BM_uv_element_map_create], [BM_uv_element_get]) and of the element
    indices ([EDBM_elem_to_index_any], [EDBM_elem_from_index_any] and their
    [_multi] variants) of [source/blender/editors/mesh/editmesh_utils.c].

    Conventions of the embedding:
    - a [BMVert *], [BMEdge *] or [BMFace *] is the index of the element in
      the mesh (the code keeps [BM_elem_index_get] in step with the iteration
      order through [BM_mesh_elem_index_ensure]); [NULL] is [None];
    - C [float] is an abstract type [F] with the operations the code uses
      (class [FloatOps]); every theorem holds for all interpretations, and
      the concrete runs use exact rationals;
    - [int] values are [Z]; header flags are bit masks tested with [Z.land];
    - a singly linked chain threaded through [next] is the list of the
      arena indices it visits. *)

From Stdlib Require Import ZArith QArith Qabs Lia.
From stdpp Require Import base list option strings sets relations.

Local Open Scope Z_scope.
Local Open Scope nat_scope.

(** ** Floats and header constants *)

(** The float operations and the header constants the code relies on and
    whose definitions are not part of [editmesh_utils.c]. *)
Class FloatOps (F : Type) := {
  f_zero : F;                         (* 0.0f *)
  f_neg_one : F;                      (* -1.0f *)
  f_add : F → F → F;
  f_sub : F → F → F;
  f_mul : F → F → F;
  f_abs : F → F;                      (* fabsf *)
  f_lt : F → F → bool;                (* a < b *)
  cross_poly_v2 : list (list F) → F;  (* signed area of a 2D polygon *)
  STD_UV_CONNECT_LIMIT : F;
  BM_ELEM_SELECT : Z;                 (* header flag bits (bmesh_class.h) *)
  BM_ELEM_HIDDEN : Z;
}.

(** ** The mesh *)

Section Mesh.
Context {F : Type} `{FloatOps F}.

Record BMVert := {
  v_co : list F;          (* float co[3] *)
  v_hflag : Z;            (* head.hflag *)
}.

Record BMEdge := {
  e_v1 : nat;
  e_v2 : nat;
}.

Record BMLoop := {
  l_v : nat;              (* l->v, as a vertex index *)
  l_uv : list F;          (* MLoopUV.uv, float[2] *)
  l_uv_select : bool;     (* what uvedit_uv_select_test(scene, l, ...) answers *)
}.

Record BMFace := {
  f_hflag : Z;
  f_loops : list BMLoop;  (* BM_LOOPS_OF_FACE, in cyclic order *)
}.

(** [vdata] holds the CD_PROP_INT32 layers of the vertices, one named
    column per layer, a column having one slot per vertex. *)
Record BMesh := {
  verts : list BMVert;
  edges : list BMEdge;
  faces : list BMFace;
  vtable : bool;                       (* bm->vtable != NULL *)
  vdata : list (string * list Z);
}.

Record BMEditMesh := {
  bm : BMesh;
  mirror_cdlayer : Z;
}.

Definition totvert (m : BMesh) : Z := Z.of_nat (length (verts m)).

(** [BM_elem_flag_test]: the masked header flag, as the [char] it returns. *)
Definition BM_elem_flag_test (hflag : Z) (flag : Z) : Z := Z.land hflag flag.

(** A C condition on a flag test. *)
Definition flag_set (hflag flag : Z) : bool :=
  negb (BM_elem_flag_test hflag flag =? 0)%Z.

(** ** Mirror cache *)

(** [CustomData_bmesh_get_layer_n(&bm->vdata, v->head.data, n)]: the slot of
    vertex [v] in layer [n], [NULL] when there is no such layer.  What is
    returned here is the [int] the pointer refers to. *)
Definition CustomData_bmesh_get_layer_n (m : BMesh) (v : nat) (n : Z) : option Z :=
  if (n <? 0)%Z then None
  else match vdata m !! Z.to_nat n with
       | Some layer => layer.2 !! v
       | None => None
       end.

(** The body of [EDBM_verts_mirror_get] once the slot pointer [mirr] has
    been fetched. *)
Definition mirror_get_slot (m : BMesh) (mirr : option Z) : option nat :=
  match mirr with
  | Some i =>
      if (0 <=? i)%Z && (i <? totvert m)%Z then
        if vtable m then Some (Z.to_nat i)   (* em->bm->vtable[*mirr] *)
        else None                            (* "err: should only be called between ..." *)
      else None
  | None => None
  end.

Definition EDBM_verts_mirror_get (em : BMEditMesh) (v : nat) : option nat :=
  mirror_get_slot (bm em) (CustomData_bmesh_get_layer_n (bm em) v (mirror_cdlayer em)).

(** Modelled from the spec: [BM_edge_exists] is not part of this file; per
    the spec it answers the edge between the two given vertices, if the mesh
    has one. *)
Definition edge_joins (a b : nat) (e : BMEdge) : bool :=
  (Nat.eqb (e_v1 e) a && Nat.eqb (e_v2 e) b) || (Nat.eqb (e_v1 e) b && Nat.eqb (e_v2 e) a).

Fixpoint find_index {A} (p : A → bool) (l : list A) : option nat :=
  match l with
  | [] => None
  | x :: r => if p x then Some 0 else S <$> find_index p r
  end.

Definition BM_edge_exists (m : BMesh) (a b : nat) : option nat :=
  find_index (edge_joins a b) (edges m).

(** Modelled from the spec: [BM_face_exists] is not part of this file; per
    the spec it answers a face whose vertex cycle is exactly the given one,
    cyclic order preserved (the cycle may start at any corner). *)
Definition face_verts (f : BMFace) : list nat := l_v <$> f_loops f.

Definition same_cycle (varr cyc : list nat) : bool :=
  Nat.eqb (length varr) (length cyc) &&
  existsb (λ k, bool_decide (rotate k cyc = varr)) (seq 0 (length cyc)).

Definition BM_face_exists (m : BMesh) (varr : list nat) : option nat :=
  find_index (λ f, same_cycle varr (face_verts f)) (faces m).

Definition EDBM_verts_mirror_get_edge (em : BMEditMesh) (e : BMEdge) : option nat :=
  match EDBM_verts_mirror_get em (e_v1 e) with
  | Some v1_mirr =>
      match EDBM_verts_mirror_get em (e_v2 e) with
      | Some v2_mirr => BM_edge_exists (bm em) v1_mirr v2_mirr
      | None => None
      end
  | None => None
  end.

(** The [do ... while] over the corners of [f]: fills [v_mirr_arr] and
    leaves with [NULL] at the first corner without a mirror. *)
Fixpoint mirror_verts (em : BMEditMesh) (vs : list nat) : option (list nat) :=
  match vs with
  | [] => Some []
  | v :: r =>
      match EDBM_verts_mirror_get em v with
      | None => None
      | Some v_mirr => (v_mirr ::.) <$> mirror_verts em r
      end
  end.

Definition EDBM_verts_mirror_get_face (em : BMEditMesh) (f : BMFace) : option nat :=
  match mirror_verts em (face_verts f) with
  | None => None
  | Some v_mirr_arr => BM_face_exists (bm em) v_mirr_arr
  end.

(** [co[k] *= -1.0f] *)
Definition negate_axis (k : nat) (co : list F) : list F :=
  alter (λ c, f_mul c f_neg_one) k co.

Definition set_vert_co (m : BMesh) (i : nat) (co : list F) : BMesh :=
  {| verts := alter (λ v, {| v_co := co; v_hflag := v_hflag v |}) i (verts m);
     edges := edges m; faces := faces m; vtable := vtable m; vdata := vdata m |}.

Definition vert_flag (m : BMesh) (i : nat) (flag : Z) : Z :=
  match verts m !! i with
  | Some v => BM_elem_flag_test (v_hflag v) flag
  | None => 0%Z
  end.

(** One round of the [BM_ITER_MESH] loop of [EDBM_verts_mirror_apply]. *)
Definition mirror_apply_vert (sel_from sel_to : Z) (em : BMEditMesh) (i : nat) : BMEditMesh :=
  match verts (bm em) !! i with
  | None => em
  | Some v =>
      if (BM_elem_flag_test (v_hflag v) BM_ELEM_SELECT =? sel_from)%Z then
        match EDBM_verts_mirror_get em i with
        | Some mirr =>
            if (vert_flag (bm em) mirr BM_ELEM_SELECT =? sel_to)%Z then
              {| bm := set_vert_co (bm em) mirr (negate_axis 0 (v_co v));
                 mirror_cdlayer := mirror_cdlayer em |}
            else em
        | None => em
        end
      else em
  end.

Definition EDBM_verts_mirror_apply (em : BMEditMesh) (sel_from sel_to : Z) : BMEditMesh :=
  foldl (mirror_apply_vert sel_from sel_to) em (seq 0 (length (verts (bm em)))).

(** *** Building the cache *)

(** Modelled from the spec: [len_squared_v3v3] and [square_f] belong to the
    math library, not to this file; per the spec they are the squared
    distance of two points and the square of a number. *)
Definition square_f (a : F) : F := f_mul a a.

Fixpoint len_squared (a b : list F) : F :=
  match a, b with
  | x :: a', y :: b' => f_add (square_f (f_sub x y)) (len_squared a' b')
  | _, _ => f_zero
  end.

Definition len_squared_v3v3 (a b : list F) : F := len_squared a b.

(** Modelled from the spec: the kd-tree ([BLI_kdtree_3d_*]) is not part of
    this file; per the spec it is a nearest-neighbour lookup over the
    inserted points, answering the index given at insertion or "none" ([-1],
    only for a tree without points).  The tree is the list of inserted
    nodes; among equally near nodes the earliest inserted one is answered. *)
Definition KDTree_3d : Type := list (nat * list F).

Definition BLI_kdtree_3d_insert (tree : KDTree_3d) (index : nat) (co : list F) : KDTree_3d :=
  tree ++ [(index, co)].

Fixpoint kdtree_nearest_from (co : list F) (best : nat) (best_dist : F)
    (nodes : KDTree_3d) : nat :=
  match nodes with
  | [] => best
  | (i, p) :: rest =>
      let d := len_squared_v3v3 co p in
      if f_lt d best_dist then kdtree_nearest_from co i d rest
      else kdtree_nearest_from co best best_dist rest
  end.

Definition BLI_kdtree_3d_find_nearest (tree : KDTree_3d) (co : list F) : Z :=
  match tree with
  | [] => (-1)%Z
  | (i, p) :: rest => Z.of_nat (kdtree_nearest_from co i (len_squared_v3v3 co p) rest)
  end.

(** The first [BM_ITER_MESH_INDEX] loop of the spatial branch: every vertex
    that is not skipped as hidden goes into the tree under its index. *)
Fixpoint mirror_tree_fill (respecthide : bool) (i : nat) (vs : list BMVert)
    (tree : KDTree_3d) : KDTree_3d :=
  match vs with
  | [] => tree
  | v :: rest =>
      if respecthide && flag_set (v_hflag v) BM_ELEM_HIDDEN
      then mirror_tree_fill respecthide (S i) rest tree
      else mirror_tree_fill respecthide (S i) rest (BLI_kdtree_3d_insert tree i (v_co v))
  end.

(** [cache_mirr_intptr_as_bmvert]: an entry of the topology store is [-1] or
    a vertex (here its index). *)
Definition cache_mirr_intptr_as_bmvert (index_lookup : list Z) (index : nat) : option nat :=
  match index_lookup !! index with
  | Some eve_i => if (eve_i =? -1)%Z then None else Some (Z.to_nat eve_i)
  | None => None
  end.

(** What the mirror search of one vertex finds ([v_mirr] just before the
    final [if]).  [index_lookup] is what [ED_mesh_mirrtopo_init] left in the
    topology store; [tree] is the balanced kd-tree. *)
Definition mirror_find (m : BMesh) (axis : nat) (respecthide use_topology : bool)
    (maxdist_sq : F) (index_lookup : list Z) (tree : KDTree_3d)
    (i : nat) (v : BMVert) : option nat :=
  if use_topology then
    match cache_mirr_intptr_as_bmvert index_lookup i with
    | Some v_mirr =>
        if respecthide && negb (vert_flag m v_mirr BM_ELEM_HIDDEN =? 0)%Z
        then None else Some v_mirr
    | None => None
    end
  else
    let co := negate_axis axis (v_co v) in
    let i_mirr := BLI_kdtree_3d_find_nearest tree co in
    if (i_mirr =? -1)%Z then None
    else
      match verts m !! Z.to_nat i_mirr with       (* BM_vert_at_index *)
      | Some v_test =>
          if f_lt (len_squared_v3v3 co (v_co v_test)) maxdist_sq
          then Some (Z.to_nat i_mirr) else None
      | None => None
      end.

(** One round of the second [BM_ITER_MESH_INDEX] loop.  [table] is what
    [VERT_INTPTR] addresses: [r_index], or the slots of the mirror layer. *)
Definition mirror_cache_vert (m : BMesh) (axis : nat)
    (use_self use_select respecthide use_topology : bool)
    (maxdist_sq : F) (index_lookup : list Z) (tree : KDTree_3d)
    (table : list Z) (i : nat) : list Z :=
  match verts m !! i with
  | None => table
  | Some v =>
      if respecthide && flag_set (v_hflag v) BM_ELEM_HIDDEN then table
      else if use_select && negb (flag_set (v_hflag v) BM_ELEM_SELECT) then table
      else
        match mirror_find m axis respecthide use_topology maxdist_sq index_lookup tree i v with
        | Some v_mirr =>
            if use_self || negb (Nat.eqb v_mirr i) then
              <[v_mirr := Z.of_nat i]> (<[i := Z.of_nat v_mirr]> table)
            else <[i := (-1)%Z]> table
        | None => <[i := (-1)%Z]> table
        end
  end.

(** The table the two loops leave behind, from the one they find. *)
Definition mirror_cache_table (m : BMesh) (axis : nat)
    (use_self use_select respecthide use_topology : bool)
    (maxdist : F) (index_lookup : list Z) (table : list Z) : list Z :=
  let tree := if use_topology then [] else mirror_tree_fill respecthide 0 (verts m) [] in
  foldl (mirror_cache_vert m axis use_self use_select respecthide use_topology
           (square_f maxdist) index_lookup tree)
        table (seq 0 (length (verts m))).

Definition BM_CD_LAYER_ID : string := "__mirror_index".

(** [CustomData_get_named_layer_index]: the layer of that name, or [-1]. *)
Definition CustomData_get_named_layer_index (m : BMesh) (name : string) : Z :=
  match find_index (λ layer, bool_decide (layer.1 = name)) (vdata m) with
  | Some n => Z.of_nat n
  | None => (-1)%Z
  end.

(** [BM_data_layer_add_named]: a new layer at the end, its slots zeroed. *)
Definition BM_data_layer_add_named (m : BMesh) (name : string) : BMesh :=
  {| verts := verts m; edges := edges m; faces := faces m; vtable := vtable m;
     vdata := vdata m ++ [(name, replicate (length (verts m)) 0%Z)] |}.

Definition set_layer (m : BMesh) (n : nat) (table : list Z) : BMesh :=
  {| verts := verts m; edges := edges m; faces := faces m; vtable := vtable m;
     vdata := alter (λ layer, (layer.1, table)) n (vdata m) |}.

Definition layer_slots (m : BMesh) (n : nat) : list Z :=
  match vdata m !! n with Some layer => layer.2 | None => [] end.

(** [BM_mesh_elem_table_ensure(bm, BM_VERT)] *)
Definition BM_mesh_elem_table_ensure (m : BMesh) : BMesh :=
  {| verts := verts m; edges := edges m; faces := faces m; vtable := true;
     vdata := vdata m |}.

(** [EDBM_verts_mirror_cache_begin_ex].  With [r_index = NULL] the table is
    the mirror layer of the mesh (found by name, or added), and
    [em->mirror_cdlayer] is set; otherwise it is the caller's array, which
    is returned next to the edit-mesh. *)
Definition EDBM_verts_mirror_cache_begin_ex (em : BMEditMesh) (axis : nat)
    (use_self use_select respecthide use_topology : bool) (maxdist : F)
    (index_lookup : list Z) (r_index : option (list Z))
    : BMEditMesh * option (list Z) :=
  let m := BM_mesh_elem_table_ensure (bm em) in
  match r_index with
  | None =>
      let m1 := if (CustomData_get_named_layer_index m BM_CD_LAYER_ID =? -1)%Z
                then BM_data_layer_add_named m BM_CD_LAYER_ID else m in
      let cdlayer := CustomData_get_named_layer_index m1 BM_CD_LAYER_ID in
      let table := mirror_cache_table m1 axis use_self use_select respecthide
                     use_topology maxdist index_lookup (layer_slots m1 (Z.to_nat cdlayer)) in
      ({| bm := set_layer m1 (Z.to_nat cdlayer) table; mirror_cdlayer := cdlayer |}, None)
  | Some idx =>
      ({| bm := m; mirror_cdlayer := mirror_cdlayer em |},
       Some (mirror_cache_table m axis use_self use_select respecthide
               use_topology maxdist index_lookup idx))
  end.

(** [BM_SEARCH_MAXDIST_MIRR] is a float literal ([0.00002f]); it is passed
    in as [maxdist_mirr]. *)
Definition EDBM_verts_mirror_cache_begin (em : BMEditMesh) (axis : nat)
    (use_self use_select respecthide use_topology : bool)
    (maxdist_mirr : F) (index_lookup : list Z) : BMEditMesh :=
  (EDBM_verts_mirror_cache_begin_ex em axis use_self use_select respecthide
     use_topology maxdist_mirr index_lookup None).1.

Definition EDBM_verts_mirror_cache_clear (em : BMEditMesh) (v : nat) : BMEditMesh :=
  match CustomData_bmesh_get_layer_n (bm em) v (mirror_cdlayer em) with
  | Some _ =>
      let n := Z.to_nat (mirror_cdlayer em) in
      {| bm := set_layer (bm em) n (<[v := (-1)%Z]> (layer_slots (bm em) n));
         mirror_cdlayer := mirror_cdlayer em |}
  | None => em
  end.

Definition EDBM_verts_mirror_cache_end (em : BMEditMesh) : BMEditMesh :=
  {| bm := bm em; mirror_cdlayer := (-1)%Z |}.

(** ** UV vertex map *)

(** An element of [UvVertMap.buf]; [next] is implicit in the chain that
    holds the element. *)
Record UvMapVert := {
  poly_index : nat;
  loop_of_poly_index : nat;
  separate : bool;
}.

(** [vert[a]] is the chain of vertex [a]: the indices into [buf] reached
    from [vmap->vert[a]] through [next]. *)
Record UvVertMap := {
  vmap_vert : list (list nat);
  vmap_buf : list UvMapVert;
}.

(** The C condition [(use_select == false) || BM_elem_flag_test(efa, BM_ELEM_SELECT)]. *)
Definition face_eligible (use_select : bool) (f : BMFace) : bool :=
  negb use_select || flag_set (f_hflag f) BM_ELEM_SELECT.

(** The counting loop: [totuv += efa->len] over the eligible faces. *)
Fixpoint vert_map_totuv (use_select : bool) (fs : list BMFace) : nat :=
  match fs with
  | [] => 0
  | f :: rest =>
      (if face_eligible use_select f then length (f_loops f) else 0)
      + vert_map_totuv use_select rest
  end.

(** The [BM_ITER_ELEM_INDEX] loop over the corners of face [a], from corner
    [i] on: [*buf] is filled and pushed on the chain of its vertex. *)
Fixpoint vert_map_loops (a i : nat) (ls : list BMLoop)
    (vert : list (list nat)) (buf : list UvMapVert) : list (list nat) * list UvMapVert :=
  match ls with
  | [] => (vert, buf)
  | l :: rest =>
      vert_map_loops a (S i) rest
        (alter (λ chain, length buf :: chain) (l_v l) vert)
        (buf ++ [{| poly_index := a; loop_of_poly_index := i; separate := false |}])
  end.

(** [winding[a] = cross_poly_v2(tf_uv, efa->len) > 0] *)
Definition winding_of (tf_uv : list (list F)) : bool := f_lt f_zero (cross_poly_v2 tf_uv).

Fixpoint vert_map_faces (use_select use_winding : bool) (a : nat) (fs : list BMFace)
    (vert : list (list nat)) (buf : list UvMapVert) (winding : list bool)
    : list (list nat) * list UvMapVert * list bool :=
  match fs with
  | [] => (vert, buf, winding)
  | f :: rest =>
      if face_eligible use_select f then
        let '(vert1, buf1) := vert_map_loops a 0 (f_loops f) vert buf in
        let winding1 := if use_winding
                        then <[a := winding_of (l_uv <$> f_loops f)]> winding
                        else winding in
        vert_map_faces use_select use_winding (S a) rest vert1 buf1 winding1
      else vert_map_faces use_select use_winding (S a) rest vert buf winding
  end.

(** Modelled from the spec: [compare_v2v2] belongs to the math library; per
    the spec two UVs are within the limit when they differ by strictly less
    than it on both axes. *)
Definition compare_v2v2 (v1 v2 : list F) (limit : F) : bool :=
  match v1, v2 with
  | [x1; y1], [x2; y2] =>
      f_lt (f_abs (f_sub x1 x2)) limit && f_lt (f_abs (f_sub y1 y2)) limit
  | _, _ => false
  end.

(** [BM_iter_at_index(bm, BM_LOOPS_OF_FACE, BM_face_at_index(bm, f), i)] *)
Definition loop_at (m : BMesh) (f i : nat) : option BMLoop :=
  match faces m !! f with
  | Some efa => f_loops efa !! i
  | None => None
  end.

Definition loop_uv (m : BMesh) (f i : nat) : list F :=
  match loop_at m f i with Some l => l_uv l | None => [] end.

Definition winding_at (winding : list bool) (f : nat) : bool :=
  default false (winding !! f).

(** *** The merge pass, shared by both maps

    [conn buf v iterv] is the test that moves [iterv] next to the popped
    head [v]; [set_sep] sets the [separate] field of an element. *)
Section Merge.
Context {B : Type} (conn : list B → nat → nat → bool) (set_sep : B → B).

(** The inner [while (iterv)]: returns [newvlist] and what is left of
    [vlist] once the connected elements are unlinked. *)
Fixpoint uv_merge_scan (buf : list B) (v : nat) (iterv newvlist : list nat)
    : list nat * list nat :=
  match iterv with
  | [] => (newvlist, [])
  | e :: next =>
      if conn buf v e then uv_merge_scan buf v next (e :: newvlist)
      else
        let '(newvlist1, vlist1) := uv_merge_scan buf v next newvlist in
        (newvlist1, e :: vlist1)
  end.

(** The outer [while (vlist)]; a chain of [n] elements needs [n] rounds. *)
Fixpoint uv_sort_chain (fuel : nat) (buf : list B) (vlist newvlist : list nat)
    : list B * list nat :=
  match fuel with
  | 0 => (buf, newvlist)
  | S fuel1 =>
      match vlist with
      | [] => (buf, newvlist)
      | v :: vlist1 =>
          let '(newvlist1, vlist2) := uv_merge_scan buf v vlist1 (v :: newvlist) in
          let buf1 := match newvlist1 with
                      | e :: _ => alter set_sep e buf      (* newvlist->separate = 1 *)
                      | [] => buf
                      end in
          uv_sort_chain fuel1 buf1 vlist2 newvlist1
      end
  end.

(** One round of "sort individual uvs for each vert". *)
Definition uv_sort_vert (st : list (list nat) * list B) (a : nat) : list (list nat) * list B :=
  let vlist := default [] (st.1 !! a) in
  let '(buf1, newvlist) := uv_sort_chain (length vlist) st.2 vlist [] in
  (<[a := newvlist]> st.1, buf1).

Definition uv_sort_verts (totverts : nat) (vert : list (list nat)) (buf : list B)
    : list (list nat) * list B :=
  foldl uv_sort_vert (vert, buf) (seq 0 totverts).

End Merge.

Definition vert_map_connected (m : BMesh) (use_winding : bool) (winding : list bool)
    (buf : list UvMapVert) (v iterv : nat) : bool :=
  match buf !! v, buf !! iterv with
  | Some ev, Some ei =>
      compare_v2v2 (loop_uv m (poly_index ei) (loop_of_poly_index ei))
                   (loop_uv m (poly_index ev) (loop_of_poly_index ev))
                   STD_UV_CONNECT_LIMIT
      && (negb use_winding
          || eqb (winding_at winding (poly_index ei)) (winding_at winding (poly_index ev)))
  | _, _ => false
  end.

Definition vert_set_separate (e : UvMapVert) : UvMapVert :=
  {| poly_index := poly_index e; loop_of_poly_index := loop_of_poly_index e;
     separate := true |}.

(** [BM_uv_vert_map_create]; [None] is the [NULL] result.  Allocation is
    taken to succeed. *)
Definition BM_uv_vert_map_create (m : BMesh) (use_select use_winding : bool)
    : option UvVertMap :=
  let totfaces := length (faces m) in
  let totverts := length (verts m) in
  let totuv := vert_map_totuv use_select (faces m) in
  if Nat.eqb totuv 0 then None
  else
    let '(vert, buf, winding) :=
      vert_map_faces use_select use_winding 0 (faces m)
        (replicate totverts []) [] (replicate totfaces false) in
    let '(vert1, buf1) :=
      uv_sort_verts (vert_map_connected m use_winding winding) vert_set_separate
        totverts vert buf in
    Some {| vmap_vert := vert1; vmap_buf := buf1 |}.

Definition BM_uv_vert_map_at_index (vmap : UvVertMap) (v : nat) : list nat :=
  default [] (vmap_vert vmap !! v).

(** ** UV element map *)

(** Modelled from the spec: [INVALID_ISLAND] comes from a header; per the
    spec it is the "unassigned" sentinel, apart from every island id (which
    are non-negative). *)
Definition INVALID_ISLAND : Z := (-1)%Z.

(** An element of [UvElementMap.buf].  The corner [l] is the pair of the
    index of its face ([l->f]) and its position among the corners of that
    face; [next] is implicit in the chain that holds the element. *)
Record UvElement := {
  ue_l : nat * nat;
  ue_loop_of_poly_index : nat;
  ue_separate : bool;
  ue_island : Z;
}.

Record UvElementMap := {
  em_vert : list (list nat);
  em_buf : list UvElement;
  totalUVs : nat;
  totalIslands : nat;
  islandIndices : list nat;
}.

(** [uv_selected && !uvedit_uv_select_test(scene, l, cd_loop_uv_offset)] *)
Definition uv_corner_skipped (uv_selected : bool) (l : BMLoop) : bool :=
  uv_selected && negb (l_uv_select l).

Fixpoint count_uv_selected (ls : list BMLoop) : nat :=
  match ls with
  | [] => 0
  | l :: rest => (if l_uv_select l then 1 else 0) + count_uv_selected rest
  end.

Fixpoint element_map_totuv (face_selected uv_selected : bool) (fs : list BMFace) : nat :=
  match fs with
  | [] => 0
  | f :: rest =>
      (if face_eligible face_selected f then
         if uv_selected then count_uv_selected (f_loops f) else length (f_loops f)
       else 0)
      + element_map_totuv face_selected uv_selected rest
  end.

Fixpoint element_map_loops (uv_selected : bool) (j i : nat) (ls : list BMLoop)
    (vert : list (list nat)) (buf : list UvElement) : list (list nat) * list UvElement :=
  match ls with
  | [] => (vert, buf)
  | l :: rest =>
      if uv_corner_skipped uv_selected l
      then element_map_loops uv_selected j (S i) rest vert buf      (* continue *)
      else
        element_map_loops uv_selected j (S i) rest
          (alter (λ chain, length buf :: chain) (l_v l) vert)
          (buf ++ [{| ue_l := (j, i); ue_loop_of_poly_index := i;
                      ue_separate := false; ue_island := INVALID_ISLAND |}])
  end.

(** [tf_uv] when the corners of a face have been walked: a skipped corner
    leaves its slot as the buffer had it, [stale i]. *)
Fixpoint element_map_tf_uv (uv_selected : bool) (stale : nat → list F) (i : nat)
    (ls : list BMLoop) : list (list F) :=
  match ls with
  | [] => []
  | l :: rest =>
      (if uv_corner_skipped uv_selected l then stale i else l_uv l)
      :: element_map_tf_uv uv_selected stale (S i) rest
  end.

(** [tf_uv_stale j i] is what slot [i] of the reused [tf_uv_buf] holds when
    face [j] is reached. *)
Fixpoint element_map_faces (face_selected uv_selected use_winding : bool)
    (tf_uv_stale : nat → nat → list F) (j : nat) (fs : list BMFace)
    (vert : list (list nat)) (buf : list UvElement) (winding : list bool)
    : list (list nat) * list UvElement * list bool :=
  match fs with
  | [] => (vert, buf, winding)
  | f :: rest =>
      let winding0 := if use_winding then <[j := false]> winding else winding in
      if face_eligible face_selected f then
        let '(vert1, buf1) := element_map_loops uv_selected j 0 (f_loops f) vert buf in
        let winding1 :=
          if use_winding
          then <[j := winding_of (element_map_tf_uv uv_selected (tf_uv_stale j) 0 (f_loops f))]>
                 winding0
          else winding0 in
        element_map_faces face_selected uv_selected use_winding tf_uv_stale (S j) rest
          vert1 buf1 winding1
      else
        element_map_faces face_selected uv_selected use_winding tf_uv_stale (S j) rest
          vert buf winding0
  end.

Definition corner_uv_select (m : BMesh) (c : nat * nat) : bool :=
  match loop_at m c.1 c.2 with Some l => l_uv_select l | None => false end.

Definition element_connected (m : BMesh) (use_winding : bool) (winding : list bool)
    (buf : list UvElement) (v iterv : nat) : bool :=
  match buf !! v, buf !! iterv with
  | Some ev, Some ei =>
      let uv_vert_sel := corner_uv_select m (ue_l ev) in
      let uv2_vert_sel := corner_uv_select m (ue_l ei) in
      let connected :=
        eqb uv_vert_sel uv2_vert_sel
        && compare_v2v2 (loop_uv m (ue_l ei).1 (ue_l ei).2)
                        (loop_uv m (ue_l ev).1 (ue_l ev).2) STD_UV_CONNECT_LIMIT in
      connected
      && (negb use_winding
          || eqb (winding_at winding (ue_l ei).1) (winding_at winding (ue_l ev).1))
  | _, _ => false
  end.

Definition element_set_separate (e : UvElement) : UvElement :=
  {| ue_l := ue_l e; ue_loop_of_poly_index := ue_loop_of_poly_index e;
     ue_separate := true; ue_island := ue_island e |}.

Definition element_set_island (n : nat) (e : UvElement) : UvElement :=
  {| ue_l := ue_l e; ue_loop_of_poly_index := ue_loop_of_poly_index e;
     ue_separate := ue_separate e; ue_island := Z.of_nat n |}.

(** *** Islands *)

(** What the island pass works on: [element_map->buf], [island_number],
    the face [stack] (top first), [map], and the filled part of
    [islandbuf] ([islandbufsize] is its length). *)
Record IslandState := {
  is_buf : list UvElement;
  is_island_number : list Z;
  is_stack : list nat;
  is_map : list nat;
  is_islandbuf : list UvElement;
}.

Definition element_separate (buf : list UvElement) (e : nat) : bool :=
  match buf !! e with Some x => ue_separate x | None => false end.

Definition element_face (buf : list UvElement) (e : nat) : nat :=
  match buf !! e with Some x => (ue_l x).1 | None => 0 end.

(** The walk [for (element = initelement; element; element = element->next)]
    down to the element of face [efa]: answers it with the chain from the
    last [separate] element met ([initelement]). *)
Fixpoint island_find (buf : list UvElement) (efa : nat) (init chain : list nat)
    : option (nat * list nat) :=
  match chain with
  | [] => None
  | element :: next =>
      let init1 := if element_separate buf element then chain else init in
      if Nat.eqb (element_face buf element) efa then Some (element, init1)
      else island_find buf efa init1 next
  end.

(** The second walk, over the subgroup of [initelement]: the faces met that
    have no island yet go on the stack. *)
Fixpoint island_push_group (buf : list UvElement) (nislands : nat) (at_init : bool)
    (group : list nat) (island_number : list Z) (stack : list nat)
    : list Z * list nat :=
  match group with
  | [] => (island_number, stack)
  | element :: next =>
      if element_separate buf element && negb at_init then (island_number, stack)
      else
        let f := element_face buf element in
        if (default 0%Z (island_number !! f) =? INVALID_ISLAND)%Z then
          island_push_group buf nislands false next
            (<[f := Z.of_nat nislands]> island_number) (f :: stack)
        else island_push_group buf nislands false next island_number stack
  end.

(** One round of [BM_ITER_ELEM (l, &liter, efa, BM_LOOPS_OF_FACE)]. *)
Definition island_visit_corner (vert : list (list nat)) (uv_selected : bool)
    (nislands efa : nat) (st : IslandState) (l : BMLoop) : IslandState :=
  if uv_corner_skipped uv_selected l then st
  else
    let chain := default [] (vert !! l_v l) in
    match island_find (is_buf st) efa chain chain with
    | None => st
    | Some (element, init) =>
        match is_buf st !! element with
        | None => st
        | Some e =>
            let buf1 := alter (element_set_island nislands) element (is_buf st) in
            let '(island_number1, stack1) :=
              island_push_group buf1 nislands true init (is_island_number st) (is_stack st) in
            {| is_buf := buf1;
               is_island_number := island_number1;
               is_stack := stack1;
               is_map := <[element := length (is_islandbuf st)]> (is_map st);
               is_islandbuf := is_islandbuf st ++ [element_set_island nislands e] |}
        end
    end.

Definition face_loops (m : BMesh) (f : nat) : list BMLoop :=
  match faces m !! f with Some efa => f_loops efa | None => [] end.

(** [while (stacksize > 0)]; one unit of fuel per popped face. *)
Fixpoint island_flood (fuel : nat) (m : BMesh) (vert : list (list nat))
    (uv_selected : bool) (nislands : nat) (st : IslandState) : IslandState :=
  match fuel with
  | 0 => st
  | S fuel1 =>
      match is_stack st with
      | [] => st
      | efa :: stack1 =>
          let st1 := {| is_buf := is_buf st; is_island_number := is_island_number st;
                        is_stack := stack1; is_map := is_map st;
                        is_islandbuf := is_islandbuf st |} in
          island_flood fuel1 m vert uv_selected nislands
            (foldl (island_visit_corner vert uv_selected nislands efa) st1 (face_loops m efa))
      end
  end.

(** One round of [for (i = 0; i < totuv; i++)]: an element without island
    opens island [nislands].  A face is pushed at most once after the seed,
    so [totfaces + 1] rounds empty the stack. *)
Definition island_scan (m : BMesh) (vert : list (list nat)) (uv_selected : bool)
    (acc : IslandState * nat) (i : nat) : IslandState * nat :=
  let '(st, nislands) := acc in
  match is_buf st !! i with
  | None => acc
  | Some e =>
      if (ue_island e =? INVALID_ISLAND)%Z then
        let f := (ue_l e).1 in
        let st0 := {| is_buf := alter (element_set_island nislands) i (is_buf st);
                      is_island_number := <[f := Z.of_nat nislands]> (is_island_number st);
                      is_stack := [f];
                      is_map := is_map st;
                      is_islandbuf := is_islandbuf st |} in
        (island_flood (S (length (faces m))) m vert uv_selected nislands st0, S nislands)
      else acc
  end.

(** The last loop: [islandIndices[j]] is where island [j] starts. *)
Fixpoint island_indices (i j : nat) (islandbuf : list UvElement) (indices : list nat)
    : list nat :=
  match islandbuf with
  | [] => indices
  | e :: rest =>
      if (ue_island e =? Z.of_nat j)%Z then island_indices (S i) j rest indices
      else island_indices (S i) (S j) rest (<[S j := i]> indices)
  end.

(** [BM_uv_element_map_create]; [None] is the [NULL] result. *)
Definition BM_uv_element_map_create (m : BMesh)
    (face_selected uv_selected use_winding do_islands : bool)
    (tf_uv_stale : nat → nat → list F) : option UvElementMap :=
  let totfaces := length (faces m) in
  let totverts := length (verts m) in
  let totuv := element_map_totuv face_selected uv_selected (faces m) in
  if Nat.eqb totuv 0 then None
  else
    let '(vert, buf, winding) :=
      element_map_faces face_selected uv_selected use_winding tf_uv_stale 0 (faces m)
        (replicate totverts []) [] (replicate totfaces false) in
    let '(vert1, buf1) :=
      uv_sort_verts (element_connected m use_winding winding) element_set_separate
        totverts vert buf in
    if do_islands then
      let st0 := {| is_buf := buf1;
                    is_island_number := replicate totfaces INVALID_ISLAND;
                    is_stack := [];
                    is_map := replicate totuv 0;
                    is_islandbuf := [] |} in
      let '(st, nislands) :=
        foldl (island_scan m vert1 uv_selected) (st0, 0) (seq 0 totuv) in
      let remap := λ e : nat, default 0 (is_map st !! e) in
      Some {| em_vert := (λ chain : list nat, remap <$> chain) <$> vert1;
              em_buf := is_islandbuf st;
              totalUVs := totuv;
              totalIslands := nislands;
              islandIndices := island_indices 0 0 (is_islandbuf st) (replicate nislands 0) |}
    else
      Some {| em_vert := vert1; em_buf := buf1; totalUVs := totuv;
              totalIslands := 0; islandIndices := [] |}.

End Mesh.

Arguments BMVert : clear implicits.
Arguments BMLoop : clear implicits.
Arguments BMFace : clear implicits.
Arguments BMesh : clear implicits.
Arguments BMEditMesh : clear implicits.

(** ** Views used by the statements *)

Section Views.
Context {F : Type} `{FloatOps F}.

(** The position of vertex [i]. *)
Definition vert_co (m : BMesh F) (i : nat) : list F :=
  match verts m !! i with Some v => v_co v | None => [] end.

(** The vertex whose position round [i] of [EDBM_verts_mirror_apply]
    overwrites, if it overwrites one. *)
Definition mirror_apply_target (em : BMEditMesh F) (sel_from sel_to : Z) (i : nat) : option nat :=
  match verts (bm em) !! i with
  | None => None
  | Some v =>
      if (BM_elem_flag_test (v_hflag v) BM_ELEM_SELECT =? sel_from)%Z then
        match EDBM_verts_mirror_get em i with
        | Some mirr =>
            if (vert_flag (bm em) mirr BM_ELEM_SELECT =? sel_to)%Z then Some mirr else None
        | None => None
        end
      else None
  end.

(** The last of the rounds [rounds] that overwrites vertex [k]. *)
Fixpoint mirror_apply_last (em : BMEditMesh F) (sel_from sel_to : Z) (rounds : list nat)
    (k : nat) : option nat :=
  match rounds with
  | [] => None
  | i :: rest =>
      match mirror_apply_last em sel_from sel_to rest k with
      | Some j => Some j
      | None =>
          if bool_decide (mirror_apply_target em sel_from sel_to i = Some k)
          then Some i else None
      end
  end.

(** What [EDBM_verts_mirror_apply] never touches. *)
Definition same_frame (em em' : BMEditMesh F) : Prop :=
  edges (bm em') = edges (bm em) ∧ faces (bm em') = faces (bm em)
  ∧ vtable (bm em') = vtable (bm em) ∧ vdata (bm em') = vdata (bm em)
  ∧ mirror_cdlayer em' = mirror_cdlayer em
  ∧ v_hflag <$> verts (bm em') = v_hflag <$> verts (bm em).

Definition with_co (co : list F) (v : BMVert F) : BMVert F :=
  {| v_co := co; v_hflag := v_hflag v |}.

(** Whether the cache loop passes over vertex [i] ([continue]). *)
Definition mirror_cache_skipped (m : BMesh F) (use_select respecthide : bool) (i : nat) : bool :=
  match verts m !! i with
  | None => true
  | Some v =>
      (respecthide && flag_set (v_hflag v) BM_ELEM_HIDDEN)
      || (use_select && negb (flag_set (v_hflag v) BM_ELEM_SELECT))
  end.

(** The kd-tree of the spatial branch. *)
Definition mirror_cache_tree (m : BMesh F) (respecthide use_topology : bool) : KDTree_3d :=
  if use_topology then [] else mirror_tree_fill respecthide 0 (verts m) [].

(** The mirror that round [i] of the cache loop stores for vertex [i]:
    [None] when the round is skipped or stores [-1]. *)
Definition mirror_cache_found (m : BMesh F) (axis : nat)
    (use_self use_select respecthide use_topology : bool)
    (maxdist : F) (index_lookup : list Z) (i : nat) : option nat :=
  match verts m !! i with
  | None => None
  | Some v =>
      if mirror_cache_skipped m use_select respecthide i then None
      else
        match mirror_find m axis respecthide use_topology (square_f maxdist) index_lookup
                (mirror_cache_tree m respecthide use_topology) i v with
        | Some v_mirr => if use_self || negb (Nat.eqb v_mirr i) then Some v_mirr else None
        | None => None
        end
  end.

(** The table [EDBM_verts_mirror_cache_begin_ex] starts from: the caller's
    array, or the slots of the mirror layer (zeroed when the layer is new). *)
Definition mirror_table_before (em : BMEditMesh F) (r_index : option (list Z)) : list Z :=
  match r_index with
  | Some idx => idx
  | None =>
      let n := CustomData_get_named_layer_index (bm em) BM_CD_LAYER_ID in
      if (n =? -1)%Z then replicate (length (verts (bm em))) 0%Z
      else layer_slots (bm em) (Z.to_nat n)
  end.

(** The table it leaves. *)
Definition mirror_table_after (res : BMEditMesh F * option (list Z)) : list Z :=
  match res.2 with
  | Some idx => idx
  | None => layer_slots (bm res.1) (Z.to_nat (mirror_cdlayer res.1))
  end.

(** Whether round [j] of the cache loop writes slot [k]: a round that is
    not passed over writes its own slot and the slot of the mirror it
    stores. *)
Definition mirror_cache_writes (m : BMesh F) (axis : nat)
    (use_self use_select respecthide use_topology : bool)
    (maxdist : F) (index_lookup : list Z) (j k : nat) : Prop :=
  mirror_cache_skipped m use_select respecthide j = false
  ∧ (j = k ∨ mirror_cache_found m axis use_self use_select respecthide use_topology
               maxdist index_lookup j = Some k).

(** Slot [k] is written after the last write of slot [v], in the first
    [n] rounds. *)
Definition mirror_cache_rewritten (m : BMesh F) (axis : nat)
    (use_self use_select respecthide use_topology : bool)
    (maxdist : F) (index_lookup : list Z) (n v k : nat) : Prop :=
  ∃ j, j < n
       ∧ mirror_cache_writes m axis use_self use_select respecthide use_topology
           maxdist index_lookup j k
       ∧ ∀ i, j ≤ i → i < n →
           ¬ mirror_cache_writes m axis use_self use_select respecthide use_topology
               maxdist index_lookup i v.

(** *** UV vertices

    The subgroups ("UV vertices") of an output chain: a chain element whose
    [separate] flag is set starts a new subgroup, as in the walks of
    consumers; [sep e] tells whether element [e] is flagged. *)
Fixpoint chain_groups (sep : nat → bool) (chain : list nat) : list (list nat) :=
  match chain with
  | [] => []
  | e :: rest =>
      match chain_groups sep rest with
      | g :: gs =>
          if match rest with e' :: _ => sep e' | [] => false end
          then [e] :: g :: gs else (e :: g) :: gs
      | [] => [[e]]
      end
  end.

(** A subgroup as the merge pass emits it: the popped head comes last,
    before it the elements that passed the test against that head. *)
Definition group_ok (conn : nat → nat → bool) (g : list nat) : Prop :=
  ∃ body h, g = body ++ [h] ∧ Forall (λ e, conn h e = true) body.

(** Subgroups in chain order (the last emitted first): no element of a
    subgroup passes the test against the head of a subgroup emitted
    earlier. *)
Fixpoint greedy_ok (conn : nat → nat → bool) (groups : list (list nat)) : Prop :=
  match groups with
  | [] => True
  | g :: earlier =>
      group_ok conn g
      ∧ (∀ g' h', g' ∈ earlier → last g' = Some h' → Forall (λ e, conn h' e = false) g)
      ∧ greedy_ok conn earlier
  end.

(** Whether element [e] of a buffer is flagged [separate]. *)
Definition flagged {B} (sep : B → bool) (buf : list B) (e : nat) : bool :=
  match buf !! e with Some x => sep x | None => false end.

(** The winding of face [f] as [BM_uv_vert_map_create] records it. *)
Definition vert_map_winding (m : BMesh F) (use_select : bool) (f : nat) : bool :=
  match faces m !! f with
  | Some efa => if face_eligible use_select efa then winding_of (l_uv <$> f_loops efa) else false
  | None => false
  end.




(** The corner an element of a [UvElementMap] stands for, and its
    selection state. *)
Definition element_corner (buf : list UvElement) (e : nat) : nat * nat :=
  match buf !! e with Some x => ue_l x | None => (0, 0) end.

Definition element_uv_select (m : BMesh F) (buf : list UvElement) (e : nat) : bool :=
  corner_uv_select m (element_corner buf e).

(** The corners that get an element, in the order of the building loop. *)
Fixpoint eligible_loops (uv_selected : bool) (j i : nat) (ls : list (BMLoop F))
    : list (nat * nat) :=
  match ls with
  | [] => []
  | l :: rest =>
      if uv_corner_skipped uv_selected l then eligible_loops uv_selected j (S i) rest
      else (j, i) :: eligible_loops uv_selected j (S i) rest
  end.

Fixpoint eligible_corners (face_selected uv_selected : bool) (j : nat)
    (fs : list (BMFace F)) : list (nat * nat) :=
  match fs with
  | [] => []
  | f :: rest =>
      (if face_eligible face_selected f then eligible_loops uv_selected j 0 (f_loops f) else [])
      ++ eligible_corners face_selected uv_selected (S j) rest
  end.

(** A mesh the UV maps can walk: every corner is at a vertex of the mesh,
    and no face meets a vertex twice. *)
Definition mesh_faces_ok (m : BMesh F) : Prop :=
  Forall (λ f, NoDup (face_verts f)
               ∧ Forall (λ v, v < length (verts m)) (face_verts f)) (faces m).

End Views.

(** ** Invariants of the loops *)

Section MergeInvariants.
Context {B : Type} (conn : list B → nat → nat → bool) (sep : B → bool).

(** The state of the outer loop: [groups] are the subgroups emitted so
    far, [conn0] is the test as the buffer had it at the start. *)
Definition merge_inv (conn0 : nat → nat → bool) (buf : list B)
    (vlist newvlist : list nat) (groups : list (list nat)) : Prop :=
  (∀ v e, conn buf v e = conn0 v e)
  ∧ newvlist = concat groups
  ∧ chain_groups (flagged sep buf) newvlist = groups
  ∧ match newvlist with e' :: _ => flagged sep buf e' = true | [] => True end
  ∧ Forall (λ e, flagged sep buf e = false ∧ e < length buf) vlist
  ∧ NoDup (vlist ++ newvlist)
  ∧ greedy_ok conn0 groups
  ∧ (∀ g h, g ∈ groups → last g = Some h → Forall (λ e, conn0 h e = false) vlist).

(** What the chains must be when the merge pass starts: without
    repetition, apart from each other, their elements in the buffer and
    not flagged. *)
Definition chains_ok (vert : list (list nat)) (buf : list B) : Prop :=
  (∀ a c, vert !! a = Some c → NoDup c)
  ∧ (∀ a b c d e, vert !! a = Some c → vert !! b = Some d → e ∈ c → e ∈ d → a = b)
  ∧ (∀ a c e, vert !! a = Some c → e ∈ c → flagged sep buf e = false ∧ e < length buf).

End MergeInvariants.

Section MapInvariants.
Context {F : Type} `{FloatOps F}.
Context (m : BMesh F) (face_selected uv_selected : bool).

(** What the building loop keeps true of the chains and the buffer. *)
Definition vert_built (vert : list (list nat)) (buf : list UvMapVert) : Prop :=
  (∀ e x, buf !! e = Some x → separate x = false)
  ∧ (∀ a c e, vert !! a = Some c → e ∈ c →
       ∃ x l, buf !! e = Some x
              ∧ loop_at m (poly_index x) (loop_of_poly_index x) = Some l ∧ l_v l = a)
  ∧ (∀ a c, vert !! a = Some c → NoDup c).

(** The winding array up to face [a]. *)
Definition winding_upto (use_select : bool) (a : nat) (winding : list bool) : Prop :=
  length winding = length (faces m)
  ∧ ∀ f, winding_at winding f
         = if decide (f < a) then vert_map_winding m use_select f else false.

Definition vert_key (x : UvMapVert) : nat * nat := (poly_index x, loop_of_poly_index x).

(** The corner of an element, as a loop of the mesh. *)
Definition element_loop (x : UvElement) : option (BMLoop F) :=
  loop_at m (ue_l x).1 (ue_l x).2.

(** What the building loop keeps true of the chains and the buffer; the
    last part needs a mesh whose corners are at vertices of the mesh. *)
Definition elem_built (vert : list (list nat)) (buf : list UvElement) : Prop :=
  (∀ e x, buf !! e = Some x → ue_separate x = false ∧ ue_island x = INVALID_ISLAND)
  ∧ (∀ a c e, vert !! a = Some c → e ∈ c →
       ∃ x l, buf !! e = Some x ∧ element_loop x = Some l ∧ l_v l = a)
  ∧ (∀ a c, vert !! a = Some c → NoDup c)
  ∧ (mesh_faces_ok m → length vert = length (verts m) →
     ∀ e x l, buf !! e = Some x → element_loop x = Some l →
       ∃ c, vert !! l_v l = Some c ∧ e ∈ c).

Definition merge_key (x : UvElement) : nat * nat * nat * Z :=
  (ue_l x, ue_loop_of_poly_index x, ue_island x).

(** The chains and the buffer as the island pass finds them. *)
Definition emap_chains (vert : list (list nat)) (buf : list UvElement) : Prop :=
  ue_l <$> buf = eligible_corners face_selected uv_selected 0 (faces m)
  ∧ (∀ a c, vert !! a = Some c → NoDup c)
  ∧ (∀ a c e, vert !! a = Some c → e ∈ c →
       ∃ x l, buf !! e = Some x ∧ element_loop x = Some l ∧ l_v l = a)
  ∧ (∀ e x l, buf !! e = Some x → element_loop x = Some l →
       ∃ c, vert !! l_v l = Some c ∧ e ∈ c).

(** The corners of face [f] that have an element. *)
Definition face_corners (f : nat) : list (nat * nat) :=
  eligible_loops uv_selected f 0 (face_loops m f).

Definition island_key (x : UvElement) : nat * nat * nat * bool :=
  (ue_l x, ue_loop_of_poly_index x, ue_separate x).

Context (buf1 : list UvElement).

(** The island pass while island [n] is filled: [done] are the faces
    walked so far (in the order of the walk), [cur] the face being walked
    (if any), [partial] its corners copied so far; island ids stay below
    [hi]. *)
Record island_inv (n hi : nat) (st : IslandState) (done cur : list nat)
    (partial : list (nat * nat)) : Prop := {
  ii_key : island_key <$> is_buf st = island_key <$> buf1;
  ii_copied :
    ue_l <$> is_islandbuf st = concat (face_corners <$> done) ++ partial;
  ii_nodup : NoDup (done ++ cur ++ is_stack st);
  ii_number_len : length (is_island_number st) = length (faces m);
  ii_number : ∀ f, f < length (faces m) →
    is_island_number st !! f = Some INVALID_ISLAND ↔ f ∉ done ++ cur ++ is_stack st;
  ii_live : ∀ f, f ∈ cur ++ is_stack st → is_island_number st !! f = Some (Z.of_nat n);
  ii_valid : ∀ f, f ∈ done ++ cur ++ is_stack st →
    ∃ efa, faces m !! f = Some efa ∧ face_eligible face_selected efa = true;
  ii_island : ∀ x, x ∈ is_islandbuf st →
    is_island_number st !! (ue_l x).1 = Some (ue_island x);
  ii_range : ∀ f v, is_island_number st !! f = Some v →
    v = INVALID_ISLAND ∨ (0 ≤ v < Z.of_nat hi)%Z;
  ii_assigned : ∀ e x, is_buf st !! e = Some x → ue_island x ≠ INVALID_ISLAND →
    (ue_l x).1 ∈ done ++ cur ++ is_stack st;
  ii_map_len : length (is_map st) = length buf1;
  ii_remap : ∀ e x, is_buf st !! e = Some x → ue_l x ∈ ue_l <$> is_islandbuf st →
    ue_island x ≠ INVALID_ISLAND
    ∧ ∃ k, is_map st !! e = Some k ∧ is_islandbuf st !! k = Some x;
}.

End MapInvariants.

(** ** Element lookup in a UV element map, element indices *)

Section Elements.
Context {F : Type} `{FloatOps F}.

(** The walk of [BM_uv_element_get] down a chain, to the first element
    with [element->l->f == efa]. *)
Fixpoint uv_element_find (buf : list UvElement) (efa : nat) (chain : list nat)
    : option nat :=
  match chain with
  | [] => None
  | element :: next =>
      if Nat.eqb (element_face buf element) efa then Some element
      else uv_element_find buf efa next
  end.

(** [BM_uv_element_get(map, efa, l)]: the chain walked is
    [map->vert[BM_elem_index_get(l->v)]]; an element is answered by its
    index in [map->buf]. *)
Definition BM_uv_element_get (map : UvElementMap) (efa : nat) (l : BMLoop F)
    : option nat :=
  uv_element_find (em_buf map) efa (default [] (em_vert map !! l_v l)).

(** A [BMElem *]: a vertex, an edge, a loop or a face ([head.htype]), with
    its index ([BM_elem_index_get]). *)
Inductive BMElem :=
  | ElemVert (index : nat)
  | ElemEdge (index : nat)
  | ElemLoop (index : nat)
  | ElemFace (index : nat).

Definition totedge (m : BMesh F) : Z := Z.of_nat (length (edges m)).
Definition totface (m : BMesh F) : Z := Z.of_nat (length (faces m)).

(** Arithmetic on [int]: the sum as a 32-bit two's complement number. *)
Definition int_add (a b : Z) : Z := ((a + b + 2 ^ 31) mod 2 ^ 32 - 2 ^ 31)%Z.

(** [EDBM_elem_to_index_any]; for a loop the code asserts and answers the
    loop's own index. *)
Definition EDBM_elem_to_index_any (em : BMEditMesh F) (ele : BMElem) : Z :=
  match ele with
  | ElemVert index => Z.of_nat index
  | ElemEdge index => int_add (Z.of_nat index) (totvert (bm em))
  | ElemFace index =>
      int_add (Z.of_nat index) (int_add (totvert (bm em)) (totedge (bm em)))
  | ElemLoop index => Z.of_nat index
  end.

(** [BM_vert_at_index_find_or_table] and its edge and face counterparts
    are not part of this file: they are what the section is given. *)
Context (BM_vert_at_index_find_or_table BM_edge_at_index_find_or_table
           BM_face_at_index_find_or_table : BMesh F → Z → option nat).

(** [EDBM_elem_from_index_any]; the subtractions cannot overflow, the
    subtrahend lying between 0 and [index]. *)
Definition EDBM_elem_from_index_any (em : BMEditMesh F) (index : Z) : option BMElem :=
  let m := bm em in
  if (index <? totvert m)%Z then ElemVert <$> BM_vert_at_index_find_or_table m index
  else
    let index := (index - totvert m)%Z in
    if (index <? totedge m)%Z then ElemEdge <$> BM_edge_at_index_find_or_table m index
    else
      let index := (index - totedge m)%Z in
      if (index <? totface m)%Z then ElemFace <$> BM_face_at_index_find_or_table m index
      else None.

(** The bases in edit mode ([BKE_view_layer_array_from_bases_in_edit_mode])
    are the list of their objects; [BKE_editmesh_from_object] answers the
    address of the edit-mesh of an object and [editmesh_at] what is stored
    at an address.  Neither is part of this file. *)
Context (BKE_editmesh_from_object : nat → nat) (editmesh_at : nat → BMEditMesh F).

(** A [uint] stored into an [int]: the same 32 bits, read as a two's
    complement number. *)
Definition int_of_uint (a : Z) : Z := ((a + 2 ^ 31) mod 2 ^ 32 - 2 ^ 31)%Z.

(** [EDBM_elem_to_index_any_multi]: the element index and
    [*r_object_index], an [int] that is assigned the [uint] [base_index]. *)
Definition EDBM_elem_to_index_any_multi (bases : list nat) (em : nat) (ele : BMElem)
    : Z * Z :=
  match find_index (λ base_iter, Nat.eqb (BKE_editmesh_from_object base_iter) em) bases with
  | Some base_index =>
      (EDBM_elem_to_index_any (editmesh_at em) ele, int_of_uint (Z.of_nat base_index))
  | None => ((-1)%Z, (-1)%Z)
  end.

(** [EDBM_elem_from_index_any_multi]: the element and [*r_obedit].  The
    test is [(uint)object_index < bases_len]; a negative index that passed
    it would read outside the array, which is answered by [None] here. *)
Definition EDBM_elem_from_index_any_multi (bases : list nat) (object_index elem_index : Z)
    : option BMElem * option nat :=
  let obedit :=
    if (object_index `mod` 2 ^ 32 <? Z.of_nat (length bases))%Z
    then (if (0 <=? object_index)%Z then bases !! Z.to_nat object_index else None)
    else None in
  match obedit with
  | Some ob =>
      match EDBM_elem_from_index_any (editmesh_at (BKE_editmesh_from_object ob)) elem_index with
      | Some ele => (Some ele, Some ob)
      | None => (None, None)
      end
  | None => (None, None)
  end.

(** An element of the mesh: a vertex, an edge or a face whose index is
    below the number of such elements. *)
Definition elem_in_mesh (m : BMesh F) (ele : BMElem) : Prop :=
  match ele with
  | ElemVert index => index < length (verts m)
  | ElemEdge index => index < length (edges m)
  | ElemFace index => index < length (faces m)
  | ElemLoop _ => False
  end.

(** The element counts fit an [int] together. *)
Definition elem_counts_fit (m : BMesh F) : Prop :=
  (totvert m + totedge m + totface m < 2 ^ 31)%Z.

(** What is asked of an [..._at_index_find_or_table]: the element of that
    index, for an index below the count [tot]. *)
Definition at_index_ok (tot : BMesh F → Z) (at_index : BMesh F → Z → option nat) : Prop :=
  ∀ m i, (0 ≤ i < tot m)%Z → at_index m i = Some (Z.to_nat i).

(** What the building loop of [BM_uv_vert_map_create] keeps true besides
    [vert_built]: every element is on the chain of the vertex of its
    corner. *)
Definition vert_full (m : BMesh F) (vert : list (list nat)) (buf : list UvMapVert) : Prop :=
  ∀ e x l, buf !! e = Some x →
    loop_at m (poly_index x) (loop_of_poly_index x) = Some l →
    ∃ c, vert !! l_v l = Some c ∧ e ∈ c.

(** The elements the second walk of the island pass visits in [group]:
    its first element, and what follows up to the next element flagged
    [separate]. *)
Fixpoint group_walk (sep : nat → bool) (at_init : bool) (group : list nat) : list nat :=
  match group with
  | [] => []
  | element :: next =>
      if sep element && negb at_init then []
      else element :: group_walk sep false next
  end.

(** Two elements in the same subgroup of a chain. *)
Definition uv_same_group (vert : list (list nat)) (buf : list UvElement) (e e' : nat)
    : Prop :=
  ∃ a c g, vert !! a = Some c ∧ g ∈ chain_groups (flagged ue_separate buf) c
           ∧ e ∈ g ∧ e' ∈ g.

(** One hop between two elements of the buffer: to an element of the same
    face, or to one of the same subgroup. *)
Definition uv_hop (vert : list (list nat)) (buf : list UvElement) (e e' : nat) : Prop :=
  e < length buf ∧ e' < length buf
  ∧ (element_face buf e = element_face buf e' ∨ uv_same_group vert buf e e').

(** Connected by hops. *)
Definition uv_linked (vert : list (list nat)) (buf : list UvElement) : nat → nat → Prop :=
  rtc (uv_hop vert buf).

(** What the island pass keeps true of [island_number] while it fills an
    island.  [island_closed]: the faces of a subgroup one of whose elements
    has been copied ([dn] are the faces walked, [partial] the corners copied
    of the face being walked) carry one number.  [island_reached]: two
    faces that carry the same number have elements connected by hops. *)
Definition island_closed (vert : list (list nat)) (buf : list UvElement)
    (number : list Z) (dn : list nat) (partial : list (nat * nat)) : Prop :=
  ∀ e e' x, buf !! e = Some x → (ue_l x).1 ∈ dn ∨ ue_l x ∈ partial →
    uv_same_group vert buf e e' →
    number !! element_face buf e' = number !! (ue_l x).1.

Definition island_reached (vert : list (list nat)) (buf : list UvElement)
    (number : list Z) (dn : list nat) (partial : list (nat * nat)) : Prop :=
  ∀ f f' v, number !! f = Some v → number !! f' = Some v → v ≠ INVALID_ISLAND →
    ∃ y y', y < length buf ∧ y' < length buf
            ∧ element_face buf y = f ∧ element_face buf y' = f'
            ∧ uv_linked vert buf y y'.

(** The winding [BM_uv_element_map_create] records for face [f]: the sign
    of [cross_poly_v2] over [tf_uv] as the building loop leaves it, where
    the slot of a corner the UV selection skips keeps what the reused
    buffer held. *)
Definition element_map_winding (m : BMesh F) (face_selected uv_selected : bool)
    (tf_uv_stale : nat → nat → list F) (f : nat) : bool :=
  match faces m !! f with
  | Some efa =>
      if face_eligible face_selected efa
      then winding_of (element_map_tf_uv uv_selected (tf_uv_stale f) 0 (f_loops efa))
      else false
  | None => false
  end.

(** The test of the merge pass of [BM_uv_element_map_create], read on the
    mesh: element [e] against the popped head [h]. *)
Definition element_map_close (m : BMesh F) (face_selected uv_selected use_winding : bool)
    (tf_uv_stale : nat → nat → list F) (buf : list UvElement) (h e : nat) : bool :=
  match buf !! h, buf !! e with
  | Some xh, Some xe =>
      eqb (corner_uv_select m (ue_l xh)) (corner_uv_select m (ue_l xe))
      && compare_v2v2 (loop_uv m (ue_l xe).1 (ue_l xe).2)
                      (loop_uv m (ue_l xh).1 (ue_l xh).2) STD_UV_CONNECT_LIMIT
      && (negb use_winding
          || eqb (element_map_winding m face_selected uv_selected tf_uv_stale (ue_l xe).1)
                 (element_map_winding m face_selected uv_selected tf_uv_stale (ue_l xh).1))
  | _, _ => false
  end.

(** The winding array of [BM_uv_element_map_create] up to face [a]. *)
Definition element_winding_upto (m : BMesh F) (face_selected uv_selected : bool)
    (tf_uv_stale : nat → nat → list F) (a : nat) (winding : list bool) : Prop :=
  length winding = length (faces m)
  ∧ ∀ f, winding_at winding f
         = if decide (f < a)
           then element_map_winding m face_selected uv_selected tf_uv_stale f
           else false.

End Elements.

(** ** Exact rationals as floats, for the concrete runs *)

Fixpoint q_cross (prev : list Q) (vs : list (list Q)) : Q :=
  match vs with
  | [] => 0%Q
  | cur :: rest =>
      ((nth 0 cur 0 - nth 0 prev 0) * (nth 1 cur 0 + nth 1 prev 0) + q_cross cur rest)%Q
  end.

#[export] Instance Q_ops : FloatOps Q := {|
  f_zero := 0%Q;
  f_neg_one := (-1)%Q;
  f_add := Qplus;
  f_sub := Qminus;
  f_mul := Qmult;
  f_abs := Qabs.Qabs;
  f_lt := λ a b, negb (Qle_bool b a);
  cross_poly_v2 := λ vs, q_cross (List.last vs []) vs;
  STD_UV_CONNECT_LIMIT := (1 # 10000)%Q;
  BM_ELEM_SELECT := 1%Z;
  BM_ELEM_HIDDEN := 2%Z
|}.

Definition q_vert (x y z : Q) (hflag : Z) : BMVert Q :=
  {| v_co := [x; y; z]; v_hflag := hflag |}.

Definition q_mesh (vs : list (BMVert Q)) (es : list BMEdge) (fs : list (BMFace Q))
    : BMesh Q :=
  {| verts := vs; edges := es; faces := fs; vtable := false; vdata := [] |}.

Definition q_editmesh (m : BMesh Q) : BMEditMesh Q :=
  {| bm := m; mirror_cdlayer := (-1)%Z |}.

(** Two vertices facing each other across the XZ plane, the first selected. *)
Definition em_pair_y : BMEditMesh Q :=
  q_editmesh (q_mesh [q_vert 1 2 3 1; q_vert 1 (-2) 3 0] [] []).

(** Two vertices facing each other across the YZ plane, the first selected,
    joined by an edge and followed by a third, hidden vertex. *)
Definition em_pair_x : BMEditMesh Q :=
  q_editmesh (q_mesh [q_vert 1 0 0 1; q_vert (-1) 0 0 0; q_vert 5 5 5 3]
                     [{| e_v1 := 0; e_v2 := 1 |}] []).

(** Two vertices close to each other on one side, one on the other. *)
Definition em_crowded : BMEditMesh Q :=
  q_editmesh (q_mesh [q_vert 1 0 0 1; q_vert 1 0 (1 # 100000) 1; q_vert (-1) 0 0 1] [] []).

(** [BM_SEARCH_MAXDIST_MIRR] *)
Definition q_maxdist_mirr : Q := (2 # 100000)%Q.

(** The cache of [em_pair_x] for axis 0 (X), of [em_pair_y] for axis 1 (Y). *)
Definition em_cached_x : BMEditMesh Q :=
  EDBM_verts_mirror_cache_begin em_pair_x 0 false true true false q_maxdist_mirr [].

Definition em_cached_y : BMEditMesh Q :=
  EDBM_verts_mirror_cache_begin em_pair_y 1 false true false false q_maxdist_mirr [].

Definition q_loop (v : nat) (u w : Q) (sel : bool) : BMLoop Q :=
  {| l_v := v; l_uv := [u; w]; l_uv_select := sel |}.

Definition q_face (hflag : Z) (ls : list (BMLoop Q)) : BMFace Q :=
  {| f_hflag := hflag; f_loops := ls |}.

(** Three selected triangles around the edge of vertices 0 and 1, whose UVs
    at these vertices are close but not equal, and a fourth triangle apart
    from them, not selected. *)
Definition uv_fan : BMesh Q :=
  q_mesh [q_vert 0 0 0 1; q_vert 1 1 0 1; q_vert 0 1 0 1; q_vert 0 2 0 1; q_vert 0 3 0 1;
          q_vert 5 5 0 0; q_vert 6 5 0 0; q_vert 5 6 0 0] []
    [q_face 1 [q_loop 0 (-8 # 100000) 0 true; q_loop 1 (100015 # 100000) 1 true;
               q_loop 2 0 1 true];
     q_face 1 [q_loop 0 (8 # 100000) 0 true; q_loop 1 (100008 # 100000) 1 false;
               q_loop 3 0 2 true];
     q_face 1 [q_loop 0 0 0 true; q_loop 1 1 1 false; q_loop 4 0 3 true];
     q_face 0 [q_loop 5 5 5 true; q_loop 6 6 5 true; q_loop 7 5 6 true]].

(** The maps of [uv_fan]. *)
Definition uv_fan_vmap (use_winding : bool) : UvVertMap :=
  default {| vmap_vert := []; vmap_buf := [] |} (BM_uv_vert_map_create uv_fan false use_winding).

Definition uv_fan_emap (do_islands : bool) : UvElementMap :=
  default {| em_vert := []; em_buf := []; totalUVs := 0; totalIslands := 0;
             islandIndices := [] |}
    (BM_uv_element_map_create uv_fan false false false do_islands (λ _ _, [])).

(** The cache of [em_crowded] for axis 0, and a run on [em_pair_x] that
    writes into an array of the caller, restricted to selected vertices. *)
Definition em_crowded_cached : BMEditMesh Q :=
  EDBM_verts_mirror_cache_begin em_crowded 0 false false false false q_maxdist_mirr [].

Definition pair_x_selected : BMEditMesh Q * option (list Z) :=
  EDBM_verts_mirror_cache_begin_ex em_pair_x 0 false true true false q_maxdist_mirr []
    (Some [7; 7; 7]%Z).

(** A triangle that is not selected. *)
Definition uv_unselected : BMesh Q :=
  q_mesh [q_vert 0 0 0 0; q_vert 1 0 0 0; q_vert 0 1 0 0] []
    [q_face 0 [q_loop 0 0 0 true; q_loop 1 1 0 true; q_loop 2 0 1 true]].

Ltac by_compute := apply (bool_decide_unpack _); vm_compute; exact I.

(** Membership in lists built with [::] and [++]. *)
Ltac list_in :=
  rewrite ?elem_of_app, ?elem_of_cons, ?list_elem_of_singleton in *; intuition congruence.

(** A lookup by index that answers the element of that index: what the
    [..._at_index_find_or_table] functions are in the concrete runs. *)
Definition q_at_index (tot : BMesh Q → Z) (m : BMesh Q) (i : Z) : option nat :=
  if (0 <=? i)%Z && (i <? tot m)%Z then Some (Z.to_nat i) else None.

(** Three objects in edit mode, the last two sharing the edit-mesh at
    address 1, which is [em_pair_x]. *)
Definition q_bases : list nat := [10; 11; 12].

Definition q_editmesh_from_object (ob : nat) : nat := if ob <? 11 then 0 else 1.

Definition q_editmesh_at (em : nat) : BMEditMesh Q :=
  if Nat.eqb em 1 then em_pair_x else em_pair_y.

(** * Proofs *)

(** * Mirror cache: queries *)

Section MirrorQueries.
Context {F : Type} `{FloatOps F}.
Implicit Types (em : BMEditMesh F) (m : BMesh F).

Lemma mirror_get_slot_Some m mirr w :
  mirror_get_slot m mirr = Some w →
  ∃ i, mirr = Some i ∧ (0 ≤ i < totvert m)%Z ∧ w = Z.to_nat i ∧ vtable m = true.
Proof.
  unfold mirror_get_slot. destruct mirr as [i|]; [|done].
  destruct (0 <=? i)%Z eqn:Hlo; [|done].
  destruct (i <? totvert m)%Z eqn:Hhi; [|done]. simpl.
  destruct (vtable m); [|done].
  intros [= <-]. exists i. repeat split; lia.
Qed.

Lemma mirror_get_lt em v w :
  EDBM_verts_mirror_get em v = Some w → w < length (verts (bm em)).
Proof.
  intros (i & _ & Hi & -> & _)%mirror_get_slot_Some.
  unfold totvert in Hi. lia.
Qed.

(** C10.  [EDBM_verts_mirror_get] answers a vertex only for a stored index
    that lies in [0, totvert), and then that very index, which is a vertex
    of the mesh; for a missing slot, a negative index or an index at or
    past [totvert] it answers [NULL]. *)
Theorem EDBM_verts_mirror_get_in_range em v :
  (∀ w, EDBM_verts_mirror_get em v = Some w →
     ∃ i, CustomData_bmesh_get_layer_n (bm em) v (mirror_cdlayer em) = Some i
          ∧ (0 ≤ i < totvert (bm em))%Z ∧ w = Z.to_nat i
          ∧ is_Some (verts (bm em) !! w))
  ∧ (CustomData_bmesh_get_layer_n (bm em) v (mirror_cdlayer em) = None →
     EDBM_verts_mirror_get em v = None)
  ∧ (∀ i, CustomData_bmesh_get_layer_n (bm em) v (mirror_cdlayer em) = Some i →
     (i < 0 ∨ totvert (bm em) ≤ i)%Z → EDBM_verts_mirror_get em v = None).
Proof.
  split; [|split].
  - intros w Hw. pose proof (mirror_get_lt _ _ _ Hw) as Hlt.
    apply mirror_get_slot_Some in Hw as (i & Hi & Hr & -> & _).
    exists i. repeat split; try done; try lia. by apply lookup_lt_is_Some.
  - unfold EDBM_verts_mirror_get. by intros ->.
  - unfold EDBM_verts_mirror_get. intros i -> Hi. simpl.
    destruct (0 <=? i)%Z eqn:Hlo; [|done].
    destruct (i <? totvert (bm em))%Z eqn:Hhi; [|done]. lia.
Qed.

End MirrorQueries.

Section FindIndex.
Context {A : Type} (p : A → bool).

Lemma find_index_Some (l : list A) n :
  find_index p l = Some n → ∃ x, l !! n = Some x ∧ p x = true.
Proof.
  revert n. induction l as [|x l IH]; intros n; simpl; [done|].
  destruct (p x) eqn:Hp.
  - intros [= <-]. by exists x.
  - destruct (find_index p l) as [k|]; [|done].
    intros [= <-]. by apply IH.
Qed.

Lemma find_index_is_Some (l : list A) :
  is_Some (find_index p l) ↔ ∃ x, x ∈ l ∧ p x = true.
Proof.
  induction l as [|x l IH]; simpl.
  - split; [by intros [? ?]|]. intros (x & Hx & _). by apply elem_of_nil in Hx.
  - destruct (p x) eqn:Hp.
    + split; [|by eauto]. intros _. exists x. split; [by left|done].
    + rewrite fmap_is_Some, IH. split.
      * intros (y & Hy & Hpy). exists y. split; [by right|done].
      * intros (y & Hy & Hpy). apply elem_of_cons in Hy as [->|Hy]; [congruence|by eauto].
Qed.

End FindIndex.

Section MirrorEdgeFace.
Context {F : Type} `{FloatOps F}.
Implicit Types (em : BMEditMesh F) (m : BMesh F).

Lemma edge_joins_spec a b e :
  edge_joins a b e = true ↔
  (e_v1 e = a ∧ e_v2 e = b) ∨ (e_v1 e = b ∧ e_v2 e = a).
Proof.
  unfold edge_joins.
  rewrite orb_true_iff, !andb_true_iff, !Nat.eqb_eq. done.
Qed.

Lemma same_cycle_spec varr cyc :
  same_cycle varr cyc = true ↔ ∃ k, k < length cyc ∧ rotate k cyc = varr.
Proof.
  unfold same_cycle. rewrite andb_true_iff, Nat.eqb_eq, existsb_exists. split.
  - intros (_ & k & Hk & Hrot). apply in_seq in Hk.
    apply bool_decide_eq_true in Hrot. exists k. split; [lia|done].
  - intros (k & Hk & <-). split; [by rewrite length_rotate|].
    exists k. split; [apply in_seq; lia|by apply bool_decide_eq_true].
Qed.

Lemma mirror_verts_spec em vs v_mirr_arr :
  mirror_verts em vs = Some v_mirr_arr ↔
  Forall2 (λ v v_mirr, EDBM_verts_mirror_get em v = Some v_mirr) vs v_mirr_arr.
Proof.
  revert v_mirr_arr. induction vs as [|v vs IH]; intros arr; simpl.
  - split; [intros [= <-]; constructor|]. by intros ->%Forall2_nil_inv_l.
  - destruct (EDBM_verts_mirror_get em v) as [w|] eqn:Hw.
    + destruct (mirror_verts em vs) as [arr'|]; simpl.
      * split.
        -- intros [= <-]. constructor; [done|by apply IH].
        -- intros (w' & arr'' & Hw' & Harr & ->)%Forall2_cons_inv_l.
           apply IH in Harr. congruence.
      * split; [done|].
        intros (w' & arr'' & Hw' & Harr & ->)%Forall2_cons_inv_l.
        by apply IH in Harr.
    + split; [done|].
      intros (w' & arr'' & Hw' & Harr & ->)%Forall2_cons_inv_l. congruence.
Qed.

(** C8.  [EDBM_verts_mirror_get_edge] answers an edge exactly when both
    ends of the edge have a mirror vertex and the mesh has an edge joining
    the two mirror vertices; [EDBM_verts_mirror_get_face] answers a face
    exactly when every corner vertex has a mirror and the mesh has a face
    whose vertex cycle, read from some corner on, is the cycle of the
    mirror vertices in order.  What is answered is such an edge or face. *)
Theorem EDBM_verts_mirror_get_edge_face em :
  (∀ e, is_Some (EDBM_verts_mirror_get_edge em e) ↔
     ∃ v1_mirr v2_mirr,
       EDBM_verts_mirror_get em (e_v1 e) = Some v1_mirr
       ∧ EDBM_verts_mirror_get em (e_v2 e) = Some v2_mirr
       ∧ ∃ e_mirr, e_mirr ∈ edges (bm em)
           ∧ ((e_v1 e_mirr = v1_mirr ∧ e_v2 e_mirr = v2_mirr)
              ∨ (e_v1 e_mirr = v2_mirr ∧ e_v2 e_mirr = v1_mirr)))
  ∧ (∀ e n, EDBM_verts_mirror_get_edge em e = Some n →
     ∃ v1_mirr v2_mirr e_mirr,
       EDBM_verts_mirror_get em (e_v1 e) = Some v1_mirr
       ∧ EDBM_verts_mirror_get em (e_v2 e) = Some v2_mirr
       ∧ edges (bm em) !! n = Some e_mirr
       ∧ ((e_v1 e_mirr = v1_mirr ∧ e_v2 e_mirr = v2_mirr)
          ∨ (e_v1 e_mirr = v2_mirr ∧ e_v2 e_mirr = v1_mirr)))
  ∧ (∀ f, is_Some (EDBM_verts_mirror_get_face em f) ↔
     ∃ v_mirr_arr,
       Forall2 (λ v v_mirr, EDBM_verts_mirror_get em v = Some v_mirr)
               (face_verts f) v_mirr_arr
       ∧ ∃ f_mirr k, f_mirr ∈ faces (bm em) ∧ k < length (face_verts f_mirr)
           ∧ rotate k (face_verts f_mirr) = v_mirr_arr)
  ∧ (∀ f n, EDBM_verts_mirror_get_face em f = Some n →
     ∃ v_mirr_arr f_mirr k,
       Forall2 (λ v v_mirr, EDBM_verts_mirror_get em v = Some v_mirr)
               (face_verts f) v_mirr_arr
       ∧ faces (bm em) !! n = Some f_mirr ∧ k < length (face_verts f_mirr)
       ∧ rotate k (face_verts f_mirr) = v_mirr_arr).
Proof.
  repeat split.
  - unfold EDBM_verts_mirror_get_edge, BM_edge_exists.
    destruct (EDBM_verts_mirror_get em (e_v1 e)) as [a|]; [|by intros [? ?]].
    destruct (EDBM_verts_mirror_get em (e_v2 e)) as [b|]; [|by intros [? ?]].
    intros (x & Hx & Hj%edge_joins_spec)%find_index_is_Some. by eauto 10.
  - unfold EDBM_verts_mirror_get_edge, BM_edge_exists.
    intros (a & b & -> & -> & x & Hx & Hj).
    apply find_index_is_Some. exists x. by rewrite edge_joins_spec.
  - unfold EDBM_verts_mirror_get_edge, BM_edge_exists. intros e n.
    destruct (EDBM_verts_mirror_get em (e_v1 e)) as [a|]; [|done].
    destruct (EDBM_verts_mirror_get em (e_v2 e)) as [b|]; [|done].
    intros (x & Hx & Hj%edge_joins_spec)%find_index_Some. by eauto 10.
  - unfold EDBM_verts_mirror_get_face, BM_face_exists.
    destruct (mirror_verts em (face_verts f)) as [arr|] eqn:Harr; [|by intros [? ?]].
    apply mirror_verts_spec in Harr.
    intros (x & Hx & (k & Hk & Hrot)%same_cycle_spec)%find_index_is_Some. by eauto 10.
  - unfold EDBM_verts_mirror_get_face, BM_face_exists.
    intros (arr & Harr%mirror_verts_spec & x & k & Hx & Hk & Hrot). rewrite Harr.
    apply find_index_is_Some. exists x. split; [done|]. apply same_cycle_spec. eauto.
  - unfold EDBM_verts_mirror_get_face, BM_face_exists. intros f n.
    destruct (mirror_verts em (face_verts f)) as [arr|] eqn:Harr; [|done].
    apply mirror_verts_spec in Harr.
    intros (x & Hx & (k & Hk & Hrot)%same_cycle_spec)%find_index_Some. by eauto 10.
Qed.

End MirrorEdgeFace.

Section MirrorApply.
Context {F : Type} `{FloatOps F}.
Implicit Types (em : BMEditMesh F) (m : BMesh F).

Lemma same_frame_refl em : same_frame em em.
Proof. by repeat split. Qed.

Lemma same_frame_trans em1 em2 em3 :
  same_frame em1 em2 → same_frame em2 em3 → same_frame em1 em3.
Proof.
  intros (?&?&?&?&?&?) (?&?&?&?&?&?). repeat split; congruence.
Qed.

Lemma same_frame_length em em' :
  same_frame em em' → length (verts (bm em')) = length (verts (bm em)).
Proof.
  intros (_&_&_&_&_&Hfl).
  by rewrite <-(length_fmap v_hflag (verts (bm em'))), Hfl, length_fmap.
Qed.

Lemma same_frame_hflag em em' i :
  same_frame em em' →
  v_hflag <$> verts (bm em') !! i = v_hflag <$> verts (bm em) !! i.
Proof. intros (_&_&_&_&_&Hfl). by rewrite <-!list_lookup_fmap, Hfl. Qed.

Lemma same_frame_vert_flag em em' i flag :
  same_frame em em' → vert_flag (bm em') i flag = vert_flag (bm em) i flag.
Proof.
  intros Hfr. unfold vert_flag. pose proof (same_frame_hflag _ _ i Hfr) as Hi.
  destruct (verts (bm em') !! i), (verts (bm em) !! i); simplify_eq/=; congruence.
Qed.

Lemma same_frame_get em em' v :
  same_frame em em' → EDBM_verts_mirror_get em' v = EDBM_verts_mirror_get em v.
Proof.
  intros Hfr. pose proof (same_frame_length _ _ Hfr) as Hlen.
  destruct Hfr as (_&_&Hvt&Hvd&Hcd&_).
  unfold EDBM_verts_mirror_get, CustomData_bmesh_get_layer_n, mirror_get_slot, totvert.
  by rewrite Hvt, Hvd, Hcd, Hlen.
Qed.

Lemma same_frame_target em em' sf st i :
  same_frame em em' →
  mirror_apply_target em' sf st i = mirror_apply_target em sf st i.
Proof.
  intros Hfr. unfold mirror_apply_target.
  rewrite (same_frame_get _ _ i Hfr).
  pose proof (same_frame_hflag _ _ i Hfr) as Hi.
  destruct (verts (bm em') !! i) as [v'|], (verts (bm em) !! i) as [v|];
    simplify_eq/=; [|done].
  rewrite Hi. destruct (_ =? sf)%Z; [|done].
  destruct (EDBM_verts_mirror_get em i) as [w|]; [|done].
  by rewrite (same_frame_vert_flag _ _ w _ Hfr).
Qed.

Lemma same_frame_eq em em' :
  same_frame em em' → verts (bm em') = verts (bm em) → em' = em.
Proof.
  destruct em as [[] ?], em' as [[] ?]. intros (?&?&?&?&?&?) ?.
  simplify_eq/=. done.
Qed.

Lemma fmap_hflag_alter_co (vs : list (BMVert F)) i co :
  v_hflag <$> alter (with_co co) i vs = v_hflag <$> vs.
Proof.
  apply list_eq. intros k. rewrite !list_lookup_fmap.
  destruct (decide (i = k)) as [->|Hne].
  - rewrite list_lookup_alter_eq. by destruct (vs !! k).
  - by rewrite list_lookup_alter_ne.
Qed.

(** One round, read off [mirror_apply_target]. *)
Lemma mirror_apply_vert_spec sf st em i :
  mirror_apply_vert sf st em i =
  match mirror_apply_target em sf st i with
  | Some mirr =>
      {| bm := set_vert_co (bm em) mirr (negate_axis 0 (vert_co (bm em) i));
         mirror_cdlayer := mirror_cdlayer em |}
  | None => em
  end.
Proof.
  unfold mirror_apply_vert, mirror_apply_target, vert_co.
  destruct (verts (bm em) !! i) as [v|]; [|done].
  destruct (_ =? sf)%Z; [|done].
  destruct (EDBM_verts_mirror_get em i) as [w|]; [|done].
  by destruct (_ =? st)%Z.
Qed.

Lemma mirror_apply_vert_frame sf st em i :
  same_frame em (mirror_apply_vert sf st em i).
Proof.
  rewrite mirror_apply_vert_spec.
  destruct (mirror_apply_target em sf st i) as [w|]; [|apply same_frame_refl].
  repeat split; simpl. apply fmap_hflag_alter_co.
Qed.

Lemma mirror_apply_target_flags em sf st i k :
  mirror_apply_target em sf st i = Some k →
  vert_flag (bm em) i BM_ELEM_SELECT = sf ∧ vert_flag (bm em) k BM_ELEM_SELECT = st
  ∧ EDBM_verts_mirror_get em i = Some k ∧ i < length (verts (bm em)).
Proof.
  unfold mirror_apply_target, vert_flag.
  destruct (verts (bm em) !! i) as [v|] eqn:Hv; [|done].
  destruct (_ =? sf)%Z eqn:Hsf; [|done].
  destruct (EDBM_verts_mirror_get em i) as [w|]; [|done].
  destruct (_ =? st)%Z eqn:Hst; [|done].
  intros [= ->]. apply lookup_lt_Some in Hv. repeat split; try done; lia.
Qed.

Lemma mirror_apply_last_app em sf st rounds i k :
  mirror_apply_last em sf st (rounds ++ [i]) k =
  if bool_decide (mirror_apply_target em sf st i = Some k) then Some i
  else mirror_apply_last em sf st rounds k.
Proof.
  induction rounds as [|j rounds IH]; simpl.
  - by case_bool_decide.
  - rewrite IH. case_bool_decide; [done|].
    by destruct (mirror_apply_last em sf st rounds k).
Qed.

Lemma mirror_apply_last_Some em sf st rounds k i :
  mirror_apply_last em sf st rounds k = Some i →
  i ∈ rounds ∧ mirror_apply_target em sf st i = Some k.
Proof.
  induction rounds as [|j rounds IH]; simpl; [done|].
  destruct (mirror_apply_last em sf st rounds k) as [i'|].
  - intros [= ->]. destruct IH as [? ?]; [done|]. split; [by right|done].
  - case_bool_decide; [|done]. intros [= ->]. split; [by left|done].
Qed.

(** A round never overwrites a vertex that a round reads, when the two
    selection states differ. *)
Lemma mirror_apply_last_source em sf st rounds i k :
  sf ≠ st → mirror_apply_target em sf st i = Some k →
  mirror_apply_last em sf st rounds i = None.
Proof.
  intros Hne (Hi & _)%mirror_apply_target_flags.
  destruct (mirror_apply_last em sf st rounds i) as [j|] eqn:Hj; [|done].
  apply mirror_apply_last_Some in Hj as (_ & (_ & Hi' & _)%mirror_apply_target_flags).
  congruence.
Qed.

(** The state after the rounds [rounds]: a vertex holds the reflection of
    the vertex read by the last round that overwrote it. *)
Lemma mirror_apply_rounds em sf st rounds :
  sf ≠ st →
  let em' := foldl (mirror_apply_vert sf st) em rounds in
  same_frame em em'
  ∧ ∀ k, verts (bm em') !! k =
         match mirror_apply_last em sf st rounds k with
         | Some i => with_co (negate_axis 0 (vert_co (bm em) i)) <$> verts (bm em) !! k
         | None => verts (bm em) !! k
         end.
Proof.
  intros Hne. induction rounds as [|i rounds IH] using rev_ind; simpl.
  { split; [apply same_frame_refl|done]. }
  rewrite foldl_app. simpl in *. destruct IH as [Hfr IH].
  set (em1 := foldl (mirror_apply_vert sf st) em rounds) in *.
  split.
  { eapply same_frame_trans; [done|]. apply mirror_apply_vert_frame. }
  intros k. rewrite mirror_apply_last_app, mirror_apply_vert_spec.
  rewrite (same_frame_target _ _ sf st i Hfr).
  destruct (mirror_apply_target em sf st i) as [w|] eqn:Hw.
  - assert (vert_co (bm em1) i = vert_co (bm em) i) as ->.
    { unfold vert_co. by rewrite IH, (mirror_apply_last_source _ _ _ _ _ _ Hne Hw). }
    simpl. case_bool_decide as Hk.
    + injection Hk as ->. rewrite list_lookup_alter_eq, IH.
      destruct (mirror_apply_last em sf st rounds k); [|done].
      by destruct (verts (bm em) !! k).
    + rewrite list_lookup_alter_ne by congruence. apply IH.
  - rewrite bool_decide_eq_false_2 by done. apply IH.
Qed.

Lemma mirror_apply_frame em sf st :
  sf ≠ st → same_frame em (EDBM_verts_mirror_apply em sf st).
Proof. intros Hne. by apply mirror_apply_rounds. Qed.

Lemma mirror_apply_lookup em sf st k :
  sf ≠ st →
  verts (bm (EDBM_verts_mirror_apply em sf st)) !! k =
  match mirror_apply_last em sf st (seq 0 (length (verts (bm em)))) k with
  | Some i => with_co (negate_axis 0 (vert_co (bm em) i)) <$> verts (bm em) !! k
  | None => verts (bm em) !! k
  end.
Proof. intros Hne. by apply mirror_apply_rounds. Qed.

Lemma mirror_apply_last_frame em em' sf st rounds k :
  same_frame em em' →
  mirror_apply_last em' sf st rounds k = mirror_apply_last em sf st rounds k.
Proof.
  intros Hfr. induction rounds as [|i rounds IH]; simpl; [done|].
  by rewrite IH, (same_frame_target _ _ sf st i Hfr).
Qed.

(** C7.  A second [EDBM_verts_mirror_apply] with the same two selection
    states changes nothing when they differ, as [true] and [false] do:
    every position stays what the first call made it. *)
Theorem EDBM_verts_mirror_apply_twice em sel_from sel_to :
  sel_from ≠ sel_to →
  EDBM_verts_mirror_apply (EDBM_verts_mirror_apply em sel_from sel_to) sel_from sel_to
  = EDBM_verts_mirror_apply em sel_from sel_to.
Proof.
  intros Hne.
  pose proof (mirror_apply_frame em sel_from sel_to Hne) as Hfr.
  pose proof (λ k, mirror_apply_lookup em sel_from sel_to k Hne) as Hk.
  set (em1 := EDBM_verts_mirror_apply em sel_from sel_to) in *.
  apply same_frame_eq; [by apply mirror_apply_frame|]. apply list_eq. intros k.
  rewrite (mirror_apply_lookup em1 _ _ _ Hne).
  rewrite (mirror_apply_last_frame _ _ _ _ _ _ Hfr), (same_frame_length _ _ Hfr).
  destruct (mirror_apply_last em sel_from sel_to _ k) as [i|] eqn:Hi; [|done].
  apply mirror_apply_last_Some in Hi as Hi'. destruct Hi' as [_ Htgt].
  assert (vert_co (bm em1) i = vert_co (bm em) i) as ->.
  { unfold vert_co. by rewrite Hk, (mirror_apply_last_source _ _ _ _ _ _ Hne Htgt). }
  rewrite Hk, Hi. by destruct (verts (bm em) !! k).
Qed.

Lemma mirror_apply_last_seq em sf st n k v :
  v < n → mirror_apply_target em sf st v = Some k →
  (∀ v', mirror_apply_target em sf st v' = Some k → v' ≤ v) →
  mirror_apply_last em sf st (seq 0 n) k = Some v.
Proof.
  intros Hv Htgt Hlast. induction n as [|n IH]; [lia|].
  rewrite seq_S, mirror_apply_last_app. simpl. case_bool_decide as Hn.
  - apply Hlast in Hn. f_equal. lia.
  - apply IH. destruct (decide (v = n)) as [->|]; [done|lia].
Qed.

Lemma mirror_apply_target_intro em sf st v mirr :
  v < length (verts (bm em)) →
  vert_flag (bm em) v BM_ELEM_SELECT = sf →
  EDBM_verts_mirror_get em v = Some mirr →
  vert_flag (bm em) mirr BM_ELEM_SELECT = st →
  mirror_apply_target em sf st v = Some mirr.
Proof.
  unfold mirror_apply_target, vert_flag at 1.
  intros (x & Hx)%lookup_lt_is_Some_2. rewrite Hx.
  intros -> -> ->. by rewrite !Z.eqb_refl.
Qed.

(** C1, as amended.  With two different selection states,
    [EDBM_verts_mirror_apply] leaves in the mirror of [v] the position of
    [v] with coordinate 0 (X) negated and the other coordinates copied,
    whatever axis the cache was built for; [v] has the state [sel_from],
    its mirror the state [sel_to], and no later vertex of state [sel_from]
    has the same mirror.  The position of [v] itself is not changed. *)
Theorem EDBM_verts_mirror_apply_reflects_x em sel_from sel_to v mirr :
  sel_from ≠ sel_to →
  v < length (verts (bm em)) →
  vert_flag (bm em) v BM_ELEM_SELECT = sel_from →
  EDBM_verts_mirror_get em v = Some mirr →
  vert_flag (bm em) mirr BM_ELEM_SELECT = sel_to →
  (∀ v', vert_flag (bm em) v' BM_ELEM_SELECT = sel_from →
         EDBM_verts_mirror_get em v' = Some mirr → v' ≤ v) →
  let em' := EDBM_verts_mirror_apply em sel_from sel_to in
  vert_co (bm em') mirr = negate_axis 0 (vert_co (bm em) v)
  ∧ vert_co (bm em') v = vert_co (bm em) v
  ∧ (∀ x y z, vert_co (bm em) v = [x; y; z] →
       vert_co (bm em') mirr = [f_mul x f_neg_one; y; z]).
Proof.
  intros Hne Hv Hsf Hget Hst Hlast em'.
  pose proof (mirror_apply_target_intro _ _ _ _ _ Hv Hsf Hget Hst) as Htgt.
  assert (vert_co (bm em') mirr = negate_axis 0 (vert_co (bm em) v)) as Hco.
  { unfold vert_co at 1, em'. rewrite mirror_apply_lookup by done.
    rewrite (mirror_apply_last_seq _ _ _ _ _ v Hv Htgt).
    - apply mirror_get_lt, lookup_lt_is_Some_2 in Hget as [x ->]. done.
    - intros v' (?&?&?&?)%mirror_apply_target_flags. by apply Hlast. }
  split; [done|]. split.
  - unfold vert_co, em'. rewrite mirror_apply_lookup by done.
    by rewrite (mirror_apply_last_source _ _ _ _ _ _ Hne Htgt).
  - intros x y z Hxyz. by rewrite Hco, Hxyz.
Qed.

End MirrorApply.

Lemma EDBM_verts_mirror_apply_reflects_x_witness :
  vert_co (bm (EDBM_verts_mirror_apply em_cached_x 1 0)) 1
    = negate_axis 0 (vert_co (bm em_cached_x) 0)
  ∧ vert_co (bm (EDBM_verts_mirror_apply em_cached_x 1 0)) 0 = vert_co (bm em_cached_x) 0
  ∧ (∀ x y z, vert_co (bm em_cached_x) 0 = [x; y; z] →
       vert_co (bm (EDBM_verts_mirror_apply em_cached_x 1 0)) 1 = [f_mul x f_neg_one; y; z]).
Proof.
  apply (EDBM_verts_mirror_apply_reflects_x em_cached_x 1 0 0 1).
  - lia.
  - vm_compute. lia.
  - reflexivity.
  - reflexivity.
  - reflexivity.
  - intros [|[|[|v']]]; vm_compute; intros; try lia; discriminate.
Defined.

(** C1, as stated, fails: the cache is built for axis 1 (Y), vertex 0 is
    selected, its mirror is vertex 1, which is not; the mirror ends with X
    negated, while the reflection across Y negates Y. *)
Lemma EDBM_verts_mirror_apply_axis_counterexample :
  let em' := EDBM_verts_mirror_apply em_cached_y 1 0 in
  vert_flag (bm em_cached_y) 0 BM_ELEM_SELECT = 1%Z
  ∧ EDBM_verts_mirror_get em_cached_y 0 = Some 1
  ∧ vert_flag (bm em_cached_y) 1 BM_ELEM_SELECT = 0%Z
  ∧ vert_co (bm em_cached_y) 0 = [1%Q; 2%Q; 3%Q]
  ∧ vert_co (bm em') 1 = [(-1)%Q; 2%Q; 3%Q]
  ∧ negate_axis 1 (vert_co (bm em_cached_y) 0) = [1%Q; (-2)%Q; 3%Q]
  ∧ vert_co (bm em') 1 ≠ negate_axis 1 (vert_co (bm em_cached_y) 0).
Proof. vm_compute. repeat split; discriminate. Qed.

Lemma EDBM_verts_mirror_apply_twice_witness :
  (1 ≠ 0)%Z
  ∧ EDBM_verts_mirror_apply (EDBM_verts_mirror_apply em_cached_x 1 0) 1 0
    = EDBM_verts_mirror_apply em_cached_x 1 0.
Proof. split; [lia|]. apply (EDBM_verts_mirror_apply_twice em_cached_x 1 0). lia. Defined.

(** * Mirror cache: building *)

Section KDTree.
Context {F : Type} `{FloatOps F}.

Lemma kdtree_nearest_from_in (co : list F) best d (nodes : KDTree_3d) :
  kdtree_nearest_from co best d nodes = best
  ∨ kdtree_nearest_from co best d nodes ∈ nodes.*1.
Proof.
  revert best d. induction nodes as [|[i p] nodes IH]; intros best d; simpl; [by left|].
  destruct (f_lt _ d).
  - destruct (IH i (len_squared_v3v3 co p)) as [->|Hin]; right; [by left|by right].
  - destruct (IH best d) as [->|Hin]; [by left|]. right. by right.
Qed.

Lemma BLI_kdtree_3d_find_nearest_in (tree : KDTree_3d) (co : list F) :
  BLI_kdtree_3d_find_nearest tree co = (-1)%Z
  ∨ ∃ i, BLI_kdtree_3d_find_nearest tree co = Z.of_nat i ∧ i ∈ tree.*1.
Proof.
  destruct tree as [|[i p] rest]; simpl; [by left|]. right.
  eexists. split; [done|].
  destruct (kdtree_nearest_from_in co i (len_squared_v3v3 co p) rest) as [->|Hin];
    [by left|by right].
Qed.

Lemma mirror_tree_fill_in respecthide start (vs : list (BMVert F)) tree i :
  i ∈ (mirror_tree_fill respecthide start vs tree).*1 →
  i ∈ tree.*1
  ∨ ∃ v, start ≤ i ∧ vs !! (i - start) = Some v
         ∧ respecthide && flag_set (v_hflag v) BM_ELEM_HIDDEN = false.
Proof.
  revert start tree. induction vs as [|v vs IH]; intros start tree; simpl; [by left|].
  destruct (respecthide && flag_set (v_hflag v) BM_ELEM_HIDDEN) eqn:Hhid.
  - intros [Hin|(w & Hle & Hw & Hvis)]%IH; [by left|]. right. exists w.
    split; [lia|]. split; [|done].
    replace (i - start) with (S (i - S start)) by lia. done.
  - intros [Hin|(w & Hle & Hw & Hvis)]%IH.
    + unfold BLI_kdtree_3d_insert in Hin. rewrite fmap_app in Hin.
      apply elem_of_app in Hin as [Hin|Hin]; [by left|].
      apply list_elem_of_singleton in Hin as ->. right. exists v.
      rewrite Nat.sub_diag. done.
    + right. exists w. split; [lia|]. split; [|done].
      replace (i - start) with (S (i - S start)) by lia. done.
Qed.

End KDTree.

Section MirrorCache.
Context {F : Type} `{FloatOps F}.
Context (m : BMesh F) (axis : nat) (use_self use_select respecthide use_topology : bool).
Context (maxdist : F) (index_lookup : list Z).

Local Abbreviation tree := (mirror_cache_tree m respecthide use_topology).
Local Abbreviation skipped := (mirror_cache_skipped m use_select respecthide).
Local Abbreviation found :=
  (mirror_cache_found m axis use_self use_select respecthide use_topology maxdist index_lookup).
Local Abbreviation round :=
  (mirror_cache_vert m axis use_self use_select respecthide use_topology
     (square_f maxdist) index_lookup tree).

(** The search never answers a vertex that the hide filter passes over. *)
Lemma mirror_find_visible i v k :
  mirror_find m axis respecthide use_topology (square_f maxdist) index_lookup tree i v
    = Some k →
  respecthide = true → vert_flag m k BM_ELEM_HIDDEN = 0%Z.
Proof.
  unfold mirror_find, mirror_cache_tree. intros Hk ->. destruct use_topology.
  - destruct (cache_mirr_intptr_as_bmvert index_lookup i) as [w|]; [|done].
    simpl in Hk. destruct (vert_flag m w BM_ELEM_HIDDEN =? 0)%Z eqn:Hw; [|done].
    simpl in Hk. injection Hk as <-. lia.
  - destruct (BLI_kdtree_3d_find_nearest_in
                (mirror_tree_fill true 0 (verts m) []) (negate_axis axis (v_co v)))
      as [Hnone|(j & Hj & Hin)].
    + rewrite Hnone in Hk. done.
    + rewrite Hj in Hk. destruct (Z.of_nat j =? -1)%Z eqn:?; [lia|].
      rewrite Nat2Z.id in Hk. destruct (verts m !! j) as [vj|] eqn:Hvj; [|done].
      destruct (f_lt _ _); [|done]. injection Hk as <-.
      apply mirror_tree_fill_in in Hin as [Hin|(w & _ & Hw & Hvis)].
      { by apply elem_of_nil in Hin. }
      rewrite Nat.sub_0_r in Hw. unfold vert_flag. rewrite Hvj.
      rewrite Hvj in Hw. injection Hw as <-. simpl in Hvis. unfold flag_set in Hvis.
      destruct (BM_elem_flag_test (v_hflag vj) BM_ELEM_HIDDEN =? 0)%Z eqn:Hz; [lia|done].
Qed.

Lemma mirror_cache_skipped_hidden k vk :
  verts m !! k = Some vk → respecthide = true →
  flag_set (v_hflag vk) BM_ELEM_HIDDEN = true → skipped k = true.
Proof. unfold mirror_cache_skipped. by intros -> -> ->. Qed.

Lemma mirror_cache_skipped_unselected k vk :
  verts m !! k = Some vk → use_select = true →
  flag_set (v_hflag vk) BM_ELEM_SELECT = false → skipped k = true.
Proof. unfold mirror_cache_skipped. intros -> -> ->. by rewrite orb_true_r. Qed.

Lemma mirror_cache_found_skipped i : skipped i = true → found i = None.
Proof.
  unfold mirror_cache_found. intros ->. by destruct (verts m !! i).
Qed.

Lemma mirror_cache_found_visible i k :
  found i = Some k → respecthide = true → vert_flag m k BM_ELEM_HIDDEN = 0%Z.
Proof.
  unfold mirror_cache_found. destruct (verts m !! i) as [v|]; [|done].
  destruct (skipped i); [done|].
  destruct (mirror_find _ _ _ _ _ _ _ _ _) as [w|] eqn:Hw; [|done].
  destruct (use_self || _); [|done]. intros [= <-]. by eapply mirror_find_visible.
Qed.

(** One round of the cache loop, read off [mirror_cache_found]. *)
Lemma mirror_cache_vert_spec table i :
  round table i =
  if skipped i then table
  else match found i with
       | Some v_mirr => <[v_mirr := Z.of_nat i]> (<[i := Z.of_nat v_mirr]> table)
       | None => <[i := (-1)%Z]> table
       end.
Proof.
  unfold mirror_cache_vert, mirror_cache_found, mirror_cache_skipped.
  destruct (verts m !! i) as [v|]; [|done].
  destruct (respecthide && _); [done|]. simpl.
  destruct (use_select && _); [done|].
  destruct (mirror_find _ _ _ _ _ _ _ _ _) as [w|]; [|done].
  by destruct (use_self || _).
Qed.

Lemma mirror_cache_table_rounds table :
  mirror_cache_table m axis use_self use_select respecthide use_topology maxdist
    index_lookup table
  = foldl round table (seq 0 (length (verts m))).
Proof. done. Qed.

Lemma mirror_cache_rounds_length table rounds :
  length (foldl round table rounds) = length table.
Proof.
  revert table. induction rounds as [|i rounds IH]; intros table; simpl; [done|].
  rewrite IH, mirror_cache_vert_spec. destruct (skipped i); [done|].
  destruct (found i); by rewrite ?length_insert.
Qed.

(** A slot that no round owns or finds keeps its content. *)
Lemma mirror_cache_rounds_untouched table rounds k :
  skipped k = true → (∀ i, found i ≠ Some k) →
  foldl round table rounds !! k = table !! k.
Proof.
  intros Hskip Hfree. revert table.
  induction rounds as [|i rounds IH]; intros table; simpl; [done|].
  rewrite IH, mirror_cache_vert_spec.
  destruct (skipped i) eqn:Hi; [done|].
  assert (i ≠ k) by congruence.
  destruct (found i) as [w|] eqn:Hw.
  - assert (w ≠ k) by (intros ->; by eapply Hfree).
    by rewrite !list_lookup_insert_ne.
  - by rewrite list_lookup_insert_ne.
Qed.

End MirrorCache.

Section MirrorCacheWrites.
Context {F : Type} `{FloatOps F}.
Context (m : BMesh F) (axis : nat) (use_self use_select respecthide use_topology : bool).
Context (maxdist : F) (index_lookup : list Z).

Local Abbreviation tree := (mirror_cache_tree m respecthide use_topology).
Local Abbreviation skipped := (mirror_cache_skipped m use_select respecthide).
Local Abbreviation found :=
  (mirror_cache_found m axis use_self use_select respecthide use_topology maxdist index_lookup).
Local Abbreviation round :=
  (mirror_cache_vert m axis use_self use_select respecthide use_topology
     (square_f maxdist) index_lookup tree).
Local Abbreviation writes :=
  (mirror_cache_writes m axis use_self use_select respecthide use_topology maxdist
     index_lookup).
Local Abbreviation rewritten :=
  (mirror_cache_rewritten m axis use_self use_select respecthide use_topology maxdist
     index_lookup).

Lemma mirror_cache_writes_lt j k : writes j k → j < length (verts m).
Proof.
  intros [Hj _]. unfold mirror_cache_skipped in Hj.
  destruct (verts m !! j) eqn:Hv; [|done]. by eapply lookup_lt_Some.
Qed.

Lemma mirror_cache_writes_dec j k : writes j k ∨ ¬ writes j k.
Proof.
  unfold mirror_cache_writes. destruct (skipped j); [right; by intros [? _]|].
  destruct (decide (j = k)) as [->|Hne]; [left; split; [done|by left]|].
  destruct (decide (found j = Some k)) as [Hf|Hf]; [left; split; [done|by right]|].
  right. intros [_ [?|?]]; done.
Qed.

(** A round that writes neither slot changes nothing for the pair. *)
Lemma mirror_cache_rewritten_keep n v k :
  ¬ writes n v → ¬ writes n k → rewritten (S n) v k ↔ rewritten n v k.
Proof.
  intros Hv Hk. split.
  - intros (j & Hj & Hw & Hlater). exists j.
    assert (j ≠ n) by (by intros ->). split; [lia|]. split; [done|].
    intros i Hi Hin. apply Hlater; lia.
  - intros (j & Hj & Hw & Hlater). exists j. split; [lia|]. split; [done|].
    intros i Hi Hin. destruct (decide (i = n)) as [->|]; [done|]. apply Hlater; lia.
Qed.

Lemma mirror_cache_rewritten_reset n v k : writes n v → ¬ rewritten (S n) v k.
Proof.
  intros Hv (j & Hj & _ & Hlater). apply (Hlater n); [lia|lia|done].
Qed.

Lemma mirror_cache_rewritten_now n v k :
  ¬ writes n v → writes n k → rewritten (S n) v k.
Proof.
  intros Hv Hk. exists n. split; [lia|]. split; [done|].
  intros i Hi Hin. by replace i with n by lia.
Qed.

(** After the first [n] rounds: a slot [v] that was written and holds
    [v_mirr] is held by slot [v_mirr] exactly when that slot was not
    written again after the last write of slot [v]. *)
Lemma mirror_cache_rounds_pair table n v v_mirr :
  length (verts m) ≤ length table → v_mirr < length (verts m) →
  (∃ i, i < n ∧ writes i v) →
  foldl round table (seq 0 n) !! v = Some (Z.of_nat v_mirr) →
  foldl round table (seq 0 n) !! v_mirr = Some (Z.of_nat v) ↔ ¬ rewritten n v v_mirr.
Proof.
  intros Hlen Hm. induction n as [|n IH]; [by intros (i & ? & _); lia|].
  rewrite seq_S, foldl_app. simpl. rewrite mirror_cache_vert_spec.
  set (T := foldl round table (seq 0 n)) in *.
  assert (length T = length table) as HT by apply mirror_cache_rounds_length.
  intros Hwriter Hv.
  assert (¬ writes n v → ¬ writes n v_mirr →
          (if skipped n then T
           else match found n with
                | Some w => <[w := Z.of_nat n]> (<[n := Z.of_nat w]> T)
                | None => <[n := (-1)%Z]> T
                end) !! v = T !! v
          ∧ (if skipped n then T
             else match found n with
                  | Some w => <[w := Z.of_nat n]> (<[n := Z.of_nat w]> T)
                  | None => <[n := (-1)%Z]> T
                  end) !! v_mirr = T !! v_mirr) as Hsame.
  { intros Hnv Hnm. destruct (skipped n) eqn:Hs; [done|].
    assert (n ≠ v) by (intros ->; apply Hnv; split; [done|by left]).
    assert (n ≠ v_mirr) by (intros ->; apply Hnm; split; [done|by left]).
    destruct (found n) as [w|] eqn:Hw.
    - assert (w ≠ v) by (intros ->; apply Hnv; split; [done|by right]).
      assert (w ≠ v_mirr) by (intros ->; apply Hnm; split; [done|by right]).
      by rewrite !list_lookup_insert_ne.
    - by rewrite !list_lookup_insert_ne. }
  destruct (mirror_cache_writes_dec n v) as [Hnv|Hnv].
  - (* round [n] writes slot [v], and with it the slot of its mirror *)
    split; [intros _; by apply mirror_cache_rewritten_reset|]. intros _.
    pose proof (mirror_cache_writes_lt _ _ Hnv) as Hn.
    destruct Hnv as [Hs Hnv]. rewrite Hs in *.
    destruct (found n) as [w|] eqn:Hw.
    + destruct (decide (w = v)) as [->|Hwv].
      * pose proof (lookup_lt_Some _ _ _ Hv) as Hlt. rewrite !length_insert in Hlt.
        rewrite list_lookup_insert_eq in Hv by (by rewrite length_insert).
        injection Hv as Hv. apply Nat2Z.inj in Hv as <-.
        destruct (decide (n = v)) as [->|Hne].
        -- apply list_lookup_insert_eq. rewrite length_insert. lia.
        -- rewrite list_lookup_insert_ne by done.
           apply list_lookup_insert_eq. lia.
      * destruct Hnv as [<-|?]; [|congruence].
        rewrite list_lookup_insert_ne in Hv by done.
        rewrite list_lookup_insert_eq in Hv by lia.
        injection Hv as Hv. apply Nat2Z.inj in Hv as <-.
        apply list_lookup_insert_eq. rewrite length_insert. lia.
    + destruct Hnv as [<-|?]; [|done].
      rewrite list_lookup_insert_eq in Hv by lia. injection Hv as Hv. lia.
  - destruct (mirror_cache_writes_dec n v_mirr) as [Hnm|Hnm].
    + (* round [n] writes the slot of the mirror only *)
      split; [|intros Hno; destruct Hno; by apply mirror_cache_rewritten_now].
      intros Hback. exfalso.
      pose proof (mirror_cache_writes_lt _ _ Hnm) as Hn.
      destruct Hnm as [Hs Hnm]. rewrite Hs in *.
      assert (n ≠ v) by (intros ->; apply Hnv; split; [done|by left]).
      destruct (found n) as [w|] eqn:Hw.
      * assert (w ≠ v) by (intros ->; apply Hnv; split; [done|by right]).
        destruct (decide (w = v_mirr)) as [->|Hwm].
        -- rewrite list_lookup_insert_eq in Hback by (rewrite length_insert; lia).
           injection Hback as Hback. lia.
        -- destruct Hnm as [<-|?]; [|congruence].
           rewrite list_lookup_insert_ne in Hback by done.
           rewrite list_lookup_insert_eq in Hback by lia.
           injection Hback as Hback. lia.
      * destruct Hnm as [<-|?]; [|done].
        rewrite list_lookup_insert_eq in Hback by lia. injection Hback as Hback. lia.
    + destruct (Hsame Hnv Hnm) as [Hv' Hm']. rewrite Hm'. rewrite Hv' in Hv.
      rewrite mirror_cache_rewritten_keep by done. apply IH; [|done].
      destruct Hwriter as (i & Hi & Hw). exists i. split; [|done].
      destruct (decide (i = n)) as [->|]; [done|lia].
Qed.

(** A slot that no round owns holds, after the first [n] rounds, what it
    held before if no round found it, and the index of the last round that
    found it otherwise. *)
Lemma mirror_cache_rounds_finder table n k :
  skipped k = true → k < length table →
  ((∀ i, i < n → found i ≠ Some k) → foldl round table (seq 0 n) !! k = table !! k)
  ∧ (∀ i, i < n → found i = Some k → (∀ j, i < j → j < n → found j ≠ Some k) →
       foldl round table (seq 0 n) !! k = Some (Z.of_nat i)).
Proof.
  intros Hskip Hk. induction n as [|n [IHfree IHlast]].
  { split; [done|]. intros i ?. lia. }
  rewrite seq_S, foldl_app. simpl. rewrite mirror_cache_vert_spec.
  set (T := foldl round table (seq 0 n)) in *.
  assert (length T = length table) as HT by apply mirror_cache_rounds_length.
  destruct (skipped n) eqn:Hn.
  { pose proof (mirror_cache_found_skipped m axis use_self use_select respecthide
                  use_topology maxdist index_lookup n Hn) as Hnone.
    split.
    - intros Hfree. apply IHfree. intros i Hi. apply Hfree. lia.
    - intros i Hi Hfi Hlast. assert (i ≠ n) by congruence.
      apply IHlast; [lia|done|]. intros j Hj Hjn. apply Hlast; lia. }
  assert (n ≠ k) by congruence.
  destruct (found n) as [w|] eqn:Hw.
  - destruct (decide (w = k)) as [->|Hwk].
    + split.
      * intros Hfree. destruct (Hfree n); [lia|done].
      * intros i Hi Hfi Hlast. destruct (decide (i = n)) as [->|Hne].
        -- apply list_lookup_insert_eq. rewrite length_insert. lia.
        -- destruct (Hlast n); [lia|lia|done].
    + rewrite !list_lookup_insert_ne by done. split.
      * intros Hfree. apply IHfree. intros i Hi. apply Hfree. lia.
      * intros i Hi Hfi Hlast. assert (i ≠ n) by congruence.
        apply IHlast; [lia|done|]. intros j Hj Hjn. apply Hlast; lia.
  - rewrite list_lookup_insert_ne by done. split.
    + intros Hfree. apply IHfree. intros i Hi. apply Hfree. lia.
    + intros i Hi Hfi Hlast. assert (i ≠ n) by congruence.
      apply IHlast; [lia|done|]. intros j Hj Hjn. apply Hlast; lia.
Qed.

End MirrorCacheWrites.

Section MirrorCacheBegin.
Context {F : Type} `{FloatOps F}.
Implicit Types (em : BMEditMesh F) (m : BMesh F).

Lemma find_index_lt {A} (p : A → bool) (l : list A) n :
  find_index p l = Some n → n < length l.
Proof.
  intros (x & Hx & _)%find_index_Some. by apply lookup_lt_Some in Hx.
Qed.

Lemma find_index_snoc {A} (p : A → bool) (l : list A) x :
  find_index p l = None → p x = true → find_index p (l ++ [x]) = Some (length l).
Proof.
  intros Hnone Hp. induction l as [|y l IH]; simpl in *; [by rewrite Hp|].
  destruct (p y); [done|].
  destruct (find_index p l); [done|]. by rewrite IH.
Qed.

Lemma foldl_pointwise {A B} (f g : A → B → A) a l :
  (∀ x y, f x y = g x y) → foldl f a l = foldl g a l.
Proof.
  intros Hfg. revert a. induction l as [|y l IH]; intros a; simpl; [done|].
  by rewrite Hfg, IH.
Qed.

Lemma mirror_cache_table_verts m m' axis use_self use_select respecthide use_topology
    (maxdist : F) index_lookup table :
  verts m' = verts m →
  mirror_cache_table m' axis use_self use_select respecthide use_topology maxdist
    index_lookup table
  = mirror_cache_table m axis use_self use_select respecthide use_topology maxdist
      index_lookup table.
Proof.
  intros Hv. unfold mirror_cache_table. rewrite Hv.
  apply foldl_pointwise. intros tbl i.
  unfold mirror_cache_vert, mirror_find, vert_flag. by rewrite Hv.
Qed.

Lemma layer_slots_set_layer m n table :
  n < length (vdata m) → layer_slots (set_layer m n table) n = table.
Proof.
  intros (layer & Hl)%lookup_lt_is_Some_2. unfold layer_slots, set_layer. simpl.
  by rewrite list_lookup_alter_eq, Hl.
Qed.

Lemma layer_index_cases m name :
  (CustomData_get_named_layer_index m name = (-1)%Z
   ∧ find_index (λ layer, bool_decide (layer.1 = name)) (vdata m) = None)
  ∨ ∃ n, CustomData_get_named_layer_index m name = Z.of_nat n
         ∧ find_index (λ layer, bool_decide (layer.1 = name)) (vdata m) = Some n.
Proof.
  unfold CustomData_get_named_layer_index.
  destruct (find_index _ (vdata m)) as [n|]; [right; by exists n|by left].
Qed.

Lemma layer_index_added m name :
  find_index (λ layer, bool_decide (layer.1 = name)) (vdata m) = None →
  CustomData_get_named_layer_index (BM_data_layer_add_named m name) name
  = Z.of_nat (length (vdata m)).
Proof.
  intros Hnone. unfold CustomData_get_named_layer_index, BM_data_layer_add_named. simpl.
  by rewrite (find_index_snoc _ _ _ Hnone) by (by apply bool_decide_eq_true).
Qed.

(** The table [EDBM_verts_mirror_cache_begin_ex] leaves is what the two
    loops make of the table it starts from, in either storage. *)
Lemma mirror_cache_begin_ex_table em axis use_self use_select respecthide use_topology
    (maxdist : F) index_lookup r_index :
  mirror_table_after
    (EDBM_verts_mirror_cache_begin_ex em axis use_self use_select respecthide
       use_topology maxdist index_lookup r_index)
  = mirror_cache_table (bm em) axis use_self use_select respecthide use_topology
      maxdist index_lookup (mirror_table_before em r_index).
Proof.
  unfold EDBM_verts_mirror_cache_begin_ex, mirror_table_after, mirror_table_before.
  destruct r_index as [idx|]; simpl.
  { by apply mirror_cache_table_verts. }
  change (CustomData_get_named_layer_index (BM_mesh_elem_table_ensure (bm em)) BM_CD_LAYER_ID)
    with (CustomData_get_named_layer_index (bm em) BM_CD_LAYER_ID).
  destruct (layer_index_cases (bm em) BM_CD_LAYER_ID) as [[-> Hnone]|(n & -> & Hn)].
  - simpl.
    rewrite (layer_index_added (BM_mesh_elem_table_ensure (bm em)) _ Hnone). simpl.
    rewrite Nat2Z.id, layer_slots_set_layer by (simpl; rewrite length_app; simpl; lia).
    unfold layer_slots at 1. simpl.
    rewrite lookup_app_r, Nat.sub_diag by done. simpl.
    by apply mirror_cache_table_verts.
  - destruct (Z.eqb_spec (Z.of_nat n) (-1)) as [?|_]; [lia|].
    change (CustomData_get_named_layer_index (BM_mesh_elem_table_ensure (bm em)) BM_CD_LAYER_ID)
      with (CustomData_get_named_layer_index (bm em) BM_CD_LAYER_ID).
    unfold CustomData_get_named_layer_index. rewrite Hn, Nat2Z.id.
    rewrite layer_slots_set_layer by (by eapply find_index_lt).
    by apply mirror_cache_table_verts.
Qed.

(** C3, as amended.  [EDBM_verts_mirror_cache_begin_ex] passes over a vertex
    that is hidden (with [respecthide]) or not selected (with [use_select])
    without writing its entry: a hidden vertex keeps the entry it had
    before the call; a vertex that is not selected keeps it too when no
    search found it, and otherwise its entry is the index of the last
    vertex, in the order of the loop, whose search found it (that vertex
    was not passed over).  Nothing sets these entries to [-1]. *)
Theorem mirror_cache_begin_ex_passed_over em axis use_self use_select respecthide
    use_topology (maxdist : F) index_lookup r_index k vk :
  verts (bm em) !! k = Some vk →
  let before := mirror_table_before em r_index in
  let after :=
    mirror_table_after
      (EDBM_verts_mirror_cache_begin_ex em axis use_self use_select respecthide
         use_topology maxdist index_lookup r_index) in
  let found :=
    mirror_cache_found (bm em) axis use_self use_select respecthide use_topology
      maxdist index_lookup in
  (respecthide = true → flag_set (v_hflag vk) BM_ELEM_HIDDEN = true →
   after !! k = before !! k)
  ∧ (use_select = true → flag_set (v_hflag vk) BM_ELEM_SELECT = false →
     ((∀ i, found i ≠ Some k) → after !! k = before !! k)
     ∧ ∀ i, found i = Some k → (∀ j, i < j → found j ≠ Some k) →
         k < length before →
         after !! k = Some (Z.of_nat i)
         ∧ mirror_cache_skipped (bm em) use_select respecthide i = false).
Proof.
  intros Hk before after found. unfold after.
  rewrite mirror_cache_begin_ex_table, mirror_cache_table_rounds. split.
  - intros Hrh Hhid. apply mirror_cache_rounds_untouched.
    + by eapply mirror_cache_skipped_hidden.
    + intros i Hi. apply mirror_cache_found_visible in Hi; [|done].
      unfold vert_flag in Hi. rewrite Hk in Hi. unfold flag_set in Hhid.
      rewrite Hi in Hhid. done.
  - intros Hsel Hunsel.
    assert (mirror_cache_skipped (bm em) use_select respecthide k = true) as Hskip.
    { by eapply mirror_cache_skipped_unselected. }
    split.
    + intros Hfree. by apply mirror_cache_rounds_untouched.
    + intros i Hi Hlast Hlt.
      assert (mirror_cache_skipped (bm em) use_select respecthide i = false) as Hproc.
      { destruct (mirror_cache_skipped (bm em) use_select respecthide i) eqn:Hs; [|done].
        unfold found in Hi. by rewrite mirror_cache_found_skipped in Hi. }
      split; [|done].
      apply (mirror_cache_rounds_finder (bm em) axis use_self use_select respecthide
               use_topology maxdist index_lookup before (length (verts (bm em))) k
               Hskip Hlt); [|done|].
      * unfold mirror_cache_skipped in Hproc.
        destruct (verts (bm em) !! i) eqn:Hvi; [|done]. by eapply lookup_lt_Some.
      * intros j Hj _. by apply Hlast.
Qed.

(** C2, as amended.  On a table with a slot for every vertex: when some
    round wrote the slot of [v] and the table
    [EDBM_verts_mirror_cache_begin_ex] leaves maps [v] to the vertex
    [v_mirr], it maps [v_mirr] back to [v] exactly when no round wrote the
    slot of [v_mirr] after the last write of the slot of [v].  A round
    that is not passed over writes the slot of its vertex and the slot of
    the mirror it stores, so the two entries of a pair are written
    together; a later round that rewrites one of them alone (the round of
    [v_mirr] storing another mirror or none, or the round of another
    vertex that finds [v_mirr] too) leaves the table asymmetric. *)
Theorem mirror_cache_begin_ex_symmetric em axis use_self use_select respecthide
    use_topology (maxdist : F) index_lookup r_index v v_mirr :
  let writes :=
    mirror_cache_writes (bm em) axis use_self use_select respecthide use_topology
      maxdist index_lookup in
  let after :=
    mirror_table_after
      (EDBM_verts_mirror_cache_begin_ex em axis use_self use_select respecthide
         use_topology maxdist index_lookup r_index) in
  length (verts (bm em)) ≤ length (mirror_table_before em r_index) →
  v_mirr < length (verts (bm em)) →
  (∃ i, writes i v) →
  after !! v = Some (Z.of_nat v_mirr) →
  after !! v_mirr = Some (Z.of_nat v)
  ↔ ¬ mirror_cache_rewritten (bm em) axis use_self use_select respecthide use_topology
        maxdist index_lookup (length (verts (bm em))) v v_mirr.
Proof.
  intros writes after Hlen Hm (i & Hi). unfold after.
  rewrite mirror_cache_begin_ex_table, mirror_cache_table_rounds.
  apply mirror_cache_rounds_pair; [done|done|].
  exists i. split; [|done]. by eapply mirror_cache_writes_lt.
Qed.

End MirrorCacheBegin.

(** * UV maps: the merge pass *)


Lemma elem_of_rev {A} (l : list A) x : x ∈ rev l ↔ x ∈ l.
Proof. by rewrite !list_elem_of_In, <-in_rev. Qed.

Section ChainGroups.

Lemma chain_groups_ext sep sep' chain :
  (∀ e, e ∈ chain → sep e = sep' e) →
  chain_groups sep chain = chain_groups sep' chain.
Proof.
  induction chain as [|e rest IH]; intros Hext; simpl; [done|].
  rewrite IH by (intros; apply Hext; by right).
  destruct rest as [|e' rest']; [done|].
  rewrite (Hext e') by (right; by left). done.
Qed.

Lemma chain_groups_concat sep chain : concat (chain_groups sep chain) = chain.
Proof.
  induction chain as [|e rest IH]; simpl; [done|].
  destruct (chain_groups sep rest) as [|g gs] eqn:Hg.
  - simpl in IH. by subst.
  - destruct (match rest with [] => false | e' :: _ => sep e' end);
      simpl in *; by rewrite IH.
Qed.

Lemma chain_groups_nil sep chain : chain_groups sep chain = [] → chain = [].
Proof. intros Hg. by rewrite <-(chain_groups_concat sep chain), Hg. Qed.

(** A run of elements of which only the first is flagged is one subgroup,
    when what follows starts a subgroup of its own. *)
Lemma chain_groups_cons sep x tl rest :
  Forall (λ e, sep e = false) tl →
  match rest with e' :: _ => sep e' = true | [] => True end →
  chain_groups sep ((x :: tl) ++ rest) = (x :: tl) :: chain_groups sep rest.
Proof.
  intros Htl Hrest. revert x. induction tl as [|y tl IH]; intros x.
  - simpl. destruct rest as [|e' rest']; [done|]. rewrite Hrest.
    destruct (chain_groups sep (e' :: rest')) eqn:Hg; [|done].
    by apply chain_groups_nil in Hg.
  - apply Forall_cons in Htl as [Hy Htl].
    change (chain_groups sep ((x :: y :: tl) ++ rest))
      with (match chain_groups sep ((y :: tl) ++ rest) with
            | g :: gs => if sep y then [x] :: g :: gs else (x :: g) :: gs
            | [] => [[x]]
            end).
    by rewrite IH, Hy.
Qed.

Lemma greedy_ok_ext conn conn' groups :
  (∀ h e, conn h e = conn' h e) → greedy_ok conn groups → greedy_ok conn' groups.
Proof.
  intros Hext. induction groups as [|g earlier IH]; simpl; [done|].
  intros ((body & h & -> & Hbody) & Hearlier & Hrest). split; [|split].
  - exists body, h. split; [done|].
    eapply Forall_impl; [done|]. intros e He. simpl in *. by rewrite <-Hext.
  - intros g' h' Hg' Hh'. eapply Forall_impl; [by eapply Hearlier|].
    intros e He. simpl in *. by rewrite <-Hext.
  - by apply IH.
Qed.

End ChainGroups.

Section MergeFacts.
Context {B : Type} (conn : list B → nat → nat → bool).
Context (sep : B → bool) (set_sep : B → B).
Hypothesis sep_set : ∀ b, sep (set_sep b) = true.
Hypothesis conn_set : ∀ buf i v e, conn (alter set_sep i buf) v e = conn buf v e.

Local Abbreviation merge_inv := (merge_inv conn sep).
Local Abbreviation chains_ok := (chains_ok sep).

(** The inner loop splits what is left of the chain: the elements that
    pass the test go on [newvlist], the last one first. *)
Lemma uv_merge_scan_spec buf v iterv newvlist :
  ∃ matched,
    (uv_merge_scan conn buf v iterv newvlist).1 = rev matched ++ newvlist
    ∧ Forall (λ e, conn buf v e = true) matched
    ∧ Forall (λ e, conn buf v e = false) (uv_merge_scan conn buf v iterv newvlist).2
    ∧ matched ++ (uv_merge_scan conn buf v iterv newvlist).2 ≡ₚ iterv.
Proof.
  revert newvlist. induction iterv as [|e next IH]; intros newvlist; simpl.
  { exists []. by repeat split. }
  destruct (conn buf v e) eqn:He.
  - destruct (IH (e :: newvlist)) as (matched & Hnl & Hm & Hr & Hp).
    exists (e :: matched). split; [|split; [|split]].
    + rewrite Hnl. simpl. by rewrite <-app_assoc.
    + by constructor.
    + done.
    + simpl. by constructor.
  - destruct (IH newvlist) as (matched & Hnl & Hm & Hr & Hp).
    destruct (uv_merge_scan conn buf v next newvlist) as [nl1 vl1]. simpl in *.
    exists matched. split; [done|]. split; [done|]. split; [by constructor|].
    rewrite <-Permutation_middle. by constructor.
Qed.

Lemma flagged_alter_ne buf i e :
  i ≠ e → flagged sep (alter set_sep i buf) e = flagged sep buf e.
Proof. intros Hne. unfold flagged. by rewrite list_lookup_alter_ne. Qed.

Lemma flagged_alter_eq buf e :
  e < length buf → flagged sep (alter set_sep e buf) e = true.
Proof.
  intros (x & Hx)%lookup_lt_is_Some_2. unfold flagged.
  rewrite list_lookup_alter_eq, Hx. simpl. apply sep_set.
Qed.

Lemma uv_sort_chain_spec conn0 fuel buf vlist newvlist groups :
  length vlist ≤ fuel →
  merge_inv conn0 buf vlist newvlist groups →
  ∃ groups',
    merge_inv conn0 (uv_sort_chain conn set_sep fuel buf vlist newvlist).1 []
      (uv_sort_chain conn set_sep fuel buf vlist newvlist).2 groups'
    ∧ (uv_sort_chain conn set_sep fuel buf vlist newvlist).2 ≡ₚ vlist ++ newvlist
    ∧ length (uv_sort_chain conn set_sep fuel buf vlist newvlist).1 = length buf
    ∧ (∀ e, e ∉ vlist →
         (uv_sort_chain conn set_sep fuel buf vlist newvlist).1 !! e = buf !! e).
Proof.
  revert buf vlist newvlist groups.
  induction fuel as [|fuel IH]; intros buf vlist newvlist groups Hfuel Hinv.
  { destruct vlist; [|simpl in Hfuel; lia]. simpl. by exists groups. }
  destruct vlist as [|v vlist1]; simpl.
  { by exists groups. }
  destruct (uv_merge_scan_spec buf v vlist1 (v :: newvlist))
    as (matched & Hnl & Hm & Hr & Hp).
  destruct (uv_merge_scan conn buf v vlist1 (v :: newvlist)) as [newvlist1 vlist2].
  simpl in Hnl, Hr, Hp. subst newvlist1.
  destruct Hinv as (Hconn & Hcat & Hgr & Hhd & Hvl & Hnd & Hgreedy & Hfree).
  set (g := rev matched ++ [v]).
  assert (rev matched ++ v :: newvlist = g ++ newvlist) as Hg.
  { unfold g. by rewrite <-app_assoc. }
  rewrite Hg.
  assert (vlist2 ++ g ++ newvlist ≡ₚ (v :: vlist1) ++ newvlist) as Hperm.
  { unfold g. rewrite <-Hp, <-Permutation_rev.
    rewrite <-(Permutation_cons_append matched v). simpl.
    rewrite <-Permutation_middle. apply perm_skip.
    rewrite !app_assoc. apply Permutation_app_tail, Permutation_app_comm. }
  assert (∀ e, e ∈ g ++ vlist2 → e ∈ v :: vlist1) as Hsub.
  { intros e He. unfold g in He. rewrite <-Hp.
    rewrite !elem_of_app, elem_of_rev, list_elem_of_singleton in He.
    rewrite elem_of_cons, elem_of_app. tauto. }
  destruct g as [|x tl] eqn:Hgx.
  { unfold g in Hgx. by destruct (rev matched). }
  simpl.
  assert (NoDup (vlist2 ++ (x :: tl) ++ newvlist)) as Hnd'.
  { by rewrite Hperm. }
  assert (x < length buf) as Hx.
  { assert (x ∈ v :: vlist1) as Hin by (apply Hsub; set_solver).
    rewrite Forall_forall in Hvl. by apply Hvl in Hin as [_ ?]. }
  assert (∀ e, e ∈ tl ++ vlist2 ++ newvlist → x ≠ e) as Hxne.
  { intros e He ->. apply NoDup_app in Hnd' as (_ & Hdis & Hnd2).
    simpl in Hnd2. apply NoDup_cons in Hnd2 as [Hnin _].
    apply elem_of_app in He as [He|He]; [set_solver|].
    apply elem_of_app in He as [He|He]; [|list_in].
    apply (Hdis e He). by left. }
  destruct (IH (alter set_sep x buf) vlist2 ((x :: tl) ++ newvlist)
              ((x :: tl) :: groups)) as (groups' & Hinv' & Hperm' & Hlen' & Hsame').
  { apply Permutation_length in Hp. rewrite length_app in Hp.
    simpl in Hfuel. lia. }
  { split; [|split; [|split; [|split; [|split; [|split; [|split]]]]]].
    - intros v' e. by rewrite conn_set.
    - simpl. by rewrite Hcat.
    - rewrite chain_groups_cons.
      + f_equal. rewrite <-Hgr. apply chain_groups_ext.
        intros e He. apply flagged_alter_ne, Hxne. list_in.
      + rewrite Forall_forall. intros e He.
        rewrite flagged_alter_ne by (apply Hxne; set_solver).
        rewrite Forall_forall in Hvl. apply Hvl, Hsub. list_in.
      + destruct newvlist as [|e' nl']; [done|].
        rewrite flagged_alter_ne by (apply Hxne; set_solver). done.
    - simpl. by apply flagged_alter_eq.
    - rewrite Forall_forall. intros e He.
      rewrite flagged_alter_ne by (apply Hxne; set_solver).
      rewrite length_alter. rewrite Forall_forall in Hvl. apply Hvl, Hsub. list_in.
    - done.
    - simpl. split; [|split; [|done]].
      + exists (rev matched), v. split; [by rewrite <-Hgx|].
        apply Forall_rev. eapply Forall_impl; [done|].
        intros e He. simpl in *. by rewrite <-Hconn.
      + intros g' h' Hg' Hh'. rewrite Forall_forall. intros e He.
        specialize (Hfree g' h' Hg' Hh'). rewrite Forall_forall in Hfree.
        apply Hfree, Hsub. list_in.
    - intros g' h' Hg' Hh'. apply elem_of_cons in Hg' as [->|Hg'].
      + rewrite <-Hgx in Hh'. unfold g in Hh'. rewrite last_snoc in Hh'.
        injection Hh' as <-. eapply Forall_impl; [done|].
        intros e He. simpl in *. by rewrite <-Hconn.
      + specialize (Hfree g' h' Hg' Hh'). rewrite Forall_forall in Hfree.
        rewrite Forall_forall. intros e He. apply Hfree, Hsub. set_solver. }
  simpl in Hinv', Hperm', Hlen', Hsame'.
  exists groups'. split; [done|]. split; [|split].
  - by rewrite Hperm', Hperm.
  - by rewrite Hlen', length_alter.
  - intros e He. rewrite Hsame'.
    + apply list_lookup_alter_ne. intros ->. apply He, Hsub. set_solver.
    + intros He'. apply He, Hsub. set_solver.
Qed.

(** The merge pass after the vertices below [j]. *)
Lemma uv_sort_verts_spec vert0 buf0 j :
  chains_ok vert0 buf0 →
  let st := uv_sort_verts conn set_sep j vert0 buf0 in
  length st.1 = length vert0 ∧ length st.2 = length buf0
  ∧ (∀ a, j ≤ a → st.1 !! a = vert0 !! a)
  ∧ (∀ v e, conn st.2 v e = conn buf0 v e)
  ∧ (∀ e, (∀ a c, a < j → vert0 !! a = Some c → e ∉ c) → st.2 !! e = buf0 !! e)
  ∧ (∀ a c, a < j → vert0 !! a = Some c →
       ∃ out, st.1 !! a = Some out ∧ out ≡ₚ c
              ∧ greedy_ok (conn buf0) (chain_groups (flagged sep st.2) out)).
Proof.
  intros (Hnd & Hdis & Hfl). unfold uv_sort_verts.
  induction j as [|j IH].
  { simpl. repeat split; try done. intros; lia. }
  rewrite seq_S, foldl_app. simpl.
  destruct (foldl (uv_sort_vert conn set_sep) (vert0, buf0) (seq 0 j)) as [vert buf].
  simpl in IH. destruct IH as (Hlv & Hlb & Hrest & Hconn & Hbuf & Hdone).
  unfold uv_sort_vert. simpl. rewrite (Hrest j) by lia.
  destruct (vert0 !! j) as [c|] eqn:Hc; simpl.
  - destruct (uv_sort_chain_spec (conn buf0) (length c) buf c [] []) as
      (groups & Hinv & Hperm & Hlen & Hsame); [done| |].
    { split; [done|]. split; [done|]. split; [done|]. split; [done|].
      split; [|split; [|split; [done|]]].
      - rewrite Forall_forall. intros e He.
        destruct (Hfl j c e Hc He) as [Hf Hlt]. split; [|lia].
        unfold flagged. rewrite Hbuf; [done|].
        intros a c' Ha Hc' He'. assert (a = j) by (by eapply Hdis). lia.
      - rewrite app_nil_r. by eapply Hnd.
      - intros g h Hg. by apply elem_of_nil in Hg. }
    destruct (uv_sort_chain conn set_sep (length c) buf c []) as [buf1 out].
    simpl in *. rewrite app_nil_r in Hperm.
    destruct Hinv as (Hconn1 & Hcat & Hgr & _ & _ & _ & Hgreedy & _).
    split; [by rewrite length_insert|]. split; [lia|].
    split; [intros a Ha; rewrite list_lookup_insert_ne by lia; apply Hrest; lia|].
    split; [done|]. split.
    + intros e He. rewrite Hsame.
      * apply Hbuf. intros a c' Ha. apply He. lia.
      * apply (He j c); [lia|done].
    + intros a c' Ha Hc'. destruct (decide (a = j)) as [->|Hne].
      * exists out. rewrite list_lookup_insert_eq by
          (rewrite Hlv; by eapply lookup_lt_Some).
        simplify_eq. by rewrite Hgr.
      * destruct (Hdone a c') as (out' & Hout' & Hp' & Hg'); [lia|done|].
        exists out'. rewrite list_lookup_insert_ne by done.
        split; [done|]. split; [done|].
        rewrite (chain_groups_ext _ (flagged sep buf)); [done|].
        intros e He. unfold flagged. rewrite Hsame; [done|].
        intros He'. rewrite Hp' in He. by assert (a = j) by (by eapply Hdis).
  - rewrite list_insert_ge by (rewrite Hlv; by apply lookup_ge_None).
    split; [done|]. split; [done|].
    split; [intros a Ha; apply Hrest; lia|]. split; [done|]. split.
    + intros e He. apply Hbuf. intros a c' Ha. apply He. lia.
    + intros a c' Ha Hc'. apply Hdone; [|done].
      destruct (decide (a = j)) as [->|]; [congruence|lia].
Qed.

End MergeFacts.

Lemma elem_of_concat {A} (x : A) (ls : list (list A)) :
  x ∈ concat ls ↔ ∃ l, x ∈ l ∧ l ∈ ls.
Proof.
  induction ls as [|l ls IH]; simpl.
  - split; [by intros ?%elem_of_nil|]. by intros (l & _ & ?%elem_of_nil).
  - rewrite elem_of_app, IH. split.
    + intros [Hx|(l' & Hx & Hl')]; [exists l; split; [done|by left]|].
      exists l'. split; [done|by right].
    + intros (l' & Hx & [->|Hl']%elem_of_cons); [by left|right; by eauto].
Qed.

Section GreedyFacts.
Context (conn : nat → nat → bool).

Lemma greedy_ok_group groups g :
  greedy_ok conn groups → g ∈ groups → group_ok conn g.
Proof.
  induction groups as [|g' earlier IH]; simpl; [by intros _ ?%elem_of_nil|].
  intros (Hg & _ & Hrest) [->|Hin]%elem_of_cons; [done|by apply IH].
Qed.

Lemma greedy_ok_earlier groups i j gi gj hj :
  greedy_ok conn groups → i < j →
  groups !! i = Some gi → groups !! j = Some gj → last gj = Some hj →
  Forall (λ e, conn hj e = false) gi.
Proof.
  revert i j. induction groups as [|g earlier IH]; intros i j; simpl; [done|].
  intros (_ & Hearlier & Hrest) Hij Hi Hj Hlast.
  destruct j as [|j]; [lia|]. destruct i as [|i]; simpl in *.
  - injection Hi as <-. eapply Hearlier; [|done]. by eapply list_elem_of_lookup_2.
  - eapply (IH i j); try done. lia.
Qed.




End GreedyFacts.

(** * UV vertex map *)

Section VertMap.
Context {F : Type} `{FloatOps F}.
Implicit Types (m : BMesh F).

Lemma vert_map_totuv_none use_select (fs : list (BMFace F)) :
  Forall (λ f, face_eligible use_select f = false) fs →
  vert_map_totuv use_select fs = 0.
Proof.
  induction 1 as [|f fs Hf _ IH]; simpl; [done|]. by rewrite Hf, IH.
Qed.

Lemma element_map_totuv_none face_selected uv_selected (fs : list (BMFace F)) :
  Forall (λ f, face_eligible face_selected f = false) fs →
  element_map_totuv face_selected uv_selected fs = 0.
Proof.
  induction 1 as [|f fs Hf _ IH]; simpl; [done|]. by rewrite Hf, IH.
Qed.

Lemma BM_uv_vert_map_create_None m use_select use_winding :
  BM_uv_vert_map_create m use_select use_winding = None
  ↔ vert_map_totuv use_select (faces m) = 0.
Proof.
  unfold BM_uv_vert_map_create.
  destruct (Nat.eqb_spec (vert_map_totuv use_select (faces m)) 0) as [->|Hne].
  { done. }
  destruct (vert_map_faces _ _ _ _ _ _ _) as [[vert buf] winding].
  destruct (uv_sort_verts _ _ _ _ _) as [vert1 buf1]. split; [done|lia].
Qed.

Lemma BM_uv_element_map_create_None m face_selected uv_selected use_winding do_islands
    tf_uv_stale :
  BM_uv_element_map_create m face_selected uv_selected use_winding do_islands tf_uv_stale
    = None
  ↔ element_map_totuv face_selected uv_selected (faces m) = 0.
Proof.
  unfold BM_uv_element_map_create.
  destruct (Nat.eqb_spec (element_map_totuv face_selected uv_selected (faces m)) 0)
    as [->|Hne].
  { done. }
  destruct (element_map_faces _ _ _ _ _ _ _ _ _) as [[vert buf] winding].
  destruct (uv_sort_verts _ _ _ _ _) as [vert1 buf1].
  destruct do_islands; [|split; [done|lia]].
  destruct (foldl _ _ _) as [st nislands]. split; [done|lia].
Qed.

(** C6.  With the selection filter on and no face selected, no corner is
    counted and both [BM_uv_vert_map_create] and [BM_uv_element_map_create]
    answer [NULL]; and either answers [NULL] only when its count of corners
    is zero, so a map that is answered is never empty. *)
Theorem uv_maps_no_face_selected m use_winding uv_selected do_islands tf_uv_stale :
  Forall (λ f, flag_set (f_hflag f) BM_ELEM_SELECT = false) (faces m) →
  (BM_uv_vert_map_create m true use_winding = None
   ∧ BM_uv_element_map_create m true uv_selected use_winding do_islands tf_uv_stale = None)
  ∧ (∀ use_select,
       BM_uv_vert_map_create m use_select use_winding = None
       ↔ vert_map_totuv use_select (faces m) = 0)
  ∧ (∀ face_selected,
       BM_uv_element_map_create m face_selected uv_selected use_winding do_islands
         tf_uv_stale = None
       ↔ element_map_totuv face_selected uv_selected (faces m) = 0).
Proof.
  intros Hnone.
  assert (Forall (λ f : BMFace F, face_eligible true f = false) (faces m)) as Hel.
  { eapply Forall_impl; [done|]. intros f Hf. unfold face_eligible. by rewrite Hf. }
  split; [split|split].
  - apply BM_uv_vert_map_create_None. by apply vert_map_totuv_none.
  - apply BM_uv_element_map_create_None. by apply element_map_totuv_none.
  - intros. apply BM_uv_vert_map_create_None.
  - intros. apply BM_uv_element_map_create_None.
Qed.

End VertMap.

Section VertMapBuild.
Context {F : Type} `{FloatOps F}.
Context (m : BMesh F).

Local Abbreviation vert_built := (vert_built m).
Local Abbreviation winding_upto := (winding_upto m).

Lemma vert_map_loops_built a f pre ls vert buf :
  faces m !! a = Some f → f_loops f = pre ++ ls → vert_built vert buf →
  vert_built (vert_map_loops a (length pre) ls vert buf).1
             (vert_map_loops a (length pre) ls vert buf).2
  ∧ length (vert_map_loops a (length pre) ls vert buf).1 = length vert.
Proof.
  intros Hf. revert pre vert buf.
  induction ls as [|l rest IH]; intros pre vert buf Hpre Hb; simpl; [done|].
  specialize (IH (pre ++ [l])). rewrite length_app, Nat.add_1_r in IH.
  destruct (IH (alter (λ chain, length buf :: chain) (l_v l) vert)
              (buf ++ [{| poly_index := a; loop_of_poly_index := length pre;
                          separate := false |}])) as [Hb' Hlen'].
  { by rewrite <-app_assoc. }
  { destruct Hb as (Hsep & Hin & Hnd). split; [|split].
    - intros e x [Hx|[Hge Hx]]%lookup_app_Some; [by eapply Hsep|].
      destruct (e - length buf); [|done]. by injection Hx as <-.
    - intros a' c' e Ha' He.
      destruct (decide (l_v l = a')) as [<-|Hne].
      + rewrite list_lookup_alter_eq in Ha'.
        destruct (vert !! l_v l) as [c|] eqn:Hc; [|done]. injection Ha' as <-.
        apply elem_of_cons in He as [->|He].
        * eexists _, l. rewrite lookup_app_r, Nat.sub_diag by done.
          split; [done|]. simpl. split; [|done].
          unfold loop_at. rewrite Hf, Hpre.
          by rewrite lookup_app_r, Nat.sub_diag.
        * destruct (Hin _ _ _ Hc He) as (x & l' & Hx & Hl' & Hv).
          exists x, l'. split; [|done]. by apply lookup_app_l_Some.
      + rewrite list_lookup_alter_ne in Ha' by done.
        destruct (Hin _ _ _ Ha' He) as (x & l' & Hx & Hl' & Hv).
        exists x, l'. split; [|done]. by apply lookup_app_l_Some.
    - intros a' c' Ha'.
      destruct (decide (l_v l = a')) as [<-|Hne].
      + rewrite list_lookup_alter_eq in Ha'.
        destruct (vert !! l_v l) as [c|] eqn:Hc; [|done]. injection Ha' as <-.
        apply NoDup_cons. split; [|by eapply Hnd].
        intros He. destruct (Hin _ _ _ Hc He) as (x & _ & Hx%lookup_lt_Some & _). lia.
      + rewrite list_lookup_alter_ne in Ha' by done. by eapply Hnd. }
  split; [done|]. by rewrite Hlen', length_alter.
Qed.

Lemma vert_map_faces_built use_select use_winding done fs vert buf winding :
  faces m = done ++ fs → vert_built vert buf →
  (use_winding = true → winding_upto use_select (length done) winding) →
  let r := vert_map_faces use_select use_winding (length done) fs vert buf winding in
  vert_built r.1.1 r.1.2 ∧ length r.1.1 = length vert
  ∧ (use_winding = true → winding_upto use_select (length (faces m)) r.2).
Proof.
  revert done vert buf winding.
  induction fs as [|f rest IH]; intros done vert buf winding Hfs Hb Hw; simpl.
  { rewrite Hfs, app_nil_r. done. }
  assert (faces m !! length done = Some f) as Hf.
  { by rewrite Hfs, lookup_app_r, Nat.sub_diag. }
  specialize (IH (done ++ [f])). rewrite length_app, Nat.add_1_r in IH.
  assert (∀ w, winding_upto use_select (length done) winding →
               w = (if face_eligible use_select f
                    then winding_of (l_uv <$> f_loops f) else false) →
               winding_upto use_select (S (length done)) (<[length done := w]> winding)) as Hstep.
  { intros w [Hlen Hwd] ->. split; [by rewrite length_insert|].
    intros k. unfold winding_at. destruct (decide (k = length done)) as [->|Hne].
    - rewrite list_lookup_insert_eq by (rewrite Hlen, Hfs, length_app; simpl; lia).
      rewrite decide_True by lia. unfold vert_map_winding. by rewrite Hf.
    - rewrite list_lookup_insert_ne by done.
      specialize (Hwd k). unfold winding_at in Hwd. rewrite Hwd.
      repeat case_decide; try done; lia. }
  destruct (face_eligible use_select f) eqn:Hel.
  - destruct (vert_map_loops_built (length done) f [] (f_loops f) vert buf)
      as [Hb1 Hlen1]; [done..|]. simpl in Hb1, Hlen1.
    destruct (vert_map_loops (length done) 0 (f_loops f) vert buf) as [vert1 buf1].
    simpl in *. rewrite <-Hlen1. apply IH; [by rewrite <-app_assoc|done|].
    intros ->. by apply Hstep; [apply Hw|].
  - apply IH; [by rewrite <-app_assoc|done|].
    intros Huw. destruct (Hw Huw) as [Hlen Hwd]. split; [done|].
    intros k. rewrite Hwd. destruct (decide (k = length done)) as [->|Hne].
    + rewrite decide_False, decide_True by lia.
      unfold vert_map_winding. by rewrite Hf, Hel.
    + repeat case_decide; try done; lia.
Qed.

End VertMapBuild.

Section MergeKeys.
Context {B K : Type} (conn : list B → nat → nat → bool) (set_sep : B → B).
Context (key : B → K).
Hypothesis key_set : ∀ b, key (set_sep b) = key b.

Lemma fmap_key_alter i (buf : list B) : key <$> alter set_sep i buf = key <$> buf.
Proof.
  apply list_eq. intros k. rewrite !list_lookup_fmap.
  destruct (decide (i = k)) as [->|Hne].
  - rewrite list_lookup_alter_eq. destruct (buf !! k); simpl; [|done].
    by rewrite key_set.
  - by rewrite list_lookup_alter_ne.
Qed.

Lemma uv_sort_chain_key fuel buf vlist newvlist :
  key <$> (uv_sort_chain conn set_sep fuel buf vlist newvlist).1 = key <$> buf.
Proof.
  revert buf vlist newvlist.
  induction fuel as [|fuel IH]; intros buf vlist newvlist; simpl; [done|].
  destruct vlist as [|v vlist1]; [done|].
  destruct (uv_merge_scan conn buf v vlist1 (v :: newvlist)) as [nl vl].
  rewrite IH. destruct nl; [done|apply fmap_key_alter].
Qed.

(** The merge pass changes no field but [separate]. *)
Lemma uv_sort_verts_key n vert buf :
  key <$> (uv_sort_verts conn set_sep n vert buf).2 = key <$> buf.
Proof.
  unfold uv_sort_verts. induction n as [|n IH]; [done|].
  rewrite seq_S, foldl_app. simpl.
  destruct (foldl _ _ _) as [vert1 buf1]. simpl in *.
  unfold uv_sort_vert. simpl.
  pose proof (uv_sort_chain_key (length (default [] (vert1 !! n))) buf1
                (default [] (vert1 !! n)) []) as Hk.
  destruct (uv_sort_chain _ _ _ _ _ _) as [buf2 out]. simpl in *. congruence.
Qed.

Lemma fmap_key_lookup (buf buf' : list B) e x :
  key <$> buf' = key <$> buf → buf' !! e = Some x →
  ∃ x0, buf !! e = Some x0 ∧ key x0 = key x.
Proof.
  intros Hk Hx. assert ((key <$> buf) !! e = Some (key x)) as Hkx.
  { by rewrite <-Hk, list_lookup_fmap, Hx. }
  rewrite list_lookup_fmap in Hkx. destruct (buf !! e) as [x0|]; [|done].
  exists x0. split; [done|]. by injection Hkx.
Qed.

End MergeKeys.

Section VertMapGroups.
Context {F : Type} `{FloatOps F}.
Implicit Types (m : BMesh F).

Lemma vert_map_connected_set m use_winding winding buf i v e :
  vert_map_connected m use_winding winding (alter vert_set_separate i buf) v e
  = vert_map_connected m use_winding winding buf v e.
Proof.
  unfold vert_map_connected.
  destruct (decide (i = v)) as [<-|], (decide (i = e)) as [<-|];
    rewrite ?list_lookup_alter_eq, ?list_lookup_alter_ne by done;
    repeat match goal with |- context [buf !! ?k] => destruct (buf !! k) end; done.
Qed.




End VertMapGroups.

(** * UV element map: building *)

Section EligibleCorners.
Context {F : Type} `{FloatOps F}.

Lemma eligible_loops_app uv_selected j i (pre ls : list (BMLoop F)) :
  eligible_loops uv_selected j i (pre ++ ls)
  = eligible_loops uv_selected j i pre
    ++ eligible_loops uv_selected j (i + length pre) ls.
Proof.
  revert i. induction pre as [|l pre IH]; intros i; simpl.
  { by rewrite Nat.add_0_r. }
  rewrite IH. replace (S i + length pre) with (i + S (length pre)) by lia.
  by destruct (uv_corner_skipped uv_selected l).
Qed.

Lemma elem_of_eligible_loops uv_selected j i0 (ls : list (BMLoop F)) c :
  c ∈ eligible_loops uv_selected j i0 ls ↔
  ∃ i l, c = (j, i) ∧ i0 ≤ i ∧ ls !! (i - i0) = Some l
         ∧ uv_corner_skipped uv_selected l = false.
Proof.
  revert i0. induction ls as [|l ls IH]; intros i0; simpl.
  { split; [by intros ?%elem_of_nil|]. by intros (i & l & _ & _ & ? & _). }
  assert (c ∈ eligible_loops uv_selected j (S i0) ls ↔
          ∃ i l', c = (j, i) ∧ S i0 ≤ i ∧ (l :: ls) !! (i - i0) = Some l'
                  ∧ uv_corner_skipped uv_selected l' = false) as Hrest.
  { rewrite IH. split; intros (i & l' & -> & Hle & Hl' & Hs); exists i, l'.
    - replace (i - i0) with (S (i - S i0)) by lia. done.
    - replace (i - i0) with (S (i - S i0)) in Hl' by lia. done. }
  destruct (uv_corner_skipped uv_selected l) eqn:Hl.
  - rewrite Hrest. split; intros (i & l' & -> & Hle & Hl' & Hs); exists i, l'.
    + repeat split; try done; lia.
    + destruct (decide (i = i0)) as [->|]; [|repeat split; try done; lia].
      rewrite Nat.sub_diag in Hl'. simpl in Hl'. congruence.
  - rewrite elem_of_cons, Hrest. split.
    + intros [->|(i & l' & -> & Hle & Hl' & Hs)].
      * exists i0, l. rewrite Nat.sub_diag. done.
      * exists i, l'. repeat split; try done; lia.
    + intros (i & l' & -> & Hle & Hl' & Hs).
      destruct (decide (i = i0)) as [->|]; [by left|right].
      exists i, l'. repeat split; try done; lia.
Qed.

Lemma NoDup_eligible_loops uv_selected j i0 (ls : list (BMLoop F)) :
  NoDup (eligible_loops uv_selected j i0 ls).
Proof.
  revert i0. induction ls as [|l ls IH]; intros i0; simpl; [constructor|].
  destruct (uv_corner_skipped uv_selected l); [done|].
  apply NoDup_cons. split; [|done].
  intros (i & l' & [= <-] & Hle & _)%elem_of_eligible_loops. lia.
Qed.

Lemma elem_of_eligible_corners face_selected uv_selected j0 (fs : list (BMFace F)) c :
  c ∈ eligible_corners face_selected uv_selected j0 fs ↔
  ∃ f, j0 ≤ c.1 ∧ fs !! (c.1 - j0) = Some f ∧ face_eligible face_selected f = true
       ∧ c ∈ eligible_loops uv_selected c.1 0 (f_loops f).
Proof.
  revert j0. induction fs as [|f fs IH]; intros j0; simpl.
  { split; [by intros ?%elem_of_nil|]. by intros (f & _ & ? & _). }
  rewrite elem_of_app, IH. split.
  - intros [Hc|(f' & Hle & Hf' & Hel & Hc)].
    + destruct (face_eligible face_selected f) eqn:Hel; [|by apply elem_of_nil in Hc].
      pose proof Hc as (i & l & -> & _)%elem_of_eligible_loops. simpl.
      exists f. rewrite Nat.sub_diag. done.
    + exists f'. replace (c.1 - j0) with (S (c.1 - S j0)) by lia.
      repeat split; try done; lia.
  - intros (f' & Hle & Hf' & Hel & Hc).
    destruct (decide (c.1 = j0)) as [Heq|Hne].
    + left. rewrite Heq, Nat.sub_diag in Hf'. simpl in Hf'. injection Hf' as <-.
      rewrite Hel. by rewrite <-Heq.
    + right. exists f'. replace (c.1 - j0) with (S (c.1 - S j0)) in Hf' by lia.
      repeat split; try done; lia.
Qed.

Lemma NoDup_eligible_corners face_selected uv_selected j0 (fs : list (BMFace F)) :
  NoDup (eligible_corners face_selected uv_selected j0 fs).
Proof.
  revert j0. induction fs as [|f fs IH]; intros j0; simpl; [constructor|].
  apply NoDup_app. split; [|split; [|done]].
  - destruct (face_eligible face_selected f); [|constructor].
    apply NoDup_eligible_loops.
  - intros c Hc (f' & Hle & _)%elem_of_eligible_corners.
    destruct (face_eligible face_selected f); [|by apply elem_of_nil in Hc].
    apply elem_of_eligible_loops in Hc as (i & l & -> & _). simpl in Hle. lia.
Qed.

Lemma eligible_corners_app face_selected uv_selected j0 (fs1 fs2 : list (BMFace F)) :
  eligible_corners face_selected uv_selected j0 (fs1 ++ fs2)
  = eligible_corners face_selected uv_selected j0 fs1
    ++ eligible_corners face_selected uv_selected (j0 + length fs1) fs2.
Proof.
  revert j0. induction fs1 as [|f fs1 IH]; intros j0; simpl.
  { by rewrite Nat.add_0_r. }
  rewrite IH, <-app_assoc. by replace (S j0 + length fs1) with (j0 + S (length fs1)) by lia.
Qed.

End EligibleCorners.

Section ElementMapBuild.
Context {F : Type} `{FloatOps F}.
Context (m : BMesh F).

Local Abbreviation element_loop := (element_loop m).
Local Abbreviation elem_built := (elem_built m).

Lemma element_map_loops_built uv_selected j f pre ls vert buf :
  faces m !! j = Some f → f_loops f = pre ++ ls → elem_built vert buf →
  let r := element_map_loops uv_selected j (length pre) ls vert buf in
  elem_built r.1 r.2 ∧ length r.1 = length vert
  ∧ ue_l <$> r.2 = (ue_l <$> buf) ++ eligible_loops uv_selected j (length pre) ls.
Proof.
  intros Hf. revert pre vert buf.
  induction ls as [|l rest IH]; intros pre vert buf Hpre Hb; simpl.
  { by rewrite app_nil_r. }
  specialize (IH (pre ++ [l])). rewrite length_app, Nat.add_1_r in IH.
  destruct (uv_corner_skipped uv_selected l) eqn:Hskip.
  { apply IH; [by rewrite <-app_assoc|done]. }
  set (x0 := {| ue_l := (j, length pre); ue_loop_of_poly_index := length pre;
                ue_separate := false; ue_island := INVALID_ISLAND |}).
  assert (element_loop x0 = Some l) as Hx0.
  { unfold element_loop, loop_at. simpl. rewrite Hf, Hpre.
    by rewrite lookup_app_r, Nat.sub_diag. }
  destruct (IH (alter (λ chain, length buf :: chain) (l_v l) vert) (buf ++ [x0]))
    as (Hb' & Hlen' & Hcorners').
  { by rewrite <-app_assoc. }
  { destruct Hb as (Hsep & Hin & Hnd & Hall). split; [|split; [|split]].
    - intros e x [Hx|[Hge Hx]]%lookup_app_Some; [by eapply Hsep|].
      destruct (e - length buf); [|done]. by injection Hx as <-.
    - intros a' c' e Ha' He.
      destruct (decide (l_v l = a')) as [<-|Hne].
      + rewrite list_lookup_alter_eq in Ha'.
        destruct (vert !! l_v l) as [c|] eqn:Hc; [|done]. injection Ha' as <-.
        apply elem_of_cons in He as [->|He].
        * exists x0, l. by rewrite lookup_app_r, Nat.sub_diag.
        * destruct (Hin _ _ _ Hc He) as (x & l' & Hx & Hl' & Hv).
          exists x, l'. split; [|done]. by apply lookup_app_l_Some.
      + rewrite list_lookup_alter_ne in Ha' by done.
        destruct (Hin _ _ _ Ha' He) as (x & l' & Hx & Hl' & Hv).
        exists x, l'. split; [|done]. by apply lookup_app_l_Some.
    - intros a' c' Ha'.
      destruct (decide (l_v l = a')) as [<-|Hne].
      + rewrite list_lookup_alter_eq in Ha'.
        destruct (vert !! l_v l) as [c|] eqn:Hc; [|done]. injection Ha' as <-.
        apply NoDup_cons. split; [|by eapply Hnd].
        intros He. destruct (Hin _ _ _ Hc He) as (x & _ & Hx%lookup_lt_Some & _). lia.
      + rewrite list_lookup_alter_ne in Ha' by done. by eapply Hnd.
    - intros Hok Hlen e x l' Hx Hl'. rewrite length_alter in Hlen.
      apply lookup_app_Some in Hx as [Hx|[Hge Hx]].
      + destruct (Hall Hok Hlen e x l' Hx Hl') as (c & Hc & He).
        destruct (decide (l_v l = l_v l')) as [Heq|Hne].
        * exists (length buf :: c). rewrite <-Heq, list_lookup_alter_eq.
          rewrite Heq, Hc. split; [done|by right].
        * exists c. by rewrite list_lookup_alter_ne.
      + destruct (e - length buf) eqn:He; [|done]. injection Hx as <-.
        assert (e = length buf) as -> by lia.
        rewrite Hx0 in Hl'. injection Hl' as <-.
        assert (l_v l < length vert) as Hlt.
        { rewrite Hlen. unfold mesh_faces_ok in Hok. rewrite Forall_forall in Hok.
          destruct (Hok f) as [_ Hbound]; [by eapply list_elem_of_lookup_2|].
          rewrite Forall_forall in Hbound. apply Hbound.
          unfold face_verts. rewrite Hpre, fmap_app, fmap_cons. list_in. }
        destruct (lookup_lt_is_Some_2 vert (l_v l) Hlt) as [c Hc].
        exists (length buf :: c). rewrite list_lookup_alter_eq, Hc.
        split; [done|by left]. }
  split; [done|]. split; [by rewrite Hlen', length_alter|].
  rewrite Hcorners', fmap_app, <-app_assoc. done.
Qed.

Lemma element_map_faces_built face_selected uv_selected use_winding tf_uv_stale
    done fs vert buf winding :
  faces m = done ++ fs → elem_built vert buf →
  ue_l <$> buf = eligible_corners face_selected uv_selected 0 done →
  let r := element_map_faces face_selected uv_selected use_winding tf_uv_stale
             (length done) fs vert buf winding in
  elem_built r.1.1 r.1.2 ∧ length r.1.1 = length vert
  ∧ ue_l <$> r.1.2 = eligible_corners face_selected uv_selected 0 (faces m).
Proof.
  revert done vert buf winding.
  induction fs as [|f rest IH]; intros done vert buf winding Hfs Hb Hc; simpl.
  { rewrite Hfs, app_nil_r. done. }
  assert (faces m !! length done = Some f) as Hf.
  { by rewrite Hfs, lookup_app_r, Nat.sub_diag. }
  specialize (IH (done ++ [f])). rewrite length_app, Nat.add_1_r in IH.
  destruct (face_eligible face_selected f) eqn:Hel.
  - destruct (element_map_loops_built uv_selected (length done) f [] (f_loops f) vert buf)
      as (Hb1 & Hlen1 & Hc1); [done..|]. simpl in Hb1, Hlen1, Hc1.
    destruct (element_map_loops uv_selected (length done) 0 (f_loops f) vert buf)
      as [vert1 buf1].
    simpl in *. rewrite <-Hlen1. apply IH; [by rewrite <-app_assoc|done|].
    rewrite Hc1, Hc, eligible_corners_app. simpl. by rewrite Hel, app_nil_r.
  - apply IH; [by rewrite <-app_assoc|done|].
    rewrite Hc, eligible_corners_app. simpl. by rewrite Hel, app_nil_r.
Qed.

End ElementMapBuild.

(** * UV element map: the merge pass *)

Section ElementMapMerge.
Context {F : Type} `{FloatOps F}.
Context (m : BMesh F) (face_selected uv_selected : bool).

Local Abbreviation corners := (eligible_corners face_selected uv_selected 0 (faces m)).
Local Abbreviation emap_chains := (emap_chains m face_selected uv_selected).

Lemma element_connected_set use_winding winding buf i v e :
  element_connected m use_winding winding (alter element_set_separate i buf) v e
  = element_connected m use_winding winding buf v e.
Proof.
  unfold element_connected.
  destruct (decide (i = v)) as [<-|], (decide (i = e)) as [<-|];
    rewrite ?list_lookup_alter_eq, ?list_lookup_alter_ne by done;
    repeat match goal with |- context [buf !! ?k] => destruct (buf !! k) end; done.
Qed.

(** The maps before the island pass: what the building loop and the merge
    pass leave. *)
Lemma element_map_merged use_winding tf_uv_stale :
  let built := element_map_faces face_selected uv_selected use_winding tf_uv_stale 0
                 (faces m) (replicate (length (verts m)) []) []
                 (replicate (length (faces m)) false) in
  let conn := element_connected m use_winding built.2 in
  let st := uv_sort_verts conn element_set_separate (length (verts m))
              built.1.1 built.1.2 in
  length st.1 = length (verts m)
  ∧ ue_l <$> st.2 = corners
  ∧ (∀ e x, st.2 !! e = Some x → ue_island x = INVALID_ISLAND)
  ∧ (∀ a c, st.1 !! a = Some c →
       greedy_ok (conn st.2) (chain_groups (flagged ue_separate st.2) c)
       ∧ ∀ e, e ∈ c → ∃ x l, st.2 !! e = Some x ∧ element_loop m x = Some l ∧ l_v l = a)
  ∧ (mesh_faces_ok m → emap_chains st.1 st.2).
Proof.
  intros built conn st.
  pose proof (element_map_faces_built m face_selected uv_selected use_winding tf_uv_stale
                [] (faces m) (replicate (length (verts m)) []) []
                (replicate (length (faces m)) false)) as Hbuilt.
  simpl in Hbuilt. fold built in Hbuilt.
  destruct Hbuilt as ((Hsep & Hin & Hnd & Hall) & Hlen & Hcorners); [done| |done|].
  { split; [by intros e x ?|]. split; [|split].
    - intros a' c e [-> _]%lookup_replicate. by intros ?%elem_of_nil.
    - intros a' c [-> _]%lookup_replicate. constructor.
    - by intros _ _ e x l ?. }
  rewrite length_replicate in Hlen.
  pose proof (uv_sort_verts_spec conn ue_separate element_set_separate
                (λ _, eq_refl) (element_connected_set use_winding built.2)
                built.1.1 built.1.2 (length (verts m))) as Hsort.
  pose proof (uv_sort_verts_key conn element_set_separate merge_key (λ _, eq_refl)
                (length (verts m)) built.1.1 built.1.2) as Hkey.
  fold st in Hsort, Hkey.
  destruct Hsort as (Hlv & Hlb & _ & Hconn & _ & Hdone).
  { split; [done|]. split.
    - intros a1 a2 c d e Hc Hd Hec Hed.
      destruct (Hin _ _ _ Hc Hec) as (x & l & Hx & Hl & <-).
      destruct (Hin _ _ _ Hd Hed) as (x' & l' & Hx' & Hl' & <-). congruence.
    - intros a' c e Hc He. destruct (Hin _ _ _ Hc He) as (x & _ & Hx & _).
      unfold flagged. rewrite Hx. split; [by eapply Hsep|by eapply lookup_lt_Some]. }
  assert (∀ e x, st.2 !! e = Some x →
            ∃ x0, built.1.2 !! e = Some x0 ∧ merge_key x0 = merge_key x) as Hback.
  { intros e x Hx. by eapply fmap_key_lookup. }
  assert (∀ e x0, built.1.2 !! e = Some x0 →
            ∃ x, st.2 !! e = Some x ∧ merge_key x = merge_key x0) as Hforth.
  { intros e x0 Hx0. by eapply fmap_key_lookup. }
  assert (ue_l <$> st.2 = ue_l <$> built.1.2) as Hl.
  { apply (f_equal (fmap (λ k : nat * nat * nat * Z, k.1.1))) in Hkey.
    by rewrite <-!list_fmap_compose in Hkey. }
  assert (∀ x x0, merge_key x = merge_key x0 → element_loop m x = element_loop m x0)
    as Hloop.
  { intros x x0 [= Hk _ _]. unfold element_loop. by rewrite Hk. }
  assert (∀ a c, st.1 !! a = Some c →
            ∃ c0, built.1.1 !! a = Some c0 ∧ c ≡ₚ c0
                  ∧ greedy_ok (conn built.1.2) (chain_groups (flagged ue_separate st.2) c))
    as Hchain.
  { intros a c Hc. assert (a < length (verts m)) as Ha.
    { rewrite <-Hlen, <-Hlv. by eapply lookup_lt_Some. }
    destruct (lookup_lt_is_Some_2 built.1.1 a) as [c0 Hc0]; [lia|].
    destruct (Hdone a c0 Ha Hc0) as (out & Hout & Hperm & Hgr).
    exists c0. by simplify_eq. }
  split; [lia|]. split; [by rewrite Hl|]. split; [|split].
  - intros e x (x0 & Hx0 & [= _ _ Hk])%Hback. rewrite <-Hk. by eapply Hsep.
  - intros a c Hc. destruct (Hchain a c Hc) as (c0 & Hc0 & Hperm & Hgr). split.
    + eapply greedy_ok_ext; [|done]. intros h e. by rewrite Hconn.
    + intros e He. rewrite Hperm in He.
      destruct (Hin _ _ _ Hc0 He) as (x0 & l & Hx0 & Hl0 & Hv).
      destruct (Hforth e x0 Hx0) as (x & Hx & Hk).
      exists x, l. split; [done|]. split; [|done]. by rewrite (Hloop x x0).
  - intros Hok. split; [by rewrite Hl|]. split; [|split].
    + intros a c Hc. destruct (Hchain a c Hc) as (c0 & Hc0 & Hperm & _).
      rewrite Hperm. by eapply Hnd.
    + intros a c e Hc He. destruct (Hchain a c Hc) as (c0 & Hc0 & Hperm & _).
      rewrite Hperm in He.
      destruct (Hin _ _ _ Hc0 He) as (x0 & l & Hx0 & Hl0 & Hv).
      destruct (Hforth e x0 Hx0) as (x & Hx & Hk).
      exists x, l. split; [done|]. split; [|done]. by rewrite (Hloop x x0).
    + intros e x l Hx Hlx. destruct (Hback e x Hx) as (x0 & Hx0 & Hk).
      rewrite (Hloop x x0) in Hlx by done.
      destruct (Hall Hok Hlen e x0 l Hx0 Hlx) as (c0 & Hc0 & He).
      assert (l_v l < length (verts m)) as Ha.
      { rewrite <-Hlen. by eapply lookup_lt_Some. }
      destruct (Hdone _ c0 Ha Hc0) as (out & Hout & Hperm & _).
      exists out. split; [done|]. by rewrite Hperm.
Qed.

End ElementMapMerge.

(** * UV element map: islands *)

Section IslandWalks.

Lemma island_find_spec buf efa init chain e :
  e ∈ chain → element_face buf e = efa →
  (∀ y, y ∈ chain → element_face buf y = efa → y = e) →
  ∃ init', island_find buf efa init chain = Some (e, init')
           ∧ ∀ y, y ∈ init' → y ∈ init ∨ y ∈ chain.
Proof.
  revert init. induction chain as [|z next IH]; intros init He Hface Huniq.
  { by apply elem_of_nil in He. }
  simpl. destruct (Nat.eqb_spec (element_face buf z) efa) as [Hz|Hz].
  - assert (z = e) as -> by (apply Huniq; [by left|done]).
    eexists. split; [done|]. intros y Hy.
    destruct (element_separate buf e); [by right|by left].
  - apply elem_of_cons in He as [->|He]; [done|].
    destruct (IH (if element_separate buf z then z :: next else init)) as (init' & -> & Hsub);
      [done|done|by intros y Hy; apply Huniq; right|].
    exists init'. split; [done|]. intros y [Hy|Hy]%Hsub; [|right; by right].
    destruct (element_separate buf z); [by right|by left].
Qed.

Lemma island_push_group_spec buf nislands at_init group island_number stack :
  let r := island_push_group buf nislands at_init group island_number stack in
  ∃ pushed,
    r.2 = pushed ++ stack ∧ NoDup pushed
    ∧ (∀ f, f ∈ pushed →
         island_number !! f = Some INVALID_ISLAND
         ∧ ∃ y, y ∈ group ∧ element_face buf y = f)
    ∧ length r.1 = length island_number
    ∧ (∀ f, r.1 !! f = if decide (f ∈ pushed) then Some (Z.of_nat nislands)
                       else island_number !! f).
Proof.
  revert at_init island_number stack.
  induction group as [|y next IH]; intros at_init island_number stack; simpl.
  { exists []. split; [done|]. split; [constructor|]. split; [by intros f ?%elem_of_nil|].
    split; [done|]. intros f. rewrite decide_False; [done|by intros ?%elem_of_nil]. }
  destruct (element_separate buf y && negb at_init).
  { exists []. split; [done|]. split; [constructor|]. split; [by intros f ?%elem_of_nil|].
    split; [done|]. intros f. rewrite decide_False; [done|by intros ?%elem_of_nil]. }
  set (f0 := element_face buf y).
  destruct (Z.eqb_spec (default 0%Z (island_number !! f0)) INVALID_ISLAND) as [Hinv|Hinv].
  - assert (island_number !! f0 = Some INVALID_ISLAND) as Hf0.
    { destruct (island_number !! f0); simpl in Hinv; [by subst|done]. }
    destruct (IH false (<[f0 := Z.of_nat nislands]> island_number) (f0 :: stack))
      as (pushed & Hst & Hnd & Hpushed & Hlen & Hnum).
    exists (pushed ++ [f0]). split; [by rewrite Hst, <-app_assoc|].
    assert (f0 ∉ pushed) as Hnin.
    { intros [Hf _]%Hpushed.
      rewrite list_lookup_insert_eq in Hf by (by eapply lookup_lt_Some).
      injection Hf. unfold INVALID_ISLAND. lia. }
    split; [|split; [|split]].
    + apply NoDup_app. split; [done|]. split; [|apply NoDup_singleton].
      intros f Hf Hf'. apply list_elem_of_singleton in Hf' as ->. done.
    + intros f [Hf|Hf]%elem_of_app.
      * destruct (Hpushed f Hf) as (Hnf & y' & Hy' & Hface).
        split; [|exists y'; split; [by right|done]].
        destruct (decide (f = f0)) as [->|Hne]; [done|].
        by rewrite list_lookup_insert_ne in Hnf.
      * apply list_elem_of_singleton in Hf as ->.
        split; [done|]. exists y. split; [by left|done].
    + by rewrite Hlen, length_insert.
    + intros f. rewrite Hnum. destruct (decide (f ∈ pushed)) as [Hf|Hf].
      * rewrite decide_True; [done|]. apply elem_of_app. by left.
      * destruct (decide (f = f0)) as [->|Hne].
        -- rewrite list_lookup_insert_eq by (by eapply lookup_lt_Some).
           rewrite decide_True; [done|]. apply elem_of_app. right. by left.
        -- rewrite list_lookup_insert_ne by done.
           rewrite decide_False; [done|].
           intros [?|?%list_elem_of_singleton]%elem_of_app; done.
  - destruct (IH false island_number stack) as (pushed & Hst & Hnd & Hpushed & Hlen & Hnum).
    exists pushed. split; [done|]. split; [done|]. split; [|done].
    intros f Hf. destruct (Hpushed f Hf) as (Hnf & y' & Hy' & Hface).
    split; [done|]. exists y'. split; [by right|done].
Qed.

End IslandWalks.

Section IslandCorners.
Context {F : Type} `{FloatOps F}.
Context (m : BMesh F) (face_selected uv_selected : bool).
Context (vert : list (list nat)).

Local Abbreviation face_corners := (face_corners m uv_selected).

Local Abbreviation chains := (emap_chains m face_selected uv_selected vert).

Lemma emap_chains_ext buf buf' :
  ue_l <$> buf' = ue_l <$> buf → chains buf → chains buf'.
Proof.
  intros Hl (Hc & Hnd & Hin & Hall).
  assert (∀ e x', buf' !! e = Some x' → ∃ x, buf !! e = Some x ∧ ue_l x = ue_l x') as Hback.
  { intros e x' Hx'. by eapply fmap_key_lookup. }
  assert (∀ e x, buf !! e = Some x → ∃ x', buf' !! e = Some x' ∧ ue_l x' = ue_l x) as Hforth.
  { intros e x Hx. by eapply fmap_key_lookup. }
  split; [congruence|]. split; [done|]. split.
  - intros a c e Ha He. destruct (Hin a c e Ha He) as (x & l & Hx & Hlx & Hv).
    destruct (Hforth e x Hx) as (x' & Hx' & Hk). exists x', l.
    split; [done|]. split; [|done]. unfold element_loop in *. by rewrite Hk.
  - intros e x' l Hx' Hlx'. destruct (Hback e x' Hx') as (x & Hx & Hk).
    apply (Hall e x l Hx). unfold element_loop in *. by rewrite Hk.
Qed.

Lemma emap_chains_island buf nislands e :
  chains buf → chains (alter (element_set_island nislands) e buf).
Proof.
  apply emap_chains_ext. by apply fmap_key_alter.
Qed.

Lemma elem_of_face_corners f c :
  c ∈ face_corners f ↔
  ∃ i l, c = (f, i) ∧ face_loops m f !! i = Some l
         ∧ uv_corner_skipped uv_selected l = false.
Proof.
  unfold face_corners. rewrite elem_of_eligible_loops. split.
  - intros (i & l & -> & _ & Hl & Hs). rewrite Nat.sub_0_r in Hl. by exists i, l.
  - intros (i & l & -> & Hl & Hs). exists i, l. rewrite Nat.sub_0_r.
    repeat split; try done; lia.
Qed.

Lemma elem_of_face_corners_concat done c :
  c ∈ concat (face_corners <$> done) ↔ c.1 ∈ done ∧ c ∈ face_corners c.1.
Proof.
  rewrite elem_of_concat. split.
  - intros (cs & Hc & (f & -> & Hf)%list_elem_of_fmap).
    pose proof Hc as (i & l & -> & _)%elem_of_face_corners. done.
  - intros [Hf Hc]. exists (face_corners c.1). split; [done|].
    apply list_elem_of_fmap. by exists c.1.
Qed.

(** An element stands for a corner that has one: a corner of an eligible
    face that the selection does not skip. *)
Lemma emap_corner_valid buf e x :
  chains buf → buf !! e = Some x →
  ∃ f l, faces m !! (ue_l x).1 = Some f ∧ face_eligible face_selected f = true
         ∧ f_loops f !! (ue_l x).2 = Some l
         ∧ uv_corner_skipped uv_selected l = false
         ∧ ue_l x ∈ face_corners (ue_l x).1.
Proof.
  intros (Hc & _) Hx.
  assert (ue_l x ∈ eligible_corners face_selected uv_selected 0 (faces m)) as Hin.
  { rewrite <-Hc. apply list_elem_of_fmap. exists x. split; [done|].
    by eapply list_elem_of_lookup_2. }
  apply elem_of_eligible_corners in Hin as (f & _ & Hf & Hel & Hloops).
  rewrite Nat.sub_0_r in Hf.
  pose proof Hloops as (i & l & Heq & _ & Hl & Hs)%elem_of_eligible_loops.
  rewrite Nat.sub_0_r in Hl. exists f, l.
  destruct (ue_l x) as [j i'] eqn:Hlx. simpl in *. injection Heq as <-.
  repeat split; try done. unfold face_corners, face_loops. by rewrite Hf.
Qed.

Lemma emap_corner_element buf efa f i l :
  chains buf → faces m !! efa = Some f → face_eligible face_selected f = true →
  f_loops f !! i = Some l → uv_corner_skipped uv_selected l = false →
  ∃ e x, buf !! e = Some x ∧ ue_l x = (efa, i).
Proof.
  intros (Hc & _) Hf Hel Hl Hs.
  assert ((efa, i) ∈ ue_l <$> buf) as Hin.
  { rewrite Hc. apply elem_of_eligible_corners. exists f. simpl.
    rewrite Nat.sub_0_r. repeat split; try done; [lia|].
    apply elem_of_eligible_loops. exists i, l. rewrite Nat.sub_0_r.
    repeat split; try done; lia. }
  apply list_elem_of_fmap in Hin as (x & Hx & (e & He)%list_elem_of_lookup_1).
  by exists e, x.
Qed.

Lemma emap_corner_unique buf e e' x x' :
  chains buf → buf !! e = Some x → buf !! e' = Some x' → ue_l x = ue_l x' → e = e'.
Proof.
  intros (Hc & _) Hx Hx' Heq.
  assert (NoDup (ue_l <$> buf)) as Hnd.
  { rewrite Hc. apply NoDup_eligible_corners. }
  eapply NoDup_lookup; [done| |].
  - by rewrite list_lookup_fmap, Hx.
  - by rewrite list_lookup_fmap, Hx', Heq.
Qed.

(** The walk of a corner of face [efa] finds the element of that corner,
    and a subgroup made of elements of the chain of its vertex. *)
Lemma island_find_corner buf efa f i l :
  mesh_faces_ok m → chains buf →
  faces m !! efa = Some f → face_eligible face_selected f = true →
  f_loops f !! i = Some l → uv_corner_skipped uv_selected l = false →
  ∃ e x init chain,
    vert !! l_v l = Some chain
    ∧ island_find buf efa chain chain = Some (e, init)
    ∧ buf !! e = Some x ∧ ue_l x = (efa, i)
    ∧ ∀ y, y ∈ init → y ∈ chain.
Proof.
  intros Hok Hch Hf Hel Hl Hs.
  destruct (emap_corner_element buf efa f i l) as (e & x & Hx & Hlx); [done..|].
  pose proof Hch as (_ & _ & Hin & Hall).
  assert (element_loop m x = Some l) as Hloop.
  { unfold element_loop, loop_at. by rewrite Hlx; simpl; rewrite Hf. }
  destruct (Hall e x l Hx Hloop) as (chain & Hchain & He).
  destruct (island_find_spec buf efa chain chain e) as (init & Hfind & Hsub); [done| | |].
  { unfold element_face. by rewrite Hx, Hlx. }
  { intros y Hy Hface. destruct (Hin _ _ _ Hchain Hy) as (xy & ly & Hxy & Hly & Hv).
    eapply emap_corner_unique; [done..|].
    unfold element_face in Hface. rewrite Hxy in Hface.
    unfold element_loop, loop_at in Hly. rewrite Hface, Hf in Hly.
    assert ((ue_l xy).2 = i) as Hi.
    { unfold mesh_faces_ok in Hok. rewrite Forall_forall in Hok.
      destruct (Hok f) as [Hnd _]; [by eapply list_elem_of_lookup_2|].
      eapply NoDup_lookup; [done| |].
      - unfold face_verts. by rewrite list_lookup_fmap, Hly.
      - unfold face_verts. by rewrite list_lookup_fmap, Hl, Hv. }
    rewrite Hlx. destruct (ue_l xy); simpl in *. congruence. }
  exists e, x, init, chain. repeat split; try done.
  intros y [Hy|Hy]%Hsub; done.
Qed.

End IslandCorners.

Section IslandInvariant.
Context {F : Type} `{FloatOps F}.
Context (m : BMesh F) (face_selected uv_selected : bool).
Context (vert : list (list nat)) (buf1 : list UvElement).

Local Abbreviation island_inv := (island_inv m face_selected uv_selected buf1).

Hypothesis mesh_ok : mesh_faces_ok m.
Hypothesis chains1 : emap_chains m face_selected uv_selected vert buf1.

Lemma island_inv_chains n hi st done cur partial :
  island_inv n hi st done cur partial →
  emap_chains m face_selected uv_selected vert (is_buf st).
Proof.
  intros Hinv. eapply emap_chains_ext; [|done].
  pose proof Hinv as [Hk _ _ _ _ _ _ _ _ _ _ _].
  apply (f_equal (fmap (λ k : nat * nat * nat * bool, k.1.1))) in Hk.
  by rewrite <-!list_fmap_compose in Hk.
Qed.

Lemma island_inv_buf_length n hi st done cur partial :
  island_inv n hi st done cur partial → length (is_buf st) = length buf1.
Proof.
  intros Hinv. pose proof Hinv as [Hk _ _ _ _ _ _ _ _ _ _ _].
  apply (f_equal length) in Hk. by rewrite !length_fmap in Hk.
Qed.

(** A copied element belongs to a face that has been or is being walked. *)
Lemma island_inv_copied_face n hi st done efa (pre : list (BMLoop F)) x :
  island_inv n hi st done [efa] (eligible_loops uv_selected efa 0 pre) →
  x ∈ is_islandbuf st → (ue_l x).1 ∈ done ++ [efa].
Proof.
  intros Hinv Hx.
  assert (ue_l x ∈ ue_l <$> is_islandbuf st) as Hin.
  { apply list_elem_of_fmap. by exists x. }
  destruct Hinv as [_ Hcopied _ _ _ _ _ _ _ _ _ _]. rewrite Hcopied in Hin.
  apply elem_of_app in Hin as [[Hd _]%elem_of_face_corners_concat|Hp].
  - apply elem_of_app. by left.
  - apply elem_of_eligible_loops in Hp as (i & l & -> & _). simpl.
    apply elem_of_app. right. by left.
Qed.

End IslandInvariant.

Section IslandVisit.
Context {F : Type} `{FloatOps F}.
Context (m : BMesh F) (face_selected uv_selected : bool).
Context (vert : list (list nat)) (buf1 : list UvElement).
Hypothesis mesh_ok : mesh_faces_ok m.
Hypothesis chains1 : emap_chains m face_selected uv_selected vert buf1.

Local Abbreviation inv := (island_inv m face_selected uv_selected buf1).

Lemma NoDup_insert_middle (l1 l2 l3 pushed : list nat) :
  NoDup (l1 ++ l2 ++ l3) → NoDup pushed →
  (∀ f, f ∈ pushed → f ∉ l1 ++ l2 ++ l3) →
  NoDup (l1 ++ l2 ++ pushed ++ l3).
Proof.
  intros Hnd Hp Hdis.
  assert (l1 ++ l2 ++ pushed ++ l3 ≡ₚ pushed ++ l1 ++ l2 ++ l3) as ->.
  { rewrite !app_assoc. apply Permutation_app_tail.
    rewrite <-(app_assoc pushed). apply Permutation_app_comm. }
  apply NoDup_app. done.
Qed.

Lemma elem_of_insert_middle (l1 l2 l3 pushed : list nat) f :
  f ∈ l1 ++ l2 ++ pushed ++ l3 ↔ f ∈ pushed ∨ f ∈ l1 ++ l2 ++ l3.
Proof. rewrite !elem_of_app. tauto. Qed.

(** One corner of the face being walked. *)
Lemma island_visit_corner_inv n hi st done efa f pre l rest :
  n < hi → faces m !! efa = Some f → f_loops f = pre ++ l :: rest →
  inv n hi st done [efa] (eligible_loops uv_selected efa 0 pre) →
  inv n hi (island_visit_corner vert uv_selected n efa st l) done [efa]
    (eligible_loops uv_selected efa 0 (pre ++ [l])).
Proof.
  intros Hhi Hf Hloops Hinv. unfold island_visit_corner.
  rewrite eligible_loops_app. simpl.
  destruct (uv_corner_skipped uv_selected l) eqn:Hskip.
  { by rewrite app_nil_r. }
  pose proof Hinv as [Hkey Hcopied Hnodup Hnlen Hnumber Hlive Hvalid Hisland Hrange
                        Hassigned Hmlen Hremap].
  assert (emap_chains m face_selected uv_selected vert (is_buf st)) as Hch.
  { by eapply island_inv_chains. }
  assert (length (is_buf st) = length buf1) as Hblen.
  { by eapply island_inv_buf_length. }
  assert (f_loops f !! length pre = Some l) as Hl.
  { by rewrite Hloops, lookup_app_r, Nat.sub_diag. }
  assert (face_eligible face_selected f = true) as Hel.
  { destruct (Hvalid efa) as (f' & Hf' & Hel').
    - apply elem_of_app. right. by left.
    - congruence. }
  destruct (island_find_corner m face_selected uv_selected vert (is_buf st) efa f
              (length pre) l) as (e & x & init & chain & Hchain & Hfind & Hx & Hlx & Hinit);
    [done..|].
  rewrite Hchain. simpl. rewrite Hfind, Hx.
  set (buf' := alter (element_set_island n) e (is_buf st)).
  pose proof (island_push_group_spec buf' n true init (is_island_number st) (is_stack st))
    as (pushed & Hst & Hnd & Hpushed & Hlen & Hnum).
  destruct (island_push_group buf' n true init (is_island_number st) (is_stack st))
    as [island_number' stack'].
  simpl in Hst, Hlen, Hnum. subst stack'.
  assert (emap_chains m face_selected uv_selected vert buf') as Hch'.
  { by apply emap_chains_island. }
  assert (∀ g, g ∈ pushed → g ∉ done ++ [efa] ++ is_stack st) as Hfresh.
  { intros g Hg. destruct (Hpushed g Hg) as [Hnone _].
    apply Hnumber; [|done].
    rewrite <-Hnlen. by eapply lookup_lt_Some. }
  assert (e < length (is_buf st)) as He by (by eapply lookup_lt_Some).
  constructor; cbn [is_buf is_island_number is_stack is_map is_islandbuf].
  - unfold buf'. rewrite fmap_key_alter; [|done]. apply Hkey.
  - rewrite fmap_app, Hcopied, <-app_assoc. simpl.
    by rewrite Hlx.
  - apply NoDup_insert_middle; [apply Hnodup|done..].
  - rewrite Hlen. apply Hnlen.
  - intros g Hg. rewrite Hnum, elem_of_insert_middle.
    destruct (decide (g ∈ pushed)) as [Hp|Hp].
    + split; [|tauto]. intros [= Hn]. unfold INVALID_ISLAND in Hn. lia.
    + rewrite (Hnumber g Hg). tauto.
  - intros g Hg. rewrite Hnum. destruct (decide (g ∈ pushed)) as [Hp|Hp]; [done|].
    apply Hlive.
    rewrite !elem_of_app in Hg. rewrite elem_of_app. tauto.
  - intros g [Hp|Hg]%elem_of_insert_middle;
      [|by apply Hvalid].
    destruct (Hpushed g Hp) as (_ & y & Hy%Hinit & Hface).
    destruct Hch' as (_ & _ & Hin & _).
    destruct (Hin _ _ _ Hchain Hy) as (xy & _ & Hxy & _).
    destruct (emap_corner_valid m face_selected uv_selected vert buf' y xy)
      as (fy & _ & Hfy & Hely & _); [by apply emap_chains_island|done|].
    unfold element_face in Hface. rewrite Hxy in Hface. subst g. by exists fy.
  - intros x' [Hx'|Hx']%elem_of_app.
    + rewrite Hnum, decide_False; [by apply Hisland|].
      intros Hp. apply (Hfresh _ Hp).
      assert ((ue_l x').1 ∈ done ++ [efa]) as Hd by (by eapply island_inv_copied_face).
      rewrite !elem_of_app in Hd. rewrite !elem_of_app. tauto.
    + apply list_elem_of_singleton in Hx' as ->. simpl. rewrite Hlx. simpl.
      rewrite Hnum, decide_False.
      * apply Hlive. apply elem_of_app. left. by left.
      * intros Hp. apply (Hfresh _ Hp). rewrite !elem_of_app.
        right. left. by left.
  - intros g v. rewrite Hnum. destruct (decide (g ∈ pushed)) as [Hp|Hp].
    + intros [= <-]. right. lia.
    + apply Hrange.
  - intros e' x' Hx' Hisl. rewrite elem_of_insert_middle. right.
    destruct (decide (e = e')) as [<-|Hne].
    + unfold buf' in Hx'. rewrite list_lookup_alter_eq, Hx in Hx'.
      injection Hx' as <-. simpl. rewrite Hlx. simpl.
      apply elem_of_app. right. by left.
    + unfold buf' in Hx'. rewrite list_lookup_alter_ne in Hx' by done.
      by apply (Hassigned e' x').
  - rewrite length_insert. apply Hmlen.
  - intros e' x' Hx' Hcorner.
    destruct (decide (e = e')) as [<-|Hne].
    + unfold buf' in Hx'. rewrite list_lookup_alter_eq, Hx in Hx'.
      injection Hx' as <-. split; [simpl; unfold INVALID_ISLAND; lia|].
      exists (length (is_islandbuf st)). split.
      * apply list_lookup_insert_eq.
        rewrite Hmlen.
        by rewrite <-Hblen.
      * by rewrite lookup_app_r, Nat.sub_diag.
    + unfold buf' in Hx'. rewrite list_lookup_alter_ne in Hx' by done.
      rewrite fmap_app, elem_of_app in Hcorner. simpl in Hcorner.
      destruct Hcorner as [Hcorner|Hcorner].
      * destruct (Hremap e' x' Hx' Hcorner)
          as (Hisl & k & Hk & Hkx).
        split; [done|]. exists k. rewrite list_lookup_insert_ne by done.
        split; [done|]. by apply lookup_app_l_Some.
      * apply list_elem_of_singleton in Hcorner. rewrite Hlx in Hcorner.
        destruct Hne. eapply emap_corner_unique; [apply Hch|done..|congruence].
Qed.

End IslandVisit.

Lemma NoDup_bounded_length (l : list nat) n :
  NoDup l → (∀ x, x ∈ l → x < n) → length l ≤ n.
Proof.
  intros Hnd Hlt. rewrite <-(length_seq n 0).
  apply submseteq_length, NoDup_submseteq; [done|].
  intros x Hx. apply elem_of_seq. specialize (Hlt x Hx). lia.
Qed.

Section IslandFlood.
Context {F : Type} `{FloatOps F}.
Context (m : BMesh F) (face_selected uv_selected : bool).
Context (vert : list (list nat)) (buf1 : list UvElement).
Hypothesis mesh_ok : mesh_faces_ok m.
Hypothesis chains1 : emap_chains m face_selected uv_selected vert buf1.

Local Abbreviation inv := (island_inv m face_selected uv_selected buf1).

Lemma island_visit_corners_inv n hi efa f pre ls st done :
  n < hi → faces m !! efa = Some f → f_loops f = pre ++ ls →
  inv n hi st done [efa] (eligible_loops uv_selected efa 0 pre) →
  inv n hi (foldl (island_visit_corner vert uv_selected n efa) st ls) done [efa]
    (eligible_loops uv_selected efa 0 (pre ++ ls)).
Proof.
  intros Hhi Hf. revert pre st.
  induction ls as [|l rest IH]; intros pre st Hloops Hinv; simpl.
  { by rewrite app_nil_r. }
  replace (pre ++ l :: rest) with ((pre ++ [l]) ++ rest) by (by rewrite <-app_assoc).
  apply IH; [by rewrite <-app_assoc|].
  by eapply island_visit_corner_inv.
Qed.

(** A face whose corners have all been copied is done. *)
Lemma island_face_done n hi st done efa :
  inv n hi st done [efa] (face_corners m uv_selected efa) →
  inv n hi st (done ++ [efa]) [] [].
Proof.
  intros [Hkey Hcopied Hnodup Hnlen Hnumber Hlive Hvalid Hisland Hrange
            Hassigned Hmlen Hremap].
  constructor; try done.
  - rewrite Hcopied, fmap_app, concat_app. simpl. by rewrite !app_nil_r.
  - by rewrite <-app_assoc.
  - intros f Hf. rewrite <-app_assoc. by apply Hnumber.
  - intros f Hf. apply Hlive. simpl in *. by right.
  - intros f Hf. apply Hvalid. by rewrite <-app_assoc in Hf.
  - intros e x Hx Hisl. rewrite <-app_assoc. by eapply Hassigned.
Qed.

(** Popping the next face off the stack. *)
Lemma island_face_pop n hi st done efa stack1 :
  is_stack st = efa :: stack1 → inv n hi st done [] [] →
  inv n hi {| is_buf := is_buf st; is_island_number := is_island_number st;
              is_stack := stack1; is_map := is_map st;
              is_islandbuf := is_islandbuf st |} done [efa] [].
Proof.
  intros Hst [Hkey Hcopied Hnodup Hnlen Hnumber Hlive Hvalid Hisland Hrange
                Hassigned Hmlen Hremap].
  rewrite Hst in *. by constructor.
Qed.

Lemma island_inv_done_bound n hi st done cur partial :
  inv n hi st done cur partial → length done ≤ length (faces m).
Proof.
  intros [_ _ Hnodup _ _ _ Hvalid _ _ _ _ _]. apply NoDup_bounded_length.
  - by apply NoDup_app in Hnodup as [? _].
  - intros f Hf. destruct (Hvalid f) as (efa & Hefa & _).
    + apply elem_of_app. by left.
    + by eapply lookup_lt_Some.
Qed.

(** The fill of one island: the fuel is enough to empty the stack. *)
Lemma island_flood_inv fuel n hi st done :
  n < hi → length (faces m) < fuel + length done →
  inv n hi st done [] [] →
  ∃ done',
    inv n hi (island_flood fuel m vert uv_selected n st) done' [] []
    ∧ is_stack (island_flood fuel m vert uv_selected n st) = []
    ∧ (∀ f, f ∈ done → f ∈ done')
    ∧ (∀ efa stack1, is_stack st = efa :: stack1 → efa ∈ done').
Proof.
  intros Hhi. revert st done.
  induction fuel as [|fuel IH]; intros st done Hfuel Hinv.
  { pose proof (island_inv_done_bound _ _ _ _ _ _ Hinv). lia. }
  simpl. destruct (is_stack st) as [|efa stack1] eqn:Hst.
  { exists done. split; [done|]. split; [done|]. split; [done|].
    by intros efa stack1 ?. }
  pose proof (island_face_pop _ _ _ _ _ _ Hst Hinv) as Hpop.
  pose proof Hpop as [_ _ _ _ _ _ Hvalid _ _ _ _ _].
  destruct (Hvalid efa) as (f & Hf & Hel).
  { apply elem_of_app. right. by left. }
  assert (face_loops m efa = f_loops f) as Hloops.
  { unfold face_loops. by rewrite Hf. }
  rewrite Hloops.
  pose proof (island_visit_corners_inv n hi efa f [] (f_loops f) _ done Hhi Hf eq_refl Hpop)
    as Hvisit.
  simpl in Hvisit.
  assert (eligible_loops uv_selected efa 0 (f_loops f) = face_corners m uv_selected efa)
    as Hfc.
  { unfold face_corners. by rewrite Hloops. }
  rewrite Hfc in Hvisit. apply island_face_done in Hvisit.
  assert (length (faces m) < fuel + length (done ++ [efa])) as Hfuel'.
  { rewrite length_app. simpl. lia. }
  destruct (IH _ _ Hfuel' Hvisit) as (done' & Hinv' & Hst' & Hsub & _).
  exists done'. split; [done|]. split; [done|]. split.
  - intros g Hg. apply Hsub, elem_of_app. by left.
  - intros efa' stack' [= <- <-]. apply Hsub, elem_of_app. right. by left.
Qed.

End IslandFlood.

Section IslandScan.
Context {F : Type} `{FloatOps F}.
Context (m : BMesh F) (face_selected uv_selected : bool).
Context (vert : list (list nat)) (buf1 : list UvElement).
Hypothesis mesh_ok : mesh_faces_ok m.
Hypothesis chains1 : emap_chains m face_selected uv_selected vert buf1.

Local Abbreviation inv := (island_inv m face_selected uv_selected buf1).

Lemma eligible_loops_length uv_sel j i (ls : list (BMLoop F)) :
  length (eligible_loops uv_sel j i ls)
  = if uv_sel then count_uv_selected ls else length ls.
Proof.
  revert i. induction ls as [|l ls IH]; intros i; simpl; [by destruct uv_sel|].
  unfold uv_corner_skipped. specialize (IH (S i)).
  destruct uv_sel, (l_uv_select l); simpl in *; by rewrite ?IH.
Qed.

Lemma element_map_totuv_corners face_sel uv_sel j (fs : list (BMFace F)) :
  element_map_totuv face_sel uv_sel fs
  = length (eligible_corners face_sel uv_sel j fs).
Proof.
  revert j. induction fs as [|f fs IH]; intros j; simpl; [done|].
  rewrite length_app, <-(IH (S j)).
  destruct (face_eligible face_sel f); [|done].
  by rewrite eligible_loops_length.
Qed.

(** Between two islands the stack is empty and no face is being walked. *)
Lemma island_inv_idle n n' hi hi' st done :
  is_stack st = [] → hi ≤ hi' → inv n hi st done [] [] → inv n' hi' st done [] [].
Proof.
  intros Hst Hhi [Hkey Hcopied Hnodup Hnlen Hnumber Hlive Hvalid Hisland Hrange
                    Hassigned Hmlen Hremap].
  constructor; try done.
  - intros f Hf. rewrite Hst in Hf. by apply elem_of_nil in Hf.
  - intros f v Hv. destruct (Hrange f v Hv) as [?|?]; [by left|right; lia].
Qed.

(** Opening an island at an element without one. *)
Lemma island_seed_inv k st done i x :
  is_stack st = [] → inv k k st done [] [] →
  is_buf st !! i = Some x → ue_island x = INVALID_ISLAND →
  inv k (S k)
    {| is_buf := alter (element_set_island k) i (is_buf st);
       is_island_number := <[(ue_l x).1 := Z.of_nat k]> (is_island_number st);
       is_stack := [(ue_l x).1];
       is_map := is_map st;
       is_islandbuf := is_islandbuf st |} done [] [].
Proof.
  intros Hst Hinv Hx Hisl.
  pose proof Hinv as [Hkey Hcopied Hnodup Hnlen Hnumber Hlive Hvalid Hisland Hrange
                        Hassigned Hmlen Hremap].
  assert (emap_chains m face_selected uv_selected vert (is_buf st)) as Hch.
  { by eapply island_inv_chains. }
  destruct (emap_corner_valid m face_selected uv_selected vert (is_buf st) i x)
    as (f & l & Hf & Hel & Hl & Hskip & Hfc); [done..|].
  set (g := (ue_l x).1) in *.
  rewrite Hst in *. rewrite app_nil_r in Hcopied.
  assert (∀ x', ue_l x' ∈ ue_l <$> is_islandbuf st → (ue_l x').1 ∈ done) as Hdone.
  { intros x'. rewrite Hcopied. by intros [? _]%elem_of_face_corners_concat. }
  assert (g ∉ done) as Hg.
  { intros Hg. destruct (Hremap i x Hx) as [Hne _]; [|done].
    rewrite Hcopied. apply elem_of_face_corners_concat. done. }
  assert (g < length (faces m)) as Hglt by (by eapply lookup_lt_Some).
  assert (g < length (is_island_number st)) as Hglt' by lia.
  constructor; cbn [is_buf is_island_number is_stack is_map is_islandbuf].
  - rewrite fmap_key_alter; done.
  - by rewrite app_nil_r.
  - simpl. apply NoDup_app. split; [by rewrite !app_nil_r in Hnodup|].
    split; [|apply NoDup_singleton].
    intros g' Hg' Heq. apply list_elem_of_singleton in Heq as ->. done.
  - by rewrite length_insert.
  - intros g' Hg'. simpl. destruct (decide (g' = g)) as [->|Hne].
    + rewrite list_lookup_insert_eq by done. split.
      * intros [= Hk]. unfold INVALID_ISLAND in Hk. lia.
      * intros Hnin. destruct Hnin. apply elem_of_app. right. by left.
    + rewrite list_lookup_insert_ne by done. rewrite (Hnumber g' Hg').
      simpl. rewrite !app_nil_r, elem_of_app, list_elem_of_singleton. tauto.
  - intros g' Hg'. simpl in Hg'. apply list_elem_of_singleton in Hg' as ->.
    by rewrite list_lookup_insert_eq.
  - intros g' Hg'. simpl in Hg'. apply elem_of_app in Hg' as [Hg'|Hg'].
    + apply Hvalid. simpl. by rewrite !app_nil_r.
    + apply list_elem_of_singleton in Hg' as ->. by exists f.
  - intros x' Hx'. rewrite list_lookup_insert_ne; [by apply Hisland|].
    intros Heq. apply Hg. rewrite Heq. apply Hdone.
    apply list_elem_of_fmap. by exists x'.
  - intros g' v. destruct (decide (g' = g)) as [->|Hne].
    + rewrite list_lookup_insert_eq by done. intros [= <-]. right. lia.
    + rewrite list_lookup_insert_ne by done. intros Hv.
      destruct (Hrange g' v Hv) as [?|?]; [by left|right; lia].
  - intros e x' Hx' Hne. simpl. destruct (decide (i = e)) as [<-|Hie].
    + rewrite list_lookup_alter_eq, Hx in Hx'. injection Hx' as <-. simpl.
      apply elem_of_app. right. by left.
    + rewrite list_lookup_alter_ne in Hx' by done.
      apply elem_of_app. left. specialize (Hassigned e x' Hx' Hne).
      simpl in Hassigned. by rewrite !app_nil_r in Hassigned.
  - done.
  - intros e x' Hx' Hcorner. destruct (decide (i = e)) as [<-|Hie].
    + rewrite list_lookup_alter_eq, Hx in Hx'. injection Hx' as <-.
      simpl in Hcorner. by destruct (Hremap i x Hx Hcorner) as [? _].
    + rewrite list_lookup_alter_ne in Hx' by done. by apply Hremap.
Qed.

(** The scan up to element [i]: every element below [i] belongs to a face
    that has been walked. *)
Lemma island_scan_inv i :
  i ≤ length buf1 →
  let acc := foldl (island_scan m vert uv_selected)
               ({| is_buf := buf1;
                   is_island_number := replicate (length (faces m)) INVALID_ISLAND;
                   is_stack := [];
                   is_map := replicate (length buf1) 0;
                   is_islandbuf := [] |}, 0) (seq 0 i) in
  (∀ e x, buf1 !! e = Some x → ue_island x = INVALID_ISLAND) →
  ∃ done,
    inv acc.2 acc.2 acc.1 done [] [] ∧ is_stack acc.1 = []
    ∧ (∀ e x, e < i → is_buf acc.1 !! e = Some x → (ue_l x).1 ∈ done).
Proof.
  intros Hi acc Hfresh. subst acc. induction i as [|i IH].
  { exists []. simpl. split; [|split; [done|intros; lia]].
    constructor; simpl; try done.
    - constructor.
    - by rewrite length_replicate.
    - intros f Hf. split; [by intros _ ?%elem_of_nil|]. intros _.
      apply lookup_replicate. split; [done|lia].
    - by intros f ?%elem_of_nil.
    - by intros f ?%elem_of_nil.
    - by intros x ?%elem_of_nil.
    - intros f v [-> _]%lookup_replicate. by left.
    - intros e x Hx Hne. by rewrite (Hfresh e x Hx) in Hne.
    - by rewrite length_replicate.
    - by intros e x _ ?%elem_of_nil. }
  destruct IH as (done & Hinv & Hst & Hbelow); [lia|].
  rewrite seq_S, foldl_app. simpl.
  destruct (foldl (island_scan m vert uv_selected) _ (seq 0 i)) as [st k].
  simpl in *. unfold island_scan.
  assert (length (is_buf st) = length buf1) as Hblen.
  { by eapply island_inv_buf_length. }
  destruct (lookup_lt_is_Some_2 (is_buf st) i) as [x Hx]; [lia|].
  rewrite Hx.
  destruct (Z.eqb_spec (ue_island x) INVALID_ISLAND) as [Hisl|Hisl].
  - pose proof (island_seed_inv k st done i x Hst Hinv Hx Hisl) as Hseed.
    assert (k < S k) as Hlt by lia.
    assert (length (faces m) < S (length (faces m)) + length done) as Hfuel by lia.
    destruct (island_flood_inv m face_selected uv_selected vert buf1 mesh_ok chains1
                _ _ _ _ _ Hlt Hfuel Hseed)
      as (done' & Hinv' & Hst' & Hsub & Hhead).
    simpl in Hhead. specialize (Hhead _ _ eq_refl).
    exists done'. simpl. split; [by eapply island_inv_idle|]. split; [done|].
    intros e x' He Hx'.
    assert (island_key <$> is_buf (island_flood (S (length (faces m))) m vert uv_selected k
              {| is_buf := alter (element_set_island k) i (is_buf st);
                 is_island_number := <[(ue_l x).1 := Z.of_nat k]> (is_island_number st);
                 is_stack := [(ue_l x).1]; is_map := is_map st;
                 is_islandbuf := is_islandbuf st |})
            = island_key <$> is_buf st) as Hkeys.
    { destruct Hinv' as [-> _ _ _ _ _ _ _ _ _ _ _].
      by destruct Hinv as [-> _ _ _ _ _ _ _ _ _ _ _]. }
    destruct (fmap_key_lookup island_key _ _ e x' Hkeys Hx') as (x0 & Hx0 & Hk).
    assert (ue_l x' = ue_l x0) as -> by (by injection Hk).
    destruct (decide (e = i)) as [->|Hne].
    + by simplify_eq.
    + apply Hsub, (Hbelow e x0); [lia|done].
  - exists done. simpl. split; [done|]. split; [done|].
    intros e x' He Hx'. destruct (decide (e = i)) as [->|Hne].
    + rewrite Hx in Hx'. injection Hx' as <-.
      destruct Hinv as [_ _ _ _ _ _ _ _ _ Hassigned _ _].
      specialize (Hassigned i x Hx Hisl). rewrite Hst in Hassigned.
      simpl in Hassigned. by rewrite app_nil_r in Hassigned.
    + apply (Hbelow e x'); [lia|done].
Qed.

End IslandScan.

Section IslandPass.
Context {F : Type} `{FloatOps F}.
Context (m : BMesh F) (face_selected uv_selected : bool).
Context (vert : list (list nat)) (buf1 : list UvElement).
Hypothesis mesh_ok : mesh_faces_ok m.
Hypothesis chains1 : emap_chains m face_selected uv_selected vert buf1.

Lemma NoDup_face_corners_concat (done : list nat) :
  NoDup done → NoDup (concat (face_corners m uv_selected <$> done)).
Proof.
  induction done as [|f done IH]; simpl; [constructor|].
  intros [Hf Hnd]%NoDup_cons. apply NoDup_app. split; [|split; [|by apply IH]].
  - apply NoDup_eligible_loops.
  - intros c (i & l & -> & _)%elem_of_face_corners
      [Hin _]%elem_of_face_corners_concat. done.
Qed.

(** The whole island pass. *)
Lemma island_pass_spec :
  (∀ e x, buf1 !! e = Some x → ue_island x = INVALID_ISLAND) →
  let acc := foldl (island_scan m vert uv_selected)
               ({| is_buf := buf1;
                   is_island_number := replicate (length (faces m)) INVALID_ISLAND;
                   is_stack := [];
                   is_map := replicate (length buf1) 0;
                   is_islandbuf := [] |}, 0) (seq 0 (length buf1)) in
  ue_l <$> is_islandbuf acc.1
    ≡ₚ eligible_corners face_selected uv_selected 0 (faces m)
  ∧ NoDup (ue_l <$> is_islandbuf acc.1)
  ∧ (∀ x, x ∈ is_islandbuf acc.1 → (0 ≤ ue_island x < Z.of_nat acc.2)%Z)
  ∧ (∀ x y, x ∈ is_islandbuf acc.1 → y ∈ is_islandbuf acc.1 →
       (ue_l x).1 = (ue_l y).1 → ue_island x = ue_island y)
  ∧ (∀ e x1, buf1 !! e = Some x1 →
       ∃ k x, is_map acc.1 !! e = Some k ∧ is_islandbuf acc.1 !! k = Some x
              ∧ island_key x = island_key x1).
Proof.
  intros Hfresh acc.
  destruct (island_scan_inv m face_selected uv_selected vert buf1 mesh_ok chains1
              (length buf1) (le_n _) Hfresh) as (done & Hinv & Hst & Hall).
  fold acc in Hinv, Hst, Hall.
  pose proof Hinv as [Hkey Hcopied Hnodup Hnlen Hnumber Hlive Hvalid Hisland Hrange
                        Hassigned Hmlen Hremap].
  rewrite Hst in *. rewrite !app_nil_r in *.
  assert (NoDup (ue_l <$> is_islandbuf acc.1)) as Hnd.
  { rewrite Hcopied. by apply NoDup_face_corners_concat. }
  assert (∀ e x1, buf1 !! e = Some x1 →
            ∃ x, is_buf acc.1 !! e = Some x ∧ island_key x = island_key x1
                 ∧ ue_l x ∈ ue_l <$> is_islandbuf acc.1) as Hcopy.
  { intros e x1 Hx1.
    destruct (fmap_key_lookup island_key (is_buf acc.1) buf1 e x1) as (x & Hx & Hk);
      [done|done|].
    exists x. split; [done|]. split; [done|].
    rewrite Hcopied. apply elem_of_face_corners_concat. split.
    - apply (Hall e x); [by eapply lookup_lt_Some|done].
    - assert (ue_l x = ue_l x1) as -> by (by injection Hk).
      by destruct (emap_corner_valid m face_selected uv_selected vert buf1 e x1)
        as (_ & _ & _ & _ & _ & _ & ?). }
  split; [|split; [done|split; [|split]]].
  - apply NoDup_Permutation; [done|apply NoDup_eligible_corners|].
    intros c. split.
    + rewrite Hcopied. intros [Hd Hc]%elem_of_face_corners_concat.
      destruct (Hvalid c.1) as (efa & Hefa & Hel).
      { done. }
      apply elem_of_eligible_corners. exists efa. rewrite Nat.sub_0_r.
      split; [lia|]. split; [done|]. split; [done|].
      unfold face_corners, face_loops in Hc. by rewrite Hefa in Hc.
    + destruct chains1 as (<- & _). intros (x1 & -> & Hx1)%list_elem_of_fmap.
      apply list_elem_of_lookup in Hx1 as [e Hx1].
      destruct (Hcopy e x1 Hx1) as (x & _ & Hk & Hin).
      assert (ue_l x1 = ue_l x) as -> by (by injection Hk). done.
  - intros x Hx.
    assert ((ue_l x).1 ∈ done) as Hd.
    { assert (ue_l x ∈ ue_l <$> is_islandbuf acc.1) as Hin.
      { apply list_elem_of_fmap. by exists x. }
      rewrite Hcopied in Hin. by apply elem_of_face_corners_concat in Hin as [? _]. }
    pose proof (Hisland x Hx) as Hnum.
    destruct (Hrange _ _ Hnum) as [Hbad|?]; [|done].
    rewrite Hbad in Hnum. apply Hnumber in Hnum.
    + by destruct Hnum.
    + destruct (Hvalid (ue_l x).1) as (efa & Hefa & _).
      { done. }
      by eapply lookup_lt_Some.
  - intros x y Hx Hy Hf. pose proof (Hisland x Hx) as Hnx.
    pose proof (Hisland y Hy) as Hny. rewrite Hf in Hnx. congruence.
  - intros e x1 Hx1. destruct (Hcopy e x1 Hx1) as (x & Hx & Hk & Hin).
    destruct (Hremap e x Hx Hin) as (_ & k & Hmap & Hbuf). by exists k, x.
Qed.

End IslandPass.

Lemma chain_groups_fmap sep (f : nat → nat) (chain : list nat) :
  chain_groups sep (f <$> chain)
  = (λ g : list nat, f <$> g) <$> chain_groups (λ e, sep (f e)) chain.
Proof.
  induction chain as [|e rest IH]; [done|].
  rewrite fmap_cons. cbn [chain_groups]. rewrite IH.
  destruct (chain_groups (λ e, sep (f e)) rest) as [|g gs]; [done|].
  destruct rest as [|e' rest]; [done|]. rewrite !fmap_cons.
  by destruct (sep (f e')).
Qed.

Lemma greedy_ok_group_agree {A} conn (sel : nat → A) groups g e1 e2 :
  greedy_ok conn groups → (∀ h e, conn h e = true → sel h = sel e) →
  g ∈ groups → e1 ∈ g → e2 ∈ g → sel e1 = sel e2.
Proof.
  intros Hgr Hsel Hg H1 H2.
  destruct (greedy_ok_group conn groups g Hgr Hg) as (body & h & -> & Hbody).
  rewrite Forall_forall in Hbody.
  assert (∀ e, e ∈ body ++ [h] → sel h = sel e) as Hh.
  { intros e [He|He]%elem_of_app.
    - by apply Hsel, Hbody.
    - by apply list_elem_of_singleton in He as ->. }
  by rewrite <-(Hh e1), <-(Hh e2).
Qed.

Section ElementMap.
Context {F : Type} `{FloatOps F}.

(** C5.  With [do_islands], on a mesh whose faces meet no vertex twice, the
    elements [BM_uv_element_map_create] returns are the eligible corners,
    each exactly once; each carries one island id, at least 0 and below
    [totalIslands]; and two elements on the same face carry the same id.
    So the ids split the eligible corners into disjoint islands that cover
    them, and a face lies in one island. *)
Theorem BM_uv_element_map_create_islands (m : BMesh F)
    face_selected uv_selected use_winding tf_uv_stale emap :
  mesh_faces_ok m →
  BM_uv_element_map_create m face_selected uv_selected use_winding true tf_uv_stale
    = Some emap →
  ue_l <$> em_buf emap ≡ₚ eligible_corners face_selected uv_selected 0 (faces m)
  ∧ NoDup (ue_l <$> em_buf emap)
  ∧ (∀ x, x ∈ em_buf emap → (0 ≤ ue_island x < Z.of_nat (totalIslands emap))%Z)
  ∧ (∀ x y, x ∈ em_buf emap → y ∈ em_buf emap →
       (ue_l x).1 = (ue_l y).1 → ue_island x = ue_island y).
Proof.
  unfold BM_uv_element_map_create. intros Hok Hmap.
  destruct (element_map_totuv face_selected uv_selected (faces m) =? 0); [done|].
  pose proof (element_map_merged m face_selected uv_selected use_winding tf_uv_stale)
    as Hm. simpl in Hm.
  destruct (element_map_faces face_selected uv_selected use_winding tf_uv_stale 0
              (faces m) _ _ _) as [[vert0 buf0] winding]. simpl in Hm.
  destruct (uv_sort_verts _ _ _ vert0 buf0) as [vert1 buf1]. simpl in Hm.
  destruct Hm as (_ & Hcorners & Hfresh & _ & Hchains).
  pose proof (island_pass_spec m face_selected uv_selected vert1 buf1 Hok
                (Hchains Hok) Hfresh) as Hpass.
  simpl in Hpass.
  assert (element_map_totuv face_selected uv_selected (faces m) = length buf1) as Hlen.
  { by rewrite (element_map_totuv_corners _ _ 0), <-Hcorners, length_fmap. }
  rewrite Hlen in Hmap.
  destruct (foldl (island_scan m vert1 uv_selected) _ _) as [st k].
  injection Hmap as <-. simpl in *.
  destruct Hpass as (Hperm & Hnd & Hrange & Hface & _). done.
Qed.

End ElementMap.

Section GreedyMap.

Lemma greedy_ok_fmap (conn conn' : nat → nat → bool) (f : nat → nat)
    (groups : list (list nat)) :
  (∀ h e, h ∈ concat groups → e ∈ concat groups → conn' (f h) (f e) = conn h e) →
  greedy_ok conn groups → greedy_ok conn' ((λ g : list nat, f <$> g) <$> groups).
Proof.
  induction groups as [|g earlier IH]; intros Hconn; [done|].
  rewrite fmap_cons. cbn [greedy_ok].
  intros ((body & h & -> & Hbody) & Hearlier & Hrest).
  assert (∀ e, e ∈ body ++ [h] → e ∈ concat ((body ++ [h]) :: earlier)) as Hing.
  { intros e He. simpl. apply elem_of_app. by left. }
  assert (∀ g' e, g' ∈ earlier → e ∈ g' → e ∈ concat ((body ++ [h]) :: earlier)) as Hine.
  { intros g' e Hg' He. simpl. apply elem_of_app. right.
    apply elem_of_concat. by exists g'. }
  split; [|split].
  - exists (f <$> body), (f h). split; [by rewrite fmap_app|].
    apply Forall_fmap, Forall_forall. intros e He. simpl.
    rewrite Forall_forall in Hbody. rewrite Hconn; [by apply Hbody| |].
    + apply Hing, elem_of_app. right. by left.
    + apply Hing, elem_of_app. by left.
  - intros g2 h2 (g' & -> & Hg')%list_elem_of_fmap Hlast.
    rewrite fmap_last in Hlast.
    destruct (last g') as [h'|] eqn:Hh'; [|done]. injection Hlast as <-.
    apply Forall_fmap, Forall_forall. intros e He. simpl.
    rewrite Hconn.
    + specialize (Hearlier g' h' Hg' Hh'). rewrite Forall_forall in Hearlier.
      by apply Hearlier.
    + apply (Hine g'); [done|]. apply last_Some in Hh' as (l' & ->).
      apply elem_of_app. right. by left.
    + by apply Hing.
  - apply IH; [|done]. intros h0 e0 Hh0 He0. apply Hconn; simpl; apply elem_of_app;
      by right.
Qed.

End GreedyMap.

Section ElementGroups.
Context {F : Type} `{FloatOps F}.
Context (m : BMesh F) (face_selected uv_selected : bool).
Context (tf_uv_stale : nat → nat → list F).

Local Abbreviation upto := (element_winding_upto m face_selected uv_selected tf_uv_stale).
Local Abbreviation close := (element_map_close m face_selected uv_selected).

(** The building loop leaves in [winding] the winding of every face. *)
Lemma element_map_faces_winding done fs vert buf winding :
  faces m = done ++ fs → upto (length done) winding →
  upto (length (faces m))
    (element_map_faces face_selected uv_selected true tf_uv_stale (length done) fs
       vert buf winding).2.
Proof.
  revert done vert buf winding.
  induction fs as [|f rest IH]; intros done vert buf winding Hfs Hw; simpl.
  { rewrite Hfs, app_nil_r. done. }
  assert (faces m !! length done = Some f) as Hf.
  { by rewrite Hfs, lookup_app_r, Nat.sub_diag. }
  specialize (IH (done ++ [f])). rewrite length_app, Nat.add_1_r in IH.
  assert (length done < length winding) as Hlt.
  { destruct Hw as [-> _]. rewrite Hfs, length_app. simpl. lia. }
  destruct (face_eligible face_selected f) eqn:Hel.
  - destruct (element_map_loops uv_selected (length done) 0 (f_loops f) vert buf)
      as [vert1 buf1].
    apply IH; [by rewrite <-app_assoc|].
    destruct Hw as [Hlen Hwd]. split; [by rewrite !length_insert|].
    intros k. unfold winding_at. destruct (decide (k = length done)) as [->|Hne].
    + rewrite list_lookup_insert_eq by (by rewrite length_insert).
      rewrite decide_True by lia. unfold element_map_winding. by rewrite Hf, Hel.
    + rewrite !list_lookup_insert_ne by done.
      specialize (Hwd k). unfold winding_at in Hwd. rewrite Hwd.
      repeat case_decide; try done; lia.
  - apply IH; [by rewrite <-app_assoc|].
    destruct Hw as [Hlen Hwd]. split; [by rewrite length_insert|].
    intros k. unfold winding_at. destruct (decide (k = length done)) as [->|Hne].
    + rewrite list_lookup_insert_eq by done.
      rewrite decide_True by lia. unfold element_map_winding. by rewrite Hf, Hel.
    + rewrite list_lookup_insert_ne by done.
      specialize (Hwd k). unfold winding_at in Hwd. rewrite Hwd.
      repeat case_decide; try done; lia.
Qed.

Lemma element_connected_close use_winding winding buf h e :
  (use_winding = true →
   ∀ f, winding_at winding f
        = element_map_winding m face_selected uv_selected tf_uv_stale f) →
  element_connected m use_winding winding buf h e
  = close use_winding tf_uv_stale buf h e.
Proof.
  intros Hw. unfold element_connected, element_map_close.
  destruct (buf !! h), (buf !! e); try done.
  destruct use_winding; [|done]. by rewrite !Hw.
Qed.

Lemma element_map_close_key use_winding buf buf' h e h' e' xh xe xh' xe' :
  buf !! h = Some xh → buf !! e = Some xe →
  buf' !! h' = Some xh' → buf' !! e' = Some xe' →
  ue_l xh' = ue_l xh → ue_l xe' = ue_l xe →
  close use_winding tf_uv_stale buf' h' e' = close use_winding tf_uv_stale buf h e.
Proof.
  intros Hh He Hh' He' Hlh Hle. unfold element_map_close.
  by rewrite Hh, He, Hh', He', Hlh, Hle.
Qed.

End ElementGroups.

Section ElementMapClose.
Context {F : Type} `{FloatOps F}.

(** The subgroups of a chain of the answered map against the test of the
    merge pass, read on the mesh. *)
Lemma element_map_groups_close (m : BMesh F)
    face_selected uv_selected use_winding do_islands tf_uv_stale emap a chain :
  (do_islands = true → mesh_faces_ok m) →
  BM_uv_element_map_create m face_selected uv_selected use_winding do_islands tf_uv_stale
    = Some emap →
  em_vert emap !! a = Some chain →
  greedy_ok (element_map_close m face_selected uv_selected use_winding tf_uv_stale
               (em_buf emap))
            (chain_groups (flagged ue_separate (em_buf emap)) chain).
Proof.
  intros Hok Hmap Hchain.
  unfold BM_uv_element_map_create in Hmap.
  destruct (element_map_totuv face_selected uv_selected (faces m) =? 0); [done|].
  pose proof (element_map_merged m face_selected uv_selected use_winding tf_uv_stale)
    as Hm. simpl in Hm.
  assert (use_winding = true →
          element_winding_upto m face_selected uv_selected tf_uv_stale (length (faces m))
            (element_map_faces face_selected uv_selected use_winding tf_uv_stale 0
               (faces m) (replicate (length (verts m)) []) []
               (replicate (length (faces m)) false)).2) as Hwind.
  { intros ->.
    apply (element_map_faces_winding m face_selected uv_selected tf_uv_stale []);
      [done|].
    split; [by rewrite length_replicate|]. intros f. unfold winding_at. simpl.
    destruct (replicate _ _ !! f) eqn:Hf; [|done].
    by apply lookup_replicate in Hf as [-> _]. }
  destruct (element_map_faces face_selected uv_selected use_winding tf_uv_stale 0
              (faces m) _ _ _) as [[vert0 buf0] winding]. simpl in Hm, Hwind.
  destruct (uv_sort_verts _ _ _ vert0 buf0) as [vert1 buf1]. simpl in Hm.
  destruct Hm as (_ & Hcorners & Hfresh & Hgroups & Hchains).
  assert (∀ c, vert1 !! a = Some c →
            greedy_ok (element_map_close m face_selected uv_selected use_winding
                         tf_uv_stale buf1)
                      (chain_groups (flagged ue_separate buf1) c)) as Hcore.
  { intros c Hc. destruct (Hgroups a c Hc) as [Hgr _].
    eapply greedy_ok_ext; [|exact Hgr].
    intros h e. apply element_connected_close.
    intros Hw f. destruct (Hwind Hw) as [_ Hwd]. rewrite Hwd.
    case_decide as Hlt; [done|]. unfold element_map_winding.
    rewrite lookup_ge_None_2; [done|lia]. }
  destruct do_islands; [|injection Hmap as <-; simpl in *; by apply Hcore].
  specialize (Hok eq_refl).
  pose proof (island_pass_spec m face_selected uv_selected vert1 buf1 Hok
                (Hchains Hok) Hfresh) as Hpass.
  simpl in Hpass.
  assert (element_map_totuv face_selected uv_selected (faces m) = length buf1) as Hlen.
  { by rewrite (element_map_totuv_corners _ _ 0), <-Hcorners, length_fmap. }
  rewrite Hlen in Hmap.
  destruct (foldl (island_scan m vert1 uv_selected) _ _) as [st k].
  injection Hmap as <-. simpl in *.
  destruct Hpass as (_ & _ & _ & _ & Hremap).
  rewrite list_lookup_fmap in Hchain.
  destruct (vert1 !! a) as [c|] eqn:Hc; [|done]. injection Hchain as <-.
  set (remap := λ e : nat, default 0 (is_map st !! e)) in *.
  assert (∀ e, e ∈ c →
            ∃ x1 x, buf1 !! e = Some x1 ∧ is_islandbuf st !! remap e = Some x
                    ∧ island_key x = island_key x1) as Hsame.
  { intros e He. destruct (Hgroups a c Hc) as [_ Hin].
    destruct (Hin e He) as (x1 & _ & Hx1 & _).
    destruct (Hremap e x1 Hx1) as (k' & x & Hk & Hx & Hkey).
    exists x1, x. unfold remap. rewrite Hk. done. }
  rewrite chain_groups_fmap.
  rewrite (chain_groups_ext _ (flagged ue_separate buf1)).
  2: { intros e He. destruct (Hsame e He) as (x1 & x & Hx1 & Hx & [= _ _ Hs]).
       unfold flagged. by rewrite Hx, Hx1. }
  eapply greedy_ok_fmap; [|by apply Hcore].
  rewrite chain_groups_concat. intros h e Hh He.
  destruct (Hsame h Hh) as (xh1 & xh & Hxh1 & Hxh & [= Hlh _ _]).
  destruct (Hsame e He) as (xe1 & xe & Hxe1 & Hxe & [= Hle _ _]).
  by eapply element_map_close_key.
Qed.

Lemma element_map_close_select (m : BMesh F) face_selected uv_selected use_winding
    tf_uv_stale buf h e :
  element_map_close m face_selected uv_selected use_winding tf_uv_stale buf h e = true →
  element_uv_select m buf h = element_uv_select m buf e.
Proof.
  unfold element_map_close, element_uv_select, element_corner.
  destruct (buf !! h), (buf !! e); try done.
  intros [[Hsel _]%andb_true_iff _]%andb_true_iff. by apply eqb_prop in Hsel.
Qed.

Lemma element_map_close_winding (m : BMesh F) face_selected uv_selected
    tf_uv_stale buf h e :
  element_map_close m face_selected uv_selected true tf_uv_stale buf h e = true →
  element_map_winding m face_selected uv_selected tf_uv_stale (element_corner buf h).1
  = element_map_winding m face_selected uv_selected tf_uv_stale (element_corner buf e).1.
Proof.
  unfold element_map_close, element_corner.
  destruct (buf !! h), (buf !! e); try done.
  intros [_ Hw]%andb_true_iff. simpl in Hw. by apply eqb_prop in Hw.
Qed.

(** C9, as amended.  In a chain [BM_uv_element_map_create] returns, every
    subgroup ends with the element the merge pass popped as its head, and
    each of its other elements passed the test against that head: the same
    UV selection state, UVs less than the limit apart on both axes and,
    with [use_winding], faces of the same recorded winding; no element
    passes the test against the head of a subgroup emitted before its
    own.  So two elements of a subgroup stand for corners with the same UV
    selection state (a selected and an unselected corner are never
    merged) and, with [use_winding], for faces of the same winding.  The
    limit is tested against the head only: two elements of a subgroup
    need not be within it of each other.  (With [do_islands] the elements
    are looked up in the reordered buffer, which is shown for meshes
    whose faces meet no vertex twice.) *)
Theorem BM_uv_element_map_create_select (m : BMesh F)
    face_selected uv_selected use_winding do_islands tf_uv_stale emap a chain :
  (do_islands = true → mesh_faces_ok m) →
  BM_uv_element_map_create m face_selected uv_selected use_winding do_islands tf_uv_stale
    = Some emap →
  em_vert emap !! a = Some chain →
  let buf := em_buf emap in
  let groups := chain_groups (flagged ue_separate buf) chain in
  greedy_ok (element_map_close m face_selected uv_selected use_winding tf_uv_stale buf)
    groups
  ∧ (∀ g e1 e2, g ∈ groups → e1 ∈ g → e2 ∈ g →
       element_uv_select m buf e1 = element_uv_select m buf e2)
  ∧ (use_winding = true → ∀ g e1 e2, g ∈ groups → e1 ∈ g → e2 ∈ g →
       element_map_winding m face_selected uv_selected tf_uv_stale (element_corner buf e1).1
       = element_map_winding m face_selected uv_selected tf_uv_stale
           (element_corner buf e2).1).
Proof.
  intros Hok Hmap Hchain buf groups.
  pose proof (element_map_groups_close m face_selected uv_selected use_winding do_islands
                tf_uv_stale emap a chain Hok Hmap Hchain) as Hgr.
  split; [exact Hgr|]. split.
  - intros g e1 e2 Hg He1 He2.
    eapply (greedy_ok_group_agree _ (element_uv_select m buf)); [exact Hgr| |done..].
    intros h e. apply element_map_close_select.
  - intros -> g e1 e2 Hg He1 He2.
    eapply (greedy_ok_group_agree _
              (λ e, element_map_winding m face_selected uv_selected tf_uv_stale
                      (element_corner buf e).1)); [exact Hgr| |done..].
    intros h e. apply element_map_close_winding.
Qed.

End ElementMapClose.

(** ** Concrete runs *)

Lemma mirror_cache_begin_ex_symmetric_witness :
  length (verts (bm em_pair_x)) ≤ length (mirror_table_before em_pair_x (Some [7; 7; 7]%Z))
  ∧ mirror_cache_writes (bm em_pair_x) 0 false true true false q_maxdist_mirr [] 0 0
  ∧ mirror_cache_skipped (bm em_pair_x) true true 1 = true
  ∧ mirror_table_after pair_x_selected !! 0 = Some 1%Z
  ∧ mirror_table_after pair_x_selected !! 1 = Some 0%Z
  ∧ ¬ mirror_cache_rewritten (bm em_pair_x) 0 false true true false q_maxdist_mirr []
        (length (verts (bm em_pair_x))) 0 1.
Proof.
  assert (length (verts (bm em_pair_x))
          ≤ length (mirror_table_before em_pair_x (Some [7; 7; 7]%Z)))
    as Hlen by (vm_compute; lia).
  assert (mirror_cache_writes (bm em_pair_x) 0 false true true false q_maxdist_mirr [] 0 0)
    as Hw by (split; [reflexivity|by left]).
  assert (1 < length (verts (bm em_pair_x))) as Hm by (vm_compute; lia).
  split; [exact Hlen|]. split; [exact Hw|]. split; [reflexivity|].
  split; [reflexivity|]. split; [reflexivity|].
  apply (mirror_cache_begin_ex_symmetric em_pair_x 0 false true true false
           q_maxdist_mirr [] (Some [7; 7; 7]%Z) 0 1 Hlen Hm
           (ex_intro (λ i, mirror_cache_writes (bm em_pair_x) 0 false true true false
                             q_maxdist_mirr [] i 0) 0 Hw) eq_refl).
  reflexivity.
Defined.

(** C2, as stated, fails: vertices 0 and 1 lie close to each other and
    both find vertex 2 across the plane, which finds vertex 0.  The table
    maps 1 to 2 and 2 to 0, with [use_self] off. *)
Lemma mirror_cache_begin_ex_symmetric_counterexample :
  mirror_table_after
    (EDBM_verts_mirror_cache_begin_ex em_crowded 0 false false false false
       q_maxdist_mirr [] None) = [2; 2; 0]%Z
  ∧ EDBM_verts_mirror_get em_crowded_cached 1 = Some 2
  ∧ EDBM_verts_mirror_get em_crowded_cached 2 = Some 0
  ∧ EDBM_verts_mirror_get em_crowded_cached 2 ≠ Some 1.
Proof. vm_compute. repeat split; discriminate. Qed.

Lemma mirror_cache_begin_ex_passed_over_witness :
  verts (bm em_pair_x) !! 2 = Some (q_vert 5 5 5 3)
  ∧ flag_set (v_hflag (q_vert 5 5 5 3)) BM_ELEM_HIDDEN = true
  ∧ mirror_table_after pair_x_selected !! 2
    = mirror_table_before em_pair_x (Some [7; 7; 7]%Z) !! 2
  ∧ verts (bm em_pair_x) !! 1 = Some (q_vert (-1) 0 0 0)
  ∧ flag_set (v_hflag (q_vert (-1) 0 0 0)) BM_ELEM_SELECT = false
  ∧ mirror_cache_found (bm em_pair_x) 0 false true true false q_maxdist_mirr [] 0 = Some 1
  ∧ mirror_table_after pair_x_selected !! 1 = Some 0%Z.
Proof.
  split; [reflexivity|]. split; [reflexivity|]. split.
  { exact (proj1 (mirror_cache_begin_ex_passed_over em_pair_x 0 false true true false
                    q_maxdist_mirr [] (Some [7; 7; 7]%Z) 2 (q_vert 5 5 5 3) eq_refl)
             eq_refl eq_refl). }
  split; [reflexivity|]. split; [reflexivity|]. split; [reflexivity|].
  refine (proj1 (proj2 (proj2 (mirror_cache_begin_ex_passed_over em_pair_x 0 false true
                                 true false q_maxdist_mirr [] (Some [7; 7; 7]%Z) 1
                                 (q_vert (-1) 0 0 0) eq_refl)
                          eq_refl eq_refl) 0 eq_refl _ _)).
  - intros [|[|[|j]]] Hj; try lia; vm_compute; discriminate.
  - vm_compute. lia.
Defined.

(** C3, as stated, fails: with [use_select] and [respecthide], vertex 1 is
    not selected and vertex 2 is hidden; the call leaves in the caller's
    array, which held 7 everywhere, the entry 0 for vertex 1 (written by the
    round of vertex 0) and the entry 7 for vertex 2, neither of them [-1]. *)
Lemma mirror_cache_begin_ex_passed_over_counterexample :
  vert_flag (bm em_pair_x) 1 BM_ELEM_SELECT = 0%Z
  ∧ vert_flag (bm em_pair_x) 2 BM_ELEM_HIDDEN = 2%Z
  ∧ mirror_cache_skipped (bm em_pair_x) true true 1 = true
  ∧ mirror_cache_skipped (bm em_pair_x) true true 2 = true
  ∧ mirror_table_after pair_x_selected = [1; 0; 7]%Z
  ∧ mirror_table_after pair_x_selected !! 1 ≠ Some (-1)%Z
  ∧ mirror_table_after pair_x_selected !! 2 ≠ Some (-1)%Z.
Proof. vm_compute. repeat split; discriminate. Qed.



Lemma BM_uv_element_map_create_islands_witness :
  mesh_faces_ok uv_fan
  ∧ BM_uv_element_map_create uv_fan false false false true (λ _ _, [])
    = Some (uv_fan_emap true)
  ∧ ue_l <$> em_buf (uv_fan_emap true) ≡ₚ eligible_corners false false 0 (faces uv_fan)
  ∧ NoDup (ue_l <$> em_buf (uv_fan_emap true))
  ∧ (∀ x, x ∈ em_buf (uv_fan_emap true) →
       (0 ≤ ue_island x < Z.of_nat (totalIslands (uv_fan_emap true)))%Z)
  ∧ (∀ x y, x ∈ em_buf (uv_fan_emap true) → y ∈ em_buf (uv_fan_emap true) →
       (ue_l x).1 = (ue_l y).1 → ue_island x = ue_island y).
Proof.
  assert (mesh_faces_ok uv_fan) as Hok by (unfold mesh_faces_ok; by_compute).
  assert (BM_uv_element_map_create uv_fan false false false true (λ _ _, [])
          = Some (uv_fan_emap true)) as Hmap by (vm_compute; reflexivity).
  split; [exact Hok|]. split; [exact Hmap|].
  exact (BM_uv_element_map_create_islands uv_fan false false false (λ _ _, [])
           (uv_fan_emap true) Hok Hmap).
Defined.

Lemma uv_maps_no_face_selected_witness :
  Forall (λ f, flag_set (f_hflag f) BM_ELEM_SELECT = false) (faces uv_unselected)
  ∧ BM_uv_vert_map_create uv_unselected true false = None
  ∧ BM_uv_element_map_create uv_unselected true false false true (λ _ _, []) = None.
Proof.
  assert (Forall (λ f, flag_set (f_hflag f) BM_ELEM_SELECT = false) (faces uv_unselected))
    as Hun by (repeat constructor).
  split; [exact Hun|].
  exact (proj1 (uv_maps_no_face_selected uv_unselected false false true (λ _ _, []) Hun)).
Defined.

Lemma BM_uv_element_map_create_select_witness :
  mesh_faces_ok uv_fan
  ∧ BM_uv_element_map_create uv_fan false false false true (λ _ _, [])
    = Some (uv_fan_emap true)
  ∧ em_vert (uv_fan_emap true) !! 1 = Some [1; 7; 4]
  ∧ chain_groups (flagged ue_separate (em_buf (uv_fan_emap true))) [1; 7; 4]
    = [[1]; [7; 4]]
  ∧ greedy_ok (element_map_close uv_fan false false false (λ _ _, [])
                 (em_buf (uv_fan_emap true))) [[1]; [7; 4]]
  ∧ element_uv_select uv_fan (em_buf (uv_fan_emap true)) 7
    = element_uv_select uv_fan (em_buf (uv_fan_emap true)) 4.
Proof.
  assert (mesh_faces_ok uv_fan) as Hok by (unfold mesh_faces_ok; by_compute).
  assert (BM_uv_element_map_create uv_fan false false false true (λ _ _, [])
          = Some (uv_fan_emap true)) as Hmap by (vm_compute; reflexivity).
  assert (em_vert (uv_fan_emap true) !! 1 = Some [1; 7; 4]) as Hchain
    by (vm_compute; reflexivity).
  assert (chain_groups (flagged ue_separate (em_buf (uv_fan_emap true))) [1; 7; 4]
          = [[1]; [7; 4]]) as Hgroups by (vm_compute; reflexivity).
  destruct (BM_uv_element_map_create_select uv_fan false false false true (λ _ _, [])
              (uv_fan_emap true) 1 [1; 7; 4] (λ _, Hok) Hmap Hchain) as (Hgr & Hsel & _).
  split; [exact Hok|]. split; [exact Hmap|]. split; [exact Hchain|].
  split; [exact Hgroups|]. rewrite Hgroups in Hgr, Hsel. split; [exact Hgr|].
  apply (Hsel [7; 4]); [right; left|left|right; left].
Defined.

(** C9, as stated, fails: in the chain of vertex 0 the three corners form
    one subgroup and have the same selection state, though the UVs of
    elements 0 and 3 lie more than the limit apart, so that neither passes
    the test against the other (each passes it against the head, element
    6). *)
Lemma BM_uv_element_map_create_select_counterexample :
  BM_uv_element_map_create uv_fan false false false false (λ _ _, [])
    = Some (uv_fan_emap false)
  ∧ em_vert (uv_fan_emap false) !! 0 = Some [0; 3; 6]
  ∧ chain_groups (flagged ue_separate (em_buf (uv_fan_emap false))) [0; 3; 6]
    = [[0; 3; 6]]
  ∧ element_uv_select uv_fan (em_buf (uv_fan_emap false)) 0
    = element_uv_select uv_fan (em_buf (uv_fan_emap false)) 3
  ∧ compare_v2v2
      (loop_uv uv_fan (element_corner (em_buf (uv_fan_emap false)) 0).1
         (element_corner (em_buf (uv_fan_emap false)) 0).2)
      (loop_uv uv_fan (element_corner (em_buf (uv_fan_emap false)) 3).1
         (element_corner (em_buf (uv_fan_emap false)) 3).2) STD_UV_CONNECT_LIMIT = false
  ∧ element_map_close uv_fan false false false (λ _ _, [])
      (em_buf (uv_fan_emap false)) 0 3 = false
  ∧ element_map_close uv_fan false false false (λ _ _, [])
      (em_buf (uv_fan_emap false)) 3 0 = false
  ∧ element_map_close uv_fan false false false (λ _ _, [])
      (em_buf (uv_fan_emap false)) 6 0 = true
  ∧ element_map_close uv_fan false false false (λ _ _, [])
      (em_buf (uv_fan_emap false)) 6 3 = true.
Proof. vm_compute. repeat split. Qed.

(** * Further properties *)

(** * Mirror cache: what the table may hold *)

Section MirrorCacheEntries.
Context {F : Type} `{FloatOps F}.
Context (m : BMesh F) (axis : nat) (use_self use_select respecthide use_topology : bool).
Context (maxdist : F) (index_lookup : list Z).

Local Abbreviation tree := (mirror_cache_tree m respecthide use_topology).
Local Abbreviation skipped := (mirror_cache_skipped m use_select respecthide).
Local Abbreviation found :=
  (mirror_cache_found m axis use_self use_select respecthide use_topology maxdist index_lookup).
Local Abbreviation round :=
  (mirror_cache_vert m axis use_self use_select respecthide use_topology
     (square_f maxdist) index_lookup tree).

Lemma mirror_cache_found_not_self i k : found i = Some k → use_self = false → k ≠ i.
Proof.
  unfold mirror_cache_found. intros Hf ->.
  destruct (verts m !! i); [|done].
  destruct (mirror_cache_skipped _ _ _ _); [done|].
  destruct (mirror_find _ _ _ _ _ _ _ _ _) as [w|]; [|done]. simpl in Hf.
  destruct (Nat.eqb_spec w i); simpl in Hf; [done|]. congruence.
Qed.

Lemma mirror_cache_found_in_mesh i k :
  found i = Some k → use_topology = false → k < length (verts m).
Proof.
  unfold mirror_cache_found, mirror_find. intros Hf ->.
  destruct (verts m !! i); [|done].
  destruct (mirror_cache_skipped _ _ _ _); [done|].
  destruct (_ =? -1)%Z; [done|].
  destruct (verts m !! Z.to_nat _) eqn:Hv; [|done].
  destruct (f_lt _ _); [|done]. simpl in Hf.
  destruct (_ || _); [|done]. injection Hf as <-. by eapply lookup_lt_Some.
Qed.

Lemma mirror_cache_skipped_false i :
  skipped i = false →
  i < length (verts m) ∧ (respecthide = true → vert_flag m i BM_ELEM_HIDDEN = 0%Z).
Proof.
  unfold mirror_cache_skipped, vert_flag. destruct (verts m !! i) as [v|] eqn:Hv; [|done].
  intros [Hh _]%orb_false_iff. split; [by eapply lookup_lt_Some|].
  intros ->. simpl in Hh. unfold flag_set in Hh.
  apply negb_false_iff in Hh. by apply Z.eqb_eq in Hh.
Qed.

(** Where the content of a slot comes from: it is what the table held
    before, for a slot that no round of its own wrote; or [-1], stored by
    the round of the slot's vertex; or a vertex, stored by the round of the
    slot's vertex, which found it, or by its own round, which found the
    slot's vertex. *)
Lemma mirror_cache_rounds_entry table rounds k z :
  foldl round table rounds !! k = Some z →
  (table !! k = Some z ∧ (skipped k = true ∨ k ∉ rounds))
  ∨ (z = (-1)%Z ∧ skipped k = false ∧ found k = None)
  ∨ ∃ i, z = Z.of_nat i
         ∧ ((found k = Some i ∧ skipped k = false) ∨ (found i = Some k ∧ skipped i = false)).
Proof.
  revert z. induction rounds as [|i rounds IH] using rev_ind; intros z.
  { simpl. intros Hz. left. split; [done|]. right. by intros ?%elem_of_nil. }
  rewrite foldl_app. simpl. rewrite mirror_cache_vert_spec.
  assert (∀ z, foldl round table rounds !! k = Some z → i ≠ k ∨ skipped i = true →
            (table !! k = Some z ∧ (skipped k = true ∨ k ∉ rounds ++ [i]))
            ∨ (z = (-1)%Z ∧ skipped k = false ∧ found k = None)
            ∨ ∃ i, z = Z.of_nat i
                   ∧ ((found k = Some i ∧ skipped k = false)
                      ∨ (found i = Some k ∧ skipped i = false))) as Hold.
  { intros z' Hz' Hik. destruct (IH z' Hz') as [[Ht Hk]|Hrest]; [|by right].
    left. split; [done|]. destruct Hk as [Hk|Hk]; [by left|].
    destruct Hik as [Hik|Hik].
    - right. rewrite elem_of_app, list_elem_of_singleton. intros [?|?]; [done|congruence].
    - destruct (decide (i = k)) as [->|Hne]; [by left|].
      right. rewrite elem_of_app, list_elem_of_singleton. intros [?|?]; [done|congruence]. }
  destruct (skipped i) eqn:Hi.
  { intros Hz. apply Hold; [done|by right]. }
  destruct (found i) as [w|] eqn:Hw.
  - destruct (decide (w = k)) as [->|Hwk].
    + intros Hz. apply lookup_lt_Some in Hz as Hlt. rewrite !length_insert in Hlt.
      rewrite list_lookup_insert_eq in Hz by (by rewrite length_insert).
      injection Hz as <-. right. right. exists i. split; [done|]. by right.
    + rewrite list_lookup_insert_ne by done.
      destruct (decide (i = k)) as [->|Hik].
      * intros Hz. apply lookup_lt_Some in Hz as Hlt. rewrite length_insert in Hlt.
        rewrite list_lookup_insert_eq in Hz by done. injection Hz as <-.
        right. right. exists w. split; [done|]. by left.
      * rewrite list_lookup_insert_ne by done. intros Hz. apply Hold; [done|by left].
  - destruct (decide (i = k)) as [->|Hik].
    + intros Hz. apply lookup_lt_Some in Hz as Hlt. rewrite length_insert in Hlt.
      rewrite list_lookup_insert_eq in Hz by done. injection Hz as <-.
      right. by left.
    + rewrite list_lookup_insert_ne by done. intros Hz. apply Hold; [done|by left].
Qed.

(** A vertex stored in a slot is fit to be the mirror of the slot's vertex. *)
Lemma mirror_cache_partner_fit i k :
  (found k = Some i ∧ skipped k = false) ∨ (found i = Some k ∧ skipped i = false) →
  (respecthide = true → vert_flag m i BM_ELEM_HIDDEN = 0%Z)
  ∧ (use_self = false → i ≠ k)
  ∧ (use_topology = false → i < length (verts m)).
Proof.
  intros [[Hf Hs]|[Hf Hs]].
  - split; [by eapply mirror_cache_found_visible|]. split.
    + exact (mirror_cache_found_not_self k i Hf).
    + exact (mirror_cache_found_in_mesh k i Hf).
  - destruct (mirror_cache_skipped_false i Hs) as [Hlt Hvis].
    split; [done|]. split; [|done].
    intros Hus ->. by destruct (mirror_cache_found_not_self k k Hf Hus).
Qed.

End MirrorCacheEntries.

Section MirrorCacheSession.
Context {F : Type} `{FloatOps F}.
Implicit Types (em : BMEditMesh F) (m : BMesh F).

(** X1.  Whatever [EDBM_verts_mirror_cache_begin_ex] leaves in a slot of
    the table is what the slot held before the call, or [-1], or the index
    of a vertex that is not hidden when [respecthide] is set, is not the
    slot's own vertex when [use_self] is off, and (in the spatial search)
    is a vertex of the mesh.  The table keeps its length. *)
Theorem mirror_cache_begin_ex_entries em axis use_self use_select respecthide
    use_topology (maxdist : F) index_lookup r_index :
  let before := mirror_table_before em r_index in
  let after :=
    mirror_table_after
      (EDBM_verts_mirror_cache_begin_ex em axis use_self use_select respecthide
         use_topology maxdist index_lookup r_index) in
  length after = length before
  ∧ ∀ k z, after !! k = Some z →
      before !! k = Some z
      ∨ z = (-1)%Z
      ∨ ∃ i, z = Z.of_nat i
             ∧ (respecthide = true → vert_flag (bm em) i BM_ELEM_HIDDEN = 0%Z)
             ∧ (use_self = false → i ≠ k)
             ∧ (use_topology = false → i < length (verts (bm em))).
Proof.
  intros before after. unfold after.
  rewrite mirror_cache_begin_ex_table, mirror_cache_table_rounds. split.
  { apply mirror_cache_rounds_length. }
  intros k z Hz.
  apply mirror_cache_rounds_entry in Hz as [[Hb _]|[(-> & _)|(i & -> & Hi)]].
  - by left.
  - right. by left.
  - right. right. exists i. split; [done|]. by eapply mirror_cache_partner_fit.
Qed.

Lemma find_index_names (name : string) (l l' : list (string * list Z)) :
  l.*1 = l'.*1 →
  find_index (λ layer, bool_decide (layer.1 = name)) l
  = find_index (λ layer, bool_decide (layer.1 = name)) l'.
Proof.
  revert l'. induction l as [|x l IH]; intros [|y l']; simpl; try done.
  intros [= Hxy Hl]. rewrite Hxy, (IH l' Hl). done.
Qed.

Lemma find_index_set_layer (name : string) n (table : list Z) (l : list (string * list Z)) :
  find_index (λ layer, bool_decide (layer.1 = name))
    (alter (λ layer, (layer.1, table)) n l)
  = find_index (λ layer, bool_decide (layer.1 = name)) l.
Proof.
  apply find_index_names. apply list_eq. intros j. rewrite !list_lookup_fmap.
  destruct (decide (n = j)) as [->|Hne].
  - rewrite list_lookup_alter_eq. by destruct (l !! j).
  - by rewrite list_lookup_alter_ne.
Qed.

(** The layer [EDBM_verts_mirror_cache_begin_ex] works on when it is given
    no array: the layer named [BM_CD_LAYER_ID], the one the mesh had or a
    new one after the others. *)
Lemma mirror_cache_begin_layer em axis use_self use_select respecthide use_topology
    (maxdist : F) index_lookup :
  let res := EDBM_verts_mirror_cache_begin_ex em axis use_self use_select respecthide
               use_topology maxdist index_lookup None in
  ∃ n, mirror_cdlayer res.1 = Z.of_nat n
       ∧ vdata (bm res.1) !! n = Some (BM_CD_LAYER_ID, mirror_table_after res)
       ∧ (∀ j, j ≠ n → j < length (vdata (bm em)) →
            vdata (bm res.1) !! j = vdata (bm em) !! j)
       ∧ find_index (λ layer, bool_decide (layer.1 = BM_CD_LAYER_ID)) (vdata (bm res.1))
         = Some n
       ∧ ((find_index (λ layer, bool_decide (layer.1 = BM_CD_LAYER_ID)) (vdata (bm em))
           = Some n ∧ length (vdata (bm res.1)) = length (vdata (bm em)))
          ∨ (find_index (λ layer, bool_decide (layer.1 = BM_CD_LAYER_ID)) (vdata (bm em))
             = None ∧ n = length (vdata (bm em))
             ∧ length (vdata (bm res.1)) = S (length (vdata (bm em))))).
Proof.
  intros res. unfold mirror_table_after. subst res.
  unfold EDBM_verts_mirror_cache_begin_ex. cbn [fst snd].
  change (CustomData_get_named_layer_index (BM_mesh_elem_table_ensure (bm em)) BM_CD_LAYER_ID)
    with (CustomData_get_named_layer_index (bm em) BM_CD_LAYER_ID).
  destruct (layer_index_cases (bm em) BM_CD_LAYER_ID) as [[-> Hnone]|(n & -> & Hn)].
  - simpl.
    rewrite (layer_index_added (BM_mesh_elem_table_ensure (bm em)) _ Hnone).
    simpl. rewrite Nat2Z.id.
    exists (length (vdata (bm em))). split; [done|].
    assert (length (vdata (bm em))
            < length (vdata (BM_data_layer_add_named (BM_mesh_elem_table_ensure (bm em))
                               BM_CD_LAYER_ID))) as Hlt.
    { simpl. rewrite length_app. simpl. lia. }
    split; [|split; [|split]].
    + rewrite layer_slots_set_layer by done. simpl.
      rewrite list_lookup_alter_eq, lookup_app_r, Nat.sub_diag by done. done.
    + intros j Hj Hlt'. simpl. rewrite list_lookup_alter_ne by done.
      by rewrite lookup_app_l.
    + rewrite find_index_set_layer.
      apply find_index_snoc; [done|]. by apply bool_decide_eq_true.
    + right. split; [done|]. split; [done|]. simpl.
      rewrite length_alter, length_app. simpl. lia.
  - destruct (Z.eqb_spec (Z.of_nat n) (-1)) as [?|_]; [lia|].
    change (CustomData_get_named_layer_index (BM_mesh_elem_table_ensure (bm em)) BM_CD_LAYER_ID)
      with (CustomData_get_named_layer_index (bm em) BM_CD_LAYER_ID).
    unfold CustomData_get_named_layer_index. rewrite Hn.
    cbn [vdata bm mirror_cdlayer]. rewrite Nat2Z.id.
    exists n. split; [done|].
    pose proof (find_index_lt _ _ _ Hn) as Hlt.
    destruct (find_index_Some _ _ _ Hn) as ([name old] & Hold & Hname).
    apply bool_decide_eq_true in Hname. simpl in Hname. subst name.
    split; [|split; [|split]].
    + rewrite layer_slots_set_layer by done. simpl.
      rewrite list_lookup_alter_eq. simpl in Hold. by rewrite Hold.
    + intros j Hj _. simpl. by rewrite list_lookup_alter_ne.
    + simpl. by rewrite find_index_set_layer.
    + left. split; [done|]. simpl. by rewrite length_alter.
Qed.

(** The call changes no element of the mesh. *)
Lemma mirror_cache_begin_ex_elements em axis use_self use_select respecthide
    use_topology (maxdist : F) index_lookup r_index :
  let res := EDBM_verts_mirror_cache_begin_ex em axis use_self use_select respecthide
               use_topology maxdist index_lookup r_index in
  verts (bm res.1) = verts (bm em) ∧ edges (bm res.1) = edges (bm em)
  ∧ faces (bm res.1) = faces (bm em) ∧ vtable (bm res.1) = true.
Proof.
  intros res. subst res. unfold EDBM_verts_mirror_cache_begin_ex.
  destruct r_index; simpl; [done|]. by destruct (_ =? -1)%Z.
Qed.

(** X2.  [EDBM_verts_mirror_cache_begin_ex] changes no vertex, edge or
    face and leaves the vertex table in place.  Given an array it touches
    no layer and not [em->mirror_cdlayer]; given none it leaves
    [em->mirror_cdlayer] at the layer named [BM_CD_LAYER_ID], which then
    exists and holds the table, and the layers the mesh had under other
    indices are as before. *)
Theorem mirror_cache_begin_ex_frame em axis use_self use_select respecthide
    use_topology (maxdist : F) index_lookup r_index :
  let res := EDBM_verts_mirror_cache_begin_ex em axis use_self use_select respecthide
               use_topology maxdist index_lookup r_index in
  verts (bm res.1) = verts (bm em) ∧ edges (bm res.1) = edges (bm em)
  ∧ faces (bm res.1) = faces (bm em) ∧ vtable (bm res.1) = true
  ∧ (∀ idx, r_index = Some idx →
       vdata (bm res.1) = vdata (bm em) ∧ mirror_cdlayer res.1 = mirror_cdlayer em
       ∧ ∃ table, res.2 = Some table ∧ length table = length idx)
  ∧ (r_index = None →
       res.2 = None
       ∧ (0 ≤ mirror_cdlayer res.1)%Z
       ∧ CustomData_get_named_layer_index (bm res.1) BM_CD_LAYER_ID = mirror_cdlayer res.1
       ∧ vdata (bm res.1) !! Z.to_nat (mirror_cdlayer res.1)
         = Some (BM_CD_LAYER_ID, mirror_table_after res)
       ∧ ∀ j, j ≠ Z.to_nat (mirror_cdlayer res.1) → j < length (vdata (bm em)) →
           vdata (bm res.1) !! j = vdata (bm em) !! j).
Proof.
  intros res.
  destruct (mirror_cache_begin_ex_elements em axis use_self use_select respecthide
              use_topology maxdist index_lookup r_index) as (?&?&?&?).
  fold res. repeat (split; [done|]). split.
  - intros idx ->. subst res. simpl. repeat split; try done.
    eexists. split; [done|]. rewrite mirror_cache_table_rounds.
    apply mirror_cache_rounds_length.
  - intros ->. subst res.
    destruct (mirror_cache_begin_layer em axis use_self use_select respecthide
                use_topology maxdist index_lookup) as (n & Hn & Hlayer & Hother & Hfind & _).
    split; [done|]. rewrite Hn, Nat2Z.id. split; [lia|].
    split; [|split; [done|done]].
    unfold CustomData_get_named_layer_index. by rewrite Hfind.
Qed.

End MirrorCacheSession.

Section MirrorCacheUse.
Context {F : Type} `{FloatOps F}.
Implicit Types (em : BMEditMesh F) (m : BMesh F).

(** The slot [EDBM_verts_mirror_get] reads after a call without array. *)
Lemma mirror_cache_begin_slot em axis use_self use_select respecthide use_topology
    (maxdist : F) index_lookup v :
  let res := EDBM_verts_mirror_cache_begin_ex em axis use_self use_select respecthide
               use_topology maxdist index_lookup None in
  CustomData_bmesh_get_layer_n (bm res.1) v (mirror_cdlayer res.1)
  = mirror_table_after res !! v.
Proof.
  intros res.
  destruct (mirror_cache_begin_layer em axis use_self use_select respecthide
              use_topology maxdist index_lookup) as (n & Hn & Hlayer & _).
  fold res in Hn, Hlayer. unfold CustomData_bmesh_get_layer_n.
  rewrite Hn, Nat2Z.id, Hlayer. by destruct (Z.ltb_spec (Z.of_nat n) 0); [lia|].
Qed.

(** X3.  After [EDBM_verts_mirror_cache_begin], the mirror that
    [EDBM_verts_mirror_get] answers for a vertex the loop did not pass over
    is a vertex of the mesh, not hidden when [respecthide] is set and not
    the vertex itself when [use_self] is off; it is what the search of the
    vertex found, or a vertex whose own search found the vertex. *)
Theorem EDBM_verts_mirror_cache_begin_get em axis use_self use_select respecthide
    use_topology (maxdist_mirr : F) index_lookup v v_mirr :
  mirror_cache_skipped (bm em) use_select respecthide v = false →
  EDBM_verts_mirror_get
    (EDBM_verts_mirror_cache_begin em axis use_self use_select respecthide
       use_topology maxdist_mirr index_lookup) v = Some v_mirr →
  v_mirr < length (verts (bm em))
  ∧ (respecthide = true → vert_flag (bm em) v_mirr BM_ELEM_HIDDEN = 0%Z)
  ∧ (use_self = false → v_mirr ≠ v)
  ∧ (mirror_cache_found (bm em) axis use_self use_select respecthide use_topology
       maxdist_mirr index_lookup v = Some v_mirr
     ∨ (mirror_cache_found (bm em) axis use_self use_select respecthide use_topology
          maxdist_mirr index_lookup v_mirr = Some v
        ∧ mirror_cache_skipped (bm em) use_select respecthide v_mirr = false)).
Proof.
  intros Hv Hget. unfold EDBM_verts_mirror_get, EDBM_verts_mirror_cache_begin in Hget.
  rewrite mirror_cache_begin_slot in Hget.
  apply mirror_get_slot_Some in Hget as (z & Hz & Hrange & -> & _).
  destruct (mirror_cache_begin_ex_elements em axis use_self use_select respecthide
              use_topology maxdist_mirr index_lookup None) as (Hverts & _).
  unfold totvert in Hrange. rewrite Hverts in Hrange.
  rewrite mirror_cache_begin_ex_table, mirror_cache_table_rounds in Hz.
  destruct (mirror_cache_skipped_false _ _ _ _ Hv) as [Hlt _].
  apply mirror_cache_rounds_entry in Hz as [[_ [Hs|Hn]]|[(-> & _)|(i & -> & Hi)]].
  - congruence.
  - destruct Hn. apply elem_of_seq. split; [apply Nat.le_0_l|exact Hlt].
  - lia.
  - rewrite Nat2Z.id. split; [lia|].
    destruct (mirror_cache_partner_fit _ _ _ _ _ _ _ _ _ _ Hi) as (Hvis & Hself & _).
    split; [done|]. split; [done|]. destruct Hi as [[? _]|?]; [by left|by right].
Qed.

(** X4.  [EDBM_verts_mirror_cache_clear] leaves the vertex without mirror:
    [EDBM_verts_mirror_get] answers [NULL] for it afterwards; the answers
    for the other vertices, the mesh elements and [em->mirror_cdlayer] are
    as before. *)
Theorem EDBM_verts_mirror_cache_clear_get em v :
  let em' := EDBM_verts_mirror_cache_clear em v in
  EDBM_verts_mirror_get em' v = None
  ∧ (∀ w, w ≠ v → EDBM_verts_mirror_get em' w = EDBM_verts_mirror_get em w)
  ∧ verts (bm em') = verts (bm em) ∧ edges (bm em') = edges (bm em)
  ∧ faces (bm em') = faces (bm em) ∧ mirror_cdlayer em' = mirror_cdlayer em.
Proof.
  intros em'. subst em'. unfold EDBM_verts_mirror_cache_clear.
  destruct (CustomData_bmesh_get_layer_n (bm em) v (mirror_cdlayer em)) as [z|] eqn:Hslot.
  - unfold CustomData_bmesh_get_layer_n in Hslot.
    destruct (mirror_cdlayer em <? 0)%Z eqn:Hneg; [done|].
    destruct (vdata (bm em) !! Z.to_nat (mirror_cdlayer em)) as [layer|] eqn:Hlayer; [|done].
    assert (∀ w, CustomData_bmesh_get_layer_n
                   (set_layer (bm em) (Z.to_nat (mirror_cdlayer em))
                      (<[v := (-1)%Z]> (layer_slots (bm em) (Z.to_nat (mirror_cdlayer em)))))
                   w (mirror_cdlayer em)
                 = <[v := (-1)%Z]> layer.2 !! w) as Hnew.
    { intros w. unfold CustomData_bmesh_get_layer_n, layer_slots. rewrite Hneg. simpl.
      by rewrite list_lookup_alter_eq, Hlayer. }
    split; [|split; [|done]].
    + unfold EDBM_verts_mirror_get. simpl. rewrite Hnew.
      rewrite list_lookup_insert_eq by (by eapply lookup_lt_Some). done.
    + intros w Hw. unfold EDBM_verts_mirror_get. simpl. rewrite Hnew.
      rewrite list_lookup_insert_ne by done.
      unfold CustomData_bmesh_get_layer_n. by rewrite Hneg, Hlayer.
  - split; [|done]. unfold EDBM_verts_mirror_get. by rewrite Hslot.
Qed.

(** What the rounds of [EDBM_verts_mirror_apply] leave alone. *)
Lemma mirror_apply_rounds_keep sf st rounds em :
  let em' := foldl (mirror_apply_vert sf st) em rounds in
  same_frame em em'
  ∧ ∀ k, vert_flag (bm em) k BM_ELEM_SELECT ≠ st
         ∨ (∀ v, EDBM_verts_mirror_get em v ≠ Some k) →
         verts (bm em') !! k = verts (bm em) !! k.
Proof.
  revert em. induction rounds as [|i rounds IH]; intros em; simpl.
  { split; [apply same_frame_refl|done]. }
  pose proof (mirror_apply_vert_frame sf st em i) as Hfr.
  destruct (IH (mirror_apply_vert sf st em i)) as [Hfr' Hkeep].
  split; [by eapply same_frame_trans|].
  intros k Hk. rewrite Hkeep.
  - rewrite mirror_apply_vert_spec.
    destruct (mirror_apply_target em sf st i) as [mirr|] eqn:Htgt; [|done].
    apply mirror_apply_target_flags in Htgt as (_ & Hst & Hget & _).
    simpl. rewrite list_lookup_alter_ne; [done|].
    intros ->. destruct Hk as [Hk|Hk]; [done|]. by destruct (Hk i).
  - destruct Hk as [Hk|Hk].
    + left. by rewrite (same_frame_vert_flag _ _ _ _ Hfr).
    + right. intros v. rewrite (same_frame_get _ _ _ Hfr). apply Hk.
Qed.

(** X5.  [EDBM_verts_mirror_apply] changes positions only: the flags of
    the vertices, their number, the edges, the faces, the layers and
    [em->mirror_cdlayer] are as before; and a vertex whose selection state
    is not [sel_to], or that is the mirror of no vertex, keeps its
    position. *)
Theorem EDBM_verts_mirror_apply_keeps em sel_from sel_to :
  let em' := EDBM_verts_mirror_apply em sel_from sel_to in
  same_frame em em'
  ∧ length (verts (bm em')) = length (verts (bm em))
  ∧ (∀ k, vert_flag (bm em) k BM_ELEM_SELECT ≠ sel_to →
       verts (bm em') !! k = verts (bm em) !! k)
  ∧ (∀ k, (∀ v, EDBM_verts_mirror_get em v ≠ Some k) →
       verts (bm em') !! k = verts (bm em) !! k).
Proof.
  intros em'. subst em'. unfold EDBM_verts_mirror_apply.
  destruct (mirror_apply_rounds_keep sel_from sel_to
              (seq 0 (length (verts (bm em)))) em) as [Hfr Hkeep].
  split; [done|]. split; [by apply same_frame_length|].
  split; intros k Hk; apply Hkeep; [by left|by right].
Qed.

(** X6.  [EDBM_verts_mirror_cache_end] only sets [em->mirror_cdlayer] to
    [-1]; a later [EDBM_verts_mirror_cache_begin] finds the layer by its
    name: it adds no layer and leaves [em->mirror_cdlayer] where the first
    call had left it. *)
Theorem EDBM_verts_mirror_cache_reopen em axis use_self use_select respecthide
    use_topology (maxdist_mirr : F) index_lookup
    axis' use_self' use_select' respecthide' use_topology' (maxdist_mirr' : F)
    index_lookup' :
  let em1 := EDBM_verts_mirror_cache_begin em axis use_self use_select respecthide
               use_topology maxdist_mirr index_lookup in
  let em2 := EDBM_verts_mirror_cache_begin (EDBM_verts_mirror_cache_end em1)
               axis' use_self' use_select' respecthide' use_topology' maxdist_mirr'
               index_lookup' in
  bm (EDBM_verts_mirror_cache_end em1) = bm em1
  ∧ mirror_cdlayer (EDBM_verts_mirror_cache_end em1) = (-1)%Z
  ∧ mirror_cdlayer em2 = mirror_cdlayer em1
  ∧ length (vdata (bm em2)) = length (vdata (bm em1))
  ∧ (vdata (bm em2)).*1 = (vdata (bm em1)).*1.
Proof.
  intros em1 em2. split; [done|]. split; [done|].
  destruct (mirror_cache_begin_layer em axis use_self use_select respecthide
              use_topology maxdist_mirr index_lookup) as (n & Hn & _ & _ & Hfind & _).
  destruct (mirror_cache_begin_layer (EDBM_verts_mirror_cache_end em1) axis' use_self'
              use_select' respecthide' use_topology' maxdist_mirr' index_lookup')
    as (n' & Hn' & Hlayer' & Hother' & _ & Hcase).
  fold (EDBM_verts_mirror_cache_begin em axis use_self use_select respecthide
          use_topology maxdist_mirr index_lookup) in Hn, Hfind.
  fold em1 in Hn, Hfind.
  fold (EDBM_verts_mirror_cache_begin (EDBM_verts_mirror_cache_end em1) axis' use_self'
          use_select' respecthide' use_topology' maxdist_mirr' index_lookup')
    in Hn', Hlayer', Hother', Hcase.
  fold em2 in Hn', Hlayer', Hother', Hcase.
  change (bm (EDBM_verts_mirror_cache_end em1)) with (bm em1) in Hcase, Hother'.
  rewrite Hfind in Hcase. destruct Hcase as [[[= <-] Hlen]|[? _]]; [|done].
  split; [congruence|]. split; [done|].
  apply list_eq. intros j. rewrite !list_lookup_fmap.
  destruct (decide (j = n)) as [->|Hne].
  - rewrite Hlayer'. destruct (find_index_Some _ _ _ Hfind) as ([name old] & -> & Hname).
    apply bool_decide_eq_true in Hname. simpl in *. by rewrite Hname.
  - destruct (decide (j < length (vdata (bm em1)))) as [Hlt|Hge].
    + by rewrite Hother'.
    + rewrite !lookup_ge_None_2; [done|lia|lia].
Qed.

End MirrorCacheUse.

(** * Element indices *)

Section ElementIndex.
Context {F : Type} `{FloatOps F}.
Context (vert_at edge_at face_at : BMesh F → Z → option nat).
Context (BKE_editmesh_from_object : nat → nat) (editmesh_at : nat → BMEditMesh F).
Implicit Types (em : BMEditMesh F) (m : BMesh F).

Local Abbreviation from_index_any := (EDBM_elem_from_index_any vert_at edge_at face_at).

Lemma int_add_small a b :
  (- 2 ^ 31 ≤ a + b < 2 ^ 31)%Z → int_add a b = (a + b)%Z.
Proof.
  intros Hab. unfold int_add. rewrite Z.mod_small; lia.
Qed.

Lemma EDBM_elem_to_index_any_small em ele :
  elem_counts_fit (bm em) → elem_in_mesh (bm em) ele →
  EDBM_elem_to_index_any em ele
  = match ele with
    | ElemVert index => Z.of_nat index
    | ElemEdge index => (Z.of_nat index + totvert (bm em))%Z
    | ElemFace index => (Z.of_nat index + totvert (bm em) + totedge (bm em))%Z
    | ElemLoop index => Z.of_nat index
    end.
Proof.
  unfold elem_counts_fit, elem_in_mesh, EDBM_elem_to_index_any, totvert, totedge, totface.
  intros Hfit Hin. destruct ele as [i|i|i|i]; try done.
  - apply int_add_small. lia.
  - rewrite (int_add_small (Z.of_nat (length _)) _) by lia.
    rewrite int_add_small by lia. lia.
Qed.

Lemma elem_index_any_back em ele :
  at_index_ok totvert vert_at → at_index_ok totedge edge_at → at_index_ok totface face_at →
  elem_counts_fit (bm em) → elem_in_mesh (bm em) ele →
  from_index_any em (EDBM_elem_to_index_any em ele) = Some ele.
Proof.
  intros Hv He Hf Hfit Hin. rewrite EDBM_elem_to_index_any_small by done.
  unfold EDBM_elem_from_index_any. cbn zeta.
  unfold elem_in_mesh in Hin. unfold elem_counts_fit in Hfit.
  pose proof (Hv (bm em)) as Hv'. pose proof (He (bm em)) as He'.
  pose proof (Hf (bm em)) as Hf'.
  unfold totvert, totedge, totface in *.
  destruct ele as [i|i|i|i]; [| | done |].
  - destruct (Z.ltb_spec (Z.of_nat i) (Z.of_nat (length (verts (bm em))))); [|lia].
    rewrite Hv' by lia. simpl. by rewrite Nat2Z.id.
  - destruct (Z.ltb_spec (Z.of_nat i + Z.of_nat (length (verts (bm em))))
                (Z.of_nat (length (verts (bm em))))); [lia|].
    replace (Z.of_nat i + Z.of_nat (length (verts (bm em)))
             - Z.of_nat (length (verts (bm em))))%Z with (Z.of_nat i) by lia.
    destruct (Z.ltb_spec (Z.of_nat i) (Z.of_nat (length (edges (bm em))))); [|lia].
    rewrite He' by lia. simpl. by rewrite Nat2Z.id.
  - destruct (Z.ltb_spec (Z.of_nat i + Z.of_nat (length (verts (bm em)))
                          + Z.of_nat (length (edges (bm em))))
                (Z.of_nat (length (verts (bm em))))); [lia|].
    replace (Z.of_nat i + Z.of_nat (length (verts (bm em)))
             + Z.of_nat (length (edges (bm em)))
             - Z.of_nat (length (verts (bm em))))%Z
      with (Z.of_nat i + Z.of_nat (length (edges (bm em))))%Z by lia.
    destruct (Z.ltb_spec (Z.of_nat i + Z.of_nat (length (edges (bm em))))
                (Z.of_nat (length (edges (bm em))))); [lia|].
    replace (Z.of_nat i + Z.of_nat (length (edges (bm em)))
             - Z.of_nat (length (edges (bm em))))%Z with (Z.of_nat i) by lia.
    destruct (Z.ltb_spec (Z.of_nat i) (Z.of_nat (length (faces (bm em))))); [|lia].
    rewrite Hf' by lia. simpl. by rewrite Nat2Z.id.
Qed.

(** X7.  [EDBM_elem_from_index_any] undoes [EDBM_elem_to_index_any]: for a
    vertex, an edge or a face of the mesh, the index the second answers is
    taken back to that element by the first.  The element counts must fit
    an [int] together, and the lookups by index must answer the element of
    that index. *)
Theorem EDBM_elem_index_any_round_trip em ele :
  at_index_ok totvert vert_at → at_index_ok totedge edge_at → at_index_ok totface face_at →
  elem_counts_fit (bm em) → elem_in_mesh (bm em) ele →
  from_index_any em (EDBM_elem_to_index_any em ele) = Some ele.
Proof. apply elem_index_any_back. Qed.

(** X8.  [EDBM_elem_from_index_any] answers [NULL] for an index at or past
    the sum of the element counts, whatever the lookups are; for an index
    from 0 below that sum it answers an element of the mesh (vertices
    first, then edges, then faces) whose [EDBM_elem_to_index_any] is that
    index. *)
Theorem EDBM_elem_from_index_any_range em index :
  at_index_ok totvert vert_at → at_index_ok totedge edge_at → at_index_ok totface face_at →
  elem_counts_fit (bm em) →
  ((totvert (bm em) + totedge (bm em) + totface (bm em) ≤ index)%Z →
   from_index_any em index = None)
  ∧ ((0 ≤ index < totvert (bm em) + totedge (bm em) + totface (bm em))%Z →
     ∃ ele, from_index_any em index = Some ele ∧ elem_in_mesh (bm em) ele
            ∧ EDBM_elem_to_index_any em ele = index).
Proof.
  intros Hv He Hf Hfit. split.
  - intros Hge. unfold EDBM_elem_from_index_any. cbn zeta.
    unfold totvert, totedge, totface in *.
    destruct (Z.ltb_spec index (Z.of_nat (length (verts (bm em))))); [lia|].
    destruct (Z.ltb_spec (index - Z.of_nat (length (verts (bm em))))
                (Z.of_nat (length (edges (bm em))))); [lia|].
    destruct (Z.ltb_spec (index - Z.of_nat (length (verts (bm em)))
                          - Z.of_nat (length (edges (bm em))))
                (Z.of_nat (length (faces (bm em))))); [lia|done].
  - intros Hidx.
    assert (∃ ele, elem_in_mesh (bm em) ele
                   ∧ match ele with
                     | ElemVert i => Z.of_nat i
                     | ElemEdge i => (Z.of_nat i + totvert (bm em))%Z
                     | ElemFace i => (Z.of_nat i + totvert (bm em) + totedge (bm em))%Z
                     | ElemLoop i => Z.of_nat i
                     end = index) as (ele & Hin & Hto).
    { unfold totvert, totedge, totface in *.
      destruct (Z.ltb_spec index (Z.of_nat (length (verts (bm em))))).
      { exists (ElemVert (Z.to_nat index)). simpl. lia. }
      destruct (Z.ltb_spec (index - Z.of_nat (length (verts (bm em))))
                  (Z.of_nat (length (edges (bm em))))).
      { exists (ElemEdge (Z.to_nat (index - Z.of_nat (length (verts (bm em)))))).
        simpl. lia. }
      exists (ElemFace (Z.to_nat (index - Z.of_nat (length (verts (bm em)))
                                  - Z.of_nat (length (edges (bm em)))))).
      simpl. lia. }
    rewrite <-(EDBM_elem_to_index_any_small em ele Hfit Hin) in Hto.
    exists ele. split; [|done]. rewrite <-Hto.
    by apply elem_index_any_back.
Qed.

Lemma find_index_first {A} (p : A → bool) (l : list A) n n' x :
  find_index p l = Some n → n' < n → l !! n' = Some x → p x = false.
Proof.
  revert n n'. induction l as [|y l IH]; intros n n'; simpl; [done|].
  destruct (p y) eqn:Hp; [intros [= <-]; lia|].
  destruct (find_index p l) as [k|]; [|done]. intros [= <-] Hlt.
  destruct n' as [|n']; simpl; [by intros [= <-]|].
  apply (IH k n'); [done|lia].
Qed.

Lemma int_of_uint_small a : (0 ≤ a < 2 ^ 31)%Z → int_of_uint a = a.
Proof. intros Ha. unfold int_of_uint. rewrite Z.mod_small; lia. Qed.

(** X9.  The two [..._multi] functions undo each other as well, for at
    most 2^31 bases (so that the index of a base fits the [int] it is
    stored in): when the edit-mesh belongs to one of the bases,
    [EDBM_elem_to_index_any_multi] answers the index of the first such
    base and the element index [EDBM_elem_to_index_any] gives, and
    [EDBM_elem_from_index_any_multi] takes them back to the element and to
    the object of that base; otherwise both answers are [-1]. *)
Theorem EDBM_elem_index_any_multi_round_trip (bases : list nat) (em : nat) ele :
  at_index_ok totvert vert_at → at_index_ok totedge edge_at → at_index_ok totface face_at →
  elem_counts_fit (bm (editmesh_at em)) → elem_in_mesh (bm (editmesh_at em)) ele →
  (Z.of_nat (length bases) ≤ 2 ^ 31)%Z →
  let r := EDBM_elem_to_index_any_multi BKE_editmesh_from_object editmesh_at bases em ele in
  (r.2 = (-1)%Z →
   r.1 = (-1)%Z ∧ ∀ ob, ob ∈ bases → BKE_editmesh_from_object ob ≠ em)
  ∧ (r.2 ≠ (-1)%Z →
     ∃ n ob, r.2 = Z.of_nat n ∧ bases !! n = Some ob ∧ BKE_editmesh_from_object ob = em
             ∧ (∀ n' ob', n' < n → bases !! n' = Some ob' →
                  BKE_editmesh_from_object ob' ≠ em)
             ∧ r.1 = EDBM_elem_to_index_any (editmesh_at em) ele
             ∧ EDBM_elem_from_index_any_multi vert_at edge_at face_at
                 BKE_editmesh_from_object editmesh_at bases r.2 r.1
               = (Some ele, Some ob)).
Proof.
  intros Hv He Hf Hfit Hin Hlen r. subst r. unfold EDBM_elem_to_index_any_multi.
  destruct (find_index _ bases) as [bi|] eqn:Hfind; simpl.
  - destruct (find_index_Some _ _ _ Hfind) as (ob & Hob & Heq).
    apply Nat.eqb_eq in Heq. apply find_index_lt in Hfind as Hlt.
    rewrite int_of_uint_small by lia.
    split; [lia|]. intros _.
    exists bi, ob. split; [done|]. split; [done|]. split; [done|]. split.
    { intros n' ob' Hn' Hob' Heq'.
      pose proof (find_index_first _ _ _ _ _ Hfind Hn' Hob') as Hp.
      simpl in Hp. apply Nat.eqb_neq in Hp. done. }
    split; [done|].
    unfold EDBM_elem_from_index_any_multi.
    rewrite Z.mod_small by lia.
    destruct (Z.ltb_spec (Z.of_nat bi) (Z.of_nat (length bases))); [|lia].
    destruct (Z.leb_spec 0 (Z.of_nat bi)); [|lia].
    rewrite Nat2Z.id, Hob, Heq. by rewrite elem_index_any_back.
  - split; [|done]. intros _. split; [done|]. intros ob Hob Heq.
    assert (is_Some (find_index (λ base_iter, BKE_editmesh_from_object base_iter =? em)
                       bases)) as [? ?]; [|congruence].
    apply find_index_is_Some. exists ob. split; [done|]. by apply Nat.eqb_eq.
Qed.

End ElementIndex.

(** * UV element map: the map that is answered *)

Section ElementFind.

Lemma uv_element_find_island buf efa init chain e init' :
  island_find buf efa init chain = Some (e, init') →
  uv_element_find buf efa chain = Some e.
Proof.
  revert init. induction chain as [|z next IH]; intros init; simpl; [done|].
  destruct (Nat.eqb (element_face buf z) efa); [by intros [= -> _]|]. apply IH.
Qed.

Lemma uv_element_find_Some buf efa chain e :
  uv_element_find buf efa chain = Some e → e ∈ chain ∧ element_face buf e = efa.
Proof.
  induction chain as [|z next IH]; simpl; [done|].
  destruct (Nat.eqb_spec (element_face buf z) efa) as [Hz|Hz].
  - intros [= <-]. split; [by left|done].
  - intros [Hin Hf]%IH. split; [by right|done].
Qed.

Lemma uv_element_find_fmap buf buf' efa (f : nat → nat) (chain : list nat) :
  (∀ e, e ∈ chain → element_face buf' (f e) = element_face buf e) →
  uv_element_find buf' efa (f <$> chain) = f <$> uv_element_find buf efa chain.
Proof.
  induction chain as [|z next IH]; intros Hface; [done|].
  rewrite fmap_cons. simpl. rewrite Hface by (by left).
  destruct (Nat.eqb (element_face buf z) efa); [done|].
  apply IH. intros e He. apply Hface. by right.
Qed.

Lemma island_indices_length i j islandbuf indices :
  length (island_indices i j islandbuf indices) = length indices.
Proof.
  revert i j indices. induction islandbuf as [|x rest IH]; intros i j indices; simpl; [done|].
  destruct (_ =? _)%Z; rewrite IH; by rewrite ?length_insert.
Qed.

End ElementFind.

Section ElementMapView.
Context {F : Type} `{FloatOps F}.
Context (m : BMesh F) (face_selected uv_selected use_winding do_islands : bool).
Context (tf_uv_stale : nat → nat → list F) (emap : UvElementMap).

Local Abbreviation corners := (eligible_corners face_selected uv_selected 0 (faces m)).

(** The map that is answered, read through the chains and the buffer the
    merge pass left: without [do_islands] these are the map; with it the
    elements are the same in another order, and [remap] gives the new
    place of each. *)
Lemma element_map_view :
  (do_islands = true → mesh_faces_ok m) →
  BM_uv_element_map_create m face_selected uv_selected use_winding do_islands tf_uv_stale
    = Some emap →
  ∃ vert1 buf1 (remap : nat → nat),
    length vert1 = length (verts m)
    ∧ ue_l <$> buf1 = corners
    ∧ buf1 ≠ []
    ∧ (mesh_faces_ok m → emap_chains m face_selected uv_selected vert1 buf1)
    ∧ em_vert emap = (λ chain : list nat, remap <$> chain) <$> vert1
    ∧ totalUVs emap = length buf1
    ∧ length (em_buf emap) = length buf1
    ∧ (∀ e x1, buf1 !! e = Some x1 →
         ∃ x, em_buf emap !! remap e = Some x ∧ island_key x = island_key x1)
    ∧ NoDup (ue_l <$> em_buf emap)
    ∧ ue_l <$> em_buf emap ≡ₚ corners
    ∧ (do_islands = false →
         em_buf emap = buf1 ∧ totalIslands emap = 0 ∧ islandIndices emap = []
         ∧ ∀ e x, buf1 !! e = Some x → ue_island x = INVALID_ISLAND)
    ∧ (do_islands = true →
         length (islandIndices emap) = totalIslands emap
         ∧ ∀ x, x ∈ em_buf emap → (0 ≤ ue_island x < Z.of_nat (totalIslands emap))%Z).
Proof.
  unfold BM_uv_element_map_create. intros Hok Hmap.
  destruct (element_map_totuv face_selected uv_selected (faces m) =? 0) eqn:Htot; [done|].
  apply Nat.eqb_neq in Htot.
  pose proof (element_map_merged m face_selected uv_selected use_winding tf_uv_stale)
    as Hm. simpl in Hm.
  destruct (element_map_faces face_selected uv_selected use_winding tf_uv_stale 0
              (faces m) _ _ _) as [[vert0 buf0] winding]. simpl in Hm.
  destruct (uv_sort_verts _ _ _ vert0 buf0) as [vert1 buf1]. simpl in Hm.
  destruct Hm as (Hlv & Hcorners & Hfresh & _ & Hchains).
  assert (element_map_totuv face_selected uv_selected (faces m) = length buf1) as Hlen.
  { by rewrite (element_map_totuv_corners _ _ 0), <-Hcorners, length_fmap. }
  assert (buf1 ≠ []) as Hne.
  { intros ->. simpl in Hlen. lia. }
  destruct do_islands.
  - specialize (Hok eq_refl).
    pose proof (island_pass_spec m face_selected uv_selected vert1 buf1 Hok
                  (Hchains Hok) Hfresh) as Hpass.
    simpl in Hpass. rewrite Hlen in Hmap.
    destruct (foldl (island_scan m vert1 uv_selected) _ _) as [st k].
    injection Hmap as <-. simpl in *.
    destruct Hpass as (Hperm & Hnd & Hrange & _ & Hremap).
    exists vert1, buf1, (λ e, default 0 (is_map st !! e)).
    repeat (split; [done|]). split; [|split; [|split; [done|split; [done|split; [done|]]]]].
    + apply Permutation_length in Hperm.
      rewrite length_fmap in Hperm. rewrite Hperm, <-Hcorners. by rewrite length_fmap.
    + intros e x1 Hx1. destruct (Hremap e x1 Hx1) as (k' & x & Hk & Hx & Hkey).
      exists x. by rewrite Hk.
    + intros _. split; [|done]. by rewrite island_indices_length, length_replicate.
  - injection Hmap as <-. simpl.
    exists vert1, buf1, id. repeat (split; [done|]).
    split; [|split; [done|split; [done|split; [|split; [|split; [|split; [done|done]]]]]]].
    + rewrite <-(list_fmap_id vert1) at 1. apply list_fmap_ext.
      intros _ c _. by rewrite list_fmap_id.
    + intros e x1 Hx1. by exists x1.
    + rewrite Hcorners. apply NoDup_eligible_corners.
    + by rewrite Hcorners.
Qed.

End ElementMapView.

Section ElementMapChains.
Context {F : Type} `{FloatOps F}.
Context (m : BMesh F) (face_selected uv_selected use_winding do_islands : bool).
Context (tf_uv_stale : nat → nat → list F) (emap : UvElementMap).
Hypothesis mesh_ok : mesh_faces_ok m.
Hypothesis created :
  BM_uv_element_map_create m face_selected uv_selected use_winding do_islands tf_uv_stale
    = Some emap.

Local Abbreviation corners := (eligible_corners face_selected uv_selected 0 (faces m)).

Lemma island_key_loop (x x1 : UvElement) :
  island_key x = island_key x1 → ue_l x = ue_l x1.
Proof. by intros [= ? _ _]. Qed.

(** The chain of a vertex holds, once each, the elements of the corners at
    that vertex. *)
Lemma element_map_chain_elems a c :
  em_vert emap !! a = Some c →
  NoDup c
  ∧ ∀ e, e ∈ c ↔ ∃ x l, em_buf emap !! e = Some x ∧ element_loop m x = Some l ∧ l_v l = a.
Proof.
  destruct (element_map_view m face_selected uv_selected use_winding do_islands
              tf_uv_stale emap (λ _, mesh_ok) created)
    as (vert1 & buf1 & remap & Hlv & Hcorners & _ & Hchains & Hvert & _ & _ & Hkey
        & Hnd & Hperm & _).
  specialize (Hchains mesh_ok). pose proof Hchains as (_ & Hnd1 & Hin1 & Hall1).
  rewrite Hvert, list_lookup_fmap. intros Hc.
  destruct (vert1 !! a) as [c1|] eqn:Hc1; [|done]. injection Hc as <-.
  assert (∀ e e', e ∈ c1 → e' ∈ c1 → remap e = remap e' → e = e') as Hinj.
  { intros e e' He He' Heq.
    destruct (Hin1 _ _ _ Hc1 He) as (x1 & _ & Hx1 & _).
    destruct (Hin1 _ _ _ Hc1 He') as (x1' & _ & Hx1' & _).
    destruct (Hkey e x1 Hx1) as (x & Hx & Hk). destruct (Hkey e' x1' Hx1') as (x' & Hx' & Hk').
    rewrite Heq, Hx' in Hx. injection Hx as ->.
    eapply emap_corner_unique; [done..|].
    by rewrite <-(island_key_loop _ _ Hk), <-(island_key_loop _ _ Hk'). }
  split; [apply NoDup_fmap_2_strong; [done|by eapply Hnd1]|].
  intros e. split.
  - intros (e0 & -> & He0)%list_elem_of_fmap.
    destruct (Hin1 _ _ _ Hc1 He0) as (x1 & l & Hx1 & Hl & Hv).
    destruct (Hkey e0 x1 Hx1) as (x & Hx & Hk).
    exists x, l. split; [done|]. split; [|done].
    unfold element_loop in *. by rewrite (island_key_loop _ _ Hk).
  - intros (x & l & Hx & Hl & Hv).
    assert (ue_l x ∈ ue_l <$> buf1) as Hin.
    { rewrite Hcorners, <-Hperm. apply list_elem_of_fmap. exists x. split; [done|].
      by eapply list_elem_of_lookup_2. }
    apply list_elem_of_fmap in Hin as (x1 & Heq & Hx1).
    apply list_elem_of_lookup in Hx1 as [e0 Hx1].
    destruct (Hkey e0 x1 Hx1) as (x' & Hx' & Hk).
    assert (remap e0 = e) as <-.
    { eapply NoDup_lookup; [exact Hnd| |].
      - by rewrite list_lookup_fmap, Hx'.
      - rewrite list_lookup_fmap, Hx. simpl.
        by rewrite (island_key_loop _ _ Hk), Heq. }
    apply list_elem_of_fmap. exists e0. split; [done|].
    assert (element_loop m x1 = Some l) as Hl1.
    { unfold element_loop in *. by rewrite <-Heq. }
    destruct (Hall1 e0 x1 l Hx1 Hl1) as (c1' & Hc1' & He0).
    rewrite Hv, Hc1 in Hc1'. by injection Hc1' as <-.
Qed.

(** The element [BM_uv_element_get] answers for a corner that has one. *)
Lemma element_get_corner efa f i l :
  faces m !! efa = Some f → f_loops f !! i = Some l →
  face_eligible face_selected f = true → uv_corner_skipped uv_selected l = false →
  ∃ e x, BM_uv_element_get emap efa l = Some e ∧ em_buf emap !! e = Some x
         ∧ ue_l x = (efa, i).
Proof.
  intros Hf Hl Hel Hs.
  destruct (element_map_view m face_selected uv_selected use_winding do_islands
              tf_uv_stale emap (λ _, mesh_ok) created)
    as (vert1 & buf1 & remap & Hlv & Hcorners & _ & Hchains & Hvert & _ & _ & Hkey & _).
  specialize (Hchains mesh_ok). pose proof Hchains as (_ & _ & Hin1 & _).
  destruct (island_find_corner m face_selected uv_selected vert1 buf1 efa f i l)
    as (e0 & x1 & init & chain & Hchain & Hfind & Hx1 & Hlx & _); [done..|].
  destruct (Hkey e0 x1 Hx1) as (x & Hx & Hk).
  exists (remap e0), x. split; [|split; [done|]].
  - unfold BM_uv_element_get. rewrite Hvert, list_lookup_fmap, Hchain. simpl.
    rewrite (uv_element_find_fmap buf1).
    + by rewrite (uv_element_find_island _ _ _ _ _ _ Hfind).
    + intros e He. destruct (Hin1 _ _ _ Hchain He) as (y1 & _ & Hy1 & _).
      destruct (Hkey e y1 Hy1) as (y & Hy & Hky).
      unfold element_face. by rewrite Hy, Hy1, (island_key_loop _ _ Hky).
  - by rewrite (island_key_loop _ _ Hk).
Qed.

End ElementMapChains.

Section ElementMapTheorems.
Context {F : Type} `{FloatOps F}.

(** X10.  In the map [BM_uv_element_map_create] answers for a mesh whose
    faces meet no vertex twice, [BM_uv_element_get] finds the element of
    every corner that has one (a corner of an eligible face that the UV
    selection does not skip); what it answers is always an element of the
    given face at the vertex of the given loop; and for a face that is not
    eligible it answers [NULL]. *)
Theorem BM_uv_element_get_corner (m : BMesh F) face_selected uv_selected use_winding
    do_islands tf_uv_stale emap :
  mesh_faces_ok m →
  BM_uv_element_map_create m face_selected uv_selected use_winding do_islands tf_uv_stale
    = Some emap →
  (∀ efa f i l, faces m !! efa = Some f → f_loops f !! i = Some l →
     face_eligible face_selected f = true → uv_corner_skipped uv_selected l = false →
     ∃ e x, BM_uv_element_get emap efa l = Some e ∧ em_buf emap !! e = Some x
            ∧ ue_l x = (efa, i))
  ∧ (∀ efa (l : BMLoop F) e, BM_uv_element_get emap efa l = Some e →
       ∃ x l', em_buf emap !! e = Some x ∧ (ue_l x).1 = efa
               ∧ element_loop m x = Some l' ∧ l_v l' = l_v l)
  ∧ (∀ efa f (l : BMLoop F), faces m !! efa = Some f →
       face_eligible face_selected f = false →
       BM_uv_element_get emap efa l = None).
Proof.
  intros Hok Hmap.
  assert (∀ efa (l : BMLoop F) e, BM_uv_element_get emap efa l = Some e →
            ∃ x l', em_buf emap !! e = Some x ∧ (ue_l x).1 = efa
                    ∧ element_loop m x = Some l' ∧ l_v l' = l_v l) as Hsound.
  { intros efa l e. unfold BM_uv_element_get.
    destruct (em_vert emap !! l_v l) as [c|] eqn:Hc; [|done]. simpl.
    intros [He Hface]%uv_element_find_Some.
    destruct (element_map_chain_elems m face_selected uv_selected use_winding do_islands
                tf_uv_stale emap Hok Hmap _ _ Hc) as [_ Hiff].
    apply Hiff in He as (x & l' & Hx & Hl' & Hv).
    exists x, l'. unfold element_face in Hface. rewrite Hx in Hface. done. }
  split; [|split; [done|]].
  - intros efa f i l. by eapply element_get_corner.
  - intros efa f l Hf Hel.
    destruct (BM_uv_element_get emap efa l) as [e|] eqn:Hget; [|done].
    destruct (Hsound _ _ _ Hget) as (x & _ & Hx & Hface & _).
    destruct (element_map_view m face_selected uv_selected use_winding do_islands
                tf_uv_stale emap (λ _, Hok) Hmap)
      as (_ & _ & _ & _ & _ & _ & _ & _ & _ & _ & _ & _ & Hperm & _).
    assert (ue_l x ∈ eligible_corners face_selected uv_selected 0 (faces m)) as Hin.
    { rewrite <-Hperm. apply list_elem_of_fmap. exists x. split; [done|].
      by eapply list_elem_of_lookup_2. }
    apply elem_of_eligible_corners in Hin as (f' & _ & Hf' & Hel' & _).
    rewrite Nat.sub_0_r, Hface, Hf in Hf'. injection Hf' as <-. congruence.
Qed.

(** X11.  In that map there is one chain per vertex of the mesh, and the
    chain of a vertex holds, once each, exactly the elements whose corner
    is at that vertex. *)
Theorem BM_uv_element_map_create_chains (m : BMesh F) face_selected uv_selected
    use_winding do_islands tf_uv_stale emap :
  mesh_faces_ok m →
  BM_uv_element_map_create m face_selected uv_selected use_winding do_islands tf_uv_stale
    = Some emap →
  length (em_vert emap) = length (verts m)
  ∧ ∀ a c, em_vert emap !! a = Some c →
      NoDup c
      ∧ ∀ e, e ∈ c ↔
          ∃ x l, em_buf emap !! e = Some x ∧ element_loop m x = Some l ∧ l_v l = a.
Proof.
  intros Hok Hmap. split.
  - destruct (element_map_view m face_selected uv_selected use_winding do_islands
                tf_uv_stale emap (λ _, Hok) Hmap)
      as (vert1 & buf1 & remap & Hlv & _ & _ & _ & Hvert & _).
    by rewrite Hvert, length_fmap.
  - by eapply element_map_chain_elems.
Qed.

(** X12.  The counts of the map [BM_uv_element_map_create] answers:
    [totalUVs] is the number of its elements, which is the number of
    corners that have one, and is not zero.  Without [do_islands] the
    elements are those corners in the order of the faces and of their
    loops, every island is [INVALID_ISLAND], [totalIslands] is 0 and there
    are no island indices; with it there is at least one island and one
    island index per island. *)
Theorem BM_uv_element_map_create_counts (m : BMesh F) face_selected uv_selected
    use_winding do_islands tf_uv_stale emap :
  (do_islands = true → mesh_faces_ok m) →
  BM_uv_element_map_create m face_selected uv_selected use_winding do_islands tf_uv_stale
    = Some emap →
  totalUVs emap = length (em_buf emap)
  ∧ totalUVs emap = length (eligible_corners face_selected uv_selected 0 (faces m))
  ∧ 0 < totalUVs emap
  ∧ (do_islands = false →
       ue_l <$> em_buf emap = eligible_corners face_selected uv_selected 0 (faces m)
       ∧ (∀ x, x ∈ em_buf emap → ue_island x = INVALID_ISLAND)
       ∧ totalIslands emap = 0 ∧ islandIndices emap = [])
  ∧ (do_islands = true →
       0 < totalIslands emap ∧ length (islandIndices emap) = totalIslands emap).
Proof.
  intros Hok Hmap.
  destruct (element_map_view m face_selected uv_selected use_winding do_islands
              tf_uv_stale emap Hok Hmap)
    as (vert1 & buf1 & remap & _ & Hcorners & Hne & _ & _ & Htot & Hlen & _ & _ & _
        & Hno & Hyes).
  assert (0 < length buf1) as Hpos by (destruct buf1; [done|simpl; lia]).
  split; [congruence|]. split; [by rewrite Htot, <-Hcorners, length_fmap|].
  split; [lia|]. split.
  - intros Hdi. destruct (Hno Hdi) as (Hbuf & Hti & Hii & Hinv).
    rewrite Hbuf. repeat split; try done.
    intros x [e Hx]%list_elem_of_lookup. by eapply Hinv.
  - intros Hdi. destruct (Hyes Hdi) as (Hii & Hrange). split; [|done].
    destruct (em_buf emap) as [|x rest] eqn:Hbuf; [simpl in Hlen; lia|].
    assert (0 ≤ ue_island x < Z.of_nat (totalIslands emap))%Z by (apply Hrange; by left).
    lia.
Qed.

End ElementMapTheorems.

(** * UV vertex map: the map that is answered *)

Section VertMapFull.
Context {F : Type} `{FloatOps F}.
Context (m : BMesh F).
Hypothesis mesh_ok : mesh_faces_ok m.

Lemma vert_map_loops_full a f pre ls vert buf :
  faces m !! a = Some f → f_loops f = pre ++ ls →
  length vert = length (verts m) → vert_full m vert buf →
  let r := vert_map_loops a (length pre) ls vert buf in
  vert_full m r.1 r.2
  ∧ vert_key <$> r.2 = (vert_key <$> buf) ++ eligible_loops false a (length pre) ls.
Proof.
  intros Hf. revert pre vert buf.
  induction ls as [|l rest IH]; intros pre vert buf Hpre Hlen Hall; simpl.
  { by rewrite app_nil_r. }
  specialize (IH (pre ++ [l])). rewrite length_app, Nat.add_1_r in IH.
  set (x0 := {| poly_index := a; loop_of_poly_index := length pre; separate := false |}).
  assert (loop_at m (poly_index x0) (loop_of_poly_index x0) = Some l) as Hx0.
  { unfold loop_at. simpl. rewrite Hf, Hpre. by rewrite lookup_app_r, Nat.sub_diag. }
  destruct (IH (alter (λ chain, length buf :: chain) (l_v l) vert) (buf ++ [x0]))
    as (Hall' & Hkeys').
  { by rewrite <-app_assoc. }
  { by rewrite length_alter. }
  { intros e x l' Hx Hl'.
    apply lookup_app_Some in Hx as [Hx|[Hge Hx]].
    - destruct (Hall e x l' Hx Hl') as (c & Hc & He).
      destruct (decide (l_v l = l_v l')) as [Heq|Hne].
      + exists (length buf :: c). rewrite <-Heq, list_lookup_alter_eq.
        rewrite Heq, Hc. split; [done|by right].
      + exists c. by rewrite list_lookup_alter_ne.
    - destruct (e - length buf) eqn:He; [|done]. injection Hx as <-.
      assert (e = length buf) as -> by lia.
      rewrite Hx0 in Hl'. injection Hl' as <-.
      assert (l_v l < length vert) as Hlt.
      { rewrite Hlen. unfold mesh_faces_ok in mesh_ok. rewrite Forall_forall in mesh_ok.
        destruct (mesh_ok f) as [_ Hbound]; [by eapply list_elem_of_lookup_2|].
        rewrite Forall_forall in Hbound. apply Hbound.
        unfold face_verts. rewrite Hpre, fmap_app, fmap_cons. list_in. }
      destruct (lookup_lt_is_Some_2 vert (l_v l) Hlt) as [c Hc].
      exists (length buf :: c). rewrite list_lookup_alter_eq, Hc.
      split; [done|by left]. }
  split; [done|]. rewrite Hkeys', fmap_app, <-app_assoc. done.
Qed.

Lemma vert_map_faces_full use_select use_winding done fs vert buf winding :
  faces m = done ++ fs → length vert = length (verts m) → vert_full m vert buf →
  let r := vert_map_faces use_select use_winding (length done) fs vert buf winding in
  vert_full m r.1.1 r.1.2
  ∧ vert_key <$> r.1.2
    = (vert_key <$> buf) ++ eligible_corners use_select false (length done) fs.
Proof.
  revert done vert buf winding.
  induction fs as [|f rest IH]; intros done vert buf winding Hfs Hlen Hall; simpl.
  { by rewrite app_nil_r. }
  assert (faces m !! length done = Some f) as Hf.
  { by rewrite Hfs, lookup_app_r, Nat.sub_diag. }
  specialize (IH (done ++ [f])). rewrite length_app, Nat.add_1_r in IH.
  destruct (face_eligible use_select f) eqn:Hel.
  - destruct (vert_map_loops_full (length done) f [] (f_loops f) vert buf)
      as [Hall1 Hkeys1]; [done..|]. simpl in Hall1, Hkeys1.
    destruct (vert_map_loops (length done) 0 (f_loops f) vert buf) as [vert1 buf1] eqn:Hl.
    simpl in *.
    assert (length vert1 = length vert) as Hlen1.
    { clear -Hl. revert vert buf Hl. generalize 0 as i.
      induction (f_loops f) as [|l ls IHl]; intros i vert buf; simpl.
      - by intros [= <- _].
      - intros Hl. apply IHl in Hl. by rewrite length_alter in Hl. }
    destruct (IH vert1 buf1 (if use_winding
                             then <[length done := winding_of (l_uv <$> f_loops f)]> winding
                             else winding)) as [Hall2 Hkeys2];
      [by rewrite <-app_assoc|congruence|done|].
    split; [done|]. by rewrite Hkeys2, Hkeys1, <-app_assoc.
  - destruct (IH vert buf winding) as [Hall2 Hkeys2]; [by rewrite <-app_assoc|done|done|].
    done.
Qed.

End VertMapFull.

Section VertMapTheorems.
Context {F : Type} `{FloatOps F}.

Lemma vert_map_totuv_corners use_select j (fs : list (BMFace F)) :
  vert_map_totuv use_select fs = length (eligible_corners use_select false j fs).
Proof.
  revert j. induction fs as [|f fs IH]; intros j; simpl; [done|].
  rewrite length_app, <-(IH (S j)).
  destruct (face_eligible use_select f); [|done].
  by rewrite eligible_loops_length.
Qed.

(** X13.  The map [BM_uv_vert_map_create] answers for a mesh whose faces
    meet no vertex twice: its buffer holds one element per corner of the
    eligible faces, in the order of the faces and of their loops; there is
    one chain per vertex of the mesh; and [BM_uv_vert_map_at_index] answers
    for a vertex the chain that holds, once each, exactly the elements of
    the corners at that vertex. *)
Theorem BM_uv_vert_map_create_chains (m : BMesh F) use_select use_winding vmap :
  mesh_faces_ok m →
  BM_uv_vert_map_create m use_select use_winding = Some vmap →
  vert_key <$> vmap_buf vmap = eligible_corners use_select false 0 (faces m)
  ∧ length (vmap_buf vmap) = vert_map_totuv use_select (faces m)
  ∧ 0 < length (vmap_buf vmap)
  ∧ length (vmap_vert vmap) = length (verts m)
  ∧ ∀ a, a < length (verts m) →
      NoDup (BM_uv_vert_map_at_index vmap a)
      ∧ ∀ e, e ∈ BM_uv_vert_map_at_index vmap a ↔
          ∃ x l, vmap_buf vmap !! e = Some x
                 ∧ loop_at m (poly_index x) (loop_of_poly_index x) = Some l
                 ∧ l_v l = a.
Proof.
  unfold BM_uv_vert_map_create. intros Hok Hmap.
  destruct (vert_map_totuv use_select (faces m) =? 0) eqn:Htot; [done|].
  apply Nat.eqb_neq in Htot.
  pose proof (vert_map_faces_built m use_select use_winding [] (faces m)
                (replicate (length (verts m)) []) [] (replicate (length (faces m)) false))
    as Hbuilt.
  pose proof (vert_map_faces_full m Hok use_select use_winding [] (faces m)
                (replicate (length (verts m)) []) [] (replicate (length (faces m)) false))
    as Hfull.
  simpl in Hbuilt, Hfull.
  destruct (vert_map_faces use_select use_winding 0 (faces m) _ _ _)
    as [[vert0 buf0] winding].
  simpl in Hbuilt, Hfull.
  destruct Hbuilt as ((Hsep & Hin & Hnd) & Hlen & _); [done| | |].
  { split; [by intros e x ?|]. split.
    - intros a' c e [-> _]%lookup_replicate. by intros ?%elem_of_nil.
    - intros a' c [-> _]%lookup_replicate. constructor. }
  { intros _. split; [by rewrite length_replicate|].
    intros f. unfold winding_at. rewrite decide_False by lia.
    destruct (replicate _ _ !! f) eqn:Hf; [|done].
    by apply lookup_replicate in Hf as [-> _]. }
  rewrite length_replicate in Hlen.
  destruct Hfull as (Hall & Hkeys); [done|by rewrite length_replicate|by intros e x l ?|].
  set (conn := vert_map_connected m use_winding winding) in *.
  pose proof (uv_sort_verts_spec conn separate vert_set_separate
                (λ _, eq_refl) (vert_map_connected_set m use_winding winding)
                vert0 buf0 (length (verts m))) as Hsort.
  pose proof (uv_sort_verts_key conn vert_set_separate vert_key (λ _, eq_refl)
                (length (verts m)) vert0 buf0) as Hkey.
  destruct (uv_sort_verts conn vert_set_separate (length (verts m)) vert0 buf0)
    as [vert1 buf1].
  injection Hmap as <-. simpl in *.
  destruct Hsort as (Hlv & Hlb & _ & _ & _ & Hdone).
  { split; [done|]. split.
    - intros a1 a2 c d e Hc Hd Hec Hed.
      destruct (Hin _ _ _ Hc Hec) as (x & l & Hx & Hl & <-).
      destruct (Hin _ _ _ Hd Hed) as (x' & l' & Hx' & Hl' & <-). congruence.
    - intros a' c e Hc He. destruct (Hin _ _ _ Hc He) as (x & _ & Hx & _).
      unfold flagged. rewrite Hx. split; [by eapply Hsep|by eapply lookup_lt_Some]. }
  assert (∀ x x0 : UvMapVert, vert_key x = vert_key x0 →
            loop_at m (poly_index x) (loop_of_poly_index x)
            = loop_at m (poly_index x0) (loop_of_poly_index x0)) as Hloop.
  { intros x x0 [= -> ->]. done. }
  assert (length buf1 = vert_map_totuv use_select (faces m)) as Hb1.
  { rewrite (vert_map_totuv_corners _ 0), <-Hkeys, <-Hkey. by rewrite length_fmap. }
  split; [congruence|]. split; [done|]. split; [lia|]. split; [lia|].
  intros a Ha. unfold BM_uv_vert_map_at_index. simpl.
  destruct (lookup_lt_is_Some_2 vert0 a) as [c0 Hc0]; [lia|].
  destruct (Hdone a c0 Ha Hc0) as (out & Hout & Hperm & _).
  rewrite Hout. simpl. split; [rewrite Hperm; by eapply Hnd|].
  intros e. rewrite Hperm. split.
  - intros He. destruct (Hin _ _ _ Hc0 He) as (x0 & l & Hx0 & Hl0 & Hv).
    destruct (fmap_key_lookup vert_key buf1 buf0 e x0) as (x & Hx & Hk); [done|done|].
    exists x, l. split; [done|]. split; [|done]. by rewrite (Hloop x x0).
  - intros (x & l & Hx & Hl & Hv).
    destruct (fmap_key_lookup vert_key buf0 buf1 e x) as (x0 & Hx0 & Hk); [done|done|].
    rewrite (Hloop x x0) in Hl by done.
    destruct (Hall e x0 l Hx0 Hl) as (c & Hc & He).
    rewrite Hv, Hc0 in Hc. by injection Hc as <-.
Qed.

End VertMapTheorems.

(** * UV element map: the order of the islands *)

Section IslandOrder.
Context {F : Type} `{FloatOps F}.
Context (m : BMesh F) (vert : list (list nat)) (uv_selected : bool).

(** What the island pass appends to [islandbuf] while island [n] is
    filled carries the id [n]. *)
Lemma island_visit_corner_tail n efa st (l : BMLoop F) :
  ∃ tail, is_islandbuf (island_visit_corner vert uv_selected n efa st l)
          = is_islandbuf st ++ tail
          ∧ Forall (λ x, ue_island x = Z.of_nat n) tail.
Proof.
  unfold island_visit_corner.
  destruct (uv_corner_skipped uv_selected l); [exists []; by rewrite app_nil_r|].
  destruct (island_find _ _ _ _) as [[element init]|]; [|exists []; by rewrite app_nil_r].
  destruct (is_buf st !! element) as [e|]; [|exists []; by rewrite app_nil_r].
  destruct (island_push_group _ _ _ _ _ _) as [number1 stack1]. simpl.
  eexists. split; [done|]. by constructor.
Qed.

Lemma island_visit_corners_tail n efa (ls : list (BMLoop F)) st :
  ∃ tail, is_islandbuf (foldl (island_visit_corner vert uv_selected n efa) st ls)
          = is_islandbuf st ++ tail
          ∧ Forall (λ x, ue_island x = Z.of_nat n) tail.
Proof.
  revert st. induction ls as [|l ls IH]; intros st; simpl.
  { exists []. by rewrite app_nil_r. }
  destruct (IH (island_visit_corner vert uv_selected n efa st l)) as (t2 & -> & H2).
  destruct (island_visit_corner_tail n efa st l) as (t1 & -> & H1).
  exists (t1 ++ t2). split; [by rewrite app_assoc|by apply Forall_app].
Qed.

Lemma island_flood_tail fuel n st :
  ∃ tail, is_islandbuf (island_flood fuel m vert uv_selected n st) = is_islandbuf st ++ tail
          ∧ Forall (λ x, ue_island x = Z.of_nat n) tail.
Proof.
  revert st. induction fuel as [|fuel IH]; intros st; simpl.
  { exists []. by rewrite app_nil_r. }
  destruct (is_stack st) as [|efa stack1]; [exists []; by rewrite app_nil_r|].
  destruct (IH (foldl (island_visit_corner vert uv_selected n efa)
                  {| is_buf := is_buf st; is_island_number := is_island_number st;
                     is_stack := stack1; is_map := is_map st;
                     is_islandbuf := is_islandbuf st |} (face_loops m efa)))
    as (t2 & -> & H2).
  destruct (island_visit_corners_tail n efa (face_loops m efa)
              {| is_buf := is_buf st; is_island_number := is_island_number st;
                 is_stack := stack1; is_map := is_map st;
                 is_islandbuf := is_islandbuf st |}) as (t1 & -> & H1).
  simpl. exists (t1 ++ t2). split; [by rewrite app_assoc|by apply Forall_app].
Qed.

Lemma island_scan_tail st k i :
  let r := island_scan m vert uv_selected (st, k) i in
  ∃ tail, is_islandbuf r.1 = is_islandbuf st ++ tail
          ∧ Forall (λ x, ue_island x = Z.of_nat k) tail
          ∧ ((r.2 = k ∧ tail = [])
             ∨ (r.2 = S k ∧ ∃ x, is_buf st !! i = Some x ∧ ue_island x = INVALID_ISLAND)).
Proof.
  unfold island_scan. destruct (is_buf st !! i) as [x|] eqn:Hx; simpl.
  2:{ exists []. rewrite app_nil_r. split; [done|]. split; [done|by left]. }
  destruct (Z.eqb_spec (ue_island x) INVALID_ISLAND) as [Hinv|Hinv]; simpl.
  2:{ exists []. rewrite app_nil_r. split; [done|]. split; [done|by left]. }
  destruct (island_flood_tail (S (length (faces m))) k
              {| is_buf := alter (element_set_island k) i (is_buf st);
                 is_island_number := <[(ue_l x).1 := Z.of_nat k]> (is_island_number st);
                 is_stack := [(ue_l x).1]; is_map := is_map st;
                 is_islandbuf := is_islandbuf st |}) as (tail & Ht & Hall).
  exists tail. split; [done|]. split; [done|]. right. split; [done|]. by exists x.
Qed.

End IslandOrder.

Section IslandBlocks.
Context {F : Type} `{FloatOps F}.
Context (m : BMesh F) (face_selected uv_selected : bool).
Context (vert : list (list nat)) (buf1 : list UvElement).
Hypothesis mesh_ok : mesh_faces_ok m.
Hypothesis chains1 : emap_chains m face_selected uv_selected vert buf1.
Hypothesis fresh : ∀ e x, buf1 !! e = Some x → ue_island x = INVALID_ISLAND.

(** The scan up to element [i]: [islandbuf] holds the islands opened so
    far, one after the other in the order of their ids, none empty. *)
Lemma island_scan_blocks i :
  i ≤ length buf1 →
  let acc := foldl (island_scan m vert uv_selected)
               ({| is_buf := buf1;
                   is_island_number := replicate (length (faces m)) INVALID_ISLAND;
                   is_stack := [];
                   is_map := replicate (length buf1) 0;
                   is_islandbuf := [] |}, 0) (seq 0 i) in
  ∃ blocks : list (list UvElement),
    is_islandbuf acc.1 = concat blocks ∧ length blocks = acc.2
    ∧ ∀ j b, blocks !! j = Some b →
        b ≠ [] ∧ Forall (λ x, ue_island x = Z.of_nat j) b.
Proof.
  intros Hi acc. subst acc. induction i as [|i IH].
  { exists []. simpl. split; [done|]. split; [done|]. by intros j b ?. }
  destruct IH as (blocks & Hbuf & Hlen & Hblocks); [lia|].
  pose proof (island_scan_inv m face_selected uv_selected vert buf1 mesh_ok chains1 i)
    as Hinv.
  pose proof (island_scan_inv m face_selected uv_selected vert buf1 mesh_ok chains1 (S i))
    as Hinv'.
  cbn zeta in Hinv, Hinv'. rewrite seq_S, foldl_app in Hinv' |- *. simpl in Hinv' |- *.
  destruct (foldl (island_scan m vert uv_selected) _ (seq 0 i)) as [st k].
  simpl in Hbuf, Hlen.
  destruct Hinv as (dn & Hdone & _ & _); [lia|by apply fresh|].
  destruct Hinv' as (dn' & Hdone' & _ & Hbelow'); [lia|by apply fresh|].
  destruct (island_scan_tail m vert uv_selected st k i) as (tail & Htail & Hall & Hcase).
  simpl in Hdone.
  destruct Hcase as [[Hk ->]|(Hk & x & Hx & Hfresh)].
  - exists blocks. rewrite Htail, app_nil_r, Hk. done.
  - exists (blocks ++ [tail]). rewrite Htail, Hk, concat_app, Hbuf. simpl.
    rewrite app_nil_r, length_app. simpl. split; [done|]. split; [lia|].
    intros j b [Hb|[Hj Hb]]%lookup_app_Some; [by apply Hblocks|].
    destruct (j - length blocks) eqn:Hjk; [|done]. injection Hb as <-.
    assert (j = k) as -> by lia. split; [|done].
    intros ->. rewrite app_nil_r in Htail.
    (* the corner of the seed is copied by the flood *)
    pose proof Hdone as [Hkey Hcopied _ _ _ _ _ _ _ _ _ Hremap].
    pose proof Hdone' as [Hkey' Hcopied' _ _ _ _ _ _ _ _ _ _].
    rewrite app_nil_r in Hcopied'.
    destruct (fmap_key_lookup island_key buf1 (is_buf st) i x) as (x1 & Hx1 & Hk1);
      [done|done|].
    destruct (fmap_key_lookup island_key
                (is_buf (island_scan m vert uv_selected (st, k) i).1) buf1 i x1)
      as (x' & Hx' & Hk'); [done|done|].
    assert (ue_l x' = ue_l x) as Hl.
    { transitivity (ue_l x1); [by injection Hk'|by injection Hk1]. }
    assert (ue_l x ∈ ue_l <$> is_islandbuf (island_scan m vert uv_selected (st, k) i).1)
      as Hin.
    { rewrite Hcopied'. apply elem_of_face_corners_concat. rewrite <-Hl. split.
      - apply (Hbelow' i x'); [lia|done].
      - assert (ue_l x' = ue_l x1) as -> by (by injection Hk').
        by destruct (emap_corner_valid m face_selected uv_selected vert buf1 i x1)
          as (_ & _ & _ & _ & _ & _ & ?). }
    rewrite Htail in Hin. by destruct (Hremap i x Hx Hin) as [? _].
Qed.

End IslandBlocks.

Section IslandIndices.

Lemma island_indices_skip i j b rest indices :
  Forall (λ x, ue_island x = Z.of_nat j) b →
  island_indices i j (b ++ rest) indices = island_indices (i + length b) j rest indices.
Proof.
  revert i. induction b as [|x b IH]; intros i Hb; simpl.
  { by rewrite Nat.add_0_r. }
  apply Forall_cons in Hb as [Hx Hb]. rewrite Hx, Z.eqb_refl, IH by done.
  f_equal. lia.
Qed.

(** The island indices of a buffer made of the islands one after the
    other: each is where its island starts. *)
Lemma island_indices_blocks (blocks : list (list UvElement)) j0 i0 b0 indices :
  Forall (λ x, ue_island x = Z.of_nat j0) b0 →
  (∀ j b, blocks !! j = Some b →
     b ≠ [] ∧ Forall (λ x, ue_island x = Z.of_nat (S j0 + j)) b) →
  j0 + length blocks < length indices →
  let r := island_indices i0 j0 (b0 ++ concat blocks) indices in
  (∀ j, j ≤ j0 → r !! j = indices !! j)
  ∧ (∀ j, j < length blocks →
       r !! (S j0 + j) = Some (i0 + length b0 + length (concat (take j blocks)))).
Proof.
  revert j0 i0 b0 indices.
  induction blocks as [|b bs IH]; intros j0 i0 b0 indices Hb0 Hblocks Hlen r; subst r.
  { simpl. rewrite island_indices_skip by done. simpl.
    split; [done|]. intros j Hj. simpl in Hj. lia. }
  rewrite island_indices_skip by done.
  destruct (Hblocks 0 b eq_refl) as [Hne Hb]. rewrite Nat.add_0_r in Hb.
  destruct b as [|x b']; [done|]. apply Forall_cons in Hb as [Hx Hb'].
  cbn [concat app island_indices]. rewrite Hx.
  destruct (Z.eqb_spec (Z.of_nat (S j0)) (Z.of_nat j0)) as [?|_]; [lia|].
  simpl in Hlen.
  destruct (IH (S j0) (S (i0 + length b0)) b' (<[S j0 := i0 + length b0]> indices))
    as [Hlow Hhigh].
  { done. }
  { intros j b Hjb. destruct (Hblocks (S j) b Hjb) as [? Hall]. split; [done|].
    by replace (S (S j0) + j) with (S j0 + S j) by lia. }
  { rewrite length_insert. lia. }
  split.
  - intros j Hj. rewrite Hlow by lia. by rewrite list_lookup_insert_ne by lia.
  - intros [|j] Hj.
    + rewrite Nat.add_0_r, Hlow by lia. simpl.
      rewrite list_lookup_insert_eq by lia. f_equal. lia.
    + replace (S j0 + S j) with (S (S j0) + j) by lia.
      rewrite Hhigh by (simpl in Hj; lia). f_equal. simpl.
      rewrite length_app. simpl. lia.
Qed.

End IslandIndices.

Section IslandOrderTheorem.
Context {F : Type} `{FloatOps F}.

(** X14.  With [do_islands], on a mesh whose faces meet no vertex twice,
    the buffer [BM_uv_element_map_create] answers holds the islands one
    after the other in the order of their ids, none of them empty, and
    [islandIndices] gives for every island the index of its first element. *)
Theorem BM_uv_element_map_create_island_order (m : BMesh F)
    face_selected uv_selected use_winding tf_uv_stale emap :
  mesh_faces_ok m →
  BM_uv_element_map_create m face_selected uv_selected use_winding true tf_uv_stale
    = Some emap →
  ∃ blocks : list (list UvElement),
    em_buf emap = concat blocks ∧ length blocks = totalIslands emap
    ∧ ∀ j b, blocks !! j = Some b →
        b ≠ [] ∧ Forall (λ x, ue_island x = Z.of_nat j) b
        ∧ islandIndices emap !! j = Some (length (concat (take j blocks))).
Proof.
  unfold BM_uv_element_map_create. intros Hok Hmap.
  destruct (element_map_totuv face_selected uv_selected (faces m) =? 0); [done|].
  pose proof (element_map_merged m face_selected uv_selected use_winding tf_uv_stale)
    as Hm. simpl in Hm.
  destruct (element_map_faces face_selected uv_selected use_winding tf_uv_stale 0
              (faces m) _ _ _) as [[vert0 buf0] winding]. simpl in Hm.
  destruct (uv_sort_verts _ _ _ vert0 buf0) as [vert1 buf1]. simpl in Hm.
  destruct Hm as (_ & Hcorners & Hfresh & _ & Hchains).
  pose proof (island_scan_blocks m face_selected uv_selected vert1 buf1 Hok
                (Hchains Hok) Hfresh (length buf1) (le_n _)) as Hblocks.
  simpl in Hblocks.
  assert (element_map_totuv face_selected uv_selected (faces m) = length buf1) as Hlen.
  { by rewrite (element_map_totuv_corners _ _ 0), <-Hcorners, length_fmap. }
  rewrite Hlen in Hmap.
  destruct (foldl (island_scan m vert1 uv_selected) _ _) as [st k].
  injection Hmap as <-. simpl in *.
  destruct Hblocks as (blocks & Hbuf & Hk & Hall).
  exists blocks. split; [done|]. split; [done|].
  intros j b Hb. destruct (Hall j b Hb) as [Hne Hisl]. split; [done|]. split; [done|].
  rewrite Hbuf. destruct blocks as [|b0 bs]; [done|].
  destruct (island_indices_blocks bs 0 0 b0 (replicate k 0)) as [Hlow Hhigh].
  - by destruct (Hall 0 b0 eq_refl).
  - intros j' b' Hb'. by apply (Hall (S j') b').
  - rewrite length_replicate. simpl in Hk. lia.
  - simpl in Hlow, Hhigh. simpl. destruct j as [|j].
    + rewrite Hlow by lia. simpl. apply lookup_replicate. split; [done|].
      simpl in Hk. lia.
    + apply lookup_lt_Some in Hb as Hj. simpl in Hj.
      rewrite Hhigh by lia. f_equal. simpl. by rewrite length_app.
Qed.

End IslandOrderTheorem.

(** * UV element map: islands and connection *)

Section GroupWalk.
Context (sep : nat → bool).

Lemma group_walk_false_split (l : list nat) :
  ∃ rest, l = group_walk sep false l ++ rest
          ∧ Forall (λ e, sep e = false) (group_walk sep false l)
          ∧ match rest with e' :: _ => sep e' = true | [] => True end.
Proof.
  induction l as [|x l (rest & Hl & Hall & Hrest)]; simpl.
  { exists []. by repeat split. }
  rewrite andb_true_r. destruct (sep x) eqn:Hx.
  - exists (x :: l). by repeat split.
  - exists rest. split; [simpl; by f_equal|]. split; [by constructor|done].
Qed.

(** The walk from the start of a chain is the first subgroup. *)
Lemma chain_groups_walk x (r : list nat) :
  ∃ rest, x :: r = group_walk sep true (x :: r) ++ rest
          ∧ match rest with e' :: _ => sep e' = true | [] => True end
          ∧ chain_groups sep (x :: r)
            = group_walk sep true (x :: r) :: chain_groups sep rest.
Proof.
  destruct (group_walk_false_split r) as (rest & Hr & Hall & Hrest).
  exists rest.
  assert (group_walk sep true (x :: r) = x :: group_walk sep false r) as ->.
  { simpl. by rewrite andb_false_r. }
  split; [simpl; by f_equal|]. split; [done|].
  pose proof (chain_groups_cons sep x (group_walk sep false r) rest Hall Hrest) as Hc.
  rewrite <-app_comm_cons, <-Hr in Hc. done.
Qed.

Lemma chain_groups_unfold x p (r : list nat) :
  chain_groups sep (x :: p :: r)
  = match chain_groups sep (p :: r) with
    | g :: gs => if sep p then [x] :: g :: gs else (x :: g) :: gs
    | [] => [[x]]
    end.
Proof. done. Qed.

Lemma chain_groups_app_boundary (pre : list nat) y s :
  sep y = true →
  chain_groups sep (pre ++ y :: s) = chain_groups sep pre ++ chain_groups sep (y :: s).
Proof.
  intros Hy. induction pre as [|x pre IH]; [done|].
  destruct pre as [|p pre].
  - by apply (chain_groups_cons sep x [] (y :: s)).
  - rewrite <-!app_comm_cons, !chain_groups_unfold. rewrite <-!app_comm_cons in IH.
    rewrite IH. destruct (chain_groups sep (p :: pre)) as [|g gs] eqn:Hg.
    + by apply chain_groups_nil in Hg.
    + by destruct (sep p).
Qed.

Lemma group_walk_in_groups (pre s : list nat) :
  s ≠ [] → (pre = [] ∨ match s with y :: _ => sep y = true | [] => True end) →
  group_walk sep true s ∈ chain_groups sep (pre ++ s).
Proof.
  intros Hs Hb. destruct s as [|y s]; [done|].
  destruct (chain_groups_walk y s) as (rest & _ & _ & Hg).
  destruct Hb as [->|Hy].
  - simpl app. rewrite Hg. by left.
  - rewrite chain_groups_app_boundary by done. apply elem_of_app. right.
    rewrite Hg. by left.
Qed.

Lemma group_walk_prefix (mid chain : list nat) y tl :
  mid = y :: tl → Forall (λ e, sep e = false) tl →
  group_walk sep true (mid ++ chain) = mid ++ group_walk sep false chain.
Proof.
  intros -> Htl. simpl. rewrite andb_false_r. f_equal.
  induction tl as [|z tl IH]; [done|]. apply Forall_cons in Htl as [Hz Htl].
  simpl. rewrite Hz. simpl. by rewrite IH.
Qed.

(** Subgroups of a chain without repetition do not overlap. *)
Lemma groups_disjoint (gs : list (list nat)) g g' x :
  NoDup (concat gs) → g ∈ gs → g' ∈ gs → x ∈ g → x ∈ g' → g = g'.
Proof.
  induction gs as [|h gs IH]; intros Hnd Hg Hg' Hx Hx'.
  { by apply elem_of_nil in Hg. }
  simpl in Hnd. apply NoDup_app in Hnd as (_ & Hdis & Hnd).
  apply elem_of_cons in Hg as [->|Hg], Hg' as [->|Hg'].
  - done.
  - destruct (Hdis x Hx). apply elem_of_concat. by exists g'.
  - destruct (Hdis x Hx'). apply elem_of_concat. by exists g.
  - by apply IH.
Qed.

End GroupWalk.

Section IslandWalk.
Context (buf : list UvElement).

Local Abbreviation sep := (element_separate buf).

(** The first walk of the island pass ends on the element of the face,
    with [initelement] at the start of the subgroup of that element. *)
Lemma island_find_walk efa (c0 pre init mid chain : list nat) e init' :
  c0 = pre ++ init →
  (pre = [] ∨ match init with y :: _ => sep y = true | [] => True end) →
  init = mid ++ chain →
  (mid = [] ∨ ∃ y tl, mid = y :: tl ∧ Forall (λ e, sep e = false) tl) →
  island_find buf efa init chain = Some (e, init') →
  ∃ pre', c0 = pre' ++ init' ∧ init' ≠ []
          ∧ (pre' = [] ∨ match init' with y :: _ => sep y = true | [] => True end)
          ∧ e ∈ group_walk sep true init'.
Proof.
  revert pre init mid.
  induction chain as [|z next IH]; intros pre init mid Hc0 Hb Hinit Hmid; simpl; [done|].
  destruct (sep z) eqn:Hz.
  - destruct (Nat.eqb (element_face buf z) efa).
    + intros [= <- <-]. exists (pre ++ mid).
      split; [by rewrite <-app_assoc, <-Hinit|]. split; [done|]. split; [by right|].
      simpl. rewrite andb_false_r. by left.
    + apply (IH (pre ++ mid) (z :: next) [z]).
      * by rewrite <-app_assoc, <-Hinit.
      * by right.
      * done.
      * right. exists z, []. by split.
  - destruct (Nat.eqb (element_face buf z) efa).
    + intros [= <- <-]. exists pre. split; [done|].
      split; [rewrite Hinit; by destruct mid|]. split; [done|].
      destruct Hmid as [->|(y & tl & Hm & Htl)].
      * simpl in Hinit. subst init. simpl. rewrite andb_false_r. by left.
      * rewrite Hinit, (group_walk_prefix sep mid _ y tl) by done.
        apply elem_of_app. right. simpl. rewrite Hz. by left.
    + apply (IH pre init (mid ++ [z])).
      * done.
      * done.
      * by rewrite <-app_assoc.
      * right. destruct Hmid as [->|(y & tl & -> & Htl)].
        -- exists z, []. by split.
        -- exists y, (tl ++ [z]). split; [done|]. apply Forall_app. split; [done|].
           by constructor.
Qed.

(** The second walk: the faces of the elements walked have an island
    afterwards; an island number that changes is that of the face of an
    element walked, and is new. *)
Lemma island_push_group_walk n at_init group number stack :
  let r := island_push_group buf n at_init group number stack in
  (∀ f, number !! f ≠ Some INVALID_ISLAND → r.1 !! f = number !! f)
  ∧ (∀ f, r.1 !! f = number !! f
          ∨ (number !! f = Some INVALID_ISLAND ∧ r.1 !! f = Some (Z.of_nat n)
             ∧ ∃ y, y ∈ group_walk sep at_init group ∧ element_face buf y = f))
  ∧ (∀ y, y ∈ group_walk sep at_init group → element_face buf y < length number →
       r.1 !! element_face buf y ≠ Some INVALID_ISLAND).
Proof.
  revert at_init number stack.
  induction group as [|y next IH]; intros at_init number stack; simpl.
  { split; [done|]. split; [by left|]. by intros y ?%elem_of_nil. }
  destruct (sep y && negb at_init).
  { split; [done|]. split; [by left|]. by intros y' ?%elem_of_nil. }
  set (f0 := element_face buf y).
  destruct (Z.eqb_spec (default 0%Z (number !! f0)) INVALID_ISLAND) as [Hinv|Hinv].
  - assert (number !! f0 = Some INVALID_ISLAND) as Hf0.
    { destruct (number !! f0); simpl in Hinv; [by subst|done]. }
    assert (f0 < length number) as Hlt by (by eapply lookup_lt_Some).
    destruct (IH false (<[f0 := Z.of_nat n]> number) (f0 :: stack)) as (Hmono & Hchg & Hwalk).
    assert ((island_push_group buf n false next (<[f0 := Z.of_nat n]> number)
               (f0 :: stack)).1 !! f0 = Some (Z.of_nat n)) as Hr0.
    { rewrite Hmono; rewrite list_lookup_insert_eq by done; [done|].
      unfold INVALID_ISLAND. intros [= ?]. lia. }
    split; [|split].
    + intros f Hf. assert (f ≠ f0) as Hne by congruence.
      rewrite Hmono; rewrite list_lookup_insert_ne by done; done.
    + intros f. destruct (decide (f = f0)) as [->|Hne].
      * right. split; [done|]. split; [done|]. exists y. split; [by left|done].
      * destruct (Hchg f) as [Hsame|(Hi & Hn & y' & Hy' & Hface)].
        -- left. by rewrite list_lookup_insert_ne in Hsame.
        -- right. rewrite list_lookup_insert_ne in Hi by done.
           split; [done|]. split; [done|]. exists y'. split; [by right|done].
    + intros y' [->|Hy']%elem_of_cons Hlt'.
      * fold f0. rewrite Hr0. unfold INVALID_ISLAND. intros [= ?]. lia.
      * apply Hwalk; [done|]. by rewrite length_insert.
  - destruct (IH false number stack) as (Hmono & Hchg & Hwalk).
    split; [done|]. split.
    + intros f. destruct (Hchg f) as [Hsame|(Hi & Hn & y' & Hy' & Hface)]; [by left|].
      right. split; [done|]. split; [done|]. exists y'. split; [by right|done].
    + intros y' [->|Hy']%elem_of_cons Hlt'; [|by apply Hwalk].
      fold f0. fold f0 in Hlt'.
      assert (number !! f0 ≠ Some INVALID_ISLAND) as Hne.
      { intros Hf0. by rewrite Hf0 in Hinv. }
      by rewrite Hmono.
Qed.

End IslandWalk.

(** The island pass reads of an element only what [island_key] keeps. *)
Section IslandKeys.
Context (buf buf' : list UvElement).
Hypothesis keys : island_key <$> buf' = island_key <$> buf.

Lemma element_separate_key e : element_separate buf' e = element_separate buf e.
Proof.
  unfold element_separate. destruct (buf' !! e) as [x|] eqn:Hx.
  - destruct (fmap_key_lookup island_key buf buf' e x keys Hx) as (x0 & -> & Hk).
    by injection Hk.
  - apply (f_equal length) in keys. rewrite !length_fmap in keys.
    apply lookup_ge_None in Hx. rewrite lookup_ge_None_2; [done|lia].
Qed.

Lemma element_face_key e : element_face buf' e = element_face buf e.
Proof.
  unfold element_face. destruct (buf' !! e) as [x|] eqn:Hx.
  - destruct (fmap_key_lookup island_key buf buf' e x keys Hx) as (x0 & -> & Hk).
    injection Hk as Hl _ _. by rewrite Hl.
  - apply (f_equal length) in keys. rewrite !length_fmap in keys.
    apply lookup_ge_None in Hx. rewrite lookup_ge_None_2; [done|lia].
Qed.

Lemma group_walk_key at_init (group : list nat) :
  group_walk (element_separate buf') at_init group
  = group_walk (element_separate buf) at_init group.
Proof.
  revert at_init. induction group as [|e group IH]; intros at_init; simpl; [done|].
  by rewrite element_separate_key, IH.
Qed.

Lemma chain_groups_key (chain : list nat) :
  chain_groups (element_separate buf') chain = chain_groups (element_separate buf) chain.
Proof. apply chain_groups_ext. intros e _. apply element_separate_key. Qed.

End IslandKeys.

Section IslandStep.
Context {F : Type} `{FloatOps F}.
Context (m : BMesh F) (face_selected uv_selected : bool).
Context (vert : list (list nat)) (buf1 : list UvElement).
Hypothesis mesh_ok : mesh_faces_ok m.
Hypothesis chains1 : emap_chains m face_selected uv_selected vert buf1.

Local Abbreviation inv := (island_inv m face_selected uv_selected buf1).
Local Abbreviation sep1 := (element_separate buf1).

(** What the walk of one corner does to the island numbers: a skipped
    corner changes nothing; another one is the corner of an element [e]
    of the buffer, and the faces of the subgroup [g] of [e] that had no
    island get the island being filled. *)
Lemma island_visit_corner_step n hi st dn efa f pre l rest :
  n < hi → faces m !! efa = Some f → f_loops f = pre ++ l :: rest →
  inv n hi st dn [efa] (eligible_loops uv_selected efa 0 pre) →
  let st' := island_visit_corner vert uv_selected n efa st l in
  (st' = st
   ∧ eligible_loops uv_selected efa 0 (pre ++ [l]) = eligible_loops uv_selected efa 0 pre)
  ∨ (∃ e x1 chain g,
       eligible_loops uv_selected efa 0 (pre ++ [l])
       = eligible_loops uv_selected efa 0 pre ++ [(efa, length pre)]
       ∧ buf1 !! e = Some x1 ∧ ue_l x1 = (efa, length pre)
       ∧ vert !! l_v l = Some chain ∧ g ∈ chain_groups sep1 chain ∧ e ∈ g
       ∧ (∀ f, is_island_number st !! f ≠ Some INVALID_ISLAND →
            is_island_number st' !! f = is_island_number st !! f)
       ∧ (∀ f, is_island_number st' !! f = is_island_number st !! f
               ∨ (is_island_number st !! f = Some INVALID_ISLAND
                  ∧ is_island_number st' !! f = Some (Z.of_nat n)
                  ∧ ∃ y, y ∈ g ∧ element_face buf1 y = f))
       ∧ (∀ y, y ∈ g → element_face buf1 y < length (faces m) →
            is_island_number st' !! element_face buf1 y ≠ Some INVALID_ISLAND)).
Proof.
  intros Hhi Hf Hloops Hinv st'. subst st'. unfold island_visit_corner.
  rewrite eligible_loops_app. simpl.
  destruct (uv_corner_skipped uv_selected l) eqn:Hskip.
  { left. by rewrite app_nil_r. }
  right.
  pose proof Hinv as [Hkey Hcopied Hnodup Hnlen Hnumber Hlive Hvalid Hisland Hrange
                        Hassigned Hmlen Hremap].
  assert (emap_chains m face_selected uv_selected vert (is_buf st)) as Hch.
  { by eapply island_inv_chains. }
  assert (f_loops f !! length pre = Some l) as Hl.
  { by rewrite Hloops, lookup_app_r, Nat.sub_diag. }
  assert (face_eligible face_selected f = true) as Hel.
  { destruct (Hvalid efa) as (f' & Hf' & Hel').
    - apply elem_of_app. right. by left.
    - congruence. }
  destruct (island_find_corner m face_selected uv_selected vert (is_buf st) efa f
              (length pre) l) as (e & x & init & chain & Hchain & Hfind & Hx & Hlx & Hinit);
    [done..|].
  rewrite Hchain. simpl. rewrite Hfind, Hx.
  set (buf' := alter (element_set_island n) e (is_buf st)).
  assert (island_key <$> buf' = island_key <$> buf1) as Hkey'.
  { unfold buf'. rewrite fmap_key_alter; [|done]. apply Hkey. }
  destruct (island_find_walk (is_buf st) efa chain [] chain [] chain e init)
    as (pre' & Hc0 & Hne & Hb & He); [done|by left|done|by left|done|].
  rewrite (group_walk_key buf1 (is_buf st) Hkey) in He.
  assert (group_walk sep1 true init ∈ chain_groups sep1 chain) as Hg.
  { rewrite Hc0. apply group_walk_in_groups; [done|].
    destruct Hb as [?|Hb]; [by left|right].
    destruct init as [|y ?]; [done|].
    by rewrite <-(element_separate_key buf1 (is_buf st) Hkey). }
  pose proof (island_push_group_walk buf' n true init (is_island_number st) (is_stack st))
    as Hwalk.
  destruct (island_push_group buf' n true init (is_island_number st) (is_stack st))
    as [island_number' stack'] eqn:Hpush.
  simpl in Hwalk. destruct Hwalk as (Hkeep & Hnew & Hall).
  rewrite (group_walk_key buf1 buf' Hkey') in Hnew, Hall.
  destruct (fmap_key_lookup island_key buf1 (is_buf st) e x Hkey Hx) as (x1 & Hx1 & Hk1).
  exists e, x1, chain, (group_walk sep1 true init).
  split; [done|]. split; [done|]. split.
  { injection Hk1 as Hl1 _ _. by rewrite Hl1. }
  split; [done|]. split; [done|]. split; [done|].
  cbn [is_island_number]. split; [done|]. split.
  - intros g. destruct (Hnew g) as [?|(? & ? & y & Hy & Hface)]; [by left|right].
    split; [done|]. split; [done|]. exists y. split; [done|].
    by rewrite <-(element_face_key buf1 buf' Hkey').
  - intros y Hy Hlt. rewrite <-(element_face_key buf1 buf' Hkey').
    apply Hall; [done|]. by rewrite (element_face_key buf1 buf' Hkey'), Hnlen.
Qed.

End IslandStep.

(** A property [Q] of the island numbers, of the faces walked and of the
    corners copied of the face being walked, carried through the island
    pass next to [island_inv]. *)
Section IslandCarry.
Context {F : Type} `{FloatOps F}.
Context (m : BMesh F) (face_selected uv_selected : bool).
Context (vert : list (list nat)) (buf1 : list UvElement).
Hypothesis mesh_ok : mesh_faces_ok m.
Hypothesis chains1 : emap_chains m face_selected uv_selected vert buf1.
Hypothesis fresh : ∀ e x, buf1 !! e = Some x → ue_island x = INVALID_ISLAND.

Local Abbreviation inv := (island_inv m face_selected uv_selected buf1).

Context (Q : list Z → list nat → list (nat * nat) → Prop).
Hypothesis Q_init : Q (replicate (length (faces m)) INVALID_ISLAND) [] [].
Hypothesis Q_visit : ∀ n hi st dn efa f pre l rest,
  n < hi → faces m !! efa = Some f → f_loops f = pre ++ l :: rest →
  inv n hi st dn [efa] (eligible_loops uv_selected efa 0 pre) →
  Q (is_island_number st) dn (eligible_loops uv_selected efa 0 pre) →
  Q (is_island_number (island_visit_corner vert uv_selected n efa st l)) dn
    (eligible_loops uv_selected efa 0 (pre ++ [l])).
Hypothesis Q_done : ∀ n hi st dn efa,
  inv n hi st dn [efa] (face_corners m uv_selected efa) →
  Q (is_island_number st) dn (face_corners m uv_selected efa) →
  Q (is_island_number st) (dn ++ [efa]) [].
Hypothesis Q_seed : ∀ k st dn i x,
  is_stack st = [] → inv k k st dn [] [] →
  is_buf st !! i = Some x → ue_island x = INVALID_ISLAND →
  Q (is_island_number st) dn [] →
  Q (<[(ue_l x).1 := Z.of_nat k]> (is_island_number st)) dn [].

Lemma island_visit_corners_carry n hi efa f pre ls st dn :
  n < hi → faces m !! efa = Some f → f_loops f = pre ++ ls →
  inv n hi st dn [efa] (eligible_loops uv_selected efa 0 pre) →
  Q (is_island_number st) dn (eligible_loops uv_selected efa 0 pre) →
  Q (is_island_number (foldl (island_visit_corner vert uv_selected n efa) st ls)) dn
    (eligible_loops uv_selected efa 0 (pre ++ ls)).
Proof.
  intros Hhi Hf. revert pre st.
  induction ls as [|l rest IH]; intros pre st Hloops Hinv HQ; simpl.
  { by rewrite app_nil_r. }
  replace (pre ++ l :: rest) with ((pre ++ [l]) ++ rest) by (by rewrite <-app_assoc).
  apply IH; [by rewrite <-app_assoc| |].
  - by eapply island_visit_corner_inv.
  - by eapply Q_visit.
Qed.

Lemma island_flood_carry fuel n hi st dn :
  n < hi → length (faces m) < fuel + length dn →
  inv n hi st dn [] [] → Q (is_island_number st) dn [] →
  ∃ dn',
    inv n hi (island_flood fuel m vert uv_selected n st) dn' [] []
    ∧ Q (is_island_number (island_flood fuel m vert uv_selected n st)) dn' []
    ∧ is_stack (island_flood fuel m vert uv_selected n st) = []
    ∧ (∀ f, f ∈ dn → f ∈ dn')
    ∧ (∀ efa stack1, is_stack st = efa :: stack1 → efa ∈ dn').
Proof.
  intros Hhi. revert st dn.
  induction fuel as [|fuel IH]; intros st dn Hfuel Hinv HQ.
  { pose proof (island_inv_done_bound m face_selected uv_selected buf1 n hi st dn [] []
                  Hinv). lia. }
  simpl. destruct (is_stack st) as [|efa stack1] eqn:Hst.
  { exists dn. split; [done|]. split; [done|]. split; [done|]. split; [done|].
    by intros efa stack1 ?. }
  pose proof (island_face_pop m face_selected uv_selected buf1 n hi st dn efa stack1
                Hst Hinv) as Hpop.
  pose proof Hpop as [_ _ _ _ _ _ Hvalid _ _ _ _ _].
  destruct (Hvalid efa) as (f & Hf & Hel).
  { apply elem_of_app. right. by left. }
  assert (face_loops m efa = f_loops f) as Hloops.
  { unfold face_loops. by rewrite Hf. }
  rewrite Hloops.
  pose proof (island_visit_corners_inv m face_selected uv_selected vert buf1 mesh_ok
                chains1 n hi efa f [] (f_loops f) _ dn Hhi Hf eq_refl Hpop) as Hvisit.
  pose proof (island_visit_corners_carry n hi efa f [] (f_loops f) _ dn Hhi Hf eq_refl
                Hpop HQ) as HQvisit.
  simpl in Hvisit, HQvisit.
  assert (eligible_loops uv_selected efa 0 (f_loops f) = face_corners m uv_selected efa)
    as Hfc.
  { unfold face_corners. by rewrite Hloops. }
  rewrite Hfc in Hvisit, HQvisit.
  pose proof (Q_done _ _ _ _ _ Hvisit HQvisit) as HQdone.
  apply island_face_done in Hvisit.
  assert (length (faces m) < fuel + length (dn ++ [efa])) as Hfuel'.
  { rewrite length_app. simpl. lia. }
  destruct (IH _ _ Hfuel' Hvisit HQdone) as (dn' & Hinv' & HQ' & Hst' & Hsub & _).
  exists dn'. split; [done|]. split; [done|]. split; [done|]. split.
  - intros g Hg. apply Hsub, elem_of_app. by left.
  - intros efa' stack' [= <- <-]. apply Hsub, elem_of_app. right. by left.
Qed.

Lemma island_scan_carry i :
  i ≤ length buf1 →
  let acc := foldl (island_scan m vert uv_selected)
               ({| is_buf := buf1;
                   is_island_number := replicate (length (faces m)) INVALID_ISLAND;
                   is_stack := [];
                   is_map := replicate (length buf1) 0;
                   is_islandbuf := [] |}, 0) (seq 0 i) in
  ∃ dn,
    inv acc.2 acc.2 acc.1 dn [] [] ∧ Q (is_island_number acc.1) dn []
    ∧ is_stack acc.1 = []
    ∧ (∀ e x, e < i → is_buf acc.1 !! e = Some x → (ue_l x).1 ∈ dn).
Proof.
  intros Hi acc. subst acc. induction i as [|i IH].
  { exists []. simpl. split; [|split; [done|split; [done|intros; lia]]].
    constructor; simpl; try done.
    - constructor.
    - by rewrite length_replicate.
    - intros f Hf. split; [by intros _ ?%elem_of_nil|]. intros _.
      apply lookup_replicate. split; [done|lia].
    - by intros f ?%elem_of_nil.
    - by intros f ?%elem_of_nil.
    - by intros x ?%elem_of_nil.
    - intros f v [-> _]%lookup_replicate. by left.
    - intros e x Hx Hne. by rewrite (fresh e x Hx) in Hne.
    - by rewrite length_replicate.
    - by intros e x _ ?%elem_of_nil. }
  destruct IH as (dn & Hinv & HQ & Hst & Hbelow); [lia|].
  rewrite seq_S, foldl_app. simpl.
  destruct (foldl (island_scan m vert uv_selected) _ (seq 0 i)) as [st k].
  simpl in *. unfold island_scan.
  assert (length (is_buf st) = length buf1) as Hblen.
  { by eapply island_inv_buf_length. }
  destruct (lookup_lt_is_Some_2 (is_buf st) i) as [x Hx]; [lia|].
  rewrite Hx.
  destruct (Z.eqb_spec (ue_island x) INVALID_ISLAND) as [Hisl|Hisl].
  - pose proof (island_seed_inv m face_selected uv_selected vert buf1 chains1
                  k st dn i x Hst Hinv Hx Hisl) as Hseed.
    pose proof (Q_seed k st dn i x Hst Hinv Hx Hisl HQ) as HQseed.
    assert (k < S k) as Hlt by lia.
    assert (length (faces m) < S (length (faces m)) + length dn) as Hfuel by lia.
    destruct (island_flood_carry _ _ _ _ _ Hlt Hfuel Hseed HQseed)
      as (dn' & Hinv' & HQ' & Hst' & Hsub & Hhead).
    simpl in Hhead. specialize (Hhead _ _ eq_refl).
    exists dn'. simpl. split; [by eapply island_inv_idle|]. split; [done|].
    split; [done|].
    intros e x' He Hx'.
    assert (island_key <$> is_buf (island_flood (S (length (faces m))) m vert uv_selected k
              {| is_buf := alter (element_set_island k) i (is_buf st);
                 is_island_number := <[(ue_l x).1 := Z.of_nat k]> (is_island_number st);
                 is_stack := [(ue_l x).1]; is_map := is_map st;
                 is_islandbuf := is_islandbuf st |})
            = island_key <$> is_buf st) as Hkeys.
    { destruct Hinv' as [-> _ _ _ _ _ _ _ _ _ _ _].
      by destruct Hinv as [-> _ _ _ _ _ _ _ _ _ _ _]. }
    destruct (fmap_key_lookup island_key _ _ e x' Hkeys Hx') as (x0 & Hx0 & Hk).
    assert (ue_l x' = ue_l x0) as -> by (by injection Hk).
    destruct (decide (e = i)) as [->|Hne].
    + by simplify_eq.
    + apply Hsub, (Hbelow e x0); [lia|done].
  - exists dn. simpl. split; [done|]. split; [done|]. split; [done|].
    intros e x' He Hx'. destruct (decide (e = i)) as [->|Hne].
    + rewrite Hx in Hx'. injection Hx' as <-.
      destruct Hinv as [_ _ _ _ _ _ _ _ _ Hassigned _ _].
      specialize (Hassigned i x Hx Hisl). rewrite Hst in Hassigned.
      simpl in Hassigned. by rewrite app_nil_r in Hassigned.
    + apply (Hbelow e x'); [lia|done].
Qed.

End IslandCarry.

Section SameGroup.
Context {F : Type} `{FloatOps F}.
Context (m : BMesh F) (face_selected uv_selected : bool).
Context (vert : list (list nat)) (buf1 : list UvElement).
Hypothesis chains1 : emap_chains m face_selected uv_selected vert buf1.

Local Abbreviation sep1 := (element_separate buf1).

Lemma uv_same_group_sym e e' :
  uv_same_group vert buf1 e e' → uv_same_group vert buf1 e' e.
Proof. intros (a & c & g & ? & ? & ? & ?). by exists a, c, g. Qed.

Lemma group_elem_chain (chain g : list nat) y :
  g ∈ chain_groups sep1 chain → y ∈ g → y ∈ chain.
Proof.
  intros Hg Hy. rewrite <-(chain_groups_concat sep1 chain).
  apply elem_of_concat. by exists g.
Qed.

Lemma group_elem_buf a (chain g : list nat) y :
  vert !! a = Some chain → g ∈ chain_groups sep1 chain → y ∈ g →
  ∃ x, buf1 !! y = Some x ∧ ue_l x ∈ face_corners m uv_selected (ue_l x).1
       ∧ (ue_l x).1 < length (faces m).
Proof.
  intros Hc Hg Hy. pose proof chains1 as (_ & _ & Hin & _).
  destruct (Hin a chain y Hc) as (x & _ & Hx & _); [by eapply group_elem_chain|].
  destruct (emap_corner_valid m face_selected uv_selected vert buf1 y x chains1 Hx)
    as (f & _ & Hf & _ & _ & _ & Hfc).
  exists x. split; [done|]. split; [done|]. by eapply lookup_lt_Some.
Qed.

(** An element is in one subgroup only. *)
Lemma uv_same_group_unique a (chain g : list nat) e e' :
  vert !! a = Some chain → g ∈ chain_groups sep1 chain → e ∈ g →
  uv_same_group vert buf1 e e' → e' ∈ g.
Proof.
  intros Hc Hg He (a' & c' & g' & Hc' & Hg' & He' & He'').
  pose proof chains1 as (_ & Hnd & Hin & _).
  destruct (Hin a chain e Hc) as (x & l & Hx & Hl & Ha); [by eapply group_elem_chain|].
  destruct (Hin a' c' e Hc') as (x' & l' & Hx' & Hl' & Ha');
    [by eapply group_elem_chain|].
  assert (a' = a) as -> by congruence.
  assert (c' = chain) as -> by congruence.
  assert (g' = g) as ->; [|done].
  apply (groups_disjoint (chain_groups sep1 chain) g' g e); [|done..].
  rewrite chain_groups_concat. by eapply Hnd.
Qed.

End SameGroup.

(** ** A subgroup is never split between islands *)
Section IslandClosed.
Context {F : Type} `{FloatOps F}.
Context (m : BMesh F) (face_selected uv_selected : bool).
Context (vert : list (list nat)) (buf1 : list UvElement).
Hypothesis mesh_ok : mesh_faces_ok m.
Hypothesis chains1 : emap_chains m face_selected uv_selected vert buf1.

Local Abbreviation inv := (island_inv m face_selected uv_selected buf1).
Local Abbreviation closed := (island_closed vert buf1).

Lemma island_closed_visit n hi st dn efa f pre l rest :
  n < hi → faces m !! efa = Some f → f_loops f = pre ++ l :: rest →
  inv n hi st dn [efa] (eligible_loops uv_selected efa 0 pre) →
  closed (is_island_number st) dn (eligible_loops uv_selected efa 0 pre) →
  closed (is_island_number (island_visit_corner vert uv_selected n efa st l)) dn
    (eligible_loops uv_selected efa 0 (pre ++ [l])).
Proof.
  intros Hhi Hf Hloops Hinv HG.
  destruct (island_visit_corner_step m face_selected uv_selected vert buf1 mesh_ok chains1
              n hi st dn efa f pre l rest Hhi Hf Hloops Hinv)
    as [[-> ->]|(e0 & x0 & chain & g & -> & Hx0 & Hlx0 & Hchain & Hg & He0
                 & Hkeep & Hnew & Hall)]; [done|].
  pose proof Hinv as [Hkey Hcopied Hnodup Hnlen Hnumber Hlive Hvalid Hisland Hrange
                        Hassigned Hmlen Hremap].
  assert (is_island_number st !! efa = Some (Z.of_nat n)) as Hefa.
  { apply Hlive. apply elem_of_app. left. by left. }
  assert (∀ f', f' ∈ dn ++ [efa] →
            is_island_number st !! f' ≠ Some INVALID_ISLAND) as Hset.
  { intros f' Hf' Hnone. destruct (Hvalid f') as (ff & Hff & _).
    { rewrite !elem_of_app in *. tauto. }
    apply Hnumber in Hnone; [|by eapply lookup_lt_Some].
    apply Hnone. rewrite !elem_of_app in *. tauto. }
  intros e e' x Hx Hwhere Hsame.
  assert ((ue_l x).1 ∈ dn ∨ ue_l x ∈ eligible_loops uv_selected efa 0 pre
          ∨ ue_l x = (efa, length pre)) as [Hd|[Hp|Hlast]].
  { rewrite elem_of_app, list_elem_of_singleton in Hwhere. tauto. }
  - specialize (HG e e' x Hx (or_introl Hd) Hsame).
    assert (is_island_number st !! (ue_l x).1 ≠ Some INVALID_ISLAND) as Hne.
    { apply Hset. apply elem_of_app. by left. }
    rewrite (Hkeep (ue_l x).1 Hne), (Hkeep (element_face buf1 e')); [done|].
    by rewrite HG.
  - specialize (HG e e' x Hx (or_intror Hp) Hsame).
    assert (is_island_number st !! (ue_l x).1 ≠ Some INVALID_ISLAND) as Hne.
    { apply elem_of_eligible_loops in Hp as (i & l' & -> & _). simpl.
      apply Hset. apply elem_of_app. right. by left. }
    rewrite (Hkeep (ue_l x).1 Hne), (Hkeep (element_face buf1 e')); [done|].
    by rewrite HG.
  - assert (e = e0) as ->.
    { eapply emap_corner_unique; [done..|congruence]. }
    assert (x = x0) as -> by congruence.
    rewrite Hlx0. simpl. rewrite (Hkeep efa) by (apply Hset, elem_of_app; right; by left).
    rewrite Hefa.
    assert (e' ∈ g) as He' by (by eapply uv_same_group_unique).
    destruct (group_elem_buf m face_selected uv_selected vert buf1 chains1
                (l_v l) chain g e' Hchain Hg He') as (x' & Hx' & _ & Hlt).
    assert (element_face buf1 e' = (ue_l x').1) as Hface.
    { unfold element_face. by rewrite Hx'. }
    specialize (Hall e' He'). rewrite Hface in *. specialize (Hall Hlt).
    destruct (Hnew (ue_l x').1) as [Hsame'|(_ & ? & _)]; [|done].
    rewrite Hsame' in *.
    assert ((ue_l x').1 ∈ dn ++ [efa] ++ is_stack st) as Hin.
    { destruct (decide ((ue_l x').1 ∈ dn ++ [efa] ++ is_stack st)) as [?|Hnot]; [done|].
      by apply Hnumber in Hnot. }
    apply elem_of_app in Hin as [Hd|Hlive'].
    + rewrite <-Hface, <-Hefa.
      replace efa with (ue_l x0).1 by (by rewrite Hlx0).
      rewrite <-Hface in Hd.
      assert (element_face buf1 e0 = (ue_l x0).1) as Hface0.
      { unfold element_face. by rewrite Hx0. }
      rewrite <-Hface0. rewrite Hface in *.
      rewrite (HG e' e0 x' Hx' (or_introl Hd)); [done|].
      by apply uv_same_group_sym.
    + by apply Hlive.
Qed.

Lemma island_closed_done n hi st dn efa :
  inv n hi st dn [efa] (face_corners m uv_selected efa) →
  closed (is_island_number st) dn (face_corners m uv_selected efa) →
  closed (is_island_number st) (dn ++ [efa]) [].
Proof.
  intros Hinv HG e e' x Hx [Hd|Hp] Hsame; [|by apply elem_of_nil in Hp].
  apply (HG e e' x Hx); [|done].
  apply elem_of_app in Hd as [Hd|Hd]; [by left|right].
  apply list_elem_of_singleton in Hd.
  destruct (emap_corner_valid m face_selected uv_selected vert buf1 e x chains1 Hx)
    as (f & l & _ & _ & _ & _ & Hfc).
  by rewrite Hd in Hfc.
Qed.

Lemma island_closed_seed k st dn i x :
  is_stack st = [] → inv k k st dn [] [] →
  is_buf st !! i = Some x → ue_island x = INVALID_ISLAND →
  closed (is_island_number st) dn [] →
  closed (<[(ue_l x).1 := Z.of_nat k]> (is_island_number st)) dn [].
Proof.
  intros Hst Hinv Hx Hisl HG e e' xe Hxe [Hd|Hp] Hsame; [|by apply elem_of_nil in Hp].
  pose proof (island_seed_inv m face_selected uv_selected vert buf1 chains1
                k st dn i x Hst Hinv Hx Hisl) as [_ _ Hnodup _ _ _ Hvalid _ _ _ _ _].
  simpl in Hnodup, Hvalid.
  pose proof Hinv as [_ _ _ _ Hnumber _ Hvalid0 _ _ _ _ _].
  rewrite Hst in Hnumber. simpl in Hnumber.
  assert ((ue_l x).1 ∉ dn) as Hnew.
  { apply NoDup_app in Hnodup as (_ & Hdis & _). intros Hin. apply (Hdis _ Hin). by left. }
  assert (is_island_number st !! (ue_l x).1 = Some INVALID_ISLAND) as Hnone.
  { destruct (Hvalid (ue_l x).1) as (ff & Hff & _).
    { apply elem_of_app. right. by left. }
    apply Hnumber; [by eapply lookup_lt_Some|]. by rewrite app_nil_r. }
  assert (is_island_number st !! (ue_l xe).1 ≠ Some INVALID_ISLAND) as Hne.
  { intros Hn. destruct (Hvalid0 (ue_l xe).1) as (ff & Hff & _).
    { apply elem_of_app. by left. }
    apply Hnumber in Hn; [|by eapply lookup_lt_Some]. apply Hn. by rewrite app_nil_r. }
  specialize (HG e e' xe Hxe (or_introl Hd) Hsame).
  rewrite !list_lookup_insert_ne; [done|congruence|congruence].
Qed.

End IslandClosed.

Section Linked.
Context (vert : list (list nat)) (buf : list UvElement).

Lemma uv_hop_sym e e' : uv_hop vert buf e e' → uv_hop vert buf e' e.
Proof.
  intros (He & He' & [Hf|(a & c & g & ? & ? & ? & ?)]).
  - split; [done|]. split; [done|]. by left.
  - split; [done|]. split; [done|]. right. by exists a, c, g.
Qed.

Lemma uv_linked_sym e e' : uv_linked vert buf e e' → uv_linked vert buf e' e.
Proof.
  induction 1 as [|e y e' Hhop _ IH]; [apply rtc_refl|].
  eapply rtc_r; [done|]. by apply uv_hop_sym.
Qed.

Lemma uv_linked_face e e' :
  e < length buf → e' < length buf → element_face buf e = element_face buf e' →
  uv_linked vert buf e e'.
Proof. intros He He' Hf. apply rtc_once. split; [done|]. split; [done|]. by left. Qed.

End Linked.

(** ** The faces of an island are connected *)
Section IslandReached.
Context {F : Type} `{FloatOps F}.
Context (m : BMesh F) (face_selected uv_selected : bool).
Context (vert : list (list nat)) (buf1 : list UvElement).
Hypothesis mesh_ok : mesh_faces_ok m.
Hypothesis chains1 : emap_chains m face_selected uv_selected vert buf1.

Local Abbreviation inv := (island_inv m face_selected uv_selected buf1).
Local Abbreviation reached := (island_reached vert buf1).
Local Abbreviation linked := (uv_linked vert buf1).

Lemma island_reached_visit n hi st dn efa f pre l rest :
  n < hi → faces m !! efa = Some f → f_loops f = pre ++ l :: rest →
  inv n hi st dn [efa] (eligible_loops uv_selected efa 0 pre) →
  reached (is_island_number st) dn (eligible_loops uv_selected efa 0 pre) →
  reached (is_island_number (island_visit_corner vert uv_selected n efa st l)) dn
    (eligible_loops uv_selected efa 0 (pre ++ [l])).
Proof.
  intros Hhi Hf Hloops Hinv HR.
  destruct (island_visit_corner_step m face_selected uv_selected vert buf1 mesh_ok chains1
              n hi st dn efa f pre l rest Hhi Hf Hloops Hinv)
    as [[-> ->]|(e0 & x0 & chain & g & -> & Hx0 & Hlx0 & Hchain & Hg & He0
                 & Hkeep & Hnew & Hall)]; [done|].
  pose proof Hinv as [Hkey Hcopied Hnodup Hnlen Hnumber Hlive Hvalid Hisland Hrange
                        Hassigned Hmlen Hremap].
  assert (is_island_number st !! efa = Some (Z.of_nat n)) as Hefa.
  { apply Hlive. apply elem_of_app. left. by left. }
  assert (e0 < length buf1) as Hlt0 by (by eapply lookup_lt_Some).
  assert (element_face buf1 e0 = efa) as Hface0.
  { unfold element_face. by rewrite Hx0, Hlx0. }
  assert (Z.of_nat n ≠ INVALID_ISLAND) as Hn by (unfold INVALID_ISLAND; lia).
  (* every face of the island is connected to the element just copied *)
  assert (∀ f1, is_island_number (island_visit_corner vert uv_selected n efa st l) !! f1
                = Some (Z.of_nat n) →
            ∃ y, y < length buf1 ∧ element_face buf1 y = f1 ∧ linked y e0) as Hanchor.
  { intros f1 Hf1. destruct (Hnew f1) as [Hsame|(_ & _ & y & Hy & Hface)].
    - rewrite Hsame in Hf1.
      destruct (HR f1 efa _ Hf1 Hefa Hn) as (y & y' & Hy & Hy' & Hfy & Hfy' & Hl).
      exists y. split; [done|]. split; [done|].
      eapply rtc_r; [done|]. split; [done|]. split; [done|]. left. congruence.
    - destruct (group_elem_buf m face_selected uv_selected vert buf1 chains1
                  (l_v l) chain g y Hchain Hg Hy) as (xy & Hxy & _).
      exists y. split; [by eapply lookup_lt_Some|]. split; [done|].
      apply rtc_once. split; [by eapply lookup_lt_Some|]. split; [done|].
      right. by exists (l_v l), chain, g. }
  intros f1 f2 v Hf1 Hf2 Hv.
  destruct (decide (v = Z.of_nat n)) as [->|Hne].
  - destruct (Hanchor f1 Hf1) as (y1 & Hy1 & Hfy1 & Hl1).
    destruct (Hanchor f2 Hf2) as (y2 & Hy2 & Hfy2 & Hl2).
    exists y1, y2. repeat (split; [done|]).
    etrans; [done|]. by apply uv_linked_sym.
  - apply (HR f1 f2 v); [| |done].
    + destruct (Hnew f1) as [<-|(_ & ? & _)]; [done|congruence].
    + destruct (Hnew f2) as [<-|(_ & ? & _)]; [done|congruence].
Qed.

Lemma island_reached_seed k st dn i x :
  is_stack st = [] → inv k k st dn [] [] →
  is_buf st !! i = Some x → ue_island x = INVALID_ISLAND →
  reached (is_island_number st) dn [] →
  reached (<[(ue_l x).1 := Z.of_nat k]> (is_island_number st)) dn [].
Proof.
  intros Hst Hinv Hx Hisl HR f1 f2 v Hf1 Hf2 Hv.
  pose proof Hinv as [Hkey _ _ Hnlen _ _ _ _ Hrange _ _ _].
  assert (i < length buf1) as Hi.
  { apply lookup_lt_Some in Hx.
    by rewrite <-(island_inv_buf_length m face_selected uv_selected buf1 _ _ _ _ _ _ Hinv). }
  assert (element_face buf1 i = (ue_l x).1) as Hface.
  { rewrite <-(element_face_key buf1 (is_buf st) Hkey). unfold element_face.
    by rewrite Hx. }
  assert (∀ f', <[(ue_l x).1 := Z.of_nat k]> (is_island_number st) !! f'
                = Some (Z.of_nat k) → f' = (ue_l x).1) as Honly.
  { intros f' Hf'. destruct (decide (f' = (ue_l x).1)) as [?|Hne]; [done|].
    rewrite list_lookup_insert_ne in Hf' by done.
    destruct (Hrange f' _ Hf') as [Hbad|Hbad]; [unfold INVALID_ISLAND in Hbad|]; lia. }
  destruct (decide (v = Z.of_nat k)) as [->|Hne].
  - apply Honly in Hf1 as ->. apply Honly in Hf2 as ->.
    exists i, i. repeat (split; [done|]). apply rtc_refl.
  - apply (HR f1 f2 v); [| |done].
    + destruct (decide (f1 = (ue_l x).1)) as [->|Hne1];
        [|by rewrite list_lookup_insert_ne in Hf1].
      apply list_lookup_insert_Some in Hf1 as [(_ & ? & _)|[? _]]; congruence.
    + destruct (decide (f2 = (ue_l x).1)) as [->|Hne2];
        [|by rewrite list_lookup_insert_ne in Hf2].
      apply list_lookup_insert_Some in Hf2 as [(_ & ? & _)|[? _]]; congruence.
Qed.

End IslandReached.

Section IslandPass.
Context {F : Type} `{FloatOps F}.
Context (m : BMesh F) (face_selected uv_selected : bool).
Context (vert : list (list nat)) (buf1 : list UvElement).
Hypothesis mesh_ok : mesh_faces_ok m.
Hypothesis chains1 : emap_chains m face_selected uv_selected vert buf1.
Hypothesis fresh : ∀ e x, buf1 !! e = Some x → ue_island x = INVALID_ISLAND.

(** The island pass as a whole: the island of a copied element is the
    number of its face, a subgroup carries one number, and faces that
    carry one number are connected. *)
Lemma island_pass_linked :
  let acc := foldl (island_scan m vert uv_selected)
               ({| is_buf := buf1;
                   is_island_number := replicate (length (faces m)) INVALID_ISLAND;
                   is_stack := [];
                   is_map := replicate (length buf1) 0;
                   is_islandbuf := [] |}, 0) (seq 0 (length buf1)) in
  ∃ number : list Z,
    (∀ x, x ∈ is_islandbuf acc.1 → number !! (ue_l x).1 = Some (ue_island x))
    ∧ (∀ e e', e < length buf1 → uv_same_group vert buf1 e e' →
         number !! element_face buf1 e' = number !! element_face buf1 e)
    ∧ (∀ f f' v, number !! f = Some v → number !! f' = Some v → v ≠ INVALID_ISLAND →
         ∃ y y', y < length buf1 ∧ y' < length buf1
                 ∧ element_face buf1 y = f ∧ element_face buf1 y' = f'
                 ∧ uv_linked vert buf1 y y').
Proof.
  intros acc.
  destruct (island_scan_carry m face_selected uv_selected vert buf1 mesh_ok chains1 fresh
              (λ number dn partial,
                 island_closed vert buf1 number dn partial
                 ∧ island_reached vert buf1 number dn partial))
    with (i := length buf1) as (dn & Hinv & [HG HR] & Hst & Hall).
  - split.
    + intros e e' x _ [Hd|Hp]; [by apply elem_of_nil in Hd|by apply elem_of_nil in Hp].
    + intros f f' v [-> _]%lookup_replicate. done.
  - intros n hi st dn efa f pre l rest Hhi Hf Hloops Hinv [HG HR]. split.
    + by eapply island_closed_visit.
    + by eapply island_reached_visit.
  - intros n hi st dn efa Hinv [HG HR]. split; [|done].
    by eapply island_closed_done.
  - intros k st dn i x Hst Hinv Hx Hisl [HG HR]. split.
    + by eapply island_closed_seed.
    + by eapply island_reached_seed.
  - done.
  - fold acc in Hinv, HG, HR, Hst, Hall.
    exists (is_island_number acc.1). split; [|split; [|done]].
    + by destruct Hinv as [_ _ _ _ _ _ _ Hisland _ _ _ _].
    + intros e e' He Hsame.
      destruct (lookup_lt_is_Some_2 buf1 e He) as [x Hx].
      pose proof Hinv as [Hkey _ _ _ _ _ _ _ _ _ _ _].
      assert (element_face buf1 e = (ue_l x).1) as Hface.
      { unfold element_face. by rewrite Hx. }
      rewrite Hface. apply (HG e e' x Hx); [|done]. left.
      assert ((island_key <$> is_buf acc.1) !! e = Some (island_key x)) as Hk.
      { by rewrite Hkey, list_lookup_fmap, Hx. }
      rewrite list_lookup_fmap in Hk.
      destruct (is_buf acc.1 !! e) as [x'|] eqn:Hx'; [|done].
      injection Hk as Hl _ _. rewrite <-Hl. by eapply Hall.
Qed.

End IslandPass.

(** ** The islands of the map that is answered *)
Section IslandRemap.
Context {F : Type} `{FloatOps F}.
Context (m : BMesh F) (face_selected uv_selected : bool).
Context (vert1 : list (list nat)) (buf1 buf2 : list UvElement) (remap : nat → nat).
Hypothesis chains1 : emap_chains m face_selected uv_selected vert1 buf1.
Hypothesis remap_key : ∀ e x1, buf1 !! e = Some x1 →
  ∃ x, buf2 !! remap e = Some x ∧ island_key x = island_key x1.
Hypothesis nodup2 : NoDup (ue_l <$> buf2).
Hypothesis perm2 : ue_l <$> buf2 ≡ₚ ue_l <$> buf1.

Local Abbreviation vert2 := ((λ chain : list nat, remap <$> chain) <$> vert1).

Lemma remap_lt e : e < length buf1 → remap e < length buf2.
Proof.
  intros He. destruct (lookup_lt_is_Some_2 buf1 e He) as [x1 Hx1].
  destruct (remap_key e x1 Hx1) as (x & Hx & _). by eapply lookup_lt_Some.
Qed.

Lemma remap_face e : e < length buf1 → element_face buf2 (remap e) = element_face buf1 e.
Proof.
  intros He. destruct (lookup_lt_is_Some_2 buf1 e He) as [x1 Hx1].
  destruct (remap_key e x1 Hx1) as (x & Hx & Hk). unfold element_face.
  rewrite Hx, Hx1. injection Hk as Hl _ _. by rewrite Hl.
Qed.

Lemma remap_separate e :
  e < length buf1 → element_separate buf2 (remap e) = element_separate buf1 e.
Proof.
  intros He. destruct (lookup_lt_is_Some_2 buf1 e He) as [x1 Hx1].
  destruct (remap_key e x1 Hx1) as (x & Hx & Hk). unfold element_separate.
  rewrite Hx, Hx1. by injection Hk.
Qed.

Lemma remap_onto k x :
  buf2 !! k = Some x → ∃ e x1, buf1 !! e = Some x1 ∧ remap e = k ∧ ue_l x1 = ue_l x.
Proof.
  intros Hx. assert (ue_l x ∈ ue_l <$> buf1) as Hin.
  { rewrite <-perm2. apply list_elem_of_fmap. exists x. split; [done|].
    by eapply list_elem_of_lookup_2. }
  apply list_elem_of_fmap in Hin as (x1 & Hl & (e & Hx1)%list_elem_of_lookup_1).
  destruct (remap_key e x1 Hx1) as (x' & Hx' & Hk).
  exists e, x1. split; [done|]. split; [|done].
  apply (NoDup_lookup (ue_l <$> buf2) _ _ (ue_l x) nodup2).
  - rewrite list_lookup_fmap, Hx'. simpl. injection Hk as Hl' _ _.
    by rewrite Hl', Hl.
  - by rewrite list_lookup_fmap, Hx.
Qed.

Lemma remap_groups a c1 :
  vert1 !! a = Some c1 →
  chain_groups (element_separate buf2) (remap <$> c1)
  = (λ g : list nat, remap <$> g) <$> chain_groups (element_separate buf1) c1.
Proof.
  intros Hc1. rewrite chain_groups_fmap. f_equal.
  apply chain_groups_ext. intros e He. apply remap_separate.
  pose proof chains1 as (_ & _ & Hin & _).
  destruct (Hin a c1 e Hc1 He) as (x & _ & Hx & _). by eapply lookup_lt_Some.
Qed.

Lemma remap_same_group e e' :
  uv_same_group vert1 buf1 e e' → uv_same_group vert2 buf2 (remap e) (remap e').
Proof.
  intros (a & c & g & Hc & Hg & He & He').
  exists a, (remap <$> c), (remap <$> g). split; [by rewrite list_lookup_fmap, Hc|].
  split; [|split; by apply list_elem_of_fmap_2].
  change (flagged ue_separate buf2) with (element_separate buf2).
  rewrite (remap_groups a c Hc). by apply list_elem_of_fmap_2.
Qed.

Lemma remap_same_group_back k k' :
  uv_same_group vert2 buf2 k k' →
  ∃ e e', k = remap e ∧ k' = remap e' ∧ e < length buf1
          ∧ uv_same_group vert1 buf1 e e'.
Proof.
  intros (a & c & g & Hc & Hg & Hk & Hk').
  rewrite list_lookup_fmap in Hc.
  destruct (vert1 !! a) as [c1|] eqn:Hc1; [|done]. injection Hc as <-.
  change (flagged ue_separate buf2) with (element_separate buf2) in Hg.
  rewrite (remap_groups a c1 Hc1) in Hg.
  apply list_elem_of_fmap in Hg as (g1 & -> & Hg1).
  apply list_elem_of_fmap in Hk as (e & -> & He).
  apply list_elem_of_fmap in Hk' as (e' & -> & He').
  exists e, e'. split; [done|]. split; [done|]. split.
  - destruct (group_elem_buf m face_selected uv_selected vert1 buf1 chains1
                a c1 g1 e Hc1 Hg1 He) as (x & Hx & _). by eapply lookup_lt_Some.
  - by exists a, c1, g1.
Qed.

Lemma remap_linked e e' :
  e < length buf1 → uv_linked vert1 buf1 e e' →
  uv_linked vert2 buf2 (remap e) (remap e').
Proof.
  intros He Hl. induction Hl as [|e y e' (_ & Hy & Hhop) _ IH]; [apply rtc_refl|].
  eapply rtc_l; [|by apply IH].
  split; [by apply remap_lt|]. split; [by apply remap_lt|].
  destruct Hhop as [Hf|Hg].
  - left. by rewrite !remap_face.
  - right. by apply remap_same_group.
Qed.

End IslandRemap.

Section ElementMapIslands.
Context {F : Type} `{FloatOps F}.
Context (m : BMesh F) (face_selected uv_selected use_winding : bool).
Context (tf_uv_stale : nat → nat → list F) (emap : UvElementMap).
Hypothesis mesh_ok : mesh_faces_ok m.
Hypothesis created :
  BM_uv_element_map_create m face_selected uv_selected use_winding true tf_uv_stale
  = Some emap.

(** The map with islands, read through the chains and the buffer the merge
    pass left and the island numbers of the faces. *)
Lemma element_map_islands_view :
  ∃ vert1 buf1 (remap : nat → nat) (number : list Z),
    emap_chains m face_selected uv_selected vert1 buf1
    ∧ em_vert emap = (λ chain : list nat, remap <$> chain) <$> vert1
    ∧ (∀ e x1, buf1 !! e = Some x1 →
         ∃ x, em_buf emap !! remap e = Some x ∧ island_key x = island_key x1)
    ∧ NoDup (ue_l <$> em_buf emap)
    ∧ ue_l <$> em_buf emap ≡ₚ ue_l <$> buf1
    ∧ (∀ x, x ∈ em_buf emap →
         number !! (ue_l x).1 = Some (ue_island x) ∧ (0 ≤ ue_island x)%Z)
    ∧ (∀ e e', e < length buf1 → uv_same_group vert1 buf1 e e' →
         number !! element_face buf1 e' = number !! element_face buf1 e)
    ∧ (∀ f f' v, number !! f = Some v → number !! f' = Some v → v ≠ INVALID_ISLAND →
         ∃ y y', y < length buf1 ∧ y' < length buf1
                 ∧ element_face buf1 y = f ∧ element_face buf1 y' = f'
                 ∧ uv_linked vert1 buf1 y y').
Proof.
  pose proof created as Hmap. unfold BM_uv_element_map_create in Hmap.
  destruct (element_map_totuv face_selected uv_selected (faces m) =? 0) eqn:Htot; [done|].
  pose proof (element_map_merged m face_selected uv_selected use_winding tf_uv_stale)
    as Hm. simpl in Hm.
  destruct (element_map_faces face_selected uv_selected use_winding tf_uv_stale 0
              (faces m) _ _ _) as [[vert0 buf0] winding]. simpl in Hm.
  destruct (uv_sort_verts _ _ _ vert0 buf0) as [vert1 buf1]. simpl in Hm.
  destruct Hm as (Hlv & Hcorners & Hfresh & _ & Hchains).
  assert (element_map_totuv face_selected uv_selected (faces m) = length buf1) as Hlen.
  { by rewrite (element_map_totuv_corners _ _ 0), <-Hcorners, length_fmap. }
  pose proof (island_pass_spec m face_selected uv_selected vert1 buf1 mesh_ok
                (Hchains mesh_ok) Hfresh) as Hpass.
  pose proof (island_pass_linked m face_selected uv_selected vert1 buf1 mesh_ok
                (Hchains mesh_ok) Hfresh) as Hlinked.
  simpl in Hpass, Hlinked. rewrite Hlen in Hmap.
  destruct (foldl (island_scan m vert1 uv_selected) _ _) as [st k].
  injection Hmap as <-. simpl in *.
  destruct Hpass as (Hperm & Hnd & Hrange & _ & Hremap).
  destruct Hlinked as (number & Hnum & HG & HR).
  exists vert1, buf1, (λ e, default 0 (is_map st !! e)), number.
  split; [by apply Hchains|]. split; [done|]. split.
  { intros e x1 Hx1. destruct (Hremap e x1 Hx1) as (k' & x & Hk & Hx & Hkey).
    exists x. by rewrite Hk. }
  split; [done|]. split; [by rewrite Hcorners|]. split; [|done].
  intros x Hx. split; [by apply Hnum|]. by apply Hrange.
Qed.

End ElementMapIslands.

(** X15.  With [do_islands], on a mesh whose faces meet no vertex twice,
    two elements of the map [BM_uv_element_map_create] answers carry the
    same island exactly when a path of hops joins them, a hop going from an
    element to an element of the same face or of the same subgroup of a
    chain: the islands are the connected components of the UV corners. *)
Theorem BM_uv_element_map_create_islands_linked {F : Type} `{FloatOps F} (m : BMesh F)
    face_selected uv_selected use_winding tf_uv_stale emap :
  mesh_faces_ok m →
  BM_uv_element_map_create m face_selected uv_selected use_winding true tf_uv_stale
    = Some emap →
  ∀ e e' x x', em_buf emap !! e = Some x → em_buf emap !! e' = Some x' →
    (ue_island x = ue_island x' ↔ uv_linked (em_vert emap) (em_buf emap) e e').
Proof.
  intros Hok Hmap.
  destruct (element_map_islands_view m face_selected uv_selected use_winding tf_uv_stale
              emap Hok Hmap)
    as (vert1 & buf1 & remap & number & Hch & Hvert & Hkey & Hnd & Hperm & Hnum & HG & HR).
  rewrite Hvert.
  assert (∀ k y, em_buf emap !! k = Some y → number !! (ue_l y).1 = Some (ue_island y))
    as Hisl.
  { intros k y Hy. by apply Hnum, (list_elem_of_lookup_2 _ k). }
  intros e e' x x' Hx Hx'. split.
  - intros Heq.
    destruct (remap_onto buf1 (em_buf emap) remap Hkey Hnd Hperm e x Hx)
      as (e1 & x1 & Hx1 & <- & Hl1).
    destruct (remap_onto buf1 (em_buf emap) remap Hkey Hnd Hperm e' x' Hx')
      as (e1' & x1' & Hx1' & <- & Hl1').
    assert (ue_island x ≠ INVALID_ISLAND) as Hne.
    { destruct (Hnum x) as [_ Hpos]; [by eapply list_elem_of_lookup_2|].
      unfold INVALID_ISLAND. lia. }
    destruct (HR (ue_l x).1 (ue_l x').1 (ue_island x)) as (y & y' & Hy & Hy' & Hf & Hf' & Hl).
    { by eapply Hisl. }
    { rewrite Heq. by eapply Hisl. }
    { done. }
    assert (e1 < length buf1) as He1 by (by eapply lookup_lt_Some).
    assert (e1' < length buf1) as He1' by (by eapply lookup_lt_Some).
    apply (remap_linked m face_selected uv_selected vert1 buf1 (em_buf emap) remap Hch Hkey);
      [done|].
    etrans; [apply uv_linked_face; [done|exact Hy|]|].
    { unfold element_face at 1. by rewrite Hx1, Hl1. }
    etrans; [exact Hl|]. apply uv_linked_face; [done..|].
    unfold element_face at 2. by rewrite Hx1', Hl1'.
  - intros Hl. revert x Hx. induction Hl as [e|e y e' (He & Hy & Hhop) _ IH]; intros x Hx.
    { congruence. }
    destruct (lookup_lt_is_Some_2 _ _ Hy) as [xy Hxy].
    rewrite <-(IH Hx' xy Hxy).
    assert (Some (ue_island x) = Some (ue_island xy)) as [= ?]; [|done].
    rewrite <-(Hisl e x Hx), <-(Hisl y xy Hxy).
    destruct Hhop as [Hf|Hg].
    + unfold element_face in Hf. rewrite Hx, Hxy in Hf. by rewrite Hf.
    + destruct (remap_same_group_back m face_selected uv_selected vert1 buf1
                  (em_buf emap) remap Hch Hkey e y Hg)
        as (e1 & y1 & -> & -> & He1 & Hsame).
      assert (y1 < length buf1) as Hy1.
      { destruct Hsame as (a & c & g & Hc & Hg1 & _ & Hy1).
        destruct (group_elem_buf m face_selected uv_selected vert1 buf1 Hch
                    a c g y1 Hc Hg1 Hy1) as (? & ? & _). by eapply lookup_lt_Some. }
      specialize (HG e1 y1 He1 Hsame).
      rewrite <-!(remap_face buf1 (em_buf emap) remap Hkey) in HG by done.
      unfold element_face in HG. rewrite Hx, Hxy in HG. by rewrite HG.
Qed.

(** * UV element map: the subgroups of a chain *)

Section ElementMapGroups.
Context {F : Type} `{FloatOps F}.

(** X16.  In a chain of the map [BM_uv_element_map_create] answers, every
    subgroup ends with the element the merge pass popped as its head and
    consists of that head and of elements that pass the test against it:
    the same UV selection state, UVs less than [STD_UV_CONNECT_LIMIT] apart
    on both axes and, with [use_winding], faces of the same recorded
    winding; no element passes the test against the head of a subgroup
    emitted before its own.  Without the UV selection the recorded winding
    of an eligible face is the sign of the area of its UVs.  (With
    [do_islands] the elements are looked up in the reordered buffer, which
    is shown for meshes whose faces meet no vertex twice.) *)
Theorem BM_uv_element_map_create_groups (m : BMesh F)
    face_selected uv_selected use_winding do_islands tf_uv_stale emap a chain :
  (do_islands = true → mesh_faces_ok m) →
  BM_uv_element_map_create m face_selected uv_selected use_winding do_islands tf_uv_stale
    = Some emap →
  em_vert emap !! a = Some chain →
  greedy_ok (element_map_close m face_selected uv_selected use_winding tf_uv_stale
               (em_buf emap))
            (chain_groups (flagged ue_separate (em_buf emap)) chain)
  ∧ (uv_selected = false → ∀ f,
       element_map_winding m face_selected uv_selected tf_uv_stale f
       = vert_map_winding m face_selected f).
Proof.
  intros Hok Hmap Hchain. split; [by eapply element_map_groups_close|].
  intros -> f. unfold element_map_winding, vert_map_winding.
  destruct (faces m !! f) as [efa|]; [|done].
  destruct (face_eligible face_selected efa); [|done]. f_equal.
  generalize 0. induction (f_loops efa) as [|l ls IH]; intros i; [done|].
  simpl. by rewrite IH.
Qed.

End ElementMapGroups.

(** * The [separate] flags of a chain *)

Section GroupFlags.
Context (sep : nat → bool).

Lemma chain_groups_shape (chain : list nat) i g :
  chain_groups sep chain !! i = Some g →
  ∃ x tl, g = x :: tl ∧ Forall (λ e, sep e = false) tl
          ∧ (i = 0 → ∃ r, chain = x :: r) ∧ (0 < i → sep x = true).
Proof.
  revert i g. induction chain as [|x r IH]; intros i g Hg; [done|].
  destruct r as [|p r].
  { destruct i; [|done]. injection Hg as <-. exists x, [].
    split; [done|]. split; [done|]. split; [by exists []|lia]. }
  rewrite chain_groups_unfold in Hg.
  destruct (chain_groups sep (p :: r)) as [|g0 gs] eqn:Hgr.
  { by apply chain_groups_nil in Hgr. }
  destruct (sep p) eqn:Hp.
  - destruct i as [|i].
    + injection Hg as <-. exists x, []. split; [done|]. split; [done|].
      split; [by eexists|lia].
    + destruct (IH i g Hg) as (x' & tl' & -> & Htl & Hfirst & Hlater).
      exists x', tl'. split; [done|]. split; [done|]. split; [lia|]. intros _.
      destruct i; [|apply Hlater; lia].
      destruct Hfirst as (r' & [= <- _]); done.
  - destruct i as [|i].
    + injection Hg as <-. destruct (IH 0 g0 eq_refl) as (x0 & tl0 & -> & Htl & Hfirst & _).
      destruct Hfirst as (r' & [= <- _]); [done|].
      exists x, (p :: tl0). split; [done|]. split; [by constructor|].
      split; [by eexists|lia].
    + destruct (IH (S i) g Hg) as (x' & tl' & -> & Htl & _ & Hlater).
      exists x', tl'. split; [done|]. split; [done|]. split; [lia|].
      intros _. apply Hlater. lia.
Qed.

(** In a chain whose first element is flagged, every subgroup is a flagged
    element followed by elements that are not. *)
Lemma chain_groups_flags (chain : list nat) g :
  match chain with e :: _ => sep e = true | [] => True end →
  g ∈ chain_groups sep chain →
  ∃ x tl, g = x :: tl ∧ sep x = true ∧ Forall (λ e, sep e = false) tl.
Proof.
  intros Hhead (i & Hg)%list_elem_of_lookup_1.
  destruct (chain_groups_shape chain i g Hg) as (x & tl & -> & Htl & Hfirst & Hlater).
  exists x, tl. split; [done|]. split; [|done].
  destruct i; [|apply Hlater; lia].
  destruct Hfirst as (r & ->); done.
Qed.

End GroupFlags.

Section MergeHeads.
Context {B : Type} (conn : list B → nat → nat → bool).
Context (sep : B → bool) (set_sep : B → B).
Hypothesis sep_set : ∀ b, sep (set_sep b) = true.
Hypothesis conn_set : ∀ buf i v e, conn (alter set_sep i buf) v e = conn buf v e.

(** [newvlist->separate = 1]: the merge pass leaves the first element of
    every chain flagged. *)
Lemma uv_sort_verts_heads vert0 buf0 j :
  chains_ok sep vert0 buf0 →
  let st := uv_sort_verts conn set_sep j vert0 buf0 in
  ∀ a out, a < j → st.1 !! a = Some out →
    match out with e' :: _ => flagged sep st.2 e' = true | [] => True end.
Proof.
  intros Hok. pose proof Hok as (Hnd & Hdis & Hfl).
  induction j as [|j IH]; [intros; lia|].
  pose proof (uv_sort_verts_spec conn sep set_sep sep_set conn_set vert0 buf0 j Hok)
    as Hspec.
  unfold uv_sort_verts in *. rewrite seq_S, foldl_app. simpl.
  destruct (foldl (uv_sort_vert conn set_sep) (vert0, buf0) (seq 0 j)) as [vert buf].
  simpl in *. destruct Hspec as (Hlv & Hlb & Hrest & Hconn & Hbuf & Hdone).
  unfold uv_sort_vert. simpl. rewrite (Hrest j) by lia.
  destruct (vert0 !! j) as [c|] eqn:Hc; simpl.
  - destruct (uv_sort_chain_spec conn sep set_sep sep_set conn_set
                (conn buf0) (length c) buf c [] []) as
      (groups & Hinv & Hperm & Hlen & Hsame); [done| |].
    { split; [done|]. split; [done|]. split; [done|]. split; [done|].
      split; [|split; [|split; [done|]]].
      - rewrite Forall_forall. intros e He.
        destruct (Hfl j c e Hc He) as [Hf Hlt]. split; [|lia].
        unfold flagged. rewrite Hbuf; [done|].
        intros a c' Ha Hc' He'. assert (a = j) by (by eapply Hdis). lia.
      - rewrite app_nil_r. by eapply Hnd.
      - intros g h Hg. by apply elem_of_nil in Hg. }
    destruct (uv_sort_chain conn set_sep (length c) buf c []) as [buf1 out].
    simpl in *. destruct Hinv as (_ & _ & _ & Hhd & _).
    intros a out' Ha Hout'. destruct (decide (a = j)) as [->|Hne].
    + rewrite list_lookup_insert_eq in Hout' by (rewrite Hlv; by eapply lookup_lt_Some).
      by injection Hout' as <-.
    + rewrite list_lookup_insert_ne in Hout' by done.
      assert (a < j) as Ha' by lia.
      specialize (IH a out' Ha' Hout'). destruct out' as [|e' rest]; [done|].
      unfold flagged. rewrite Hsame; [exact IH|].
      intros He'.
      destruct (lookup_lt_is_Some_2 vert0 a) as [ca Hca].
      { rewrite <-Hlv. by eapply lookup_lt_Some. }
      destruct (Hdone a ca Ha' Hca) as (out2 & Hout2 & Hp & _).
      assert (out2 = e' :: rest) as -> by congruence.
      assert (a = j); [|lia].
      eapply Hdis; [exact Hca|exact Hc| |exact He'].
      rewrite <-Hp. by left.
  - rewrite list_insert_ge by (rewrite Hlv; by apply lookup_ge_None).
    intros a out' Ha Hout'. apply (IH a out'); [|done].
    destruct (decide (a = j)) as [->|]; [|lia].
    apply lookup_ge_None in Hc. apply lookup_lt_Some in Hout'. lia.
Qed.

End MergeHeads.

Section MapFlags.
Context {F : Type} `{FloatOps F}.

(** X17.  In a chain of the map [BM_uv_vert_map_create] answers, every
    subgroup is one element with [separate] set followed by elements
    without it: the first element of a chain is always flagged, and a
    walk of the chain meets a flagged element exactly where a subgroup
    starts. *)
Theorem BM_uv_vert_map_create_separate (m : BMesh F) use_select use_winding vmap a g :
  BM_uv_vert_map_create m use_select use_winding = Some vmap →
  g ∈ chain_groups (flagged separate (vmap_buf vmap)) (BM_uv_vert_map_at_index vmap a) →
  ∃ x tl, g = x :: tl ∧ flagged separate (vmap_buf vmap) x = true
          ∧ Forall (λ e, flagged separate (vmap_buf vmap) e = false) tl.
Proof.
  unfold BM_uv_vert_map_create. intros Hmap.
  destruct (vert_map_totuv use_select (faces m) =? 0); [done|].
  pose proof (vert_map_faces_built m use_select use_winding [] (faces m)
                (replicate (length (verts m)) []) [] (replicate (length (faces m)) false))
    as Hbuilt.
  simpl in Hbuilt.
  destruct (vert_map_faces use_select use_winding 0 (faces m) _ _ _)
    as [[vert0 buf0] winding].
  simpl in Hbuilt. destruct Hbuilt as ((Hsep & Hin & Hnd) & Hlen & Hw); [done| | |].
  { split; [by intros e x ?|]. split.
    - intros a' c e [-> _]%lookup_replicate. by intros ?%elem_of_nil.
    - intros a' c [-> _]%lookup_replicate. constructor. }
  { intros _. split; [by rewrite length_replicate|].
    intros f. unfold winding_at. rewrite decide_False by lia.
    destruct (replicate _ _ !! f) eqn:Hf; [|done].
    by apply lookup_replicate in Hf as [-> _]. }
  rewrite length_replicate in Hlen.
  set (conn := vert_map_connected m use_winding winding) in *.
  assert (chains_ok separate vert0 buf0) as Hok.
  { split; [done|]. split.
    - intros a1 a2 c d e Hc Hd Hec Hed.
      destruct (Hin _ _ _ Hc Hec) as (x & l & Hx & Hl & <-).
      destruct (Hin _ _ _ Hd Hed) as (x' & l' & Hx' & Hl' & <-). congruence.
    - intros a' c e Hc He. destruct (Hin _ _ _ Hc He) as (x & _ & Hx & _).
      unfold flagged. rewrite Hx. split; [by eapply Hsep|by eapply lookup_lt_Some]. }
  pose proof (uv_sort_verts_spec conn separate vert_set_separate
                (λ _, eq_refl) (vert_map_connected_set m use_winding winding)
                vert0 buf0 (length (verts m)) Hok) as (Hlv & _).
  pose proof (uv_sort_verts_heads conn separate vert_set_separate
                (λ _, eq_refl) (vert_map_connected_set m use_winding winding)
                vert0 buf0 (length (verts m)) Hok) as Hheads.
  destruct (uv_sort_verts conn vert_set_separate (length (verts m)) vert0 buf0)
    as [vert1 buf1].
  injection Hmap as <-. simpl in *. unfold BM_uv_vert_map_at_index. simpl.
  destruct (vert1 !! a) as [out|] eqn:Hout; simpl; [|by intros ?%elem_of_nil].
  apply chain_groups_flags. apply (Hheads a out); [|done].
  apply lookup_lt_Some in Hout. lia.
Qed.

(** X18.  The same holds in a chain of the map [BM_uv_element_map_create]
    answers, with or without islands: every subgroup is one element with
    [separate] set followed by elements without it.  (With [do_islands]
    this is shown for meshes whose faces meet no vertex twice.) *)
Theorem BM_uv_element_map_create_separate (m : BMesh F)
    face_selected uv_selected use_winding do_islands tf_uv_stale emap a chain g :
  (do_islands = true → mesh_faces_ok m) →
  BM_uv_element_map_create m face_selected uv_selected use_winding do_islands tf_uv_stale
    = Some emap →
  em_vert emap !! a = Some chain →
  g ∈ chain_groups (flagged ue_separate (em_buf emap)) chain →
  ∃ x tl, g = x :: tl ∧ flagged ue_separate (em_buf emap) x = true
          ∧ Forall (λ e, flagged ue_separate (em_buf emap) e = false) tl.
Proof.
  intros Hmesh Hmap Hchain. apply chain_groups_flags. revert Hmap Hchain.
  unfold BM_uv_element_map_create. intros Hmap Hchain.
  destruct (element_map_totuv face_selected uv_selected (faces m) =? 0); [done|].
  pose proof (element_map_merged m face_selected uv_selected use_winding tf_uv_stale)
    as Hm. simpl in Hm.
  pose proof (element_map_faces_built m face_selected uv_selected use_winding tf_uv_stale
                [] (faces m) (replicate (length (verts m)) []) []
                (replicate (length (faces m)) false)) as Hbuilt.
  simpl in Hbuilt.
  destruct (element_map_faces face_selected uv_selected use_winding tf_uv_stale 0
              (faces m) _ _ _) as [[vert0 buf0] winding]. simpl in Hm, Hbuilt.
  destruct Hbuilt as ((Hsep & Hin & Hnd & Hall) & Hlen & _); [done| |done|].
  { split; [by intros e x ?|]. split; [|split].
    - intros a' c e [-> _]%lookup_replicate. by intros ?%elem_of_nil.
    - intros a' c [-> _]%lookup_replicate. constructor.
    - by intros _ _ e x l ?. }
  rewrite length_replicate in Hlen.
  set (conn := element_connected m use_winding winding) in *.
  assert (chains_ok ue_separate vert0 buf0) as Hok.
  { split; [done|]. split.
    - intros a1 a2 c d e Hc Hd Hec Hed.
      destruct (Hin _ _ _ Hc Hec) as (x & l & Hx & Hl & <-).
      destruct (Hin _ _ _ Hd Hed) as (x' & l' & Hx' & Hl' & <-). congruence.
    - intros a' c e Hc He. destruct (Hin _ _ _ Hc He) as (x & _ & Hx & _).
      unfold flagged. rewrite Hx. split; [by eapply Hsep|by eapply lookup_lt_Some]. }
  pose proof (uv_sort_verts_spec conn ue_separate element_set_separate
                (λ _, eq_refl) (element_connected_set m use_winding winding)
                vert0 buf0 (length (verts m)) Hok) as (Hlv & _).
  pose proof (uv_sort_verts_heads conn ue_separate element_set_separate
                (λ _, eq_refl) (element_connected_set m use_winding winding)
                vert0 buf0 (length (verts m)) Hok) as Hheads.
  destruct (uv_sort_verts conn element_set_separate (length (verts m)) vert0 buf0)
    as [vert1 buf1]. simpl in *.
  destruct Hm as (_ & Hcorners & Hfresh & Hgroups & Hchains).
  assert (∀ c, vert1 !! a = Some c →
            match c with e :: _ => flagged ue_separate buf1 e = true | [] => True end)
    as Hcore.
  { intros c Hc. apply (Hheads a c); [|done]. apply lookup_lt_Some in Hc. lia. }
  destruct do_islands; [|injection Hmap as <-; simpl in *; by apply Hcore].
  specialize (Hmesh eq_refl).
  pose proof (island_pass_spec m face_selected uv_selected vert1 buf1 Hmesh
                (Hchains Hmesh) Hfresh) as Hpass.
  simpl in Hpass.
  assert (element_map_totuv face_selected uv_selected (faces m) = length buf1) as Hlen1.
  { by rewrite (element_map_totuv_corners _ _ 0), <-Hcorners, length_fmap. }
  rewrite Hlen1 in Hmap.
  destruct (foldl (island_scan m vert1 uv_selected) _ _) as [st k].
  injection Hmap as <-. simpl in *.
  destruct Hpass as (_ & _ & _ & _ & Hremap).
  rewrite list_lookup_fmap in Hchain.
  destruct (vert1 !! a) as [c|] eqn:Hc; [|done]. injection Hchain as <-.
  specialize (Hcore c eq_refl). destruct c as [|e rest]; [done|].
  rewrite fmap_cons.
  destruct (Hgroups a (e :: rest) Hc) as [_ Hine].
  destruct (Hine e) as (x1 & _ & Hx1 & _); [by left|].
  destruct (Hremap e x1 Hx1) as (k' & x & Hk & Hx & [= _ _ Hs]).
  unfold flagged in *. rewrite Hk. simpl. rewrite Hx. by rewrite Hx1 in Hcore; rewrite Hs.
Qed.

End MapFlags.

(** ** Concrete runs of the further properties *)

Lemma EDBM_verts_mirror_cache_begin_get_witness :
  mirror_cache_skipped (bm em_pair_x) true true 0 = false
  ∧ EDBM_verts_mirror_get em_cached_x 0 = Some 1
  ∧ 1 < length (verts (bm em_pair_x))
  ∧ (true = true → vert_flag (bm em_pair_x) 1 BM_ELEM_HIDDEN = 0%Z)
  ∧ (false = false → 1 ≠ 0)
  ∧ (mirror_cache_found (bm em_pair_x) 0 false true true false q_maxdist_mirr [] 0 = Some 1
     ∨ (mirror_cache_found (bm em_pair_x) 0 false true true false q_maxdist_mirr [] 1
          = Some 0
        ∧ mirror_cache_skipped (bm em_pair_x) true true 1 = false)).
Proof.
  assert (mirror_cache_skipped (bm em_pair_x) true true 0 = false) as Hs by reflexivity.
  assert (EDBM_verts_mirror_get em_cached_x 0 = Some 1) as Hget by (vm_compute; reflexivity).
  split; [exact Hs|]. split; [exact Hget|].
  exact (EDBM_verts_mirror_cache_begin_get em_pair_x 0 false true true false
           q_maxdist_mirr [] 0 1 Hs Hget).
Defined.

Lemma q_at_index_ok (tot : BMesh Q → Z) : at_index_ok tot (q_at_index tot).
Proof.
  intros m i Hi. unfold q_at_index.
  destruct (Z.leb_spec 0 i); [|lia]. destruct (Z.ltb_spec i (tot m)); [|lia]. done.
Defined.

Lemma EDBM_elem_index_any_round_trip_witness :
  at_index_ok totvert (q_at_index totvert) ∧ at_index_ok totedge (q_at_index totedge)
  ∧ at_index_ok totface (q_at_index totface)
  ∧ elem_counts_fit (bm em_pair_x) ∧ elem_in_mesh (bm em_pair_x) (ElemEdge 0)
  ∧ EDBM_elem_to_index_any em_pair_x (ElemEdge 0) = 3%Z
  ∧ EDBM_elem_from_index_any (q_at_index totvert) (q_at_index totedge) (q_at_index totface)
      em_pair_x (EDBM_elem_to_index_any em_pair_x (ElemEdge 0)) = Some (ElemEdge 0).
Proof.
  assert (elem_counts_fit (bm em_pair_x)) as Hfit by (vm_compute; reflexivity).
  assert (elem_in_mesh (bm em_pair_x) (ElemEdge 0)) as Hin by (vm_compute; lia).
  repeat (split; [first [apply q_at_index_ok | assumption | reflexivity]|]).
  exact (EDBM_elem_index_any_round_trip _ _ _ em_pair_x (ElemEdge 0)
           (q_at_index_ok _) (q_at_index_ok _) (q_at_index_ok _) Hfit Hin).
Defined.

Lemma EDBM_elem_from_index_any_range_witness :
  elem_counts_fit (bm em_pair_x)
  ∧ ((totvert (bm em_pair_x) + totedge (bm em_pair_x) + totface (bm em_pair_x) ≤ 4)%Z →
     EDBM_elem_from_index_any (q_at_index totvert) (q_at_index totedge)
       (q_at_index totface) em_pair_x 4 = None)
  ∧ ((0 ≤ 4 < totvert (bm em_pair_x) + totedge (bm em_pair_x) + totface (bm em_pair_x))%Z →
     ∃ ele, EDBM_elem_from_index_any (q_at_index totvert) (q_at_index totedge)
              (q_at_index totface) em_pair_x 4 = Some ele
            ∧ elem_in_mesh (bm em_pair_x) ele
            ∧ EDBM_elem_to_index_any em_pair_x ele = 4%Z).
Proof.
  assert (elem_counts_fit (bm em_pair_x)) as Hfit by (vm_compute; reflexivity).
  split; [exact Hfit|].
  exact (EDBM_elem_from_index_any_range _ _ _ em_pair_x 4
           (q_at_index_ok _) (q_at_index_ok _) (q_at_index_ok _) Hfit).
Defined.

Lemma EDBM_elem_index_any_multi_round_trip_witness :
  elem_counts_fit (bm (q_editmesh_at 1)) ∧ elem_in_mesh (bm (q_editmesh_at 1)) (ElemVert 2)
  ∧ (Z.of_nat (length q_bases) ≤ 2 ^ 31)%Z
  ∧ q_editmesh_from_object 11 = 1 ∧ q_editmesh_from_object 12 = 1
  ∧ EDBM_elem_to_index_any_multi q_editmesh_from_object q_editmesh_at q_bases 1 (ElemVert 2)
    = (2%Z, 1%Z)
  ∧ EDBM_elem_from_index_any_multi (q_at_index totvert) (q_at_index totedge)
      (q_at_index totface) q_editmesh_from_object q_editmesh_at q_bases 1 2
    = (Some (ElemVert 2), Some 11).
Proof.
  assert (elem_counts_fit (bm (q_editmesh_at 1))) as Hfit by (vm_compute; reflexivity).
  assert (elem_in_mesh (bm (q_editmesh_at 1)) (ElemVert 2)) as Hin by (vm_compute; lia).
  assert (Z.of_nat (length q_bases) ≤ 2 ^ 31)%Z as Hlen by (vm_compute; discriminate).
  split; [exact Hfit|]. split; [exact Hin|]. split; [exact Hlen|].
  split; [reflexivity|]. split; [reflexivity|]. split; [reflexivity|].
  destruct (EDBM_elem_index_any_multi_round_trip _ _ _ q_editmesh_from_object
              q_editmesh_at q_bases 1 (ElemVert 2)
              (q_at_index_ok _) (q_at_index_ok _) (q_at_index_ok _) Hfit Hin Hlen)
    as [_ Hback].
  destruct Hback as (n & ob & Hn & Hob & _ & _ & _ & Hfrom); [vm_compute; discriminate|].
  vm_compute in Hn. apply (Nat2Z.inj 1 n) in Hn as <-.
  vm_compute in Hob. injection Hob as <-. exact Hfrom.
Defined.

Lemma BM_uv_element_get_corner_witness :
  mesh_faces_ok uv_fan
  ∧ BM_uv_element_map_create uv_fan false false false true (λ _ _, [])
    = Some (uv_fan_emap true)
  ∧ (∀ efa f i l, faces uv_fan !! efa = Some f → f_loops f !! i = Some l →
       face_eligible false f = true → uv_corner_skipped false l = false →
       ∃ e x, BM_uv_element_get (uv_fan_emap true) efa l = Some e
              ∧ em_buf (uv_fan_emap true) !! e = Some x ∧ ue_l x = (efa, i))
  ∧ BM_uv_element_get (uv_fan_emap true) 1 (q_loop 0 (8 # 100000) 0 true) = Some 6.
Proof.
  assert (mesh_faces_ok uv_fan) as Hok by (unfold mesh_faces_ok; by_compute).
  assert (BM_uv_element_map_create uv_fan false false false true (λ _ _, [])
          = Some (uv_fan_emap true)) as Hmap by (vm_compute; reflexivity).
  split; [exact Hok|]. split; [exact Hmap|]. split; [|vm_compute; reflexivity].
  exact (proj1 (BM_uv_element_get_corner uv_fan false false false true (λ _ _, [])
                  (uv_fan_emap true) Hok Hmap)).
Defined.

Lemma BM_uv_element_map_create_chains_witness :
  mesh_faces_ok uv_fan
  ∧ BM_uv_element_map_create uv_fan false false false true (λ _ _, [])
    = Some (uv_fan_emap true)
  ∧ length (em_vert (uv_fan_emap true)) = length (verts uv_fan)
  ∧ ∀ a c, em_vert (uv_fan_emap true) !! a = Some c →
      NoDup c
      ∧ ∀ e, e ∈ c ↔
          ∃ x l, em_buf (uv_fan_emap true) !! e = Some x
                 ∧ element_loop uv_fan x = Some l ∧ l_v l = a.
Proof.
  assert (mesh_faces_ok uv_fan) as Hok by (unfold mesh_faces_ok; by_compute).
  assert (BM_uv_element_map_create uv_fan false false false true (λ _ _, [])
          = Some (uv_fan_emap true)) as Hmap by (vm_compute; reflexivity).
  split; [exact Hok|]. split; [exact Hmap|].
  exact (BM_uv_element_map_create_chains uv_fan false false false true (λ _ _, [])
           (uv_fan_emap true) Hok Hmap).
Defined.

Lemma BM_uv_element_map_create_counts_witness :
  mesh_faces_ok uv_fan
  ∧ BM_uv_element_map_create uv_fan false false false true (λ _ _, [])
    = Some (uv_fan_emap true)
  ∧ totalUVs (uv_fan_emap true) = 12 ∧ totalIslands (uv_fan_emap true) = 2
  ∧ totalUVs (uv_fan_emap true) = length (em_buf (uv_fan_emap true))
  ∧ 0 < totalIslands (uv_fan_emap true)
  ∧ length (islandIndices (uv_fan_emap true)) = totalIslands (uv_fan_emap true).
Proof.
  assert (mesh_faces_ok uv_fan) as Hok by (unfold mesh_faces_ok; by_compute).
  assert (BM_uv_element_map_create uv_fan false false false true (λ _ _, [])
          = Some (uv_fan_emap true)) as Hmap by (vm_compute; reflexivity).
  destruct (BM_uv_element_map_create_counts uv_fan false false false true (λ _ _, [])
              (uv_fan_emap true) (λ _, Hok) Hmap) as (Hlen & _ & _ & _ & Hisl).
  destruct (Hisl eq_refl) as [Hpos Hidx].
  split; [exact Hok|]. split; [exact Hmap|]. split; [reflexivity|]. split; [reflexivity|].
  split; [exact Hlen|]. split; [exact Hpos|exact Hidx].
Defined.

Lemma BM_uv_vert_map_create_chains_witness :
  mesh_faces_ok uv_fan
  ∧ BM_uv_vert_map_create uv_fan false false = Some (uv_fan_vmap false)
  ∧ vert_key <$> vmap_buf (uv_fan_vmap false) = eligible_corners false false 0 (faces uv_fan)
  ∧ length (vmap_vert (uv_fan_vmap false)) = length (verts uv_fan)
  ∧ BM_uv_vert_map_at_index (uv_fan_vmap false) 0 = [0; 3; 6].
Proof.
  assert (mesh_faces_ok uv_fan) as Hok by (unfold mesh_faces_ok; by_compute).
  assert (BM_uv_vert_map_create uv_fan false false = Some (uv_fan_vmap false)) as Hmap
    by (vm_compute; reflexivity).
  destruct (BM_uv_vert_map_create_chains uv_fan false false (uv_fan_vmap false) Hok Hmap)
    as (Hkeys & _ & _ & Hlen & _).
  split; [exact Hok|]. split; [exact Hmap|]. split; [exact Hkeys|]. split; [exact Hlen|].
  reflexivity.
Defined.

Lemma BM_uv_element_map_create_island_order_witness :
  mesh_faces_ok uv_fan
  ∧ BM_uv_element_map_create uv_fan false false false true (λ _ _, [])
    = Some (uv_fan_emap true)
  ∧ islandIndices (uv_fan_emap true) = [0; 9]
  ∧ ∃ blocks : list (list UvElement),
      em_buf (uv_fan_emap true) = concat blocks
      ∧ length blocks = totalIslands (uv_fan_emap true)
      ∧ ∀ j b, blocks !! j = Some b →
          b ≠ [] ∧ Forall (λ x, ue_island x = Z.of_nat j) b
          ∧ islandIndices (uv_fan_emap true) !! j = Some (length (concat (take j blocks))).
Proof.
  assert (mesh_faces_ok uv_fan) as Hok by (unfold mesh_faces_ok; by_compute).
  assert (BM_uv_element_map_create uv_fan false false false true (λ _ _, [])
          = Some (uv_fan_emap true)) as Hmap by (vm_compute; reflexivity).
  split; [exact Hok|]. split; [exact Hmap|]. split; [vm_compute; reflexivity|].
  exact (BM_uv_element_map_create_island_order uv_fan false false false (λ _ _, [])
           (uv_fan_emap true) Hok Hmap).
Defined.

Lemma BM_uv_element_map_create_islands_linked_witness :
  mesh_faces_ok uv_fan
  ∧ BM_uv_element_map_create uv_fan false false false true (λ _ _, [])
    = Some (uv_fan_emap true)
  ∧ uv_linked (em_vert (uv_fan_emap true)) (em_buf (uv_fan_emap true)) 0 5
  ∧ ¬ uv_linked (em_vert (uv_fan_emap true)) (em_buf (uv_fan_emap true)) 0 9.
Proof.
  assert (mesh_faces_ok uv_fan) as Hok by (unfold mesh_faces_ok; by_compute).
  assert (BM_uv_element_map_create uv_fan false false false true (λ _ _, [])
          = Some (uv_fan_emap true)) as Hmap by (vm_compute; reflexivity).
  split; [exact Hok|]. split; [exact Hmap|].
  pose proof (BM_uv_element_map_create_islands_linked uv_fan false false false (λ _ _, [])
                (uv_fan_emap true) Hok Hmap) as Hl.
  split.
  - destruct (em_buf (uv_fan_emap true) !! 0) as [x|] eqn:Hx; [|vm_compute in Hx; discriminate].
    destruct (em_buf (uv_fan_emap true) !! 5) as [x'|] eqn:Hx'; [|vm_compute in Hx'; discriminate].
    apply (Hl 0 5 x x' Hx Hx').
    vm_compute in Hx, Hx'. injection Hx as <-. injection Hx' as <-. reflexivity.
  - destruct (em_buf (uv_fan_emap true) !! 0) as [x|] eqn:Hx; [|vm_compute in Hx; discriminate].
    destruct (em_buf (uv_fan_emap true) !! 9) as [x'|] eqn:Hx'; [|vm_compute in Hx'; discriminate].
    intros Hlinked. apply (Hl 0 9 x x' Hx Hx') in Hlinked.
    vm_compute in Hx, Hx'. injection Hx as <-. injection Hx' as <-. discriminate Hlinked.
Defined.

Lemma BM_uv_element_map_create_groups_witness :
  mesh_faces_ok uv_fan
  ∧ BM_uv_element_map_create uv_fan false false false true (λ _ _, [])
    = Some (uv_fan_emap true)
  ∧ em_vert (uv_fan_emap true) !! 1 = Some [1; 7; 4]
  ∧ chain_groups (flagged ue_separate (em_buf (uv_fan_emap true))) [1; 7; 4]
    = [[1]; [7; 4]]
  ∧ greedy_ok (element_map_close uv_fan false false false (λ _ _, [])
                 (em_buf (uv_fan_emap true))) [[1]; [7; 4]].
Proof.
  assert (mesh_faces_ok uv_fan) as Hok by (unfold mesh_faces_ok; by_compute).
  assert (BM_uv_element_map_create uv_fan false false false true (λ _ _, [])
          = Some (uv_fan_emap true)) as Hmap by (vm_compute; reflexivity).
  assert (em_vert (uv_fan_emap true) !! 1 = Some [1; 7; 4]) as Hchain
    by (vm_compute; reflexivity).
  assert (chain_groups (flagged ue_separate (em_buf (uv_fan_emap true))) [1; 7; 4]
          = [[1]; [7; 4]]) as Hgroups by (vm_compute; reflexivity).
  split; [exact Hok|]. split; [exact Hmap|]. split; [exact Hchain|].
  split; [exact Hgroups|]. rewrite <-Hgroups.
  exact (proj1 (BM_uv_element_map_create_groups uv_fan false false false true (λ _ _, [])
                  (uv_fan_emap true) 1 [1; 7; 4] (λ _, Hok) Hmap Hchain)).
Defined.

Lemma BM_uv_vert_map_create_separate_witness :
  BM_uv_vert_map_create uv_fan false false = Some (uv_fan_vmap false)
  ∧ chain_groups (flagged separate (vmap_buf (uv_fan_vmap false)))
      (BM_uv_vert_map_at_index (uv_fan_vmap false) 1) = [[1]; [4; 7]]
  ∧ ∃ x tl, [4; 7] = x :: tl ∧ flagged separate (vmap_buf (uv_fan_vmap false)) x = true
            ∧ Forall (λ e, flagged separate (vmap_buf (uv_fan_vmap false)) e = false) tl.
Proof.
  assert (BM_uv_vert_map_create uv_fan false false = Some (uv_fan_vmap false)) as Hmap
    by (vm_compute; reflexivity).
  assert (chain_groups (flagged separate (vmap_buf (uv_fan_vmap false)))
            (BM_uv_vert_map_at_index (uv_fan_vmap false) 1) = [[1]; [4; 7]]) as Hgroups
    by (vm_compute; reflexivity).
  split; [exact Hmap|]. split; [exact Hgroups|].
  apply (BM_uv_vert_map_create_separate uv_fan false false (uv_fan_vmap false) 1 [4; 7] Hmap).
  rewrite Hgroups. right. left.
Defined.

Lemma BM_uv_element_map_create_separate_witness :
  mesh_faces_ok uv_fan
  ∧ BM_uv_element_map_create uv_fan false false false true (λ _ _, [])
    = Some (uv_fan_emap true)
  ∧ em_vert (uv_fan_emap true) !! 1 = Some [1; 7; 4]
  ∧ chain_groups (flagged ue_separate (em_buf (uv_fan_emap true))) [1; 7; 4]
    = [[1]; [7; 4]]
  ∧ ∃ x tl, [7; 4] = x :: tl ∧ flagged ue_separate (em_buf (uv_fan_emap true)) x = true
            ∧ Forall (λ e, flagged ue_separate (em_buf (uv_fan_emap true)) e = false) tl.
Proof.
  assert (mesh_faces_ok uv_fan) as Hok by (unfold mesh_faces_ok; by_compute).
  assert (BM_uv_element_map_create uv_fan false false false true (λ _ _, [])
          = Some (uv_fan_emap true)) as Hmap by (vm_compute; reflexivity).
  assert (em_vert (uv_fan_emap true) !! 1 = Some [1; 7; 4]) as Hchain
    by (vm_compute; reflexivity).
  assert (chain_groups (flagged ue_separate (em_buf (uv_fan_emap true))) [1; 7; 4]
          = [[1]; [7; 4]]) as Hgroups by (vm_compute; reflexivity).
  split; [exact Hok|]. split; [exact Hmap|]. split; [exact Hchain|].
  split; [exact Hgroups|].
  apply (BM_uv_element_map_create_separate uv_fan false false false true (λ _ _, [])
           (uv_fan_emap true) 1 [1; 7; 4] [7; 4] (λ _, Hok) Hmap Hchain).
  rewrite Hgroups. right. left.
Defined.
